(** * QuadTree.js: a shallow embedding of the quadtree engine

    The JavaScript sources keep every [QuadTree] node as a mutable object
    that is reached through references ([_children], [_parent], [_root]).
    The embedding keeps that shape: a heap of node records addressed by
    their allocation index, element references that are the element ids
    handed out by [GenerateID], and methods that thread the heap.

    JavaScript numbers are IEEE 754 binary64 values, and so are the
    numbers of the embedding: the primitive type [float], whose sums,
    differences, products, quotients and comparisons round and compare
    as those of the source do.  A decimal literal stands for the nearest
    double, as it does in JavaScript.  The four children of a node are
    therefore the quarters that the source computes: no two of them hold
    the same point, but rounding can leave a gap between them and the
    far edge of their parent.

    Loops that the source writes with an explicit work list are modelled
    with that work list; recursion through the constructor is bounded by
    a fuel argument, and a call returns when some amount of fuel lets it
    return.  On a tree with a depth limit every call is shown to return;
    without one the depth of the splitting of a node that holds
    coinciding points depends on the doubles at hand, and the theorems
    speak of the calls that return.

    The source file holds two versions of the class.  The second one,
    with the owner index and the work-list loops, is the one modelled at
    top level; the first one, whose methods are recursive and whose
    elements carry a [parent] field, is modelled in the module [Old],
    with a store that holds the nodes and the [parent] fields. *)

From Stdlib Require Import Floats QArith Qminmax ZArith Lia.
From stdpp Require Import base option list gmap sorting.

(** ** Numbers *)

(** Decimal literals denote the nearest double. *)
Set Warnings "-inexact-float".

(** ** JavaScript arrays *)

(** [arr.pop()]: the last entry and the array without it. *)
Definition js_pop {A} (arr : list A) : option (list A * A) :=
  match rev arr with
  | [] => None
  | a :: r => Some (rev r, a)
  end.

(** [arr.indexOf(x)]: first position of [x], or [-1]. *)
Fixpoint js_indexOf (x : nat) (arr : list nat) : Z :=
  match arr with
  | [] => (-1)%Z
  | y :: arr' =>
      if Nat.eqb y x then 0%Z
      else let i := js_indexOf x arr' in
           if (i <? 0)%Z then (-1)%Z else (i + 1)%Z
  end.

(** [arr.splice(start, 1)]: a negative [start] counts from the end, and a
    start past the end removes nothing. *)
Definition js_splice1 {A} (start : Z) (arr : list A) : list A :=
  let len := Z.of_nat (length arr) in
  let s := if (start <? 0)%Z then Z.max (len + start) 0 else Z.min start len in
  delete (Z.to_nat s) arr.

(** ** Tree elements *)

(** An element reference is the element's [id]: [GenerateID] hands out a
    fresh number to every element object, once. *)
Abbreviation ElemRef := nat.

(** The classes that extend [AbstractTreeElement], with their geometry;
    the opaque [data] payload is left out. *)
Inductive TreeElement :=
| AbstractTreeElement
| PointTreeElement (x y : float)
| CircleTreeElement (x y r : float)
| RectTreeElement (x y w h : float).

(** The element objects as the caller holds them at the time of a call:
    geometry is mutable, so every method reads it through the store. *)
Definition Elements := ElemRef -> TreeElement.

Definition IsInsideRect (e : TreeElement) (x y width height : float) : bool :=
  (match e with
  | AbstractTreeElement => false
  | PointTreeElement ex ey =>
      (x <=? ex) && (y <=? ey) &&
      (ex <? x + width) && (ey <? y + height)
  | CircleTreeElement ex ey er =>
      let closestX :=
        if ex <? x then x
        else if x + width <? ex then x + width else ex in
      let closestY :=
        if ey <? y then y
        else if y + height <? ey then y + height else ey in
      let distX := ex - closestX in
      let distY := ey - closestY in
      let sqDistance := distX * distX + distY * distY in
      sqDistance <=? er * er
  | RectTreeElement ex ey ew eh =>
      (ex <? x + width) && (x <? ex + ew) &&
      (ey <? y + height) && (y <? ey + eh)
  end)%float.

(** ** Nodes and the heap *)

Abbreviation addr := nat.

Record QuadTree := mkQuadTree {
  _x : float;
  _y : float;
  _width : float;
  _height : float;
  _maxElements : Z;
  _elements : list ElemRef;
  (** [null] on every node but a root *)
  _elementsParents : option (gmap nat (list addr));
  _children : list addr;
  _root : option addr;
  _depth : Z;
  _parent : option addr;
  _maxDepth : Z
}.

Abbreviation Heap := (list QuadTree).

Definition set_elements (els : list ElemRef) (t : QuadTree) : QuadTree :=
  mkQuadTree (_x t) (_y t) (_width t) (_height t) (_maxElements t)
    els (_elementsParents t) (_children t) (_root t) (_depth t)
    (_parent t) (_maxDepth t).

Definition set_elementsParents (ep : option (gmap nat (list addr)))
    (t : QuadTree) : QuadTree :=
  mkQuadTree (_x t) (_y t) (_width t) (_height t) (_maxElements t)
    (_elements t) ep (_children t) (_root t) (_depth t)
    (_parent t) (_maxDepth t).

Definition set_children (cs : list addr) (t : QuadTree) : QuadTree :=
  mkQuadTree (_x t) (_y t) (_width t) (_height t) (_maxElements t)
    (_elements t) (_elementsParents t) cs (_root t) (_depth t)
    (_parent t) (_maxDepth t).

Definition set_root_depth (r : option addr) (d : Z) (t : QuadTree) : QuadTree :=
  mkQuadTree (_x t) (_y t) (_width t) (_height t) (_maxElements t)
    (_elements t) (_elementsParents t) (_children t) r d
    (_parent t) (_maxDepth t).

(** In-place update of the object at [a]; a dangling address is an error. *)
Definition modify (a : addr) (f : QuadTree -> QuadTree) (h : Heap) : option Heap :=
  t ← h !! a; Some (<[a := f t]> h).

Definition IsPointInBounds (t : QuadTree) (x y : float) : bool :=
  ((_x t <=? x) && (_y t <=? y) &&
   (x <? _x t + _width t) && (y <? _y t + _height t))%float.

Definition IsRectInBounds (t : QuadTree) (x y width height : float) : bool :=
  ((_x t <? x + width) && (x <? _x t + _width t) &&
   (_y t <? y + height) && (y <? _y t + _height t))%float.

Definition IsSplit (t : QuadTree) : bool :=
  (0 <? length (_children t)).

Definition GetElements (t : QuadTree) : list ElemRef := _elements t.

(** ** Loops *)

(** What one turn of a work-list loop does: go on (after pushing nodes on
    the pool) or return from the method. *)
Inductive turn (S R : Type) :=
| Continue (s : S) (pushed : list addr)
| Return (r : R).
Arguments Continue {S R} s pushed.
Arguments Return {S R} r.

(** [const treePool = [ this ]; while (treePool.length > 0) {
      const tree = treePool.pop(); body }] *)
Fixpoint while_pool {S R} (n : nat)
    (body : addr -> S -> option (turn S R))
    (treePool : list addr) (s : S) : option (S + R) :=
  match n with
  | O => None
  | Datatypes.S n =>
      match js_pop treePool with
      | None => Some (inl s)
      | Some (treePool, tree) =>
          r ← body tree s;
          match r with
          | Continue s pushed => while_pool n body (treePool ++ pushed) s
          | Return r => Some (inr r)
          end
      end
  end.

(** [for (let i = 0; i < arr.length; i++) body(arr[i])], where [arr] is an
    array that lives in the heap and is read again at every turn. *)
Fixpoint for_live {A} (n : nat) (arr : Heap -> option (list A))
    (body : A -> Heap -> option Heap) (i : nat) (h : Heap) : option Heap :=
  match n with
  | O => None
  | Datatypes.S n =>
      l ← arr h;
      match l !! i with
      | None => Some h
      | Some a => h ← body a h; for_live n arr body (Datatypes.S i) h
      end
  end.

(** ** The owner index *)

(** [this._root ?? this] *)
Definition rootTree (this : addr) (h : Heap) : option addr :=
  t ← h !! this; Some (default this (_root t)).

(** [rootTree._elementsParents[id]]; [undefined] and a missing key are
    both [None] (the code only ever tests them with [== null] or [??]). *)
Definition owner_entry (r : addr) (id : ElemRef) (h : Heap)
    : option (option (list addr)) :=
  rt ← h !! r; m ← _elementsParents rt; Some (m !! id).

Definition set_owner_entry (r : addr) (id : ElemRef)
    (v : option (list addr)) (h : Heap) : option Heap :=
  rt ← h !! r; m ← _elementsParents rt;
  Some (<[r := set_elementsParents
                 (Some (match v with
                        | Some l => <[id := l]> m
                        | None => delete id m
                        end)) rt]> h).

Definition _GetParentsForElement (this : addr) (element : ElemRef)
    (create : bool) (h : Heap) : option (option (list addr) * Heap) :=
  r ← rootTree this h;
  e ← owner_entry r element h;
  h ← (if create && bool_decide (e = None)
       then set_owner_entry r element (Some []) h
       else Some h);
  e ← owner_entry r element h;
  Some (e, h).

Definition _RemoveParentsForElement (this : addr) (element : ElemRef)
    (h : Heap) : option Heap :=
  r ← rootTree this h;
  set_owner_entry r element None h.

(** [parents?.slice()] *)
Definition GetParentsForElement (this : addr) (element : ElemRef)
    (h : Heap) : option (option (list addr)) :=
  '(parents, _) ← _GetParentsForElement this element false h;
  Some parents.

(** [array.push(v)] on the array held in the owner index under [id]. *)
Definition elParents_push (r : addr) (id : ElemRef) (tree : addr)
    (h : Heap) : option Heap :=
  e ← owner_entry r id h;
  elParents ← e;
  set_owner_entry r id (Some (elParents ++ [tree])) h.

(** ** The constructor and [AddElement] *)

(** The statement [this.AddElement(e);], whose result is dropped. *)
Definition AddElement_stmt
    (AddElement : addr -> ElemRef -> Heap -> option (bool * Heap))
    (this : addr) (e : ElemRef) (h : Heap) : option Heap :=
  '(_, h) ← AddElement this e h; Some h.

(** [new QuadTree(x, y, width, height, maxElements, maxDepth,
    initialElements, parent)].  The object is allocated at the end of the
    heap, then the constructor body runs on it.  [initialElements] is an
    array reference and is read through the heap; [AddElement] is the
    method the body calls. *)
Definition new_QuadTree
    (AddElement : addr -> ElemRef -> Heap -> option (bool * Heap))
    (n : nat) (x y width height : float) (maxElements maxDepth : Z)
    (initialElements : Heap -> option (list ElemRef))
    (parent : option addr) (h : Heap) : option (addr * Heap) :=
  let this := length h in
  let h := h ++ [mkQuadTree x y width height maxElements
                   [] None [] None 0%Z parent maxDepth] in
  match parent with
  | None =>
      h ← modify this (set_elementsParents (Some ∅)) h;
      h ← for_live n initialElements (AddElement_stmt AddElement this) 0 h;
      Some (this, h)
  | Some p =>
      pt ← h !! p;
      h ← modify this
            (set_root_depth (Some (default p (_root pt))) (_depth pt + 1)%Z) h;
      h ← for_live n (fun h => pt ← h !! p; Some (_elements pt))
            (AddElement_stmt AddElement this) 0 h;
      Some (this, h)
  end.

(** The split test of [AddElement], on the node after the push. *)
Definition may_split (t : QuadTree) : bool :=
  ((_maxDepth t <? 0)%Z || (_depth t <? _maxDepth t)%Z) &&
  (_maxElements t <? Z.of_nat (length (_elements t)))%Z.

(** One turn of the loop of [AddElement] on the popped node [tree].
    [elParents] is the array stored in the owner index of [r] under the
    element's id: it is fetched once and stays that same array for the
    whole call, also across the nested calls made by the constructors. *)
Definition AddElement_turn
    (AddElement : addr -> ElemRef -> Heap -> option (bool * Heap))
    (n : nat) (G : Elements) (r : addr) (element : ElemRef)
    (tree : addr) (h : Heap) : option (turn Heap Empty_set) :=
  t ← h !! tree;
  if negb (IsInsideRect (G element) (_x t) (_y t) (_width t) (_height t))
  then Some (Continue h [])
  else
    h ← elParents_push r element tree h;
    h ← modify tree (fun t => set_elements (_elements t ++ [element]) t) h;
    t ← h !! tree;
    if IsSplit t then Some (Continue h (_children t))
    else if may_split t then
      let halfWidth := (_width t / 2)%float in
      let halfHeight := (_height t / 2)%float in
      let noElements := fun _ : Heap => Some [] in
      '(c0, h) ← new_QuadTree AddElement n (_x t) (_y t)
                   halfWidth halfHeight (_maxElements t) (_maxDepth t)
                   noElements (Some tree) h;
      '(c1, h) ← new_QuadTree AddElement n (_x t + halfWidth)%float (_y t)
                   halfWidth halfHeight (_maxElements t) (_maxDepth t)
                   noElements (Some tree) h;
      '(c2, h) ← new_QuadTree AddElement n (_x t) (_y t + halfHeight)%float
                   halfWidth halfHeight (_maxElements t) (_maxDepth t)
                   noElements (Some tree) h;
      '(c3, h) ← new_QuadTree AddElement n (_x t + halfWidth)%float (_y t + halfHeight)%float
                   halfWidth halfHeight (_maxElements t) (_maxDepth t)
                   noElements (Some tree) h;
      h ← modify tree (set_children [c0; c1; c2; c3]) h;
      Some (Continue h [])
    else Some (Continue h []).

Fixpoint AddElement (fuel : nat) (G : Elements) (this : addr)
    (element : ElemRef) (h : Heap) : option (bool * Heap) :=
  match fuel with
  | O => None
  | Datatypes.S fuel =>
      r ← rootTree this h;
      '(elParents, h) ← _GetParentsForElement this element true h;
      elParents ← elParents;
      let initialParentCount := length elParents in
      res ← while_pool fuel
              (AddElement_turn (AddElement fuel G) fuel G r element)
              [this] h;
      match res with
      | inl h =>
          e ← owner_entry r element h;
          elParents ← e;
          Some ((initialParentCount <? length elParents), h)
      | inr _ => None
      end
  end.

(** ** The other methods *)

Definition HasElement (this : addr) (element : ElemRef) (h : Heap)
    : option bool :=
  '(parents, _) ← _GetParentsForElement this element false h;
  Some (match parents with
        | Some parents => (0 <=? js_indexOf this parents)%Z
        | None => false
        end).

(** [while (elParents.length > 0) { const tree = elParents.pop(); ... }]:
    [stack] is the array from its last entry to its first. *)
Fixpoint RemoveElement_loop (r : addr) (element : ElemRef)
    (stack : list addr) (h : Heap) : option Heap :=
  match stack with
  | [] => Some h
  | tree :: stack =>
      h ← set_owner_entry r element (Some (rev stack)) h;
      h ← modify tree
            (fun t => set_elements
                        (js_splice1 (js_indexOf element (_elements t))
                                    (_elements t)) t) h;
      RemoveElement_loop r element stack h
  end.

Definition RemoveElement (this : addr) (element : ElemRef) (h : Heap)
    : option (bool * Heap) :=
  has ← HasElement this element h;
  if negb has then Some (false, h)
  else
    r ← rootTree this h;
    '(elParents, h) ← _GetParentsForElement this element false h;
    elParents ← elParents;
    h ← RemoveElement_loop r element (rev elParents) h;
    h ← _RemoveParentsForElement this element h;
    Some (true, h).

Definition UpdateElement (fuel : nat) (G : Elements) (this : addr)
    (element : ElemRef) (h : Heap) : option (bool * Heap) :=
  '(removed, h) ← RemoveElement this element h;
  if (removed : bool) then AddElement fuel G this element h
  else Some (false, h).

(** One turn of the loop of [GetElementsAt]. *)
Definition GetElementsAt_turn (x y : float) (h : Heap) (tree : addr) (_ : unit)
    : option (turn unit (list ElemRef)) :=
  t ← h !! tree;
  if (length (_elements t) =? 0) || negb (IsPointInBounds t x y)
  then Some (Continue () [])
  else if IsSplit t then Some (Continue () (_children t))
  else Some (Return (GetElements t)).

Definition GetElementsAt (n : nat) (this : addr) (x y : float) (h : Heap)
    : option (list ElemRef) :=
  res ← while_pool n (GetElementsAt_turn x y h) [this] ();
  Some (match res with inl _ => [] | inr els => els end).

(** [elements.filter(el => { if (seenElements[el.id]) return false;
    seenElements[el.id] = true; return true; })] *)
Fixpoint filter_seen (seenElements : gset nat) (elements : list ElemRef)
    : list ElemRef :=
  match elements with
  | [] => []
  | el :: elements =>
      if bool_decide (el ∈ seenElements) then filter_seen seenElements elements
      else el :: filter_seen ({[el]} ∪ seenElements) elements
  end.

Definition GetElementsInRect (n : nat) (this : addr) (x y width height : float)
    (filterDuplicates : bool) (h : Heap) : option (list ElemRef) :=
  res ← while_pool (R := Empty_set) n
          (fun tree (elements : list ElemRef) =>
             t ← h !! tree;
             if (length (_elements t) =? 0)
                || negb (IsRectInBounds t x y width height)
             then Some (Continue elements [])
             else if IsSplit t then Some (Continue elements (_children t))
             else Some (Continue (elements ++ _elements t) []))
          [this] [];
  match res with
  | inl elements =>
      Some (if negb filterDuplicates then elements
            else filter_seen ∅ elements)
  | inr _ => None
  end.

(** [x ?? this._x] and so on: an omitted bound keeps the current one.  The
    new tree is given [this._elements] itself, not a copy. *)
Definition CreateResized (fuel : nat) (G : Elements) (this : addr)
    (x y width height : option float) (h : Heap) : option (addr * Heap) :=
  t ← h !! this;
  new_QuadTree (AddElement fuel G) fuel
    (default (_x t) x) (default (_y t) y)
    (default (_width t) width) (default (_height t) height)
    (_maxElements t) (_maxDepth t)
    (fun h => t ← h !! this; Some (_elements t)) None h.

(** A root built by the caller, [new QuadTree(x, y, width, height,
    maxElements, maxDepth, initialElements)], the array being the
    caller's own. *)
Definition new_root (fuel : nat) (G : Elements) (x y width height : float)
    (maxElements maxDepth : Z) (initialElements : list ElemRef) (h : Heap)
    : option (addr * Heap) :=
  new_QuadTree (AddElement fuel G) fuel x y width height
    maxElements maxDepth (fun _ => Some initialElements) None h.

Arguments modify : simpl never.
Arguments rootTree : simpl never.
Arguments owner_entry : simpl never.
Arguments set_owner_entry : simpl never.
Arguments _GetParentsForElement : simpl never.
Arguments _RemoveParentsForElement : simpl never.
Arguments elParents_push : simpl never.
Arguments new_QuadTree : simpl never.
Arguments AddElement_turn : simpl never.
Arguments GetParentsForElement : simpl never.
Arguments HasElement : simpl never.
Arguments RemoveElement : simpl never.

(** ** The accessors and [GetChildAt] *)

(** [IsRoot() { return this._root == null; }] *)
Definition IsRoot (t : QuadTree) : bool :=
  match _root t with None => true | Some _ => false end.

Definition GetRoot (t : QuadTree) : option addr := _root t.

Definition GetParent (t : QuadTree) : option addr := _parent t.

Definition GetDepth (t : QuadTree) : Z := _depth t.

Definition GetMaxDepth (t : QuadTree) : Z := _maxDepth t.

Definition GetMaxElements (t : QuadTree) : Z := _maxElements t.

Definition GetWidth (t : QuadTree) : float := _width t.

Definition GetHeight (t : QuadTree) : float := _height t.

(** [GetChildren() { return this._children.slice(); }] *)
Definition GetChildren (t : QuadTree) : list addr := _children t.

(** One turn of the loop of [GetChildAt]. *)
Definition GetChildAt_turn (x y : float) (h : Heap) (tree : addr) (_ : unit)
    : option (turn unit addr) :=
  t ← h !! tree;
  if negb (IsPointInBounds t x y) then Some (Continue () [])
  else if IsSplit t then Some (Continue () (_children t))
  else Some (Return tree).

(** [GetChildAt(x, y)]: the node, or [null]. *)
Definition GetChildAt (n : nat) (this : addr) (x y : float) (h : Heap)
    : option (option addr) :=
  res ← while_pool n (GetChildAt_turn x y h) [this] ();
  Some (match res with inl _ => None | inr tree => Some tree end).

(** ** What the demo reads *)

(** The demo page draws a point element with a font size taken from
    [parents[parents.length-1]], where [parents] is
    [_Tree.GetParentsForElement(el)]: the last entry of the array, and
    [undefined] on an empty one. *)
Definition lastParent (parents : list addr) : option addr := last parents.

(** * The first version of the class *)

(** The source file holds two versions of the library.  The first one
    keeps no owner index: every element carries a [parent] field, the
    last node that claimed it, and the methods are recursive.  The
    element classes and their [IsInsideRect] are the same in both. *)
Module Old.

Record QuadTree := mkQuadTree {
  _x : float;
  _y : float;
  _width : float;
  _height : float;
  _maxElements : Z;
  _elements : list ElemRef;
  _children : list addr;
  _root : option addr;
  _depth : Z;
  _parent : option addr;
  _maxDepth : Z
}.

(** The objects a call can change: the nodes, by address, and the
    [parent] field of every element ([null] where the map has no entry). *)
Record Store := mkStore {
  nodes : list QuadTree;
  parent : gmap ElemRef addr
}.

Definition set_elements (els : list ElemRef) (t : QuadTree) : QuadTree :=
  mkQuadTree (_x t) (_y t) (_width t) (_height t) (_maxElements t)
    els (_children t) (_root t) (_depth t) (_parent t) (_maxDepth t).

Definition set_children (cs : list addr) (t : QuadTree) : QuadTree :=
  mkQuadTree (_x t) (_y t) (_width t) (_height t) (_maxElements t)
    (_elements t) cs (_root t) (_depth t) (_parent t) (_maxDepth t).

Definition set_root_depth (r : option addr) (d : Z) (t : QuadTree) : QuadTree :=
  mkQuadTree (_x t) (_y t) (_width t) (_height t) (_maxElements t)
    (_elements t) (_children t) r d (_parent t) (_maxDepth t).

(** In-place update of the node at [a]; a dangling address is an error. *)
Definition modify (a : addr) (f : QuadTree -> QuadTree) (s : Store) : option Store :=
  t ← nodes s !! a; Some (mkStore (<[a := f t]> (nodes s)) (parent s)).

(** [element.parent = tree] *)
Definition set_parent (element : ElemRef) (tree : addr) (s : Store) : Store :=
  mkStore (nodes s) (<[element := tree]> (parent s)).

Definition IsPointInBounds (t : QuadTree) (x y : float) : bool :=
  ((_x t <=? x) && (_y t <=? y) &&
   (x <? _x t + _width t) && (y <? _y t + _height t))%float.

Definition IsRectInBounds (t : QuadTree) (x y width height : float) : bool :=
  ((_x t <? x + width) && (x <? _x t + _width t) &&
   (_y t <? y + height) && (y <? _y t + _height t))%float.

(** [IsRoot() { return this._root != null; }] *)
Definition IsRoot (t : QuadTree) : bool :=
  match _root t with Some _ => true | None => false end.

Definition GetRoot (t : QuadTree) : option addr := _root t.

Definition GetDepth (t : QuadTree) : Z := _depth t.

Definition GetMaxDepth (t : QuadTree) : Z := _maxDepth t.

Definition GetParent (t : QuadTree) : option addr := _parent t.

Definition IsSplit (t : QuadTree) : bool :=
  (0 <? length (_children t)).

Definition GetElements (t : QuadTree) : list ElemRef := _elements t.

(** [for (let i = 0; i < arr.length; i++) body(arr[i])], where [arr] is
    an array that lives in the store and is read again at every turn. *)
Fixpoint for_live {A} (n : nat) (arr : Store -> option (list A))
    (body : A -> Store -> option Store) (i : nat) (s : Store) : option Store :=
  match n with
  | O => None
  | Datatypes.S n =>
      l ← arr s;
      match l !! i with
      | None => Some s
      | Some a => s ← body a s; for_live n arr body (Datatypes.S i) s
      end
  end.

(** The statement [tree.AddElement(e);], whose result is dropped. *)
Definition AddElement_stmt
    (AddElement : addr -> ElemRef -> Store -> option (bool * Store))
    (tree : addr) (e : ElemRef) (s : Store) : option Store :=
  '(_, s) ← AddElement tree e s; Some s.

(** [new QuadTree(x, y, width, height, maxElements, maxDepth,
    initialElements, parent)]: the object is allocated at the end of the
    nodes, then the constructor body runs on it. *)
Definition new_QuadTree
    (AddElement : addr -> ElemRef -> Store -> option (bool * Store))
    (n : nat) (x y width height : float) (maxElements maxDepth : Z)
    (initialElements : Store -> option (list ElemRef))
    (parent_ : option addr) (s : Store) : option (addr * Store) :=
  let this := length (nodes s) in
  let s := mkStore (nodes s ++ [mkQuadTree x y width height maxElements
                                  [] [] None 0%Z parent_ maxDepth])
                   (parent s) in
  match parent_ with
  | None =>
      s ← for_live n initialElements (AddElement_stmt AddElement this) 0 s;
      Some (this, s)
  | Some p =>
      pt ← nodes s !! p;
      s ← modify this
            (set_root_depth (Some (default p (_root pt))) (_depth pt + 1)%Z) s;
      s ← for_live n (fun s => pt ← nodes s !! p; Some (_elements pt))
            (AddElement_stmt AddElement this) 0 s;
      Some (this, s)
  end.

(** The split test of [AddElement], on the node after the push. *)
Definition may_split (t : QuadTree) : bool :=
  ((_maxDepth t <? 0)%Z || (_depth t <? _maxDepth t)%Z) &&
  (_maxElements t <=? Z.of_nat (length (_elements t)))%Z.

Fixpoint AddElement (fuel : nat) (G : Elements) (this : addr)
    (element : ElemRef) (s : Store) : option (bool * Store) :=
  match fuel with
  | O => None
  | Datatypes.S fuel =>
      t ← nodes s !! this;
      if negb (IsInsideRect (G element) (_x t) (_y t) (_width t) (_height t))
      then Some (false, s)
      else
        let s := set_parent element this s in
        s ← modify this (fun t => set_elements (_elements t ++ [element]) t) s;
        t ← nodes s !! this;
        if IsSplit t then
          s ← for_live fuel (fun s => t ← nodes s !! this; Some (_children t))
                (fun c => AddElement_stmt (AddElement fuel G) c element) 0 s;
          Some (true, s)
        else if may_split t then
          let halfWidth := (_width t / 2)%float in
          let halfHeight := (_height t / 2)%float in
          let noElements := fun _ : Store => Some [] in
          '(c0, s) ← new_QuadTree (AddElement fuel G) fuel (_x t) (_y t)
                       halfWidth halfHeight (_maxElements t) (_maxDepth t)
                       noElements (Some this) s;
          '(c1, s) ← new_QuadTree (AddElement fuel G) fuel
                       (_x t + halfWidth)%float (_y t)
                       halfWidth halfHeight (_maxElements t) (_maxDepth t)
                       noElements (Some this) s;
          '(c2, s) ← new_QuadTree (AddElement fuel G) fuel
                       (_x t) (_y t + halfHeight)%float
                       halfWidth halfHeight (_maxElements t) (_maxDepth t)
                       noElements (Some this) s;
          '(c3, s) ← new_QuadTree (AddElement fuel G) fuel
                       (_x t + halfWidth)%float (_y t + halfHeight)%float
                       halfWidth halfHeight (_maxElements t) (_maxDepth t)
                       noElements (Some this) s;
          s ← modify this (set_children [c0; c1; c2; c3]) s;
          Some (true, s)
        else Some (true, s)
  end.

(** [for (...) { const r = f(children[i]); if (r == null) continue;
    return r; }]: the first result that is not [null]. *)
Fixpoint first_found {A} (f : addr -> option (option A)) (children : list addr)
    : option (option A) :=
  match children with
  | [] => Some None
  | c :: children =>
      r ← f c;
      match r with
      | Some a => Some (Some a)
      | None => first_found f children
      end
  end.

Fixpoint GetChildAt (n : nat) (this : addr) (x y : float) (h : list QuadTree)
    : option (option addr) :=
  match n with
  | O => None
  | Datatypes.S n =>
      t ← h !! this;
      if negb (IsPointInBounds t x y) then Some None
      else if IsSplit t then
        r ← first_found (fun c => GetChildAt n c x y h) (_children t);
        Some (Some (default this r))
      else Some (Some this)
  end.

Fixpoint GetElementsAt (n : nat) (this : addr) (x y : float) (h : list QuadTree)
    : option (option (list ElemRef)) :=
  match n with
  | O => None
  | Datatypes.S n =>
      t ← h !! this;
      if negb (IsPointInBounds t x y) then Some None
      else if IsSplit t then
        r ← first_found (fun c => GetElementsAt n c x y h) (_children t);
        Some (Some (default (GetElements t) r))
      else Some (Some (GetElements t))
  end.

(** [for (...) { const r = f(children[i]); if (r == null) continue;
    elements.push(...r); }] *)
Fixpoint collect (f : addr -> option (option (list ElemRef)))
    (children : list addr) (elements : list ElemRef) : option (list ElemRef) :=
  match children with
  | [] => Some elements
  | c :: children =>
      r ← f c;
      collect f children (match r with
                          | Some l => elements ++ l
                          | None => elements
                          end)
  end.

Fixpoint GetElementsInRect (n : nat) (this : addr) (x y width height : float)
    (filterDuplicates : bool) (h : list QuadTree)
    : option (option (list ElemRef)) :=
  match n with
  | O => None
  | Datatypes.S n =>
      t ← h !! this;
      if negb (IsRectInBounds t x y width height) then Some None
      else if IsSplit t then
        elements ← collect (fun c => GetElementsInRect n c x y width height false h)
                      (_children t) [];
        Some (Some (if negb filterDuplicates then elements
                    else filter_seen ∅ elements))
      else Some (Some (GetElements t))
  end.

Definition CreateResized (fuel : nat) (G : Elements) (this : addr)
    (x y width height : option float) (s : Store) : option (addr * Store) :=
  t ← nodes s !! this;
  new_QuadTree (AddElement fuel G) fuel
    (default (_x t) x) (default (_y t) y)
    (default (_width t) width) (default (_height t) height)
    (_maxElements t) (_maxDepth t)
    (fun s => t ← nodes s !! this; Some (_elements t)) None s.

(** A root built by the caller, the array being the caller's own. *)
Definition new_root (fuel : nat) (G : Elements) (x y width height : float)
    (maxElements maxDepth : Z) (initialElements : list ElemRef) (s : Store)
    : option (addr * Store) :=
  new_QuadTree (AddElement fuel G) fuel x y width height
    maxElements maxDepth (fun _ => Some initialElements) None s.

End Old.

Arguments Old.modify : simpl never.
Arguments Old.new_QuadTree : simpl never.

(** ** Scenarios of the specification, run on the model *)

Definition scenario_points : Elements := fun id =>
  match id with
  | 1 => PointTreeElement 10 10
  | 2 => PointTreeElement 20 20
  | 3 => PointTreeElement 30 30
  | 4 => CircleTreeElement 50 50 60
  | 5 => PointTreeElement 70 70
  | _ => AbstractTreeElement
  end.

Definition run_adds (fuel : nat) (G : Elements) (this : addr)
    (els : list ElemRef) (h : Heap) : option Heap :=
  foldl (fun oh e => h ← oh; '(_, h) ← AddElement fuel G this e h; Some h)
        (Some h) els.

Definition scenario_tree (els : list ElemRef) : option Heap :=
  '(_, h) ← new_root 20 scenario_points 0 0 100 100 2 (-1) [] [];
  run_adds 20 scenario_points 0 els h.

(** ** Notions used in the statements *)

(** *** Occurrences and owners *)

(** How often [x] occurs in [l]. *)
Definition count (x : nat) (l : list nat) : nat := count_occ Nat.eq_dec l x.

(** [_elements] of the node at [a]; nothing where there is no node. *)
Definition elements_of (h : list QuadTree) (a : nat) : list nat :=
  from_option _elements [] (h !! a).

(** The nodes the owner index of the root [r] lists for [id]; a missing
    entry lists none. *)
Definition owners (h : list QuadTree) (r id : nat) : list nat :=
  match owner_entry r id h with
  | Some (Some l) => l
  | _ => []
  end.

(** *** Depth still available *)

(** Levels a depth-limited node may still add below itself. *)
Definition headroom (t : QuadTree) : nat := Z.to_nat (_maxDepth t - _depth t).

(** The subtree at [a] is depth-limited and at most [n] levels can still
    come to be on any of its paths: the measure by which [AddElement]
    terminates. *)
Fixpoint grow (n : nat) (h : list QuadTree) (a : nat) : Prop :=
  match n with
  | O => False
  | S n =>
      ∃ t, h !! a = Some t ∧ (0 <= _maxDepth t)%Z ∧
           match _children t with
           | [] => headroom t ≤ n
           | cs => Forall (grow n h) cs
           end
  end.

(** *** What a call may change *)

(** The fields no method assigns after construction. *)
Definition same_static (t t' : QuadTree) : Prop :=
  _x t' = _x t ∧ _y t' = _y t ∧ _width t' = _width t ∧ _height t' = _height t ∧
  _maxElements t' = _maxElements t ∧ _root t' = _root t ∧
  _depth t' = _depth t ∧ _parent t' = _parent t ∧ _maxDepth t' = _maxDepth t.

(** A node at [a] before and after: below [k] only the owner index may
    have changed, and only on [r]. *)
Record node_ev (k r a : nat) (t t' : QuadTree) : Prop := {
  nev_static : same_static t t';
  nev_children : _children t' = _children t ∨ _children t = [];
  nev_frame : a < k → _elements t' = _elements t ∧ _children t' = _children t;
  nev_owner : a ≠ r → _elementsParents t' = _elementsParents t;
  nev_owner_some : is_Some (_elementsParents t) → is_Some (_elementsParents t')
}.

Record base_ev (k r : nat) (h h' : list QuadTree) : Prop := {
  ev_length : length h ≤ length h';
  ev_node : ∀ a t, h !! a = Some t → ∃ t', h' !! a = Some t' ∧ node_ev k r a t t';
  ev_owner : ∀ id l, owner_entry r id h = Some (Some l) →
             ∃ l', owner_entry r id h' = Some (Some (l ++ l'));
  ev_grow : ∀ m b, grow m h b → grow m h' b;
  ev_fresh : ∀ c tc, length h ≤ c → h' !! c = Some tc →
             (0 <= _maxDepth tc)%Z → ∃ m, grow m h' c
}.

(** Pushes on a node's list and on the owner index of [r] go together. *)
Definition count_ok (r : nat) (h h' : list QuadTree) : Prop :=
  ∀ N id,
    count id (elements_of h' N) + count N (owners h r id)
    = count id (elements_of h N) + count N (owners h' r id).

Record evolves (k r : nat) (h h' : list QuadTree) : Prop := {
  ev_base : base_ev k r h h';
  ev_count : count_ok r h h'
}.

(** Every node from [k] on belongs to the tree rooted at [r], which owns
    an index; children come later in the heap than their parent and
    point back to it. *)
Record closed (k r : nat) (h : list QuadTree) : Prop := {
  closed_root : ∃ rt m, h !! r = Some rt ∧ _elementsParents rt = Some m;
  closed_node : ∀ a t, h !! a = Some t → k ≤ a →
      default a (_root t) = r ∧ NoDup (_children t) ∧
      Forall (λ c, a < c ∧ ∃ tc, h !! c = Some tc ∧ _parent tc = Some a)
             (_children t)
}.

(** An update that leaves the shape of the tree alone. *)
Record soft (t t' : QuadTree) : Prop := {
  soft_static : same_static t t';
  soft_children : _children t' = _children t;
  soft_owner_some : is_Some (_elementsParents t) → is_Some (_elementsParents t')
}.

(** Soft changes of every node, for the steps that touch no links. *)
Definition soft_heap (h h1 : list QuadTree) : Prop :=
  length h1 = length h ∧
  ∀ a t, h !! a = Some t → ∃ t', h1 !! a = Some t' ∧ soft t t'.

(** *** Nodes as the constructor makes them *)

(** A child of [p] before the constructor's loop has run. *)
Definition child_node (x y w ht : float) (mE mD : Z) (p : nat) (pt : QuadTree) : QuadTree :=
  mkQuadTree x y w ht mE [] None [] (Some (default p (_root pt)))
    (_depth pt + 1)%Z (Some p) mD.

(** A root before the constructor's loop has run. *)
Definition root_node (x y w ht : float) (mE mD : Z) : QuadTree :=
  mkQuadTree x y w ht mE [] (Some ∅) [] None 0%Z None mD.

(** [element.IsInsideRect(tree._x, tree._y, tree._width, tree._height)] *)
Definition inside (G : Elements) (el : nat) (t : QuadTree) : bool :=
  IsInsideRect (G el) (_x t) (_y t) (_width t) (_height t).

(** The four constructor calls of a split, in the order of the source. *)
Definition split_children add n (tree : nat) (t : QuadTree) (h : list QuadTree)
    : option (list nat * list QuadTree) :=
  let halfWidth := (_width t / 2)%float in
  let halfHeight := (_height t / 2)%float in
  let noElements := fun _ : list QuadTree => Some [] in
  '(c0, h) ← new_QuadTree add n (_x t) (_y t)
               halfWidth halfHeight (_maxElements t) (_maxDepth t)
               noElements (Some tree) h;
  '(c1, h) ← new_QuadTree add n (_x t + halfWidth)%float (_y t)
               halfWidth halfHeight (_maxElements t) (_maxDepth t)
               noElements (Some tree) h;
  '(c2, h) ← new_QuadTree add n (_x t) (_y t + halfHeight)%float
               halfWidth halfHeight (_maxElements t) (_maxDepth t)
               noElements (Some tree) h;
  '(c3, h) ← new_QuadTree add n (_x t + halfWidth)%float (_y t + halfHeight)%float
               halfWidth halfHeight (_maxElements t) (_maxDepth t)
               noElements (Some tree) h;
  Some ([c0; c1; c2; c3], h).

(** The four ways through one turn of the loop of [AddElement]: the
    element misses the node; it is pushed and the node is split already;
    it is pushed and the node stays a leaf; it is pushed and the node
    splits. *)
Inductive turn_case add n G r el tree h : turn (list QuadTree) Empty_set → Prop :=
| turn_outside t :
    h !! tree = Some t → inside G el t = false →
    turn_case add n G r el tree h (Continue h [])
| turn_descend t h1 h2 t2 :
    h !! tree = Some t → inside G el t = true →
    elParents_push r el tree h = Some h1 →
    modify tree (λ t, set_elements (_elements t ++ [el]) t) h1 = Some h2 →
    h2 !! tree = Some t2 → IsSplit t2 = true →
    turn_case add n G r el tree h (Continue h2 (_children t2))
| turn_keep t h1 h2 t2 :
    h !! tree = Some t → inside G el t = true →
    elParents_push r el tree h = Some h1 →
    modify tree (λ t, set_elements (_elements t ++ [el]) t) h1 = Some h2 →
    h2 !! tree = Some t2 → IsSplit t2 = false → may_split t2 = false →
    turn_case add n G r el tree h (Continue h2 [])
| turn_split t h1 h2 t2 cs h3 h4 :
    h !! tree = Some t → inside G el t = true →
    elParents_push r el tree h = Some h1 →
    modify tree (λ t, set_elements (_elements t ++ [el]) t) h1 = Some h2 →
    h2 !! tree = Some t2 → IsSplit t2 = false → may_split t2 = true →
    split_children add n tree t2 h2 = Some (cs, h3) →
    modify tree (set_children cs) h3 = Some h4 →
    turn_case add n G r el tree h (Continue h4 []).

(** What a call of [AddElement] on [this] guarantees. *)
Definition add_post (G : Elements) (k r this el : nat)
    (h : list QuadTree) (b : bool) (h' : list QuadTree) : Prop :=
  evolves k r h h' ∧ closed k r h' ∧
  ∃ t t', h !! this = Some t ∧ h' !! this = Some t' ∧
    b = inside G el t ∧ _elements t' = _elements t ++ (if b then [el] else []).

(** The node [c] as its constructor leaves it, as a child of [p]. *)
Definition built (G : Elements) (h' : list QuadTree) (p : nat) (pt : QuadTree)
    (c : nat) (x y w ht : float) (mE mD : Z) : Prop :=
  ∃ tc, h' !! c = Some tc ∧
    same_static (child_node x y w ht mE mD p pt) tc ∧
    _elements tc = List.filter (λ e, IsInsideRect (G e) x y w ht) (_elements pt) ∧
    ((0 <= mD)%Z → grow (S (headroom tc)) h' c).

(** *** The specification's words for the circle test *)

(** A double other than NaN. *)
Definition is_number (a : float) : Prop := Prim2SF a ≠ S754_nan.

(** The larger and the smaller of two numbers. *)
Definition fmax (a b : float) : float := if (a <? b)%float then b else a.

Definition fmin (a b : float) : float := if (b <? a)%float then b else a.

(** [v] clamped into the span from [lo] to [hi]. *)
Definition clamp (lo hi v : float) : float := fmin (fmax v lo) hi.

(** Squared distance from (cx, cy) to its clamp into the rectangle, as
    the doubles give it: every sum, difference and product is rounded. *)
Definition clamped_sq_distance (cx cy x y width height : float) : float :=
  ((cx - clamp x (x + width) cx) * (cx - clamp x (x + width) cx)
   + (cy - clamp y (y + height) cy) * (cy - clamp y (y + height) cy))%float.

(** The rational number that a finite double stands for. *)
Definition value (f : float) : Q :=
  match Prim2SF f with
  | S754_finite s m e => (inject_Z (cond_Zopp s (Zpos m)) * 2 ^ e)%Q
  | _ => 0%Q
  end.

(** The same clamp and squared distance over the rationals, where
    nothing is rounded. *)
Definition exact_clamp (lo hi v : Q) : Q := Qmax lo (Qmin v hi).

Definition exact_sq_distance (cx cy x y width height : Q) : Q :=
  ((cx - exact_clamp x (x + width) cx) * (cx - exact_clamp x (x + width) cx)
   + (cy - exact_clamp y (y + height) cy) * (cy - exact_clamp y (y + height) cy))%Q.

(** *** Lists of element ids *)

(** [l] with only the first occurrence of every id kept. *)
Fixpoint first_occurrences (l : list nat) : list nat :=
  match l with
  | [] => []
  | x :: l => x :: List.filter (λ y, negb (y =? x)) (first_occurrences l)
  end.

(** The owner index of [r] and the lists of the nodes say the same. *)
Definition agree (r : nat) (h : list QuadTree) : Prop :=
  ∀ N id, count id (elements_of h N) = count N (owners h r id).

(** [l] with every occurrence of [el] removed. *)
Definition without (el : nat) (l : list nat) : list nat :=
  List.filter (λ x, negb (x =? el)) l.

(** *** Reachable trees *)

(** The heaps a caller can reach: one tree, built by [new QuadTree] and
    then changed through the methods of any of its nodes, the caller
    being free to move elements between the calls. *)
Inductive reachable : list QuadTree → Prop :=
| reach_new fuel G x y w ht mE mD els h :
    new_root fuel G x y w ht mE mD els [] = Some (0, h) → reachable h
| reach_AddElement fuel G this el h b h' :
    reachable h → this < length h →
    AddElement fuel G this el h = Some (b, h') → reachable h'
| reach_RemoveElement this el h b h' :
    reachable h → this < length h →
    RemoveElement this el h = Some (b, h') → reachable h'
| reach_UpdateElement fuel G this el h b h' :
    reachable h → this < length h →
    UpdateElement fuel G this el h = Some (b, h') → reachable h'.

(** [GetParentsForElement] found no owner: [null] or an empty array. *)
Definition empty_result (r : option (option (list nat))) : Prop :=
  r = Some None ∨ r = Some (Some []).

(** *** Termination, level by level *)

(** With enough fuel the loop of [AddElement] comes to an end on nodes
    that can grow by at most [n] levels. *)
Definition loop_terminates (G : Elements) (n : nat) : Prop :=
  ∀ k r el pool h l,
    closed k r h → Forall (λ a, k ≤ a ∧ grow n h a) pool →
    owner_entry r el h = Some (Some l) →
    ∃ f h', while_pool f (AddElement_turn (AddElement f G) f G r el) pool h
            = Some (inl h').

(** With enough fuel [AddElement] returns on such a node. *)
Definition add_terminates (G : Elements) (n : nat) : Prop :=
  ∀ k r this el h,
    closed k r h → k ≤ this → grow n h this →
    ∃ f b h', AddElement f G this el h = Some (b, h').


(** Dropping what the seen-set holds, from the first occurrences. *)
Fixpoint drop_seen (seen : gset nat) (l : list nat) : list nat :=
  match l with
  | [] => []
  | x :: l => if bool_decide (x ∈ seen) then drop_seen seen l
              else x :: drop_seen seen l
  end.

(** *** Where a point is kept *)

(** The rectangle of a node. *)
Definition bounds (t : QuadTree) : float * float * float * float :=
  (_x t, _y t, _width t, _height t).

(** Every split node has the four children of the source's split, in
    allocation order, each with the bounds of its quarter as the source
    computes them. *)
Definition quartered (h : list QuadTree) : Prop :=
  ∀ a t, h !! a = Some t → _children t ≠ [] →
    ∃ c0 c1 c2 c3 t0 t1 t2 t3,
      _children t = [c0; c1; c2; c3] ∧ c0 < c1 ∧ c1 < c2 ∧ c2 < c3 ∧
      h !! c0 = Some t0 ∧ h !! c1 = Some t1 ∧
      h !! c2 = Some t2 ∧ h !! c3 = Some t3 ∧
      bounds t0 = (_x t, _y t, _width t / 2, _height t / 2)%float ∧
      bounds t1 = (_x t + _width t / 2, _y t, _width t / 2, _height t / 2)%float ∧
      bounds t2 = (_x t, _y t + _height t / 2, _width t / 2, _height t / 2)%float ∧
      bounds t3 = (_x t + _width t / 2, _y t + _height t / 2,
                   _width t / 2, _height t / 2)%float.

(** One more occurrence is due to a node that waits on a work list. *)
Definition pending (X : list nat) (c : nat) : nat :=
  if bool_decide (c ∈ X) then 1 else 0.

(** The occurrences of [pid] go from a node to each child that [f]
    accepts, the nodes of [X] still waiting for theirs. *)
Definition carried (f : QuadTree → bool) (pid : nat) (X : list nat)
    (h : list QuadTree) : Prop :=
  ∀ a t c tc, h !! a = Some t → c ∈ _children t → h !! c = Some tc →
    f tc = true →
    count pid (_elements tc) + pending X c = count pid (_elements t).

(** [f] only reads the bounds of a node. *)
Definition reads_bounds (f : QuadTree → bool) : Prop :=
  ∀ t t', bounds t' = bounds t → f t' = f t.

(** What [AddElement] with fuel [n] keeps of the two: it may be called on
    any node for another element, and for [pid] itself on a node that no
    list of children names (the root, or a child under construction). *)
Definition point_post (G : Elements) (pid : nat) (n : nat) : Prop :=
  ∀ this el h b h' X,
    AddElement n G this el h = Some (b, h') →
    closed 0 0 h → this < length h → quartered h →
    carried (inside G pid) pid X h → Forall (λ x, x < this) X →
    (el = pid → ∀ a t, h !! a = Some t → this ∉ _children t) →
    quartered h' ∧ carried (inside G pid) pid X h' ∧
    (el ≠ pid → ∀ a, a < length h →
       count pid (elements_of h' a) = count pid (elements_of h a)).


(** What such a history keeps: the root holds the point once, and every
    node hands its occurrences to the child whose bounds hold the point. *)
Definition point_kept (pid : nat) (px py : float) (h : list QuadTree) : Prop :=
  closed 0 0 h ∧ agree 0 h ∧ quartered h ∧
  carried (λ t, IsPointInBounds t px py) pid [] h ∧
  ∀ rt, h !! 0 = Some rt → IsPointInBounds rt px py = true →
        count pid (_elements rt) = 1.

(** [els] is the list of the leaf [leaf], whose bounds hold the point,
    with one occurrence of the element. *)
Definition holding_leaf (h : list QuadTree) (pid : nat) (px py : float)
    (leaf : nat) (els : list nat) : Prop :=
  count pid els = 1 ∧
  ∃ tl, h !! leaf = Some tl ∧ IsSplit tl = false ∧
    IsPointInBounds tl px py = true ∧ els = GetElements tl.

(** What the point queries give for an element kept at (px, py): [r] is
    what [GetChildAt] returns and [l] what [GetElementsAt] returns, the
    list of that leaf or nothing when there is none. *)
Definition point_answer (h : list QuadTree) (pid : nat) (px py : float)
    (l : list nat) (r : option nat) : Prop :=
  match r with
  | Some leaf => holding_leaf h pid px py leaf l
  | None => l = []
  end.

(** Every depth-limited node of a reachable tree can only grow by finitely
    many levels. *)
Definition limited (h : list QuadTree) : Prop :=
  ∀ a t, h !! a = Some t → (0 <= _maxDepth t)%Z → ∃ m, grow m h a.

(** No node holds [pid]. *)
Definition absent (pid : nat) (h : list QuadTree) : Prop :=
  ∀ a t, h !! a = Some t → pid ∉ _elements t.

Definition absent_post (G : Elements) (pid : nat) (n : nat) : Prop :=
  ∀ this el h b h',
    AddElement n G this el h = Some (b, h') →
    closed 0 0 h → this < length h → el ≠ pid →
    absent pid h → absent pid h'.

(** The heaps reached by a caller who only calls the methods of the root. *)
Inductive root_reachable : list QuadTree → Prop :=
| rr_new fuel G x y w ht mE mD els h :
    new_root fuel G x y w ht mE mD els [] = Some (0, h) → root_reachable h
| rr_AddElement fuel G el h b h' :
    root_reachable h →
    AddElement fuel G 0 el h = Some (b, h') → root_reachable h'
| rr_RemoveElement el h b h' :
    root_reachable h →
    RemoveElement 0 el h = Some (b, h') → root_reachable h'
| rr_UpdateElement fuel G el h b h' :
    root_reachable h →
    UpdateElement fuel G 0 el h = Some (b, h') → root_reachable h'.

(** An element that has an owner has the root among its owners. *)
Definition root_first (h : list QuadTree) : Prop :=
  ∀ id, owners h 0 id ≠ [] → 0 ∈ owners h 0 id.
(** ** Concrete trees *)

Definition heap_of (r : option (nat * list QuadTree)) : list QuadTree :=
  match r with Some (_, h) => h | None => [] end.

Definition heap_after (r : option (bool * list QuadTree)) : list QuadTree :=
  match r with Some (_, h) => h | None => [] end.

(** The tree of the specification's scenario: bounds (0,0,100,100), two
    elements per node, no depth limit; then the points 1 and 2 added at
    the root. *)
Definition sc_h0 : list QuadTree :=
  Eval vm_compute in heap_of (new_root 1 scenario_points 0 0 100 100 2 (-1) [] []).

Definition sc_h1 : list QuadTree :=
  Eval vm_compute in heap_after (AddElement 3 scenario_points 0 1 sc_h0).

Definition sc_h2 : list QuadTree :=
  Eval vm_compute in heap_after (AddElement 3 scenario_points 0 2 sc_h1).

(** Point 1 added a second time to the tree that already holds it. *)
Definition sc_dup : list QuadTree :=
  Eval vm_compute in heap_after (AddElement 3 scenario_points 0 1 sc_h1).

(** Points 1 (10,10) and 5 (70,70) in one leaf, and the tree resized to
    (0,0,50,50). *)
Definition sc_h15 : list QuadTree :=
  Eval vm_compute in heap_after (AddElement 3 scenario_points 0 5 sc_h1).


(** A tree of capacity 1 and depth limit 1: the points 1 and 2 added at
    the root split it; point 3 is then added through the top-left child
    (address 1), not through the root. *)
Definition dl_h0 : list QuadTree :=
  Eval vm_compute in heap_of (new_root 1 scenario_points 0 0 100 100 1 1 [] []).

Definition dl_h1 : list QuadTree :=
  Eval vm_compute in heap_after (AddElement 3 scenario_points 0 1 dl_h0).

Definition dl_h2 : list QuadTree :=
  Eval vm_compute in heap_after (AddElement 9 scenario_points 0 2 dl_h1).

Definition dl_h3 : list QuadTree :=
  Eval vm_compute in heap_after (AddElement 9 scenario_points 1 3 dl_h2).

(** A store whose elements all lie outside the scenario's bounds. *)
Definition far_points : Elements := fun _ => PointTreeElement 150 150.

(** The scenario's third point splits the root; point 2 is then removed. *)
Definition sc_h3 : list QuadTree :=
  Eval vm_compute in heap_after (AddElement 9 scenario_points 0 3 sc_h2).

Definition sc_h4 : list QuadTree :=
  Eval vm_compute in heap_after (RemoveElement 0 2 sc_h3).

(** The circle 4 of the scenario overlaps every quarter: added to the
    tree that holds the points 1 and 2, it ends up in several leaves. *)
Definition sc_circle : list QuadTree :=
  Eval vm_compute in heap_after (AddElement 20 scenario_points 0 4 sc_h2).

(** *** Elements of any shape that stay where they are *)

(** A point of the element that makes every rectangle holding it overlap
    the element: the point itself; the centre of a circle whose test
    accepts a distance of zero (its centre is finite and its radius a
    number); the top-left corner of a rectangle whose far edges, as
    computed, lie beyond that corner. *)
Definition anchor (e : TreeElement) : option (float * float) :=
  (match e with
  | AbstractTreeElement => None
  | PointTreeElement x y => Some (x, y)
  | CircleTreeElement x y r =>
      if (x - x) * (x - x) + (y - y) * (y - y) <=? r * r
      then Some (x, y) else None
  | RectTreeElement x y w h =>
      if (x <? x + w) && (y <? y + h) then Some (x, y) else None
  end)%float.

(** [e.IsInsideRect] on the bounds of a node. *)
Definition overlaps (e : TreeElement) (t : QuadTree) : bool :=
  IsInsideRect e (_x t) (_y t) (_width t) (_height t).

(** The histories in which the element [id], of geometry [e], is added
    once, at the root of a tree that does not hold it, and the tree is
    afterwards changed only through other elements, [id] keeping its
    geometry. *)
Inductive kept_once (id : nat) (e : TreeElement) : list QuadTree → Prop :=
| kept_add fuel G h b h' :
    reachable h → owners h 0 id = [] → G id = e →
    AddElement fuel G 0 id h = Some (b, h') → kept_once id e h'
| kept_AddElement fuel G this el h b h' :
    kept_once id e h → el ≠ id → G id = e → this < length h →
    AddElement fuel G this el h = Some (b, h') → kept_once id e h'
| kept_RemoveElement this el h b h' :
    kept_once id e h → el ≠ id → this < length h →
    RemoveElement this el h = Some (b, h') → kept_once id e h'
| kept_UpdateElement fuel G this el h b h' :
    kept_once id e h → el ≠ id → G id = e → this < length h →
    UpdateElement fuel G this el h = Some (b, h') → kept_once id e h'.

(** What such a history keeps: the root holds the element once when it
    overlaps it, and every node hands its occurrences to each child that
    the element overlaps. *)
Definition elem_kept (id : nat) (e : TreeElement) (h : list QuadTree) : Prop :=
  closed 0 0 h ∧ agree 0 h ∧ quartered h ∧
  carried (overlaps e) id [] h ∧
  ∀ rt, h !! 0 = Some rt → overlaps e rt = true → count id (_elements rt) = 1.

(** *** Adding and removing again *)

(** Every node of [h] is still there in [h'], its list longer by some
    occurrences of [el] only. *)
Definition grown_by (el : nat) (h h' : list QuadTree) : Prop :=
  ∀ a t, h !! a = Some t →
    ∃ t' k, h' !! a = Some t' ∧ _elements t' = _elements t ++ replicate k el.

(** The nodes that [GetParentsForElement] returned; [null] names none. *)
Definition listed (r : option (list nat)) : list nat := default [] r.

(** *** Where a node sits *)

(** Every node is as its constructor placed it: a node without parent is
    a root at depth 0; a node with a parent was made by a split of that
    parent, one level deeper, a quarter of its size, with its
    configuration and its root. *)
Definition placed (h : list QuadTree) : Prop :=
  ∀ c tc, h !! c = Some tc →
    match _parent tc with
    | None => _root tc = None ∧ _depth tc = 0%Z
    | Some p =>
        ∃ tp, h !! p = Some tp ∧ p < c ∧
          _root tc = Some (default p (_root tp)) ∧
          _depth tc = (_depth tp + 1)%Z ∧
          _maxElements tc = _maxElements tp ∧ _maxDepth tc = _maxDepth tp ∧
          ((_maxDepth tp < 0)%Z ∨ (_depth tp < _maxDepth tp)%Z) ∧
          _width tc = (_width tp / 2)%float ∧ _height tc = (_height tp / 2)%float
    end.

Definition placed_post (G : Elements) (n : nat) : Prop :=
  ∀ this el h b h',
    AddElement n G this el h = Some (b, h') →
    closed 0 0 h → this < length h → placed h → placed h'.

(** The nodes of [l] all lie off the point (x, y). *)
Definition off_point (h : list QuadTree) (x y : float) (l : list nat) : Prop :=
  Forall (λ c, ∃ tc, h !! c = Some tc ∧ IsPointInBounds tc x y = false) l.


(** From the node [a] both point loops go down to the leaf [leaf]:
    [GetChildAt] returns it whatever else waits on the work list, and
    [GetElementsAt] returns its list unless it meets an empty list on
    the way, which it does not when [sure] holds. *)
Definition reaches (h : list QuadTree) (x y : float) (sure : Prop)
    (a leaf : nat) (tl : QuadTree) (n : nat) : Prop :=
  ∀ m l, n + length l ≤ m →
    while_pool m (GetChildAt_turn x y h) (l ++ [a]) () = Some (inr leaf) ∧
    (off_point h x y l →
       (while_pool m (GetElementsAt_turn x y h) (l ++ [a]) ()
          = Some (inr (GetElements tl)) ∨
        while_pool m (GetElementsAt_turn x y h) (l ++ [a]) () = Some (inl ())) ∧
       (sure →
          while_pool m (GetElementsAt_turn x y h) (l ++ [a]) ()
            = Some (inr (GetElements tl)))).

(** Below the node [a] no leaf holds the point: both loops come back
    from it with nothing. *)
Definition misses (h : list QuadTree) (x y : float) (a : nat) (n : nat) : Prop :=
  ∀ m l, n + length l ≤ m → off_point h x y l →
    while_pool m (GetChildAt_turn x y h) (l ++ [a]) () = Some (inl ()) ∧
    while_pool m (GetElementsAt_turn x y h) (l ++ [a]) () = Some (inl ()).
(** *** What a query reads *)

(** [e] is in the list of a leaf that overlaps the rectangle. *)
Definition in_leaf_over (h : list QuadTree) (x y width height : float) (e : nat) : Prop :=
  ∃ a t, h !! a = Some t ∧ IsSplit t = false ∧
    IsRectInBounds t x y width height = true ∧ e ∈ _elements t.

(** [e] is in the list of a leaf whose bounds hold the point. *)
Definition in_leaf_at (h : list QuadTree) (x y : float) (e : nat) : Prop :=
  ∃ a t, h !! a = Some t ∧ IsSplit t = false ∧
    IsPointInBounds t x y = true ∧ e ∈ _elements t.


(** A way down from the node [a] to the leaf [leaf] on which
    [GetElementsAt] is not turned back: every node on it, the leaf too,
    has a list that is not empty and bounds that hold the point. *)
Inductive walk (h : list QuadTree) (x y : float) (leaf : nat) : nat → Prop :=
| walk_leaf tl :
    h !! leaf = Some tl → _elements tl ≠ [] →
    IsPointInBounds tl x y = true → IsSplit tl = false →
    walk h x y leaf leaf
| walk_step a t c :
    h !! a = Some t → _elements t ≠ [] →
    IsPointInBounds t x y = true → IsSplit t = true →
    c ∈ _children t → walk h x y leaf c →
    walk h x y leaf a.
(** Point 1 moved by its owner to (70,70), the others where they were. *)
Definition moved_points : Elements := fun id =>
  match id with
  | 1 => PointTreeElement 70 70
  | _ => scenario_points id
  end.

(** The split tree of the points 1, 2 and 3 after [UpdateElement] of the
    moved point 1 on the root. *)
Definition sc_moved : list QuadTree :=
  Eval vm_compute in heap_after (UpdateElement 9 moved_points 0 1 sc_h3).

(** The same tree after [UpdateElement] of point 1 moved out of the
    bounds. *)
Definition sc_moved_out : list QuadTree :=
  Eval vm_compute in heap_after (UpdateElement 9 far_points 0 1 sc_h3).

(** The circle 4 of the scenario moved by its owner to (20,20), radius 5. *)
Definition moved_circle : Elements := fun id =>
  match id with
  | 4 => CircleTreeElement 20 20 5
  | _ => scenario_points id
  end.

(** The tree that holds the points 1 and 2 and the circle 4, after
    [UpdateElement] of the moved circle on the root. *)
Definition sc_circle_moved : list QuadTree :=
  Eval vm_compute in heap_after (UpdateElement 30 moved_circle 0 4 sc_circle).

(** The split tree of the points 1, 2 and 3 with point 3 removed again. *)
Definition sc_h3_back : list QuadTree :=
  Eval vm_compute in heap_after (RemoveElement 0 3 sc_h3).






(** ** Notions for the first version *)

(** The fields no method of the first version assigns after
    construction. *)
Definition old_static (t t' : Old.QuadTree) : Prop :=
  Old._x t' = Old._x t ∧ Old._y t' = Old._y t ∧
  Old._width t' = Old._width t ∧ Old._height t' = Old._height t ∧
  Old._maxElements t' = Old._maxElements t ∧ Old._root t' = Old._root t ∧
  Old._depth t' = Old._depth t ∧ Old._parent t' = Old._parent t ∧
  Old._maxDepth t' = Old._maxDepth t.

(** [element.IsInsideRect(this._x, this._y, this._width, this._height)] *)
Definition old_inside (G : Elements) (el : nat) (t : Old.QuadTree) : bool :=
  IsInsideRect (G el) (Old._x t) (Old._y t) (Old._width t) (Old._height t).

(** What a call on the node [k] may change of the nodes: nothing before
    [k]; elsewhere lists grow at their end and leaves may split. *)
Definition old_ev (k : nat) (h h' : list Old.QuadTree) : Prop :=
  length h ≤ length h' ∧
  ∀ a t, h !! a = Some t →
    ∃ t', h' !! a = Some t' ∧ old_static t t' ∧
      (a < k → t' = t) ∧
      (Old._children t ≠ [] → Old._children t' = Old._children t) ∧
      ∃ more, Old._elements t' = Old._elements t ++ more.

(** A node is linked well: its children come later, point back to it and
    lie one level deeper under the same limit; a split node lies above
    the limit; only the first node has no root. *)
Definition old_node_ok (h : list Old.QuadTree) (a : nat) (t : Old.QuadTree) : Prop :=
  Forall (λ c, a < c ∧ ∃ tc, h !! c = Some tc ∧ Old._parent tc = Some a ∧
                 Old._depth tc = (Old._depth t + 1)%Z ∧
                 Old._maxDepth tc = Old._maxDepth t)
         (Old._children t) ∧
  (Old._children t ≠ [] →
     (Old._maxDepth t < 0)%Z ∨ (Old._depth t < Old._maxDepth t)%Z) ∧
  (Old._root t = None ↔ a = 0) ∧
  ((0 <= Old._maxDepth t)%Z → (0 <= Old._depth t <= Old._maxDepth t)%Z).

(** Every node is linked well, and an element's [parent] is a node that
    holds the element. *)
Definition old_wf (s : Old.Store) : Prop :=
  (∀ a t, Old.nodes s !! a = Some t → old_node_ok (Old.nodes s) a t) ∧
  (∀ x a, Old.parent s !! x = Some a →
     ∃ ta, Old.nodes s !! a = Some ta ∧ x ∈ Old._elements ta).

(** The [parent] fields a call on [k] has set: each to a node from [k]
    on that holds the element and overlaps it; none was cleared. *)
Definition old_claimed (G : Elements) (k : nat) (s s' : Old.Store) : Prop :=
  (∀ x, is_Some (Old.parent s !! x) → is_Some (Old.parent s' !! x)) ∧
  ∀ x a, Old.parent s' !! x = Some a →
    Old.parent s !! x = Some a ∨
    (k ≤ a ∧ ∃ ta, Old.nodes s' !! a = Some ta ∧ x ∈ Old._elements ta ∧
                   old_inside G x ta = true).

(** The [parent] of [el] is a node from [k] on that holds and overlaps
    it. *)
Definition old_claim (G : Elements) (k el : nat) (s : Old.Store) : Prop :=
  ∃ a ta, Old.parent s !! el = Some a ∧ k ≤ a ∧
    Old.nodes s !! a = Some ta ∧ el ∈ Old._elements ta ∧
    old_inside G el ta = true.

(** What a call of the first version's [AddElement] guarantees. *)
Definition old_add_post (G : Elements) (this el : nat)
    (s : Old.Store) (b : bool) (s' : Old.Store) : Prop :=
  ∃ t, Old.nodes s !! this = Some t ∧ b = old_inside G el t ∧
    if b then
      old_wf s' ∧ old_ev this (Old.nodes s) (Old.nodes s') ∧
      old_claimed G this s s' ∧ old_claim G this el s' ∧
      ∃ t', Old.nodes s' !! this = Some t' ∧
            Old._elements t' = Old._elements t ++ [el] ∧
            (Old._children t = [] →
               (Old.IsSplit t' = true ↔
                  Old.may_split (Old.set_elements (Old._elements t ++ [el]) t)
                  = true) ∧
               (Old.IsSplit t' = true → length (Old._children t') = 4))
    else s' = s.

Definition old_add_spec (G : Elements) (n : nat) : Prop :=
  ∀ this el s b s',
    Old.AddElement n G this el s = Some (b, s') → old_wf s →
    old_add_post G this el s b s'.

(** A child of [p] before the constructor's loop has run. *)
Definition old_child_node (x y w ht : float) (mE mD : Z) (p : nat)
    (pt : Old.QuadTree) : Old.QuadTree :=
  Old.mkQuadTree x y w ht mE [] [] (Some (default p (Old._root pt)))
    (Old._depth pt + 1)%Z (Some p) mD.

(** A root before the constructor's loop has run. *)
Definition old_root_node (x y w ht : float) (mE mD : Z) : Old.QuadTree :=
  Old.mkQuadTree x y w ht mE [] [] None 0%Z None mD.

(** The trees of the first version a caller can reach: one tree, built
    by [new QuadTree] from elements that were in no tree before, and then
    changed through [AddElement] on any of its nodes. *)
Inductive old_reachable : Old.Store → Prop :=
| old_reach_new fuel G x y w ht mE mD els s :
    Old.new_root fuel G x y w ht mE mD els (Old.mkStore [] ∅) = Some (0, s) →
    old_reachable s
| old_reach_AddElement fuel G this el s b s' :
    old_reachable s →
    Old.AddElement fuel G this el s = Some (b, s') → old_reachable s'.

(** Levels a depth-limited node of the first version may still add
    below itself. *)
Definition old_headroom (t : Old.QuadTree) : nat :=
  Z.to_nat (Old._maxDepth t - Old._depth t).

(** With enough fuel the first version's [AddElement] returns on a
    depth-limited node that has at most [m] levels left. *)
Definition old_terminates (G : Elements) (m : nat) : Prop :=
  ∀ this el s t,
    old_wf s → Old.nodes s !! this = Some t →
    (0 <= Old._maxDepth t)%Z → old_headroom t ≤ m →
    ∃ fuel b s', Old.AddElement fuel G this el s = Some (b, s').

(** ** Concrete trees of the first version *)

Definition old_store_of (r : option (nat * Old.Store)) : Old.Store :=
  match r with Some (_, s) => s | None => Old.mkStore [] ∅ end.

Definition old_store_after (r : option (bool * Old.Store)) : Old.Store :=
  match r with Some (_, s) => s | None => Old.mkStore [] ∅ end.

(** Bounds (0,0,100,100), capacity 2, no depth limit; then the points 1
    and 2 of the scenario added at the root: the second one splits the
    root, and the quarters split until the two points are apart. *)
Definition old_s0 : Old.Store :=
  Eval vm_compute in
    old_store_of (Old.new_root 1 scenario_points 0 0 100 100 2 (-1) []
                    (Old.mkStore [] ∅)).

Definition old_s1 : Old.Store :=
  Eval vm_compute in old_store_after (Old.AddElement 3 scenario_points 0 1 old_s0).

Definition old_s2 : Old.Store :=
  Eval vm_compute in old_store_after (Old.AddElement 12 scenario_points 0 2 old_s1).

(** Capacity 1 and depth limit 1: the first point splits the root. *)
Definition old_dl0 : Old.Store :=
  Eval vm_compute in
    old_store_of (Old.new_root 1 scenario_points 0 0 100 100 1 1 []
                    (Old.mkStore [] ∅)).

Definition old_dl1 : Old.Store :=
  Eval vm_compute in old_store_after (Old.AddElement 5 scenario_points 0 1 old_dl0).

(** ** Numbers, arrays and loops *)

(** *** Comparisons of doubles *)

Lemma SFcompare_antisym (a b : spec_float) (c : comparison) :
  SFcompare a b = Some c → SFcompare b a = Some (CompOpp c).
Proof.
  destruct a as [sa|sa| |sa ma ea], b as [sb|sb| |sb mb eb]; simpl;
    try discriminate; intros [= <-]; try (by destruct sa); try (by destruct sb);
    try (by destruct sa, sb).
  destruct sa, sb; try done; f_equal.
  - rewrite (Z.compare_antisym ea eb).
    destruct (ea ?= eb)%Z; simpl; try done.
    rewrite (Pos.compare_cont_antisym ma mb Eq). done.
  - rewrite (Z.compare_antisym ea eb).
    destruct (ea ?= eb)%Z; simpl; try done.
    rewrite (Pos.compare_cont_antisym ma mb Eq). simpl.
    by destruct (Pos.compare_cont _ _ _).
Qed.

(** A comparison has a result unless one side is not a number. *)
Lemma SFcompare_None (a b : spec_float) :
  SFcompare a b = None ↔ a = S754_nan ∨ b = S754_nan.
Proof.
  destruct a as [sa|sa| |sa ma ea], b as [sb|sb| |sb mb eb]; simpl;
    split; intros H; try done; try (by left); try (by right);
    by destruct H.
Qed.

Lemma SFcompare_Lt_trans (a b c : spec_float) :
  SFcompare a b = Some Lt → SFcompare b c = Some Lt → SFcompare a c = Some Lt.
Proof.
  destruct a as [sa|sa| |sa ma ea], b as [sb|sb| |sb mb eb],
    c as [sc|sc| |sc mc ec]; simpl; try discriminate;
    try (by destruct sa, sb, sc); try (by destruct sa, sb); try (by destruct sa, sc);
    try (by destruct sb, sc); try (by destruct sa); try (by destruct sb);
    try (by destruct sc).
  change (Pos.compare_cont Eq ma mb) with (ma ?= mb)%positive.
  change (Pos.compare_cont Eq mb mc) with (mb ?= mc)%positive.
  change (Pos.compare_cont Eq ma mc) with (ma ?= mc)%positive.
  destruct sa, sb, sc; try done;
    destruct (Z.compare_spec ea eb), (Z.compare_spec eb ec), (Z.compare_spec ea ec);
    try done; try lia;
    destruct (Pos.compare_spec ma mb), (Pos.compare_spec mb mc), (Pos.compare_spec ma mc);
    try done; try lia.
Qed.

Lemma SFcompare_Eq_l (a b c : spec_float) r :
  SFcompare a b = Some Eq → SFcompare b c = Some r → SFcompare a c = Some r.
Proof.
  destruct a as [sa|sa| |sa ma ea], b as [sb|sb| |sb mb eb],
    c as [sc|sc| |sc mc ec]; simpl; try discriminate;
    try (by destruct sa, sb, sc); try (by destruct sa, sb); try (by destruct sa, sc);
    try (by destruct sb, sc); try (by destruct sa); try (by destruct sb);
    try (by destruct sc).
  change (Pos.compare_cont Eq ma mb) with (ma ?= mb)%positive.
  change (Pos.compare_cont Eq mb mc) with (mb ?= mc)%positive.
  change (Pos.compare_cont Eq ma mc) with (ma ?= mc)%positive.
  destruct sa, sb; try done;
    destruct (Z.compare_spec ea eb); try done;
    destruct (Pos.compare_spec ma mb); try done; by subst.
Qed.

Lemma SFcompare_Eq_r (a b c : spec_float) r :
  SFcompare a b = Some r → SFcompare b c = Some Eq → SFcompare a c = Some r.
Proof.
  intros H1 H2. apply SFcompare_antisym in H1, H2. simpl in H2.
  pose proof (SFcompare_Eq_l _ _ _ _ H2 H1) as H.
  apply SFcompare_antisym in H. by rewrite CompOpp_involutive in H.
Qed.

Section Order.
Local Open Scope float_scope.

(** [a < b] and [b <= a] never hold together. *)
Lemma ltb_leb_false (a b : float) : (a <? b) = true → (b <=? a) = false.
Proof.
  rewrite ltb_spec, leb_spec. unfold SFltb, SFleb.
  destruct (SFcompare (Prim2SF a) (Prim2SF b)) as [c|] eqn:E; [|done].
  rewrite (SFcompare_antisym _ _ _ E). by destruct c.
Qed.

Lemma leb_ltb_false (a b : float) : (a <=? b) = true → (b <? a) = false.
Proof.
  intros H. destruct (b <? a) eqn:E; [|done].
  apply ltb_leb_false in E. congruence.
Qed.

Lemma ltb_asym (a b : float) : (a <? b) = true → (b <? a) = false.
Proof.
  rewrite !ltb_spec. unfold SFltb.
  destruct (SFcompare (Prim2SF a) (Prim2SF b)) as [c|] eqn:E; [|done].
  rewrite (SFcompare_antisym _ _ _ E). by destruct c.
Qed.

Lemma leb_number (a b : float) : (a <=? b) = true → is_number a ∧ is_number b.
Proof.
  rewrite leb_spec. unfold SFleb, is_number.
  destruct (SFcompare (Prim2SF a) (Prim2SF b)) as [c|] eqn:E; [|done].
  intros _. split; intros N; rewrite N in E; [done|].
  by destruct (Prim2SF a).
Qed.

Lemma ltb_number (a b : float) : (a <? b) = true → is_number a ∧ is_number b.
Proof.
  rewrite ltb_spec. unfold SFltb, is_number.
  destruct (SFcompare (Prim2SF a) (Prim2SF b)) as [c|] eqn:E; [|done].
  intros _. split; intros N; rewrite N in E; [done|].
  by destruct (Prim2SF a).
Qed.

Lemma add_number (a b : float) : is_number (a + b) → is_number a ∧ is_number b.
Proof.
  unfold is_number. rewrite add_spec. intros H. split; intros N; apply H; rewrite N.
  - done.
  - by destruct (Prim2SF a) as [[]|[]| |].
Qed.

(** Between two numbers, [a < b] fails exactly when [b <= a] holds. *)
Lemma ltb_negb_leb (a b : float) :
  is_number a → is_number b → (a <? b) = negb (b <=? a).
Proof.
  unfold is_number. intros Ha Hb. rewrite ltb_spec, leb_spec. unfold SFltb, SFleb.
  destruct (SFcompare (Prim2SF a) (Prim2SF b)) as [c|] eqn:E.
  - rewrite (SFcompare_antisym _ _ _ E). by destruct c.
  - apply SFcompare_None in E as [?|?]; done.
Qed.

Lemma leb_ltb_trans (a b c : float) :
  (a <=? b) = true → (b <? c) = true → (a <? c) = true.
Proof.
  rewrite leb_spec, !ltb_spec. unfold SFleb, SFltb.
  destruct (SFcompare (Prim2SF a) (Prim2SF b)) as [[]|] eqn:E1; try done;
    destruct (SFcompare (Prim2SF b) (Prim2SF c)) as [[]|] eqn:E2; try done; intros _ _.
  - by rewrite (SFcompare_Eq_l _ _ _ _ E1 E2).
  - by rewrite (SFcompare_Lt_trans _ _ _ E1 E2).
Qed.

Lemma eqb_leb (a b : float) : (a =? b) = true → (a <=? b) = true.
Proof.
  rewrite FloatAxioms.eqb_spec, leb_spec. unfold SFeqb, SFleb.
  by destruct (SFcompare (Prim2SF a) (Prim2SF b)) as [[]|].
Qed.

Lemma eqb_ltb_false (a b : float) : (a =? b) = true → (b <? a) = false.
Proof.
  intros H. apply leb_ltb_false. by apply eqb_leb.
Qed.

End Order.

Lemma js_pop_nil {A} : js_pop (@nil A) = None.
Proof. reflexivity. Qed.

Lemma js_pop_snoc {A} (l : list A) (a : A) : js_pop (l ++ [a]) = Some (l, a).
Proof. unfold js_pop. rewrite rev_app_distr. simpl. by rewrite rev_involutive. Qed.

Lemma js_pop_Some {A} (l l' : list A) (a : A) :
  js_pop l = Some (l', a) → l = l' ++ [a].
Proof.
  unfold js_pop. destruct (rev l) as [|b r] eqn:E; [done|].
  intros [= <- <-]. rewrite <- (rev_involutive l), E. done.
Qed.

Lemma js_pop_None {A} (l : list A) : js_pop l = None → l = [].
Proof.
  unfold js_pop. destruct (rev l) eqn:E; [|done].
  intros _. rewrite <- (rev_involutive l), E. done.
Qed.

Lemma while_pool_inv {S R} (I : list nat → S → Prop) (Q : S + R → Prop)
    (body : nat → S → option (turn S R)) :
  (∀ pool tree s r, I (pool ++ [tree]) s → body tree s = Some r →
     match r with
     | Continue s' pushed => I (pool ++ pushed) s'
     | Return r => Q (inr r)
     end) →
  (∀ s, I [] s → Q (inl s)) →
  ∀ n pool s res, I pool s → while_pool n body pool s = Some res → Q res.
Proof.
  intros Hstep Hend. induction n as [|n IH]; intros pool s res HI; [done|].
  simpl. destruct (js_pop pool) as [[pool' tree]|] eqn:Epop.
  - apply js_pop_Some in Epop as ->.
    destruct (body tree s) as [r|] eqn:Eb; [|done]. simpl.
    specialize (Hstep _ _ _ _ HI Eb). destruct r as [s' pushed|r].
    + by apply IH.
    + by intros [= <-].
  - apply js_pop_None in Epop as ->. intros [= <-]. by apply Hend.
Qed.

Lemma while_pool_mono {S R} (body body' : nat → S → option (turn S R)) :
  (∀ a s r, body a s = Some r → body' a s = Some r) →
  ∀ n n' pool s res, n ≤ n' →
    while_pool n body pool s = Some res → while_pool n' body' pool s = Some res.
Proof.
  intros Hb. induction n as [|n IH]; intros n' pool s res Hle; [done|].
  destruct n' as [|n']; [lia|]. simpl.
  destruct (js_pop pool) as [[pool' tree]|]; [|done].
  destruct (body tree s) as [r|] eqn:Eb; [|done]. simpl.
  rewrite (Hb _ _ _ Eb). simpl. destruct r; [|done]. apply IH. lia.
Qed.

Lemma while_pool_app {S R} (body : nat → S → option (turn S R))
    n1 n2 pool1 pool2 (s s1 : S) (res : S + R) :
  while_pool n1 body pool2 s = Some (inl s1) →
  while_pool n2 body pool1 s1 = Some res →
  while_pool (n1 + n2) body (pool1 ++ pool2) s = Some res.
Proof.
  revert pool2 s. induction n1 as [|n1 IH]; intros pool2 s; [done|].
  simpl. destruct (js_pop pool2) as [[pool2' tree]|] eqn:Epop.
  - apply js_pop_Some in Epop as ->. rewrite app_assoc, js_pop_snoc.
    destruct (body tree s) as [r|]; [|done]. simpl.
    destruct r as [s' pushed|r]; [|done].
    intros H1 H2. rewrite <- app_assoc. by apply IH.
  - apply js_pop_None in Epop as ->. intros [= <-] H2. rewrite app_nil_r.
    change (while_pool (Datatypes.S (n1 + n2)) body pool1 s = Some res).
    eapply (while_pool_mono body body); [done| |exact H2]. lia.
Qed.

Lemma for_live_inv {A} (I : nat → list QuadTree → Prop)
    (arr : list QuadTree → option (list A))
    (body : A → list QuadTree → option (list QuadTree)) :
  (∀ i h l a h', I i h → arr h = Some l → l !! i = Some a →
     body a h = Some h' → I (Datatypes.S i) h') →
  ∀ n i h h', I i h → for_live n arr body i h = Some h' →
    ∃ i' l, I i' h' ∧ arr h' = Some l ∧ l !! i' = None.
Proof.
  intros Hstep. induction n as [|n IH]; intros i h h' HI; [done|].
  simpl. destruct (arr h) as [l|] eqn:Earr; [|done]. simpl.
  destruct (l !! i) as [a|] eqn:El.
  - destruct (body a h) as [h1|] eqn:Eb; [|done]. simpl.
    apply IH. by eapply Hstep.
  - intros [= <-]. eauto.
Qed.

Lemma for_live_mono {A} (arr : list QuadTree → option (list A))
    (body body' : A → list QuadTree → option (list QuadTree)) :
  (∀ a h h', body a h = Some h' → body' a h = Some h') →
  ∀ n n' i h h', n ≤ n' →
    for_live n arr body i h = Some h' → for_live n' arr body' i h = Some h'.
Proof.
  intros Hb. induction n as [|n IH]; intros n' i h h' Hle; [done|].
  destruct n' as [|n']; [lia|]. simpl.
  destruct (arr h) as [l|]; [|done]. simpl.
  destruct (l !! i) as [a|]; [|done].
  destruct (body a h) as [h1|] eqn:Eb; [|done]. simpl.
  rewrite (Hb _ _ _ Eb). simpl. apply IH. lia.
Qed.


Ltac case_new E :=
  match goal with
  | |- context [new_QuadTree ?ad ?n ?a ?b ?c ?d ?e ?f ?g ?p ?h] =>
      destruct (new_QuadTree ad n a b c d e f g p h) as [[? ?]|] eqn:E
  end.

Section Mono.
Variables (add add' : nat → nat → list QuadTree → option (bool * list QuadTree)).
Hypothesis Hadd : ∀ this el h r, add this el h = Some r → add' this el h = Some r.

Lemma new_QuadTree_mono n n' x y w ht mE mD arr parent h r :
    n ≤ n' →
    new_QuadTree add n x y w ht mE mD arr parent h = Some r →
    new_QuadTree add' n' x y w ht mE mD arr parent h = Some r.
  Proof.
    intros Hle. unfold new_QuadTree.
    assert (Hbody : ∀ this (a : nat) (h h' : list QuadTree),
      AddElement_stmt add this a h = Some h' →
      AddElement_stmt add' this a h = Some h').
    { intros this a h0 h'. unfold AddElement_stmt.
      destruct (add this a h0) as [[b h1]|] eqn:E; [|done].
      by rewrite (Hadd _ _ _ _ E). }
    destruct parent as [p|].
    - destruct (_ !! p) as [pt|]; [|done]. simpl.
      destruct (modify _ _ _) as [h1|]; [|done]. simpl.
      destruct (for_live n _ _ _ _) as [h2|] eqn:E; [|done]. simpl.
      intros <-. erewrite for_live_mono; [done| |exact Hle|exact E].
      intros a h0 h'. apply Hbody.
    - destruct (modify _ _ _) as [h1|]; [|done]. simpl.
      destruct (for_live n _ _ _ _) as [h2|] eqn:E; [|done]. simpl.
      intros <-. erewrite for_live_mono; [done| |exact Hle|exact E].
      intros a h0 h'. apply Hbody.
  Qed.

Lemma AddElement_turn_mono n n' G r el tree h res :
    n ≤ n' →
    AddElement_turn add n G r el tree h = Some res →
    AddElement_turn add' n' G r el tree h = Some res.
  Proof.
    intros Hle. unfold AddElement_turn.
    destruct (h !! tree) as [t|]; [|done]. simpl.
    destruct (negb _); [done|].
    destruct (elParents_push _ _ _ _) as [h1|]; [|done]. simpl.
    destruct (modify _ _ _) as [h2|]; [|done]. simpl.
    destruct (h2 !! tree) as [t2|]; [|done]. simpl.
    destruct (IsSplit t2); [done|].
    destruct (may_split t2); [|done]. cbv zeta.
    do 4 (case_new E; [|done]; eapply new_QuadTree_mono in E; [|exact Hle]; rewrite E; clear E; simpl).
    done.
  Qed.
End Mono.

Lemma AddElement_mono fuel fuel' G this el h r :
  fuel ≤ fuel' → AddElement fuel G this el h = Some r → AddElement fuel' G this el h = Some r.
Proof.
  revert fuel' G this el h r. induction fuel as [|fuel IH]; intros fuel' G this el h r Hle; [done|].
  destruct fuel' as [|fuel']; [lia|]. simpl.
  destruct (rootTree this h) as [rt|]; [|done]. simpl.
  destruct (_GetParentsForElement _ _ _ _) as [[[elParents|] h1]|]; [|done..]. simpl.
  destruct (while_pool fuel _ _ _) as [res|] eqn:E; [|done]. simpl.
  erewrite while_pool_mono; [ |  | |exact E]; [done| |lia].
  intros a s r0. apply AddElement_turn_mono; [|lia].
  intros this0 el0 h0 r1. apply IH. lia.
Qed.


(** ** Reading the heap *)

Lemma count_app x l1 l2 : count x (l1 ++ l2) = count x l1 + count x l2.
Proof. apply count_occ_app. Qed.

Lemma count_nil x : count x [] = 0.
Proof. reflexivity. Qed.

Lemma count_single_eq x : count x [x] = 1.
Proof. unfold count. by rewrite count_occ_cons_eq. Qed.

Lemma count_single_ne x y : y ≠ x → count x [y] = 0.
Proof. intros. unfold count. by rewrite count_occ_cons_neq. Qed.

Lemma count_cons x y l :
  count x (y :: l) = (if decide (y = x) then 1 else 0) + count x l.
Proof.
  unfold count. destruct (decide (y = x)) as [->|].
  - by rewrite count_occ_cons_eq.
  - by rewrite count_occ_cons_neq.
Qed.

Lemma count_pos x l : 0 < count x l ↔ x ∈ l.
Proof.
  unfold count. rewrite list_elem_of_In, (count_occ_In Nat.eq_dec). lia.
Qed.

Lemma count_zero x l : count x l = 0 ↔ x ∉ l.
Proof. rewrite <- count_pos. lia. Qed.

Lemma elements_of_lookup h a t : h !! a = Some t → elements_of h a = _elements t.
Proof. unfold elements_of. by intros ->. Qed.

Lemma elements_of_None h a : h !! a = None → elements_of h a = [].
Proof. unfold elements_of. by intros ->. Qed.

Lemma owner_entry_Some r id h e :
  owner_entry r id h = Some e ↔
  ∃ rt m, h !! r = Some rt ∧ _elementsParents rt = Some m ∧ e = m !! id.
Proof.
  unfold owner_entry. split.
  - intros H. apply bind_Some in H as (rt & Hrt & H).
    apply bind_Some in H as (m & Hm & H). injection H as <-. eauto.
  - intros (rt & m & -> & Hm & ->). simpl. by rewrite Hm.
Qed.

Lemma owner_entry_insert_ne r id h a t :
  a ≠ r → owner_entry r id (<[a := t]> h) = owner_entry r id h.
Proof. intros. unfold owner_entry. by rewrite list_lookup_insert_ne. Qed.

Lemma owner_entry_insert_ep r id h a t t' :
  h !! a = Some t → _elementsParents t' = _elementsParents t →
  owner_entry r id (<[a := t']> h) = owner_entry r id h.
Proof.
  intros Ha Hep. destruct (decide (a = r)) as [->|]; [|by apply owner_entry_insert_ne].
  unfold owner_entry. rewrite list_lookup_insert_eq by (by eapply lookup_lt_Some).
  rewrite Ha. simpl. by rewrite Hep.
Qed.

Lemma owner_entry_app r id h l :
  r < length h → owner_entry r id (h ++ l) = owner_entry r id h.
Proof. intros. unfold owner_entry. by rewrite lookup_app_l. Qed.

Lemma owners_insert_ep r id h a t t' :
  h !! a = Some t → _elementsParents t' = _elementsParents t →
  owners (<[a := t']> h) r id = owners h r id.
Proof. intros. unfold owners. by erewrite owner_entry_insert_ep. Qed.

Lemma elements_of_insert_ne h a b t :
  a ≠ b → elements_of (<[a := t]> h) b = elements_of h b.
Proof. intros. unfold elements_of. by rewrite list_lookup_insert_ne. Qed.

Lemma elements_of_insert_eq h a t :
  a < length h → elements_of (<[a := t]> h) a = _elements t.
Proof. intros. unfold elements_of. by rewrite list_lookup_insert_eq. Qed.

Lemma elements_of_insert_els h a b t t' :
  h !! a = Some t → _elements t' = _elements t →
  elements_of (<[a := t']> h) b = elements_of h b.
Proof.
  intros Ha He. destruct (decide (a = b)) as [<-|]; [|by apply elements_of_insert_ne].
  rewrite elements_of_insert_eq by (by eapply lookup_lt_Some).
  by rewrite (elements_of_lookup _ _ _ Ha).
Qed.

(** ** How far a subtree may still grow *)

Lemma grow_mono n n' h a : n ≤ n' → grow n h a → grow n' h a.
Proof.
  revert n' a. induction n as [|n IH]; intros n' a Hle; [done|].
  destruct n' as [|n']; [lia|]. simpl.
  intros (t & Ht & Hd & Hc). exists t. split; [done|]. split; [done|].
  destruct (_children t) as [|c cs]; [lia|].
  eapply Forall_impl; [exact Hc|]. intros x. apply IH. lia.
Qed.

(** ** What a run of [AddElement] may change *)

Lemma same_static_refl t : same_static t t.
Proof. by repeat split. Qed.

Lemma same_static_trans t1 t2 t3 :
  same_static t1 t2 → same_static t2 t3 → same_static t1 t3.
Proof. unfold same_static. intros. destruct_and!. repeat split; congruence. Qed.

Lemma node_ev_refl k r a t : node_ev k r a t t.
Proof. split; auto using same_static_refl. Qed.

Lemma node_ev_trans k r a t1 t2 t3 :
  node_ev k r a t1 t2 → node_ev k r a t2 t3 → node_ev k r a t1 t3.
Proof.
  intros [S1 C1 F1 O1 P1] [S2 C2 F2 O2 P2]. split.
  - by eapply same_static_trans.
  - destruct C1 as [C1|C1]; [|by right]. destruct C2 as [C2|C2]; [left|right]; congruence.
  - intros Hk. destruct (F1 Hk), (F2 Hk). split; congruence.
  - intros Hr. rewrite O2, O1; done.
  - auto.
Qed.

Lemma node_ev_weaken k k' r a t t' : k' ≤ k → node_ev k r a t t' → node_ev k' r a t t'.
Proof. intros Hle [S1 C1 F1 O1 P1]. split; auto. intros. apply F1. lia. Qed.

Lemma base_ev_refl k r h : base_ev k r h h.
Proof.
  split; auto.
  - intros a t Ht. exists t. split; [done|]. apply node_ev_refl.
  - intros id l Hl. exists []. by rewrite app_nil_r.
  - intros c tc Hc Htc. apply lookup_lt_Some in Htc. lia.
Qed.

Lemma base_ev_trans k r h1 h2 h3 :
  base_ev k r h1 h2 → base_ev k r h2 h3 → base_ev k r h1 h3.
Proof.
  intros [L1 N1 O1 G1 F1] [L2 N2 O2 G2 F2]. split.
  - lia.
  - intros a t Ht. destruct (N1 _ _ Ht) as (t2 & Ht2 & E1).
    destruct (N2 _ _ Ht2) as (t3 & Ht3 & E2). exists t3. split; [done|].
    by eapply node_ev_trans.
  - intros id l Hl. destruct (O1 _ _ Hl) as (l1 & Hl1).
    destruct (O2 _ _ Hl1) as (l2 & Hl2). exists (l1 ++ l2). by rewrite app_assoc.
  - auto.
  - intros c tc Hc Htc Hd. destruct (decide (c < length h2)) as [Hlt|Hge].
    + destruct (lookup_lt_is_Some_2 h2 c Hlt) as [tc2 Htc2].
      destruct (N2 _ _ Htc2) as (tc3 & Htc3 & [Hs _ _ _ _]).
      assert (tc3 = tc) as -> by congruence.
      destruct Hs as (_ & _ & _ & _ & _ & _ & _ & _ & HmD).
      destruct (F1 c tc2 Hc Htc2) as [m Hm]; [congruence|]. eauto.
    + apply (F2 c tc); [lia|done..].
Qed.

Lemma base_ev_weaken k k' r h h' : k' ≤ k → base_ev k r h h' → base_ev k' r h h'.
Proof.
  intros Hle [L1 N1 O1 G1 F1]. split; auto.
  intros a t Ht. destruct (N1 _ _ Ht) as (t' & Ht' & E). exists t'. split; [done|].
  by eapply node_ev_weaken.
Qed.

Lemma count_ok_refl r h : count_ok r h h.
Proof. by intros N id. Qed.

Lemma count_ok_trans r h1 h2 h3 : count_ok r h1 h2 → count_ok r h2 h3 → count_ok r h1 h3.
Proof. intros C1 C2 N id. specialize (C1 N id). specialize (C2 N id). lia. Qed.

Lemma evolves_refl k r h : evolves k r h h.
Proof. split; [apply base_ev_refl|apply count_ok_refl]. Qed.

Lemma evolves_trans k r h1 h2 h3 :
  evolves k r h1 h2 → evolves k r h2 h3 → evolves k r h1 h3.
Proof.
  intros [B1 C1] [B2 C2]. split; [by eapply base_ev_trans|by eapply count_ok_trans].
Qed.

Lemma evolves_weaken k k' r h h' : k' ≤ k → evolves k r h h' → evolves k' r h h'.
Proof. intros Hle [B C]. split; [by eapply base_ev_weaken|done]. Qed.

Lemma closed_weaken k k' r h : k ≤ k' → closed k r h → closed k' r h.
Proof. intros Hle [R N]. split; [done|]. intros a t Ht Hk. apply N; [done|lia]. Qed.

Lemma closed_rootTree k r h a : closed k r h → k ≤ a → a < length h → rootTree a h = Some r.
Proof.
  intros [_ N] Hk Hlt. apply lookup_lt_is_Some_2 in Hlt as [t Ht].
  unfold rootTree. rewrite Ht. simpl. by destruct (N _ _ Ht Hk) as [-> _].
Qed.

Lemma closed_children k r h a t c :
  closed k r h → h !! a = Some t → k ≤ a → c ∈ _children t →
  a < c ∧ c < length h ∧ ∃ tc, h !! c = Some tc ∧ _parent tc = Some a.
Proof.
  intros [_ N] Ht Hk Hc. destruct (N _ _ Ht Hk) as (_ & _ & HF).
  rewrite Forall_forall in HF. destruct (HF _ Hc) as (Hlt & tc & Htc & Hp).
  split; [done|]. split; [by eapply lookup_lt_Some|]. eauto.
Qed.


(** ** Updates of one node *)

Lemma soft_set_elements els t : soft t (set_elements els t).
Proof. split; [by repeat split|done|done]. Qed.

Lemma soft_set_elementsParents m t : soft t (set_elementsParents (Some m) t).
Proof. split; [by repeat split|done|by eauto]. Qed.

Lemma headroom_static t t' : same_static t t' → headroom t' = headroom t.
Proof. unfold same_static, headroom. intros. destruct_and!. congruence. Qed.

Lemma lookup_insert_cases (h : list QuadTree) a t t' b tb :
  h !! a = Some t → h !! b = Some tb →
  (b = a ∧ tb = t ∧ <[a := t']> h !! b = Some t') ∨
  (b ≠ a ∧ <[a := t']> h !! b = Some tb).
Proof.
  intros Ha Hb. destruct (decide (b = a)) as [->|Hne].
  - left. split; [done|]. split; [congruence|].
    apply list_lookup_insert_eq. by eapply lookup_lt_Some.
  - right. split; [done|]. by rewrite list_lookup_insert_ne.
Qed.

Lemma grow_insert_soft h a t t' :
  h !! a = Some t → soft t t' → ∀ m b, grow m h b → grow m (<[a := t']> h) b.
Proof.
  intros Ha [Hs Hc _]. induction m as [|m IH]; intros b; [done|]. simpl.
  intros (tb & Hb & Hd & Hcs).
  destruct (lookup_insert_cases h a t t' b tb Ha Hb) as [(-> & -> & Hl)|(Hne & Hl)].
  - exists t'. split; [done|]. rewrite Hc, (headroom_static _ _ Hs).
    split; [destruct Hs; destruct_and!; congruence|].
    destruct (_children t); [done|]. eapply Forall_impl; [exact Hcs|]. apply IH.
  - exists tb. split; [done|]. split; [done|].
    destruct (_children tb); [done|]. eapply Forall_impl; [exact Hcs|]. apply IH.
Qed.

Lemma closed_insert_soft k r h a t t' :
  h !! a = Some t → soft t t' → closed k r h → closed k r (<[a := t']> h).
Proof.
  intros Ha [Hs Hc Ho] [(rt & m & Hrt & Hm) N]. split.
  - destruct (lookup_insert_cases h a t t' r rt Ha Hrt) as [(-> & -> & Hl)|(Hne & Hl)].
    + destruct Ho as [m' Hm']; [by eauto|]. eauto.
    + eauto.
  - intros b tb' Hb' Hk.
    assert (∃ tb, h !! b = Some tb ∧ same_static tb tb' ∧ _children tb' = _children tb)
      as (tb & Hb & Hsb & Hcb).
    { destruct (decide (b = a)) as [->|Hne].
      - rewrite list_lookup_insert_eq in Hb' by (by eapply lookup_lt_Some).
        injection Hb' as <-. eauto.
      - rewrite list_lookup_insert_ne in Hb' by done.
        eauto using same_static_refl. }
    destruct (N _ _ Hb Hk) as (Hr & Hnd & HF).
    rewrite Hcb. split; [|split; [done|]].
    { destruct Hsb as (_ & _ & _ & _ & _ & -> & _). done. }
    eapply Forall_impl; [exact HF|]. intros c (Hlt & tc & Htc & Hp).
    split; [done|].
    destruct (lookup_insert_cases h a t t' c tc Ha Htc) as [(-> & -> & Hl)|(Hne & Hl)].
    + exists t'. split; [done|]. destruct Hs as (_ & _ & _ & _ & _ & _ & _ & -> & _). done.
    + eauto.
Qed.

Lemma base_ev_insert_soft k r h a t t' :
  h !! a = Some t → soft t t' →
  (a < k → _elements t' = _elements t) →
  (a ≠ r → _elementsParents t' = _elementsParents t) →
  (∀ m id l, _elementsParents t = Some m → m !! id = Some l →
     ∃ m' l', _elementsParents t' = Some m' ∧ m' !! id = Some (l ++ l')) →
  base_ev k r h (<[a := t']> h).
Proof.
  intros Ha Hsoft He Ho Hp. split.
  - by rewrite length_insert.
  - intros b tb Hb.
    destruct (lookup_insert_cases h a t t' b tb Ha Hb) as [(-> & -> & Hl)|(Hne & Hl)].
    + exists t'. split; [done|]. destruct Hsoft as [Hs Hc Hos]. split; auto.
    + exists tb. split; [done|]. apply node_ev_refl.
  - intros id l Hl. destruct (decide (a = r)) as [->|Hne].
    + apply owner_entry_Some in Hl as (rt & m & Hrt & Hm & Hid).
      assert (rt = t) as -> by congruence.
      destruct (Hp m id l Hm (eq_sym Hid)) as (m' & l' & Hm' & Hl').
      exists l'. apply owner_entry_Some. exists t', m'.
      rewrite list_lookup_insert_eq by (by eapply lookup_lt_Some). done.
    + exists []. rewrite app_nil_r. by rewrite owner_entry_insert_ne.
  - by apply (grow_insert_soft h a t t').
  - intros c tc Hc Htc. apply lookup_lt_Some in Htc. rewrite length_insert in Htc. lia.
Qed.

(** ** The steps of [AddElement] *)

Lemma set_owner_entry_Some r id v h h1 :
  set_owner_entry r id v h = Some h1 →
  ∃ rt m, h !! r = Some rt ∧ _elementsParents rt = Some m ∧
    h1 = <[r := set_elementsParents
                  (Some (match v with
                         | Some l => <[id := l]> m
                         | None => delete id m
                         end)) rt]> h.
Proof.
  unfold set_owner_entry. intros H.
  apply bind_Some in H as (rt & Hrt & H).
  apply bind_Some in H as (m & Hm & H). injection H as <-. eauto.
Qed.

Lemma modify_Some a f h h1 :
  modify a f h = Some h1 → ∃ t, h !! a = Some t ∧ h1 = <[a := f t]> h.
Proof.
  unfold modify. intros H. apply bind_Some in H as (t & Ht & H).
  injection H as <-. eauto.
Qed.

Lemma rootTree_Some this h r :
  rootTree this h = Some r → ∃ t, h !! this = Some t ∧ r = default this (_root t).
Proof.
  unfold rootTree. intros H. apply bind_Some in H as (t & Ht & H).
  injection H as <-. eauto.
Qed.

Lemma owners_entry r id h l : owner_entry r id h = Some (Some l) → owners h r id = l.
Proof. unfold owners. by intros ->. Qed.

Lemma owners_entry_None r id h : owner_entry r id h = Some None → owners h r id = [].
Proof. unfold owners. by intros ->. Qed.

(** Writing the array [l'] that extends the one stored under [id]. *)
Lemma base_ev_set_owner k r id l' h h1 :
  set_owner_entry r id (Some (owners h r id ++ l')) h = Some h1 →
  base_ev k r h h1 ∧ length h1 = length h ∧
  (∀ a, elements_of h1 a = elements_of h a) ∧
  owner_entry r id h1 = Some (Some (owners h r id ++ l')) ∧
  (∀ id', id' ≠ id → owner_entry r id' h1 = owner_entry r id' h) ∧
  (∀ k' r', closed k' r' h → closed k' r' h1) ∧
  (∀ a t, h !! a = Some t → ∃ t', h1 !! a = Some t' ∧ soft t t' ∧
          _elements t' = _elements t).
Proof.
  intros H. apply set_owner_entry_Some in H as (rt & m & Hrt & Hm & ->).
  pose proof (soft_set_elementsParents (<[id := owners h r id ++ l']> m) rt) as Hsoft.
  assert (Hlen : r < length h) by (by eapply lookup_lt_Some).
  split; [|split; [|split; [|split; [|split; [|split]]]]].
  - apply (base_ev_insert_soft k r h r rt); try done.
    intros m0 id0 l0 Hm0 Hl0. assert (m0 = m) as -> by congruence.
    simpl. destruct (decide (id0 = id)) as [->|Hne].
    + exists (<[id := owners h r id ++ l']> m), l'. split; [done|].
      rewrite lookup_insert_eq. f_equal. f_equal.
      apply owners_entry. apply owner_entry_Some. eauto.
    + exists (<[id := owners h r id ++ l']> m), []. split; [done|].
      rewrite lookup_insert_ne by done. by rewrite app_nil_r.
  - by rewrite length_insert.
  - intros a. by apply (elements_of_insert_els h r a rt).
  - apply owner_entry_Some. eexists _, _. rewrite list_lookup_insert_eq by done.
    split; [done|]. split; [done|]. by rewrite lookup_insert_eq.
  - intros id' Hne. unfold owner_entry.
    rewrite list_lookup_insert_eq by done. rewrite Hrt. simpl. rewrite Hm. simpl.
    by rewrite lookup_insert_ne.
  - intros k' r'. by apply (closed_insert_soft k' r' h r rt).
  - intros a t Ht.
    destruct (lookup_insert_cases h r rt (set_elementsParents
      (Some (<[id := owners h r id ++ l']> m)) rt) a t Hrt Ht) as [(-> & -> & Hl)|(Hne & Hl)].
    + eauto.
    + exists t. split; [done|]. split; [|done].
      split; [apply same_static_refl|done|done].
Qed.


Lemma GetParents_Some this el create h e h1 :
  _GetParentsForElement this el create h = Some (e, h1) →
  ∃ r e0, rootTree this h = Some r ∧ owner_entry r el h = Some e0 ∧
    (if create && bool_decide (e0 = None)
     then set_owner_entry r el (Some []) h else Some h) = Some h1 ∧
    owner_entry r el h1 = Some e.
Proof.
  unfold _GetParentsForElement. intros H.
  apply bind_Some in H as (r & Hr & H).
  apply bind_Some in H as (e0 & He0 & H).
  apply bind_Some in H as (h' & Hh' & H).
  apply bind_Some in H as (e' & He' & H). injection H as <- <-.
  eauto 10.
Qed.

Lemma GetParents_nocreate this el h e h1 :
  _GetParentsForElement this el false h = Some (e, h1) →
  h1 = h ∧ ∃ r, rootTree this h = Some r ∧ owner_entry r el h = Some e.
Proof.
  intros H. apply GetParents_Some in H as (r & e0 & Hr & He0 & Hh & He).
  simpl in Hh. injection Hh as <-. eauto.
Qed.

Lemma GetParents_create k r this el h e h1 :
  rootTree this h = Some r →
  _GetParentsForElement this el true h = Some (e, h1) →
  e = Some (owners h r el) ∧
  owner_entry r el h1 = Some (Some (owners h r el)) ∧
  evolves k r h h1 ∧ length h1 = length h ∧
  (∀ a, elements_of h1 a = elements_of h a) ∧
  (∀ k' r', closed k' r' h → closed k' r' h1) ∧
  (∀ a t, h !! a = Some t → ∃ t', h1 !! a = Some t' ∧ soft t t' ∧
          _elements t' = _elements t).
Proof.
  intros Hr H. apply GetParents_Some in H as (r' & e0 & Hr' & He0 & Hh & He).
  assert (r' = r) as -> by congruence. simpl in Hh.
  destruct e0 as [l|].
  - rewrite bool_decide_eq_false_2 in Hh by done. injection Hh as <-.
    rewrite (owners_entry _ _ _ _ He0).
    assert (e = Some l) as -> by congruence.
    split; [done|]. split; [done|]. split; [apply evolves_refl|].
    split; [done|]. split; [done|]. split; [done|].
    intros a t Ht. exists t. split; [done|]. split; [|done].
    split; [apply same_static_refl|done|done].
  - rewrite bool_decide_eq_true_2 in Hh by done.
    pose proof (owners_entry_None _ _ _ He0) as Hown.
    change (Some []) with (Some ([] ++ @nil nat)) in Hh. rewrite <- Hown in Hh at 1.
    apply (base_ev_set_owner k) in Hh as (Hb & Hlen & Hel & Ho & Hoth & Hcl & Hsoft).
    rewrite Hown in Ho. simpl in Ho. rewrite Hown.
    assert (e = Some []) as -> by congruence.
    split; [done|]. split; [done|]. split; [|done].
    split; [done|]. intros N id. rewrite Hel.
    destruct (decide (id = el)) as [->|Hne].
    + rewrite Hown. unfold owners at 1. by rewrite Ho.
    + unfold owners. by rewrite Hoth.
Qed.

Lemma elParents_push_Some r id tree h h1 :
  elParents_push r id tree h = Some h1 →
  ∃ l, owner_entry r id h = Some (Some l) ∧
       set_owner_entry r id (Some (l ++ [tree])) h = Some h1.
Proof.
  unfold elParents_push. intros H.
  apply bind_Some in H as (e & He & H).
  apply bind_Some in H as (l & -> & H). eauto.
Qed.

(** [elParents.push(tree); tree._elements.push(element)] *)
Lemma push_step k r el tree h h1 h2 :
  elParents_push r el tree h = Some h1 →
  modify tree (λ t, set_elements (_elements t ++ [el]) t) h1 = Some h2 →
  k ≤ tree →
  evolves k r h h2 ∧ length h2 = length h ∧
  owner_entry r el h2 = Some (Some (owners h r el ++ [tree])) ∧
  (∀ k' r', closed k' r' h → closed k' r' h2) ∧
  (∀ a t, h !! a = Some t → ∃ t', h2 !! a = Some t' ∧ soft t t' ∧
     _elements t' = _elements t ++ (if decide (a = tree) then [el] else [])).
Proof.
  intros H1 H2 Hk.
  apply elParents_push_Some in H1 as (l & Hl & H1).
  rewrite <- (owners_entry _ _ _ _ Hl) in H1.
  apply (base_ev_set_owner k) in H1 as (Hb1 & Hlen1 & Hel1 & Ho1 & Hoth1 & Hcl1 & Hsoft1).
  apply modify_Some in H2 as (t1 & Ht1 & ->).
  pose proof (soft_set_elements (_elements t1 ++ [el]) t1) as Hsoft2.
  assert (Hlt : tree < length h1) by (by eapply lookup_lt_Some).
  assert (Hb2 : base_ev k r h1 (<[tree := set_elements (_elements t1 ++ [el]) t1]> h1)).
  { apply (base_ev_insert_soft k r h1 tree t1); try done; [lia|].
    intros m id l0 Hm Hl0. exists m, []. by rewrite app_nil_r. }
  assert (Hnodes : ∀ a t, h !! a = Some t →
    ∃ t', <[tree := set_elements (_elements t1 ++ [el]) t1]> h1 !! a = Some t' ∧
      soft t t' ∧ _elements t' = _elements t ++ (if decide (a = tree) then [el] else [])).
  { intros a t Ht. destruct (Hsoft1 _ _ Ht) as (t' & Ht' & Hs' & He').
    destruct (lookup_insert_cases h1 tree t1 (set_elements (_elements t1 ++ [el]) t1)
                a t' Ht1 Ht') as [(-> & -> & Hl')|(Hne & Hl')].
    - eexists. split; [done|]. rewrite decide_True by done. split.
      + destruct Hs' as [Hs Hc Ho]. split; [done|done|done].
      + simpl. by rewrite He'.
    - exists t'. split; [done|]. rewrite decide_False by done. split; [done|].
      by rewrite app_nil_r. }
  split; [split|].
  - by eapply base_ev_trans.
  - intros N id.
    assert (count id (elements_of (<[tree := set_elements (_elements t1 ++ [el]) t1]> h1) N)
            = count id (elements_of h N)
              + (if decide (N = tree) then count id [el] else 0)) as ->.
    { destruct (h !! N) as [t|] eqn:Ht.
      - destruct (Hnodes _ _ Ht) as (t' & Ht' & _ & He').
        rewrite (elements_of_lookup _ _ _ Ht'), (elements_of_lookup _ _ _ Ht), He'.
        rewrite count_app. destruct (decide (N = tree)); [done|]. by rewrite count_nil.
      - assert (N ≠ tree).
        { intros ->. apply lookup_ge_None_1 in Ht. lia. }
        rewrite decide_False by done. rewrite elements_of_insert_ne by done.
        rewrite Hel1. lia. }
    assert (count N (owners (<[tree := set_elements (_elements t1 ++ [el]) t1]> h1) r id)
            = count N (owners h r id)
              + (if decide (id = el) then count N [tree] else 0)) as ->.
    { rewrite (owners_insert_ep r id h1 tree t1) by done.
      destruct (decide (id = el)) as [->|Hne].
      - rewrite (owners_entry _ _ _ _ Ho1). by rewrite count_app.
      - unfold owners. rewrite Hoth1 by done. lia. }
    destruct (decide (N = tree)) as [->|HN], (decide (id = el)) as [->|Hid].
    + rewrite !count_single_eq. lia.
    + rewrite count_single_ne by done. lia.
    + rewrite count_single_ne by done. lia.
    + lia.
  - split; [by rewrite length_insert|].
    split.
    { rewrite (owner_entry_insert_ep r el h1 tree t1) by done. done. }
    split; [|done].
    intros k' r' Hc. apply (closed_insert_soft k' r' h1 tree t1); auto.
Qed.


(** ** Inversion of the methods *)

Lemma insert_snoc (h : list QuadTree) (t t' : QuadTree) :
  <[length h := t']> (h ++ [t]) = h ++ [t'].
Proof.
  rewrite insert_app_r_alt by lia. by rewrite Nat.sub_diag.
Qed.

Lemma lookup_snoc_new (h : list QuadTree) (t : QuadTree) : (h ++ [t]) !! length h = Some t.
Proof. by rewrite list_lookup_middle. Qed.

Lemma new_QuadTree_child_inv add n x y w ht mE mD arr p h c h' :
  p < length h →
  new_QuadTree add n x y w ht mE mD arr (Some p) h = Some (c, h') →
  ∃ pt, h !! p = Some pt ∧ c = length h ∧
    for_live n (λ h, pt ← h !! p; Some (_elements pt))
      (AddElement_stmt add (length h)) 0
      (h ++ [child_node x y w ht mE mD p pt]) = Some h'.
Proof.
  unfold new_QuadTree. intros Hp H.
  apply bind_Some in H as (pt & Hpt & H).
  apply bind_Some in H as (h1 & Hh1 & H).
  apply bind_Some in H as (h2 & Hh2 & H). injection H as <- <-.
  rewrite lookup_app_l in Hpt by done.
  exists pt. split; [done|]. split; [done|].
  apply modify_Some in Hh1 as (t & Ht & ->).
  rewrite lookup_snoc_new in Ht. injection Ht as <-.
  by rewrite insert_snoc in Hh2.
Qed.

Lemma new_QuadTree_root_inv add n x y w ht mE mD arr h c h' :
  new_QuadTree add n x y w ht mE mD arr None h = Some (c, h') →
  c = length h ∧
  for_live n arr (AddElement_stmt add (length h)) 0
    (h ++ [root_node x y w ht mE mD]) = Some h'.
Proof.
  unfold new_QuadTree. intros H.
  apply bind_Some in H as (h1 & Hh1 & H).
  apply bind_Some in H as (h2 & Hh2 & H). injection H as <- <-.
  split; [done|].
  apply modify_Some in Hh1 as (t & Ht & ->).
  rewrite lookup_snoc_new in Ht. injection Ht as <-.
  by rewrite insert_snoc in Hh2.
Qed.

Lemma AddElement_turn_inv add n G r el tree h res :
  AddElement_turn add n G r el tree h = Some res →
  turn_case add n G r el tree h res.
Proof.
  unfold AddElement_turn. intros H.
  apply bind_Some in H as (t & Ht & H).
  fold (inside G el t) in H.
  destruct (inside G el t) eqn:Hin; simpl in H.
  2:{ injection H as <-. by eapply turn_outside. }
  apply bind_Some in H as (h1 & Hh1 & H).
  apply bind_Some in H as (h2 & Hh2 & H).
  apply bind_Some in H as (t2 & Ht2 & H).
  destruct (IsSplit t2) eqn:Hsp.
  { injection H as <-. by eapply turn_descend. }
  destruct (may_split t2) eqn:Hms.
  2:{ injection H as <-. by eapply turn_keep. }
  cbv zeta in H.
  apply bind_Some in H as ([c0 h3] & E0 & H).
  apply bind_Some in H as ([c1 h4] & E1 & H).
  apply bind_Some in H as ([c2 h5] & E2 & H).
  apply bind_Some in H as ([c3 h6] & E3 & H).
  apply bind_Some in H as (h7 & Hh7 & H). injection H as <-.
  eapply (turn_split _ _ _ _ _ _ _ t h1 h2 t2 [c0; c1; c2; c3] h6); try done.
  unfold split_children. cbv zeta. rewrite E0. simpl. rewrite E1. simpl.
  rewrite E2. simpl. rewrite E3. done.
Qed.

Lemma split_children_inv add n tree t h cs h' :
  split_children add n tree t h = Some (cs, h') →
  ∃ c0 c1 c2 c3 h1 h2 h3,
    cs = [c0; c1; c2; c3] ∧
    new_QuadTree add n (_x t) (_y t) (_width t / 2)%float (_height t / 2)%float
      (_maxElements t) (_maxDepth t) (λ _, Some []) (Some tree) h = Some (c0, h1) ∧
    new_QuadTree add n (_x t + _width t / 2)%float (_y t) (_width t / 2)%float (_height t / 2)%float
      (_maxElements t) (_maxDepth t) (λ _, Some []) (Some tree) h1 = Some (c1, h2) ∧
    new_QuadTree add n (_x t) (_y t + _height t / 2)%float (_width t / 2)%float (_height t / 2)%float
      (_maxElements t) (_maxDepth t) (λ _, Some []) (Some tree) h2 = Some (c2, h3) ∧
    new_QuadTree add n (_x t + _width t / 2)%float (_y t + _height t / 2)%float
      (_width t / 2)%float (_height t / 2)%float
      (_maxElements t) (_maxDepth t) (λ _, Some []) (Some tree) h3 = Some (c3, h').
Proof.
  unfold split_children. cbv zeta. intros H.
  apply bind_Some in H as ([c0 h1] & E0 & H).
  apply bind_Some in H as ([c1 h2] & E1 & H).
  apply bind_Some in H as ([c2 h3] & E2 & H).
  apply bind_Some in H as ([c3 h4] & E3 & H). injection H as <- <-.
  eauto 12.
Qed.

Lemma AddElement_inv fuel G this el h b h' :
  AddElement fuel G this el h = Some (b, h') →
  ∃ fuel' r l h1 l',
    fuel = S fuel' ∧ rootTree this h = Some r ∧
    _GetParentsForElement this el true h = Some (Some l, h1) ∧
    while_pool fuel' (AddElement_turn (AddElement fuel' G) fuel' G r el) [this] h1
      = Some (inl h') ∧
    owner_entry r el h' = Some (Some l') ∧
    b = (length l <? length l').
Proof.
  destruct fuel as [|fuel]; [done|]. simpl. intros H.
  apply bind_Some in H as (r & Hr & H).
  apply bind_Some in H as ([e h1] & Hg & H).
  apply bind_Some in H as (l & -> & H).
  apply bind_Some in H as (res & Hw & H).
  destruct res as [h2|[]].
  apply bind_Some in H as (e' & He' & H).
  apply bind_Some in H as (l' & -> & H). injection H as <- <-.
  eauto 12.
Qed.


Lemma while_pool_single {S R} n (body : nat → S → option (turn S R)) a s res :
  while_pool n body [a] s = Some res →
  ∃ n' r, n = Datatypes.S n' ∧ body a s = Some r ∧
    match r with
    | Continue s' pushed => while_pool n' body pushed s' = Some res
    | Return x => res = inr x
    end.
Proof.
  destruct n as [|n]; [done|]. simpl.
  change (js_pop [a]) with (Some (@nil nat, a)).
  intros H. apply bind_Some in H as (r & Hr & H).
  exists n, r. split; [done|]. split; [done|].
  destruct r; [done|]. by injection H as <-.
Qed.

Lemma while_pool_nil {S R} n (body : nat → S → option (turn S R)) s res :
  while_pool n body [] s = Some res → res = inl s.
Proof. destruct n; [done|]. simpl. by intros [= <-]. Qed.

(** ** Allocation and linking *)

Lemma grow_app h l m b : grow m h b → grow m (h ++ l) b.
Proof.
  revert b. induction m as [|m IH]; intros b; [done|]. simpl.
  intros (t & Ht & Hd & Hc). exists t. split; [by apply lookup_app_l_Some|].
  split; [done|]. destruct (_children t); [done|].
  eapply Forall_impl; [exact Hc|]. apply IH.
Qed.

Lemma evolves_alloc k r h node :
  _elements node = [] → _children node = [] →
  _elementsParents node = None ∨ _elementsParents node = Some ∅ →
  evolves k r h (h ++ [node]).
Proof.
  intros Hel Hleaf Hep.
  assert (Hown : ∀ id, owners (h ++ [node]) r id = owners h r id).
  { intros id. unfold owners, owner_entry.
    destruct (decide (r < length h)) as [Hlt|Hge].
    - by rewrite lookup_app_l.
    - rewrite (lookup_ge_None_2 h r) by lia. simpl.
      destruct (decide (r = length h)) as [->|Hne].
      + rewrite lookup_snoc_new. simpl. destruct Hep as [-> | ->]; [done|].
        simpl. by rewrite lookup_empty.
      + rewrite lookup_ge_None_2; [done|]. rewrite length_app. simpl. lia. }
  split; [split|].
  - rewrite length_app. lia.
  - intros a t Ht. exists t. split; [by apply lookup_app_l_Some|]. apply node_ev_refl.
  - intros id l Hl. exists []. rewrite app_nil_r.
    rewrite owner_entry_app; [done|].
    apply owner_entry_Some in Hl as (rt & m & Hrt & _). by eapply lookup_lt_Some.
  - intros m b. apply grow_app.
  - intros c tc Hc Htc Hd. apply lookup_app_Some in Htc as [Htc|[_ Htc]].
    { apply lookup_lt_Some in Htc. lia. }
    apply list_lookup_singleton_Some in Htc as [Hc0 <-].
    assert (c = length h) as -> by lia.
    exists (S (headroom node)). simpl. exists node.
    split; [apply lookup_snoc_new|]. split; [done|]. by rewrite Hleaf.
  - intros N id. rewrite Hown. f_equal. f_equal. unfold elements_of.
    destruct (decide (N < length h)) as [Hlt|Hge].
    + by rewrite lookup_app_l.
    + rewrite (lookup_ge_None_2 h N) by lia.
      destruct (decide (N = length h)) as [->|Hne].
      * rewrite lookup_snoc_new. simpl. done.
      * rewrite lookup_ge_None_2; [done|]. rewrite length_app. simpl. lia.
Qed.

Lemma closed_alloc_child k r h p pt x y w ht mE mD :
  closed k r h → h !! p = Some pt → k ≤ p →
  closed k r (h ++ [child_node x y w ht mE mD p pt]).
Proof.
  intros [(rt & m & Hrt & Hm) N] Hp Hk. split.
  - exists rt, m. split; [by apply lookup_app_l_Some|done].
  - intros a t Ht Hka. apply lookup_app_Some in Ht as [Ht|(Hge & Ht)].
    + destruct (N _ _ Ht Hka) as (Hr & Hnd & HF). split; [done|]. split; [done|].
      eapply Forall_impl; [exact HF|]. intros c (Hlt & tc & Htc & Hpc).
      split; [done|]. exists tc. split; [by apply lookup_app_l_Some|done].
    + destruct (a - length h) as [|d] eqn:Hd; simpl in Ht; [|done].
      injection Ht as <-. simpl. split; [|split; [constructor|constructor]].
      by destruct (N _ _ Hp Hk) as (Hr & _).
Qed.

Lemma closed_alloc_root h x y w ht mE mD :
  closed (length h) (length h) (h ++ [root_node x y w ht mE mD]).
Proof.
  split.
  - eexists _, _. rewrite lookup_snoc_new. done.
  - intros a t Ht Hka. apply lookup_app_Some in Ht as [Ht|(Hge & Ht)].
    + apply lookup_lt_Some in Ht. lia.
    + destruct (a - length h) as [|d] eqn:Hd; simpl in Ht; [|done].
      injection Ht as <-. simpl. split; [lia|]. split; constructor.
Qed.

Lemma grow_set_children h tree t cs :
  h !! tree = Some t → _children t = [] →
  ((0 <= _maxDepth t)%Z → Forall (grow (headroom t) h) cs) →
  ∀ m b, grow m h b → grow m (<[tree := set_children cs t]> h) b.
Proof.
  intros Ht Hleaf Hcs. induction m as [|m IH]; intros b; [done|]. simpl.
  intros (tb & Hb & Hd & Hc).
  destruct (lookup_insert_cases h tree t (set_children cs t) b tb Ht Hb)
    as [(-> & -> & Hl)|(Hne & Hl)].
  - exists (set_children cs t). split; [done|]. split; [done|]. simpl.
    rewrite Hleaf in Hc.
    destruct cs as [|c cs]; [done|].
    eapply Forall_impl; [exact (Hcs Hd)|]. intros x Hx. apply IH.
    eapply grow_mono; [|exact Hx]. done.
  - exists tb. split; [done|]. split; [done|].
    destruct (_children tb); [done|]. eapply Forall_impl; [exact Hc|]. apply IH.
Qed.

(** [tree._children = [ c0, c1, c2, c3 ]] on a leaf. *)
Lemma set_children_step k r h tree t cs h' :
  modify tree (set_children cs) h = Some h' →
  h !! tree = Some t → _children t = [] → k ≤ tree → closed k r h →
  NoDup cs →
  Forall (λ c, tree < c ∧ ∃ tc, h !! c = Some tc ∧ _parent tc = Some tree) cs →
  ((0 <= _maxDepth t)%Z → Forall (grow (headroom t) h) cs) →
  evolves k r h h' ∧ closed k r h' ∧ h' !! tree = Some (set_children cs t).
Proof.
  intros Hm Ht Hleaf Hk Hcl Hnd Hcs Hg.
  apply modify_Some in Hm as (t0 & Ht0 & ->).
  assert (t0 = t) as -> by congruence.
  assert (Hlt : tree < length h) by (by eapply lookup_lt_Some).
  split; [split; [split|]|split].
  - by rewrite length_insert.
  - intros b tb Hb.
    destruct (lookup_insert_cases h tree t (set_children cs t) b tb Ht Hb)
      as [(-> & -> & Hl)|(Hne & Hl)].
    + eexists. split; [done|]. split; auto.
      * by repeat split.
      * intros. lia.
    + exists tb. split; [done|]. apply node_ev_refl.
  - intros id l Hl. exists []. rewrite app_nil_r.
    by rewrite (owner_entry_insert_ep r id h tree t).
  - by apply grow_set_children.
  - intros c tc Hc Htc. apply lookup_lt_Some in Htc. rewrite length_insert in Htc. lia.
  - intros N id. rewrite (owners_insert_ep r id h tree t) by done.
    by rewrite (elements_of_insert_els h tree N t).
  - destruct Hcl as [(rt & m & Hrt & Hmr) N]. split.
    + destruct (lookup_insert_cases h tree t (set_children cs t) r rt Ht Hrt)
        as [(-> & -> & Hl)|(Hne & Hl)]; eauto.
    + intros b tb' Hb' Hkb.
      assert (Hlook : ∀ c tc, h !! c = Some tc →
                ∃ tc', <[tree := set_children cs t]> h !! c = Some tc' ∧
                       _parent tc' = _parent tc).
      { intros c tc Hc.
        destruct (lookup_insert_cases h tree t (set_children cs t) c tc Ht Hc)
          as [(-> & -> & Hl)|(Hne & Hl)]; eauto. }
      destruct (decide (b = tree)) as [->|Hne].
      * rewrite list_lookup_insert_eq in Hb' by done. injection Hb' as <-. simpl.
        destruct (N _ _ Ht Hkb) as (Hr & _). split; [done|]. split; [done|].
        eapply Forall_impl; [exact Hcs|]. intros c (Hc & tc & Htc & Hp).
        split; [done|]. destruct (Hlook _ _ Htc) as (tc' & Htc' & Hp').
        exists tc'. split; [done|]. congruence.
      * rewrite list_lookup_insert_ne in Hb' by done.
        destruct (N _ _ Hb' Hkb) as (Hr & Hnd' & HF). split; [done|]. split; [done|].
        eapply Forall_impl; [exact HF|]. intros c (Hc & tc & Htc & Hp).
        split; [done|]. destruct (Hlook _ _ Htc) as (tc' & Htc' & Hp').
        exists tc'. split; [done|]. congruence.
  - by apply list_lookup_insert_eq.
Qed.


(** ** What [AddElement] does to the heap *)

Lemma evolves_frame k r h h' a t :
  evolves k r h h' → h !! a = Some t → a < k →
  ∃ t', h' !! a = Some t' ∧ same_static t t' ∧
        _elements t' = _elements t ∧ _children t' = _children t.
Proof.
  intros [[_ N _ _] _] Ht Hk. destruct (N _ _ Ht) as (t' & Ht' & [S1 C1 F1 O1 P1]).
  exists t'. destruct (F1 Hk). done.
Qed.

Lemma evolves_lookup k r h h' a t :
  evolves k r h h' → h !! a = Some t →
  ∃ t', h' !! a = Some t' ∧ same_static t t'.
Proof.
  intros [[_ N _ _] _] Ht. destruct (N _ _ Ht) as (t' & Ht' & [S1 C1 F1 O1 P1]).
  eauto.
Qed.

Lemma evolves_length k r h h' : evolves k r h h' → length h ≤ length h'.
Proof. by intros [[L _ _ _] _]. Qed.

Lemma built_frame G k r h h' p pt c x y w ht mE mD :
  built G h p pt c x y w ht mE mD → evolves k r h h' → c < k →
  built G h' p pt c x y w ht mE mD.
Proof.
  intros (tc & Htc & Hs & He & Hg) Hev Hk.
  destruct (evolves_frame _ _ _ _ _ _ Hev Htc Hk) as (tc' & Htc' & Hs' & He' & _).
  exists tc'. split; [done|]. split; [by eapply same_static_trans|].
  split; [congruence|]. intros Hd. rewrite (headroom_static _ _ Hs').
  destruct Hev as [[_ _ _ Hgr _] _]. auto.
Qed.

Lemma filter_snoc (f : nat → bool) l a :
  List.filter f (l ++ [a]) = List.filter f l ++ (if f a then [a] else []).
Proof. rewrite List.filter_app. simpl. by destruct (f a). Qed.

Lemma NoDup_increasing4 (a b c d : nat) :
  a < b → b < c → c < d → NoDup [a; b; c; d].
Proof.
  intros. repeat (apply NoDup_cons; split;
    [rewrite ?elem_of_cons, elem_of_nil; lia|]).
  apply NoDup_nil. done.
Qed.

Section Master.
Variable G : Elements.
Variable add : nat → nat → list QuadTree → option (bool * list QuadTree).
Hypothesis add_spec : ∀ k r this el h b h',
    add this el h = Some (b, h') → closed k r h → k ≤ this → this < length h →
    add_post G k r this el h b h'.

Lemma ctor_spec k r n x y w ht mE mD arr p h c h' :
    new_QuadTree add n x y w ht mE mD arr (Some p) h = Some (c, h') →
    closed k r h → k ≤ p → p < length h →
    c = length h ∧ evolves c r h h' ∧ closed k r h' ∧ c < length h' ∧
    ∃ pt, h !! p = Some pt ∧ built G h' p pt c x y w ht mE mD.
  Proof.
    intros Hnew Hcl Hk Hp.
    apply new_QuadTree_child_inv in Hnew as (pt & Hpt & -> & Hfor); [|done].
    set (node := child_node x y w ht mE mD p pt) in *.
    set (c := length h) in *. set (h1 := h ++ [node]) in *.
    set (f := λ e : nat, IsInsideRect (G e) x y w ht).
    assert (Hev1 : evolves c r h h1) by (apply evolves_alloc; auto).
    assert (Hcl1 : closed k r h1) by (by apply closed_alloc_child).
    assert (Hc1 : h1 !! c = Some node) by apply lookup_snoc_new.
    assert (Hp1 : h1 !! p = Some pt) by (by apply lookup_app_l_Some).
    pose (I := λ (i : nat) (h2 : list QuadTree),
      evolves c r h1 h2 ∧ closed k r h2 ∧
      ∃ tc, h2 !! c = Some tc ∧ same_static node tc ∧
            _elements tc = List.filter f (take i (_elements pt))).
    assert (Harr : ∀ h2, evolves c r h1 h2 →
              (pt0 ← h2 !! p; Some (_elements pt0)) = Some (_elements pt)).
    { intros h2 Hev. destruct (evolves_frame _ _ _ _ _ _ Hev Hp1 Hp)
        as (pt2 & Hpt2 & _ & He & _). rewrite Hpt2. simpl. by rewrite He. }
    eapply (for_live_inv I) in Hfor.
    - destruct Hfor as (i' & l & (Hev & Hcl' & tc & Htc & Hs & He) & Hl & Hi').
      rewrite (Harr _ Hev) in Hl. injection Hl as <-.
      rewrite take_ge in He by (by apply lookup_ge_None_1).
      split; [done|]. split; [by eapply evolves_trans|]. split; [done|].
      split; [by eapply lookup_lt_Some|].
      exists pt. split; [done|]. exists tc. split; [done|]. split; [done|].
      split; [done|]. intros Hd.
      rewrite (headroom_static _ _ Hs).
      destruct Hev as [[_ _ _ Hgr _] _]. apply Hgr. simpl.
      exists node. split; [done|]. split; [done|]. simpl. done.
    - intros i h2 l a h3 (Hev & Hcl2 & tc & Htc & Hs & He) Hl Ha Hbody.
      rewrite (Harr _ Hev) in Hl. injection Hl as <-.
      unfold AddElement_stmt in Hbody.
      apply bind_Some in Hbody as ([b h3'] & Hadd & Hbody). injection Hbody as ->.
      assert (Hlt : c < length h2) by (by eapply lookup_lt_Some).
      assert (Hkc : k ≤ c) by (unfold c; lia).
      destruct (add_spec k r c a h2 b h3 Hadd Hcl2 Hkc Hlt) as (_ & Hcl3 & _).
      destruct (add_spec c r c a h2 b h3 Hadd (closed_weaken _ _ _ _ Hkc Hcl2)
                  (Nat.le_refl _) Hlt)
        as (Hev3 & _ & t & t' & Ht & Ht' & Hb & He').
      assert (t = tc) as -> by congruence.
      split; [by eapply evolves_trans|]. split; [done|].
      exists t'. split; [done|].
      destruct (evolves_lookup _ _ _ _ _ _ Hev3 Htc) as (t'' & Ht'' & Hs'').
      assert (t'' = t') as -> by congruence.
      split; [by eapply same_static_trans|].
      rewrite He', He. rewrite (take_S_r _ _ _ Ha), filter_snoc.
      f_equal. rewrite Hb. unfold inside, f.
      destruct Hs as (-> & -> & -> & -> & _). done.
    - split; [apply evolves_refl|]. split; [done|].
      exists node. split; [done|]. split; [apply same_static_refl|done].
  Qed.

Lemma built_parent h' p pt pt' c x y w ht mE mD :
    same_static pt pt' → _elements pt' = _elements pt →
    built G h' p pt' c x y w ht mE mD → built G h' p pt c x y w ht mE mD.
  Proof.
    intros Hs He (tc & Htc & Hsc & Hec & Hg). exists tc. split; [done|].
    unfold child_node in *. destruct Hs as (_ & _ & _ & _ & _ & Hr & Hd & _).
    rewrite Hr, Hd, He in *. done.
  Qed.

Lemma split_children_spec k r n tree t h cs h' :
    split_children add n tree t h = Some (cs, h') →
    closed k r h → k ≤ tree → h !! tree = Some t →
    evolves (length h) r h h' ∧ closed k r h' ∧
    ∃ c0 c1 c2 c3, cs = [c0; c1; c2; c3] ∧
      length h ≤ c0 ∧ c0 < c1 ∧ c1 < c2 ∧ c2 < c3 ∧ c3 < length h' ∧
      built G h' tree t c0 (_x t) (_y t) (_width t / 2) (_height t / 2)
        (_maxElements t) (_maxDepth t) ∧
      built G h' tree t c1 (_x t + _width t / 2) (_y t) (_width t / 2) (_height t / 2)
        (_maxElements t) (_maxDepth t) ∧
      built G h' tree t c2 (_x t) (_y t + _height t / 2) (_width t / 2) (_height t / 2)
        (_maxElements t) (_maxDepth t) ∧
      built G h' tree t c3 (_x t + _width t / 2) (_y t + _height t / 2)
        (_width t / 2) (_height t / 2) (_maxElements t) (_maxDepth t).
  Proof.
    intros Hsp Hcl Hk Ht.
    apply split_children_inv in Hsp
      as (c0 & c1 & c2 & c3 & h1 & h2 & h3 & -> & E0 & E1 & E2 & E3).
    assert (Hlt : tree < length h) by (by eapply lookup_lt_Some).
    apply (ctor_spec k r) in E0 as (-> & Hev0 & Hcl0 & Hl0 & pt0 & Hpt0 & Hb0);
      [|done..].
    assert (pt0 = t) as -> by congruence.
    destruct (evolves_frame _ _ _ _ _ _ Hev0 Ht Hlt) as (t1 & Ht1 & Hs1 & He1 & _).
    pose proof (evolves_length _ _ _ _ Hev0) as Hlen0.
    apply (ctor_spec k r) in E1 as (-> & Hev1 & Hcl1 & Hl1 & pt1 & Hpt1 & Hb1);
      [|done|done|lia].
    assert (pt1 = t1) as -> by congruence.
    apply (built_parent _ _ t) in Hb1; [|done..].
    assert (Hlt1 : tree < length h1) by lia.
    destruct (evolves_frame _ _ _ _ _ _ Hev1 Ht1 Hlt1) as (t2 & Ht2 & Hs2 & He2 & _).
    pose proof (evolves_length _ _ _ _ Hev1) as Hlen1.
    apply (ctor_spec k r) in E2 as (-> & Hev2 & Hcl2 & Hl2 & pt2 & Hpt2 & Hb2);
      [|done|done|lia].
    assert (pt2 = t2) as -> by congruence.
    apply (built_parent _ _ t) in Hb2;
      [|by eapply same_static_trans|congruence].
    assert (Hlt2 : tree < length h2) by lia.
    destruct (evolves_frame _ _ _ _ _ _ Hev2 Ht2 Hlt2) as (t3 & Ht3 & Hs3 & He3 & _).
    pose proof (evolves_length _ _ _ _ Hev2) as Hlen2.
    apply (ctor_spec k r) in E3 as (-> & Hev3 & Hcl3 & Hl3 & pt3 & Hpt3 & Hb3);
      [|done|done|lia].
    assert (pt3 = t3) as -> by congruence.
    apply (built_parent _ _ t) in Hb3;
      [|by eauto using same_static_trans|congruence].
    pose proof (evolves_length _ _ _ _ Hev3) as Hlen3.
    split.
    { eapply evolves_trans; [exact Hev0|].
      eapply evolves_trans; [eapply evolves_weaken; [|exact Hev1]; lia|].
      eapply evolves_trans; [eapply evolves_weaken; [|exact Hev2]; lia|].
      eapply evolves_weaken; [|exact Hev3]; lia. }
    split; [done|].
    exists (length h), (length h1), (length h2), (length h3).
    split; [done|]. repeat (split; [lia|]).
    split; [|split; [|split]]; [| | |done].
    - eapply built_frame; [|exact Hev3|lia].
      eapply built_frame; [|exact Hev2|lia].
      eapply built_frame; [|exact Hev1|lia]. done.
    - eapply built_frame; [|exact Hev3|lia].
      eapply built_frame; [|exact Hev2|lia]. done.
    - eapply built_frame; [|exact Hev3|lia]. done.
  Qed.

Lemma may_split_headroom t :
    may_split t = true → (0 <= _maxDepth t)%Z →
    headroom t = S (Z.to_nat (_maxDepth t - (_depth t + 1))).
  Proof.
    unfold may_split, headroom. intros H Hd.
    apply andb_true_iff in H as [H _]. apply orb_true_iff in H as [H|H].
    - apply Z.ltb_lt in H. lia.
    - apply Z.ltb_lt in H. lia.
  Qed.

Lemma built_link h' p pt c x y w ht mE mD :
    built G h' p pt c x y w ht mE mD →
    ∃ tc, h' !! c = Some tc ∧ _parent tc = Some p ∧
      ((0 <= mD)%Z → grow (S (Z.to_nat (mD - (_depth pt + 1)))) h' c).
  Proof.
    intros (tc & Htc & Hs & _ & Hg). exists tc. split; [done|].
    destruct Hs as (_ & _ & _ & _ & _ & _ & Hd & Hp & Hm). split; [done|].
    intros H0. specialize (Hg H0). unfold headroom in Hg.
    rewrite Hd, Hm in Hg. done.
  Qed.

Lemma turn_spec k r n el tree h res :
    AddElement_turn add n G r el tree h = Some res →
    closed k r h → k ≤ tree →
    ∃ h' pushed t t',
      res = Continue h' pushed ∧ evolves k r h h' ∧ closed k r h' ∧
      Forall (λ c, tree < c ∧ c < length h') pushed ∧
      h !! tree = Some t ∧ h' !! tree = Some t' ∧
      _elements t' = _elements t ++ (if inside G el t then [el] else []) ∧
      (inside G el t = true →
         ∃ l2, owner_entry r el h' = Some (Some (owners h r el ++ tree :: l2))) ∧
      (inside G el t = false → h' = h ∧ pushed = []).
  Proof.
    intros Hturn Hcl Hk. apply AddElement_turn_inv in Hturn.
    destruct Hturn as [t Ht Hin | t h1 h2 t2 Ht Hin Hp Hm Ht2 Hsp
                      | t h1 h2 t2 Ht Hin Hp Hm Ht2 Hsp Hms
                      | t h1 h2 t2 cs h3 h4 Ht Hin Hp Hm Ht2 Hsp Hms Hcs Hset].
    - exists h, [], t, t. rewrite Hin, app_nil_r.
      split; [done|]. split; [apply evolves_refl|]. do 5 (split; [done|]).
      split; [done|]. done.
    - destruct (push_step k r el tree h h1 h2 Hp Hm Hk)
        as (Hev & Hlen & Hown & Hcl2 & Hnodes).
      destruct (Hnodes _ _ Ht) as (t2' & Ht2' & Hsoft & He).
      assert (t2' = t2) as -> by congruence. rewrite decide_True in He by done.
      exists h2, (_children t2), t, t2. rewrite Hin.
      split; [done|]. split; [done|]. split; [by apply Hcl2|].
      split.
      { apply Forall_forall. intros c Hc.
        destruct (closed_children k r h2 tree t2 c (Hcl2 _ _ Hcl) Ht2 Hk Hc)
          as (? & ? & _). done. }
      do 3 (split; [done|]). split; [|done].
      intros _. exists []. done.
    - destruct (push_step k r el tree h h1 h2 Hp Hm Hk)
        as (Hev & Hlen & Hown & Hcl2 & Hnodes).
      destruct (Hnodes _ _ Ht) as (t2' & Ht2' & Hsoft & He).
      assert (t2' = t2) as -> by congruence. rewrite decide_True in He by done.
      exists h2, [], t, t2. rewrite Hin.
      split; [done|]. split; [done|]. split; [by apply Hcl2|].
      split; [constructor|].
      do 3 (split; [done|]). split; [|done].
      intros _. exists []. done.
    - destruct (push_step k r el tree h h1 h2 Hp Hm Hk)
        as (Hev & Hlen & Hown & Hcl2 & Hnodes).
      destruct (Hnodes _ _ Ht) as (t2' & Ht2' & Hsoft & He).
      assert (t2' = t2) as -> by congruence. rewrite decide_True in He by done.
      specialize (Hcl2 _ _ Hcl).
      destruct (split_children_spec k r n tree t2 h2 cs h3 Hcs Hcl2 Hk Ht2)
        as (Hev3 & Hcl3 & c0 & c1 & c2 & c3 & -> & Hc0 & Hc1 & Hc2 & Hc3 & Hc4
            & B0 & B1 & B2 & B3).
      assert (Hlt2 : tree < length h2) by (by eapply lookup_lt_Some).
      destruct (evolves_frame _ _ _ _ _ _ Hev3 Ht2 Hlt2) as (t3 & Ht3 & Hs3 & He3 & Hch3).
      assert (Hleaf : _children t3 = []).
      { rewrite Hch3. unfold IsSplit in Hsp. apply Nat.ltb_ge in Hsp.
        destruct (_children t2); [done|simpl in Hsp; lia]. }
      destruct (built_link _ _ _ _ _ _ _ _ _ _ B0) as (tc0 & Htc0 & Hp0 & Hg0).
      destruct (built_link _ _ _ _ _ _ _ _ _ _ B1) as (tc1 & Htc1 & Hp1 & Hg1).
      destruct (built_link _ _ _ _ _ _ _ _ _ _ B2) as (tc2 & Htc2 & Hp2 & Hg2).
      destruct (built_link _ _ _ _ _ _ _ _ _ _ B3) as (tc3 & Htc3 & Hp3 & Hg3).
      destruct (set_children_step k r h3 tree t3 [c0; c1; c2; c3] h4 Hset Ht3 Hleaf Hk Hcl3)
        as (Hev4 & Hcl4 & Ht4).
      { apply NoDup_increasing4; lia. }
      { repeat constructor; (lia || eauto). }
      { intros Hd. destruct Hs3 as (_ & _ & _ & _ & _ & _ & Hdp & _ & Hmd).
        assert (headroom t3 = S (Z.to_nat (_maxDepth t2 - (_depth t2 + 1)))) as ->.
        { rewrite <- (may_split_headroom t2 Hms) by lia.
          unfold headroom. by rewrite Hdp, Hmd. }
        rewrite Hmd in Hd. repeat constructor; auto. }
      exists h4, [], t, (set_children [c0; c1; c2; c3] t3). rewrite Hin.
      split; [done|]. split.
      { eapply evolves_trans; [exact Hev|].
        eapply evolves_trans; [|exact Hev4].
        eapply evolves_weaken; [|exact Hev3]. lia. }
      split; [done|]. split; [constructor|]. do 2 (split; [done|]).
      split; [simpl; congruence|]. split; [|done].
      intros _.
      assert (Hev34 : evolves k r h2 h4).
      { eapply evolves_trans; [|exact Hev4].
        eapply evolves_weaken; [|exact Hev3]. lia. }
      destruct Hev34 as [[_ _ Ho _] _]. destruct (Ho _ _ Hown) as (l' & Hl').
      exists l'. rewrite Hl'. by rewrite <- app_assoc.
  Qed.

Lemma loop_spec k r n el pool h h' :
    while_pool n (AddElement_turn add n G r el) pool h = Some (inl h') →
    closed k r h → Forall (λ a, k ≤ a ∧ a < length h) pool →
    evolves k r h h' ∧ closed k r h'.
  Proof.
    intros Hloop Hcl Hpool.
    pose (I := λ (pool : list nat) (h1 : list QuadTree),
      evolves k r h h1 ∧ closed k r h1 ∧ Forall (λ a, k ≤ a ∧ a < length h1) pool).
    pose (Q := λ res : list QuadTree + Empty_set,
      match res with inl h' => evolves k r h h' ∧ closed k r h' | inr _ => True end).
    apply (while_pool_inv I Q) in Hloop; [done| | |].
    - intros pool0 tree h1 res (Hev & Hcl1 & HF) Hturn.
      apply Forall_app in HF as [HF Htree].
      apply Forall_singleton in Htree as [Hk Hlt].
      destruct (turn_spec k r n el tree h1 res Hturn Hcl1 Hk)
        as (h2 & pushed & t & t' & -> & Hev2 & Hcl2 & Hpushed & _).
      split; [by eapply evolves_trans|]. split; [done|].
      apply Forall_app. split.
      + eapply Forall_impl; [exact HF|]. intros a [? ?]. split; [done|].
        pose proof (evolves_length _ _ _ _ Hev2). lia.
      + eapply Forall_impl; [exact Hpushed|]. intros a [? ?]. split; [lia|done].
    - intros h1 (Hev & Hcl1 & _). done.
    - split; [apply evolves_refl|]. done.
  Qed.
End Master.

Lemma AddElement_spec G fuel : ∀ k r this el h b h',
  AddElement fuel G this el h = Some (b, h') →
  closed k r h → k ≤ this → this < length h →
  add_post G k r this el h b h'.
Proof.
  induction fuel as [|fuel IH]; intros k r this el h b h' Hadd Hcl Hk Hlt; [done|].
  apply AddElement_inv in Hadd as (fuel' & r' & l & h1 & l' & [= <-] & Hr & Hg & Hloop & Hown & ->).
  rewrite (closed_rootTree k r h this Hcl Hk Hlt) in Hr. injection Hr as <-.
  destruct (GetParents_create k r this el h _ h1
              (closed_rootTree k r h this Hcl Hk Hlt) Hg)
    as (Hl & Hown1 & Hev1 & Hlen1 & Hel1 & Hcl1 & Hnodes1).
  injection Hl as ->. specialize (Hcl1 _ _ Hcl).
  apply while_pool_single in Hloop as (n' & res & -> & Hturn & Hrest).
  destruct (turn_spec G _ IH k r _ el this h1 res Hturn Hcl1 Hk)
    as (h2 & pushed & t1 & t2 & -> & Hev2 & Hcl2 & Hpushed & Ht1 & Ht2 & He2 & Hin & Hout).
  assert (Hmono : ∀ a s r0,
    AddElement_turn (AddElement (S n') G) (S n') G r el a s = Some r0 →
    AddElement_turn (AddElement (S n') G) (S n') G r el a s = Some r0) by auto.
  assert (Hrest' : while_pool (S n')
            (AddElement_turn (AddElement (S n') G) (S n') G r el) pushed h2
          = Some (inl h')).
  { eapply while_pool_mono; [exact Hmono| |exact Hrest]. lia. }
  assert (HkS : k ≤ S this) by lia.
  destruct (loop_spec G _ IH (S this) r _ el pushed h2 h' Hrest'
              (closed_weaken _ _ _ _ HkS Hcl2))
    as (Hev3 & _).
  { eapply Forall_impl; [exact Hpushed|]. intros a [? ?]. lia. }
  destruct (loop_spec G _ IH k r _ el pushed h2 h' Hrest' Hcl2) as (_ & Hcl3).
  { eapply Forall_impl; [exact Hpushed|]. intros a [? ?]. lia. }
  destruct (evolves_frame _ _ _ _ _ _ Hev3 Ht2 (Nat.lt_succ_diag_r _))
    as (t3 & Ht3 & Hs3 & He3 & _).
  destruct (lookup_lt_is_Some_2 h this Hlt) as [t Ht].
  destruct (Hnodes1 _ _ Ht) as (t1' & Ht1' & Hsoft1 & He1).
  assert (t1' = t1) as -> by congruence.
  assert (Hinside : inside G el t1 = inside G el t).
  { unfold inside. destruct Hsoft1 as [(-> & -> & -> & -> & _) _ _]. done. }
  split.
  { eapply evolves_trans; [exact Hev1|]. eapply evolves_trans; [exact Hev2|].
    eapply evolves_weaken; [|exact Hev3]. lia. }
  split; [done|]. exists t, t3. split; [done|]. split; [done|].
  assert (Hb : (length (owners h r el) <? length l') = inside G el t).
  { rewrite <- Hinside. destruct (inside G el t1) eqn:Hi.
    - destruct (Hin eq_refl) as (l2 & Hl2).
      destruct Hev3 as [[_ _ Ho _] _]. destruct (Ho _ _ Hl2) as (l3 & Hl3).
      rewrite (owners_entry _ _ _ _ Hown1) in Hl3.
      assert (l' = (owners h r el ++ this :: l2) ++ l3) as -> by congruence.
      apply Nat.ltb_lt. rewrite !length_app. simpl. lia.
    - destruct (Hout eq_refl) as (-> & ->).
      apply while_pool_nil in Hrest. injection Hrest as <-.
      assert (l' = owners h r el) as -> by congruence.
      apply Nat.ltb_irrefl. }
  split; [done|]. rewrite Hb, He3, He2, He1, Hinside. done.
Qed.

(** ** The overlap predicates *)

Section Geometry.
Local Open Scope float_scope.

Lemma point_inside_iff px py x y w h :
  IsInsideRect (PointTreeElement px py) x y w h = true ↔
  (x <=? px) = true ∧ (px <? x + w) = true ∧
  (y <=? py) = true ∧ (py <? y + h) = true.
Proof.
  simpl. rewrite !andb_true_iff. tauto.
Qed.

(** A point is in the first of two rectangles or in the second according
    to the one comparison with the edge they share. *)
Lemma point_side_of_edge (p a b : float) :
  (p <? a + b) = true → xorb (p <? a) (a <=? p) = true.
Proof.
  intros H. destruct (ltb_number _ _ H) as [Hp Hab].
  destruct (add_number _ _ Hab) as [Ha _].
  rewrite (ltb_negb_leb p a Hp Ha). by destruct (a <=? p).
Qed.

(** Claim C8, amended.  The point predicate is half-open on both axes: a
    point is inside a rectangle exactly when x <= px < x + w and y <= py
    < y + h, the sums being the doubles that the code computes.  Two
    rectangles that touch along a vertical edge (the second starts at x
    + w) or along a horizontal edge (the second starts at y + h) never
    hold the same point; and a point that lies between the origin of the
    first and the far edge of the second, (x + w) + w2 or (y + h) + h2,
    is inside exactly one of the two. *)
Theorem point_in_exactly_one_of_two_adjacent (px py x y w h w2 h2 : float) :
  (IsInsideRect (PointTreeElement px py) x y w h = true ↔
     (x <=? px) = true ∧ (px <? x + w) = true ∧
     (y <=? py) = true ∧ (py <? y + h) = true) ∧
  (IsInsideRect (PointTreeElement px py) x y w h
     && IsInsideRect (PointTreeElement px py) (x + w) y w2 h = false) ∧
  (IsInsideRect (PointTreeElement px py) x y w h
     && IsInsideRect (PointTreeElement px py) x (y + h) w h2 = false) ∧
  ((x <=? px) = true → (px <? (x + w) + w2) = true →
   (y <=? py) = true → (py <? y + h) = true →
     xorb (IsInsideRect (PointTreeElement px py) x y w h)
          (IsInsideRect (PointTreeElement px py) (x + w) y w2 h) = true) ∧
  ((x <=? px) = true → (px <? x + w) = true →
   (y <=? py) = true → (py <? (y + h) + h2) = true →
     xorb (IsInsideRect (PointTreeElement px py) x y w h)
          (IsInsideRect (PointTreeElement px py) x (y + h) w h2) = true).
Proof.
  split; [apply point_inside_iff|]. simpl. repeat split.
  - destruct (px <? x + w) eqn:E; [|by rewrite !andb_false_r].
    by rewrite (ltb_leb_false _ _ E), !andb_false_r.
  - destruct (py <? y + h) eqn:E; [|by rewrite !andb_false_r].
    by rewrite (ltb_leb_false _ _ E), !andb_false_r.
  - intros Hx Hx2 Hy Hy2. rewrite Hx, Hx2, Hy, Hy2. simpl.
    rewrite !andb_true_r. by apply (point_side_of_edge px (x + w) w2).
  - intros Hx Hx2 Hy Hy2. rewrite Hx, Hx2, Hy, Hy2. simpl.
    rewrite !andb_true_r. by apply (point_side_of_edge py (y + h) h2).
Qed.

Lemma point_in_exactly_one_witness :
  xorb (IsInsideRect (PointTreeElement 50 10) 0 0 50 100)
       (IsInsideRect (PointTreeElement 50 10) (0 + 50) 0 50 100) = true.
Proof.
  apply (proj1 (proj2 (proj2 (proj2
           (point_in_exactly_one_of_two_adjacent 50 10 0 0 50 100 50 0)))));
    reflexivity.
Defined.

(** Two touching rectangles and a point that neither of them holds,
    although the joint rectangle of origin x and width w + w2 holds it,
    and although the exact sum of the origin and the width of the second
    lies beyond it: 0.1 + (0.65 + 0.65) is the double
    1.4000000000000001, whereas (0.1 + 0.65) + 0.65 is rounded down to
    the double 1.4. *)
Lemma point_in_neither_of_two_adjacent :
  IsInsideRect (PointTreeElement 1.4 0.5) 0.1 0 (0.65 + 0.65) 1 = true ∧
  (value (0.1 + 0.65) <= value 1.4 ∧
   value 1.4 < value (0.1 + 0.65) + value 0.65)%Q ∧
  IsInsideRect (PointTreeElement 1.4 0.5) 0.1 0 0.65 1 = false ∧
  IsInsideRect (PointTreeElement 1.4 0.5) (0.1 + 0.65) 0 0.65 1 = false.
Proof. by vm_compute. Qed.

Lemma clamp_cases lo hi v :
  (lo <=? hi) = true →
  clamp lo hi v = (if v <? lo then lo else if hi <? v then hi else v).
Proof.
  intros Hle. unfold clamp, fmin, fmax.
  destruct (v <? lo); [|done].
  by rewrite (leb_ltb_false _ _ Hle).
Qed.

(** Claim C9, amended.  For a rectangle whose far edges are not before
    its origin, the circle predicate is the comparison of two doubles:
    the squared distance from the centre to the centre clamped into the
    rectangle's span, every operation rounded, against the rounded r *
    r; a squared distance equal to r * r (tangency) counts as overlap,
    whereas a rectangle element whose right edge only touches the left
    edge of the rectangle does not overlap it. *)
Theorem circle_overlap_is_clamped_distance (cx cy r x y w h : float) :
  (x <=? x + w) = true → (y <=? y + h) = true →
  IsInsideRect (CircleTreeElement cx cy r) x y w h
    = (clamped_sq_distance cx cy x y w h <=? r * r) ∧
  ((clamped_sq_distance cx cy x y w h =? r * r) = true →
     IsInsideRect (CircleTreeElement cx cy r) x y w h = true) ∧
  (∀ ex ey ew eh, (ex + ew =? x) = true →
     IsInsideRect (RectTreeElement ex ey ew eh) x y w h = false).
Proof.
  intros Hw Hh.
  assert (Heq : IsInsideRect (CircleTreeElement cx cy r) x y w h
    = (clamped_sq_distance cx cy x y w h <=? r * r)).
  { unfold clamped_sq_distance. simpl.
    by rewrite (clamp_cases x (x + w) cx Hw), (clamp_cases y (y + h) cy Hh). }
  split; [exact Heq|]. split.
  - intros Htan. rewrite Heq. by apply eqb_leb.
  - intros ex ey ew eh Htouch. simpl.
    by rewrite (eqb_ltb_false _ _ Htouch), !andb_false_r.
Qed.

Lemma circle_overlap_witness :
  IsInsideRect (CircleTreeElement (-5) 5 5) 0 0 10 10
    = (clamped_sq_distance (-5) 5 0 0 10 10 <=? 5 * 5) ∧
  ((clamped_sq_distance (-5) 5 0 0 10 10 =? 5 * 5) = true →
     IsInsideRect (CircleTreeElement (-5) 5 5) 0 0 10 10 = true) ∧
  (∀ ex ey ew eh, (ex + ew =? 0) = true →
     IsInsideRect (RectTreeElement ex ey ew eh) 0 0 10 10 = false).
Proof.
  apply (circle_overlap_is_clamped_distance (-5) 5 5 0 0 10 10); reflexivity.
Defined.

(** Over the rationals the test and the distance differ.  The circle of
    centre (2^53 + 2, 0) and radius 1 touches the rectangle
    (2^53, 0, 1, 1) at its exact far edge 2^53 + 1, which the doubles
    round to 2^53: the code answers no.  The circle of centre (0, 0) and
    radius 1 stays clear of the rectangle (2^-30, 1, 1, 1), at a squared
    distance of 1 + 2^-60, which the doubles round to 1: the code
    answers yes. *)
Lemma circle_overlap_differs_from_exact_distance :
  (IsInsideRect (CircleTreeElement 9007199254740994 0 1)
     9007199254740992 0 1 1 = false ∧
   (exact_sq_distance (value 9007199254740994) (value 0)
      (value 9007199254740992) (value 0) (value 1) (value 1)
    <= value 1 * value 1)%Q) ∧
  (IsInsideRect (CircleTreeElement 0 0 1) 0x1p-30 1 1 1 = true ∧
   ¬ (exact_sq_distance (value 0) (value 0)
        (value 0x1p-30) (value 1) (value 1) (value 1)
      <= value 1 * value 1)%Q).
Proof.
  split; split; [by vm_compute|by vm_compute|by vm_compute|].
  intros H. by vm_compute in H.
Qed.

End Geometry.
(** ** [indexOf] and [splice] *)

Lemma without_cons el y l :
  without el (y :: l) = if decide (y = el) then without el l else y :: without el l.
Proof.
  unfold without. cbn [List.filter].
  destruct (Nat.eqb_spec y el), (decide (y = el)); done.
Qed.

Lemma js_indexOf_spec x l :
  (x ∈ l → ∃ i, js_indexOf x l = Z.of_nat i ∧ l !! i = Some x ∧
                without x (take i l) = take i l) ∧
  (x ∉ l → js_indexOf x l = (-1)%Z).
Proof.
  induction l as [|y l [IH1 IH2]]; simpl.
  - split; [by intros ?%elem_of_nil|done].
  - destruct (Nat.eqb_spec y x) as [->|Hne].
    + split; [|intros H; exfalso; apply H; left].
      intros _. exists 0. done.
    + split.
      * intros H. apply elem_of_cons in H as [->|H]; [done|].
        destruct (IH1 H) as (i & Hi & Hl & Hw). rewrite Hi.
        destruct (Z.ltb_spec (Z.of_nat i) 0); [lia|].
        exists (S i). split; [lia|]. split; [done|].
        cbn [take]. rewrite without_cons, decide_False by done. by rewrite Hw.
      * intros H. apply not_elem_of_cons in H as [_ H].
        rewrite (IH2 H). done.
Qed.

Lemma js_indexOf_present x l : (0 <=? js_indexOf x l)%Z = bool_decide (x ∈ l).
Proof.
  destruct (js_indexOf_spec x l) as [H1 H2].
  destruct (decide (x ∈ l)) as [Hin|Hnin].
  - rewrite bool_decide_eq_true_2 by done. destruct (H1 Hin) as (i & -> & _).
    apply Z.leb_le. lia.
  - rewrite bool_decide_eq_false_2 by done. by rewrite (H2 Hnin).
Qed.

Lemma js_splice1_nat {A} i (l : list A) :
  i < length l → js_splice1 (Z.of_nat i) l = delete i l.
Proof.
  intros Hi. unfold js_splice1.
  destruct (Z.ltb_spec (Z.of_nat i) 0); [lia|].
  rewrite Z.min_l by lia. by rewrite Nat2Z.id.
Qed.

Lemma without_app el l1 l2 : without el (l1 ++ l2) = without el l1 ++ without el l2.
Proof. apply List.filter_app. Qed.

Lemma count_without_ne el x l : x ≠ el → count x (without el l) = count x l.
Proof.
  intros Hne. induction l as [|y l IH]; [done|]. rewrite without_cons.
  destruct (decide (y = el)) as [->|Hy].
  - rewrite count_cons, decide_False by done. done.
  - rewrite !count_cons, IH. done.
Qed.

Lemma count_without_eq el l : count el (without el l) = 0.
Proof.
  induction l as [|y l IH]; [done|]. rewrite without_cons.
  destruct (decide (y = el)) as [->|Hy]; [done|].
  rewrite count_cons, decide_False by done. done.
Qed.

Lemma without_id el l : count el l = 0 → without el l = l.
Proof.
  induction l as [|y l IH]; [done|]. rewrite count_cons, without_cons.
  destruct (decide (y = el)) as [->|Hy]; [lia|].
  intros H. by rewrite IH.
Qed.

(** Splicing out the first occurrence of a member. *)
Lemma splice_first el l :
  el ∈ l →
  without el (js_splice1 (js_indexOf el l) l) = without el l ∧
  ∀ x, count x (js_splice1 (js_indexOf el l) l) + (if decide (x = el) then 1 else 0)
       = count x l.
Proof.
  intros Hin. destruct (js_indexOf_spec el l) as [H1 _].
  destruct (H1 Hin) as (i & -> & Hl & Hw).
  rewrite js_splice1_nat by (by eapply lookup_lt_Some).
  rewrite delete_take_drop. split.
  - replace (without el l) with (without el (take i l ++ el :: drop (S i) l))
      by (by rewrite take_drop_middle).
    rewrite !without_app. f_equal. by rewrite without_cons, decide_True.
  - intros x.
    replace (count x l) with (count x (take i l ++ el :: drop (S i) l))
      by (by rewrite take_drop_middle).
    rewrite !count_app, count_cons.
    destruct (decide (x = el)) as [->|Hne].
    + rewrite decide_True by done. lia.
    + rewrite decide_False by done. lia.
Qed.

(** ** [RemoveElement] *)

Lemma set_owner_entry_spec r id v h h1 :
  set_owner_entry r id v h = Some h1 →
  length h1 = length h ∧
  (∀ a, elements_of h1 a = elements_of h a) ∧
  owner_entry r id h1 = Some v ∧
  (∀ id', id' ≠ id → owner_entry r id' h1 = owner_entry r id' h) ∧
  (∀ k' r', closed k' r' h → closed k' r' h1) ∧
  (∀ a t, h !! a = Some t → ∃ t', h1 !! a = Some t' ∧ soft t t' ∧
          _elements t' = _elements t).
Proof.
  intros H. apply set_owner_entry_Some in H as (rt & m & Hrt & Hm & ->).
  set (m' := match v with Some l => <[id := l]> m | None => delete id m end).
  pose proof (soft_set_elementsParents m' rt) as Hsoft.
  assert (Hlen : r < length h) by (by eapply lookup_lt_Some).
  split; [by rewrite length_insert|].
  split; [intros a; by apply (elements_of_insert_els h r a rt)|].
  split.
  { apply owner_entry_Some. eexists _, _. rewrite list_lookup_insert_eq by done.
    split; [done|]. split; [done|]. unfold m'. destruct v.
    - by rewrite lookup_insert_eq.
    - by rewrite lookup_delete_eq. }
  split.
  { intros id' Hne. unfold owner_entry.
    rewrite list_lookup_insert_eq by done. rewrite Hrt. simpl. rewrite Hm. simpl.
    unfold m'. destruct v.
    - by rewrite lookup_insert_ne.
    - by rewrite lookup_delete_ne. }
  split; [intros k' r'; by apply (closed_insert_soft k' r' h r rt)|].
  intros a t Ht.
  destruct (lookup_insert_cases h r rt (set_elementsParents (Some m') rt) a t Hrt Ht)
    as [(-> & -> & Hl)|(Hne & Hl)].
  - eauto.
  - exists t. split; [done|]. split; [|done].
    split; [apply same_static_refl|done|done].
Qed.

Lemma set_owner_entry_total k r id v h :
  closed k r h → ∃ h1, set_owner_entry r id v h = Some h1.
Proof.
  intros [(rt & m & Hrt & Hm) _]. unfold set_owner_entry.
  rewrite Hrt. simpl. rewrite Hm. simpl. eauto.
Qed.

Lemma closed_owner_entry k r id h : closed k r h → ∃ e, owner_entry r id h = Some e.
Proof.
  intros [(rt & m & Hrt & Hm) _]. exists (m !! id).
  apply owner_entry_Some. eauto.
Qed.

Lemma GetParents_nocreate_eq this el h r e :
  rootTree this h = Some r → owner_entry r el h = Some e →
  _GetParentsForElement this el false h = Some (e, h).
Proof.
  intros Hr He. unfold _GetParentsForElement. rewrite Hr. simpl.
  rewrite He. simpl. by rewrite ?He.
Qed.

Lemma owners_cases r id h e :
  owner_entry r id h = Some e → owners h r id = default [] e.
Proof. unfold owners. intros ->. by destruct e. Qed.

Lemma HasElement_spec k r this el h :
  closed k r h → k ≤ this → this < length h →
  HasElement this el h = Some (bool_decide (this ∈ owners h r el)).
Proof.
  intros Hcl Hk Hlt. destruct (closed_owner_entry k r el h Hcl) as [e He].
  unfold HasElement.
  rewrite (GetParents_nocreate_eq this el h r e); [|by eapply closed_rootTree|done].
  simpl. rewrite (owners_cases _ _ _ _ He). f_equal.
  destruct e as [parents|]; simpl.
  - apply js_indexOf_present.
  - done.
Qed.

Lemma RemoveElement_loop_spec k r el : ∀ stack h,
  closed k r h →
  (∀ N, count el (elements_of h N) = count N stack) →
  ∃ h', RemoveElement_loop r el stack h = Some h' ∧
    closed k r h' ∧ length h' = length h ∧
    (∀ N, count el (elements_of h' N) = 0) ∧
    (∀ N t, h !! N = Some t → ∃ t', h' !! N = Some t' ∧ soft t t' ∧
       without el (_elements t') = without el (_elements t)) ∧
    (∀ id, id ≠ el → owner_entry r id h' = owner_entry r id h).
Proof.
  induction stack as [|tree stack IH]; intros h Hcl Hcount.
  - exists h. simpl. split; [done|]. split; [done|]. split; [done|].
    split; [done|]. split; [|done].
    intros N t Ht. exists t. split; [done|]. split; [|done].
    split; [apply same_static_refl|done|done].
  - simpl.
    destruct (set_owner_entry_total k r el (Some (rev stack)) h Hcl) as [h1 Hh1].
    rewrite Hh1. simpl.
    destruct (set_owner_entry_spec _ _ _ _ _ Hh1) as (Hlen1 & Hel1 & _ & Hoth1 & Hcl1 & Hn1).
    assert (Hpos : 0 < count el (elements_of h tree)).
    { rewrite Hcount, count_cons, decide_True by done. lia. }
    destruct (h !! tree) as [t|] eqn:Ht.
    2:{ rewrite (elements_of_None _ _ Ht) in Hpos. simpl in Hpos. lia. }
    destruct (Hn1 _ _ Ht) as (t1 & Ht1 & Hs1 & He1).
    unfold modify. rewrite Ht1. simpl.
    set (els' := js_splice1 (js_indexOf el (_elements t1)) (_elements t1)).
    rewrite (elements_of_lookup _ _ _ Ht) in Hpos.
    assert (Hin : el ∈ _elements t1) by (rewrite He1; by apply count_pos).
    destruct (splice_first el (_elements t1) Hin) as (Hw & Hc). fold els' in Hw, Hc.
    pose proof (soft_set_elements els' t1) as Hs2.
    destruct (IH (<[tree := set_elements els' t1]> h1)) as (h' & Hloop & Hcl' & Hlen' & Hz & Hn' & Hoth').
    { apply (closed_insert_soft k r h1 tree t1); auto. }
    { intros N. destruct (decide (N = tree)) as [->|Hne].
      - rewrite elements_of_insert_eq by (by eapply lookup_lt_Some). simpl.
        specialize (Hc el). rewrite decide_True in Hc by done.
        specialize (Hcount tree). rewrite (elements_of_lookup _ _ _ Ht) in Hcount.
        rewrite count_cons, decide_True in Hcount by done. rewrite <- He1 in Hcount. lia.
      - rewrite elements_of_insert_ne by done. rewrite Hel1, Hcount.
        rewrite count_cons, decide_False by done. done. }
    exists h'. split; [done|]. split; [done|].
    split; [by rewrite Hlen', length_insert|]. split; [done|]. split.
    + intros N tN HtN. destruct (Hn1 _ _ HtN) as (tN1 & HtN1 & HsN1 & HeN1).
      destruct (lookup_insert_cases h1 tree t1 (set_elements els' t1) N tN1 Ht1 HtN1)
        as [(-> & -> & Hl)|(Hne & Hl)].
      * destruct (Hn' _ _ Hl) as (t' & Ht' & Hs' & He').
        exists t'. split; [done|]. split.
        { destruct HsN1, Hs2, Hs'. split; [|congruence|auto].
          eauto using same_static_trans. }
        rewrite He'. simpl. rewrite Hw. by rewrite HeN1.
      * destruct (Hn' _ _ Hl) as (t' & Ht' & Hs' & He').
        exists t'. split; [done|]. split.
        { destruct HsN1, Hs'. split; [|congruence|auto].
          eauto using same_static_trans. }
        rewrite He'. by rewrite HeN1.
    + intros id Hid. rewrite Hoth' by done.
      rewrite (owner_entry_insert_ep r id h1 tree t1) by done. by apply Hoth1.
Qed.

Lemma count_rev x l : count x (rev l) = count x l.
Proof.
  induction l as [|y l IH]; [done|]. simpl.
  rewrite count_app, IH, count_cons. unfold count at 2. simpl.
  destruct (Nat.eq_dec y x), (decide (y = x)); try done; lia.
Qed.

Lemma RemoveElement_spec k r this el h :
  closed k r h → agree r h → k ≤ this → this < length h →
  ∃ h', RemoveElement this el h = Some (bool_decide (this ∈ owners h r el), h') ∧
    closed k r h' ∧ agree r h' ∧ length h' = length h ∧
    (this ∉ owners h r el → h' = h) ∧
    (this ∈ owners h r el →
       owner_entry r el h' = Some None ∧
       (∀ id, id ≠ el → owner_entry r id h' = owner_entry r id h) ∧
       ∀ N t, h !! N = Some t →
         ∃ t', h' !! N = Some t' ∧ soft t t' ∧ _elements t' = without el (_elements t)).
Proof.
  intros Hcl Hag Hk Hlt. unfold RemoveElement.
  rewrite (HasElement_spec k r this el h Hcl Hk Hlt). simpl.
  destruct (decide (this ∈ owners h r el)) as [Hin|Hnin].
  2:{ rewrite bool_decide_eq_false_2 by done. simpl. exists h.
      split; [done|]. split; [done|]. split; [done|]. split; [done|].
      split; [done|]. done. }
  rewrite bool_decide_eq_true_2 by done. simpl.
  pose proof (closed_rootTree k r h this Hcl Hk Hlt) as Hr. rewrite Hr. simpl.
  destruct (closed_owner_entry k r el h Hcl) as [e He].
  rewrite (GetParents_nocreate_eq this el h r e Hr He). simpl.
  pose proof (owners_cases _ _ _ _ He) as Hown.
  destruct e as [parents|]; simpl in Hown.
  2:{ rewrite Hown in Hin. by apply elem_of_nil in Hin. }
  simpl.
  destruct (RemoveElement_loop_spec k r el (rev parents) h Hcl)
    as (h1 & Hloop & Hcl1 & Hlen1 & Hz1 & Hn1 & Hoth1).
  { intros N. rewrite count_rev, <- Hown. apply Hag. }
  rewrite Hloop. simpl. unfold _RemoveParentsForElement.
  assert (Hlt1 : this < length h1) by lia.
  rewrite (closed_rootTree k r h1 this Hcl1 Hk Hlt1). simpl.
  destruct (set_owner_entry_total k r el None h1 Hcl1) as [h2 Hh2].
  rewrite Hh2. simpl.
  destruct (set_owner_entry_spec _ _ _ _ _ Hh2) as (Hlen2 & Hel2 & Ho2 & Hoth2 & Hcl2 & Hn2).
  assert (Hnodes : ∀ N t, h !! N = Some t →
    ∃ t', h2 !! N = Some t' ∧ soft t t' ∧ _elements t' = without el (_elements t)).
  { intros N t Ht. destruct (Hn1 _ _ Ht) as (t1 & Ht1 & Hs1 & He1).
    destruct (Hn2 _ _ Ht1) as (t2 & Ht2 & Hs2 & He2).
    exists t2. split; [done|]. split.
    { destruct Hs1, Hs2. split; [|congruence|auto]. eauto using same_static_trans. }
    rewrite He2, <- He1. symmetry. apply without_id.
    specialize (Hz1 N). by rewrite (elements_of_lookup _ _ _ Ht1) in Hz1. }
  exists h2. split; [done|]. split; [by apply Hcl2|]. split.
  { intros N id. destruct (decide (id = el)) as [->|Hne].
    - rewrite Hel2, Hz1. unfold owners. by rewrite Ho2.
    - unfold owners at 1. rewrite Hoth2, Hoth1 by done. fold (owners h r id).
      rewrite <- Hag. unfold elements_of.
      destruct (h !! N) as [t|] eqn:Ht.
      + destruct (Hnodes _ _ Ht) as (t' & Ht' & _ & He'). rewrite Ht'. simpl.
        rewrite He'. by apply count_without_ne.
      + rewrite (lookup_ge_None_2 h2 N); [done|].
        apply lookup_ge_None_1 in Ht. lia. }
  split; [lia|]. split; [done|]. intros _.
  split; [done|]. split; [|done].
  intros id Hne. by rewrite Hoth2, Hoth1.
Qed.

Lemma agree_evolves k r h h' : agree r h → evolves k r h h' → agree r h'.
Proof. intros Hag [_ Hc] N id. specialize (Hc N id). rewrite Hag in Hc. lia. Qed.

(** ** Reachable trees keep the owner index in step *)

Lemma AddElement_keeps k r fuel G this el h b h' :
  AddElement fuel G this el h = Some (b, h') →
  closed k r h → agree r h → k ≤ this → this < length h →
  closed k r h' ∧ agree r h' ∧ length h ≤ length h'.
Proof.
  intros Hadd Hcl Hag Hk Hlt.
  destruct (AddElement_spec G fuel k r this el h b h' Hadd Hcl Hk Hlt)
    as (Hev & Hcl' & _).
  split; [done|]. split; [by eapply agree_evolves|]. by eapply evolves_length.
Qed.

Lemma new_root_keeps fuel G x y w ht mE mD els h' :
  new_root fuel G x y w ht mE mD els [] = Some (0, h') →
  closed 0 0 h' ∧ agree 0 h'.
Proof.
  unfold new_root. intros H. apply new_QuadTree_root_inv in H as (_ & Hfor).
  pose (I := λ (_ : nat) (h2 : list QuadTree),
    closed 0 0 h2 ∧ agree 0 h2 ∧ 0 < length h2).
  eapply (for_live_inv I) in Hfor.
  - destruct Hfor as (i' & l & (Hcl & Hag & _) & _). done.
  - intros i h2 l a h3 (Hcl & Hag & Hlt) _ _ Hbody.
    unfold AddElement_stmt in Hbody.
    apply bind_Some in Hbody as ([b h3'] & Hadd & Hbody). injection Hbody as ->.
    destruct (AddElement_keeps _ _ _ _ _ _ _ _ _ Hadd Hcl Hag (Nat.le_refl _) Hlt)
      as (? & ? & ?).
    split; [done|]. split; [done|]. simpl in *. lia.
  - split; [apply (closed_alloc_root [])|]. split; [|simpl; lia].
    intros N id. unfold owners, owner_entry, elements_of. simpl.
    destruct N as [|N]; simpl; [by rewrite lookup_empty|].
    by rewrite lookup_empty.
Qed.

Lemma UpdateElement_inv fuel G this el h b h' :
  UpdateElement fuel G this el h = Some (b, h') →
  (RemoveElement this el h = Some (false, h') ∧ b = false) ∨
  (∃ h1, RemoveElement this el h = Some (true, h1) ∧
         AddElement fuel G this el h1 = Some (b, h')).
Proof.
  unfold UpdateElement. intros H.
  apply bind_Some in H as ([removed h1] & Hrem & H).
  destruct removed.
  - right. eauto.
  - left. by injection H as <- <-.
Qed.

Lemma reachable_inv h : reachable h → closed 0 0 h ∧ agree 0 h.
Proof.
  induction 1 as [fuel G x y w ht mE mD els h Hnew
                 | fuel G this el h b h' _ [Hcl Hag] Hlt Hadd
                 | this el h b h' _ [Hcl Hag] Hlt Hrem
                 | fuel G this el h b h' _ [Hcl Hag] Hlt Hupd].
  - by eapply new_root_keeps.
  - destruct (AddElement_keeps _ _ _ _ _ _ _ _ _ Hadd Hcl Hag (Nat.le_0_l _) Hlt)
      as (? & ? & ?). done.
  - destruct (RemoveElement_spec 0 0 this el h Hcl Hag (Nat.le_0_l _) Hlt)
      as (h1 & Hrem1 & ? & ? & _).
    assert (h1 = h') as -> by congruence. done.
  - apply UpdateElement_inv in Hupd as [[Hrem ->]|(h1 & Hrem & Hadd)].
    + destruct (RemoveElement_spec 0 0 this el h Hcl Hag (Nat.le_0_l _) Hlt)
        as (h2 & Hrem1 & ? & ? & _).
      assert (h2 = h') as -> by congruence. done.
    + destruct (RemoveElement_spec 0 0 this el h Hcl Hag (Nat.le_0_l _) Hlt)
        as (h2 & Hrem1 & Hcl2 & Hag2 & Hlen & _).
      assert (h2 = h1) as -> by congruence.
      destruct (AddElement_keeps _ _ _ _ _ _ _ _ _ Hadd Hcl2 Hag2 (Nat.le_0_l _))
        as (? & ? & ?); [lia|]. done.
Qed.

(** Claim C5.  After any sequence of AddElement, RemoveElement and
    UpdateElement calls starting from a freshly constructed root, for
    every node N and every element id, the number of occurrences of the
    id in N's elements list equals the number of occurrences of N in the
    owner index's list for that id. *)
Theorem owner_index_agrees_with_elements (h : list QuadTree) :
  reachable h →
  ∀ N t id, h !! N = Some t →
    count id (_elements t) = count N (owners h 0 id).
Proof.
  intros Hreach N t id Ht. destruct (reachable_inv h Hreach) as [_ Hag].
  rewrite <- (elements_of_lookup h N t Ht). apply Hag.
Qed.

(** ** An element outside the bounds; removal at the root *)

Lemma AddElement_unfold fuel G this el h :
  AddElement (S fuel) G this el h =
  (r ← rootTree this h;
   '(elParents, h) ← _GetParentsForElement this el true h;
   elParents ← elParents;
   res ← while_pool fuel (AddElement_turn (AddElement fuel G) fuel G r el) [this] h;
   match res with
   | inl h =>
       e ← owner_entry r el h;
       elParents' ← e;
       Some ((length elParents <? length elParents'), h)
   | inr _ => None
   end).
Proof. reflexivity. Qed.

Lemma while_pool_step {S R} n (body : nat → S → option (turn S R)) a s :
  while_pool (Datatypes.S n) body [a] s =
  (r ← body a s;
   match r with
   | Continue s' pushed => while_pool n body pushed s'
   | Return r => Some (inr r)
   end).
Proof. reflexivity. Qed.

Lemma while_pool_done {S R} n (body : nat → S → option (turn S R)) s :
  while_pool (Datatypes.S n) body [] s = Some (inl s).
Proof. reflexivity. Qed.

Arguments AddElement : simpl never.
Arguments while_pool : simpl never.

Lemma GetParents_create_total k r this el h :
  closed k r h → rootTree this h = Some r →
  ∃ h1, _GetParentsForElement this el true h = Some (Some (owners h r el), h1).
Proof.
  intros Hcl Hr. destruct (closed_owner_entry k r el h Hcl) as [e He].
  unfold _GetParentsForElement. rewrite Hr. simpl. rewrite He. simpl.
  rewrite (owners_cases _ _ _ _ He). destruct e as [l|]; simpl.
  - rewrite He. simpl. eauto.
  - destruct (set_owner_entry_total k r el (Some []) h Hcl) as [h1 Hh1].
    rewrite Hh1. simpl.
    destruct (set_owner_entry_spec _ _ _ _ _ Hh1) as (_ & _ & -> & _). simpl. eauto.
Qed.

Lemma inside_soft G el t t' : soft t t' → inside G el t' = inside G el t.
Proof. intros [(Hx & Hy & Hw & Hh & _) _ _]. unfold inside. by rewrite Hx, Hy, Hw, Hh. Qed.

Lemma AddElement_turn_outside add n G r el tree h t :
  h !! tree = Some t → inside G el t = false →
  AddElement_turn add n G r el tree h = Some (Continue h []).
Proof.
  unfold AddElement_turn, inside. intros -> H. simpl. by rewrite H.
Qed.

Lemma AddElement_outside k r fuel G this el h t :
  closed k r h → k ≤ this → h !! this = Some t → inside G el t = false →
  3 ≤ fuel →
  ∃ h', AddElement fuel G this el h = Some (false, h') ∧
        _GetParentsForElement this el true h = Some (Some (owners h r el), h').
Proof.
  intros Hcl Hk Ht Hout Hfuel.
  destruct fuel as [|[|[|fuel]]]; [lia..|].
  assert (Hlt : this < length h) by (by eapply lookup_lt_Some).
  pose proof (closed_rootTree k r h this Hcl Hk Hlt) as Hr.
  destruct (GetParents_create_total k r this el h Hcl Hr) as [h1 Hg].
  destruct (GetParents_create k r this el h _ h1 Hr Hg)
    as (_ & Hown1 & _ & _ & _ & _ & Hnodes).
  destruct (Hnodes _ _ Ht) as (t1 & Ht1 & Hs1 & _).
  exists h1. split; [|done].
  rewrite AddElement_unfold, Hr. simpl. rewrite Hg. simpl.
  rewrite while_pool_step.
  rewrite (AddElement_turn_outside _ _ G r el this h1 t1 Ht1)
    by (by rewrite (inside_soft G el t t1 Hs1)).
  simpl. rewrite ?while_pool_done. simpl.
  rewrite Hown1. simpl. by rewrite Nat.ltb_irrefl.
Qed.

(** Claim C10.  When the element does not overlap the bounds of the
    node AddElement is called on (the root in particular), the call
    returns false and leaves every node's elements list and children
    unchanged; afterwards GetParentsForElement returns the owner list as
    it was, and for an element that had no owner-index entry it returns
    the empty sequence, where it returned the none result before. *)
Theorem AddElement_outside_leaves_empty_entry
    (G : Elements) (this el : nat) (h : list QuadTree) (t : QuadTree) (fuel : nat) :
  reachable h → h !! this = Some t →
  IsInsideRect (G el) (_x t) (_y t) (_width t) (_height t) = false →
  3 ≤ fuel →
  ∃ h', AddElement fuel G this el h = Some (false, h') ∧
    length h' = length h ∧
    (∀ N tN, h !! N = Some tN →
       ∃ tN', h' !! N = Some tN' ∧ _elements tN' = _elements tN ∧
              _children tN' = _children tN) ∧
    GetParentsForElement this el h' = Some (Some (owners h 0 el)) ∧
    (owner_entry 0 el h = Some None →
       GetParentsForElement this el h = Some None ∧
       GetParentsForElement this el h' = Some (Some [])).
Proof.
  intros Hreach Ht Hout Hfuel.
  destruct (reachable_inv h Hreach) as [Hcl _].
  assert (Hlt : this < length h) by (by eapply lookup_lt_Some).
  pose proof (closed_rootTree 0 0 h this Hcl (Nat.le_0_l _) Hlt) as Hr.
  destruct (AddElement_outside 0 0 fuel G this el h t Hcl (Nat.le_0_l _) Ht Hout Hfuel)
    as (h' & Hadd & Hg).
  destruct (GetParents_create 0 0 this el h _ h' Hr Hg)
    as (_ & Hown' & _ & Hlen & _ & Hcl' & Hnodes).
  assert (Hget : GetParentsForElement this el h' = Some (Some (owners h 0 el))).
  { unfold GetParentsForElement.
    rewrite (GetParents_nocreate_eq this el h' 0 (Some (owners h 0 el))); [done| |done].
    apply (closed_rootTree 0 0); [by apply Hcl'|lia|lia]. }
  exists h'. split; [done|]. split; [done|]. split.
  { intros N tN HtN. destruct (Hnodes _ _ HtN) as (tN' & HtN' & [_ Hc _] & He). eauto. }
  split; [done|]. intros Hnone. split.
  - unfold GetParentsForElement.
    by rewrite (GetParents_nocreate_eq this el h 0 None).
  - rewrite Hget. by rewrite (owners_entry_None _ _ _ Hnone).
Qed.

(** Claim C4, amended.  On a reachable tree, RemoveElement on the root
    always returns, and HasElement on the root is false afterwards.  It
    returns true exactly when the root itself is recorded as an owner of
    the element; it then removes the element from the elements list of
    every node and clears the owner-index entry.  Otherwise it returns
    false and leaves the tree unchanged.  GetParentsForElement is empty
    afterwards provided the element had no owner or the root was one of
    them. *)
Theorem RemoveElement_on_root (el : nat) (h : list QuadTree) :
  reachable h →
  ∃ b h', RemoveElement 0 el h = Some (b, h') ∧
    b = bool_decide (0 ∈ owners h 0 el) ∧
    HasElement 0 el h' = Some false ∧
    (b = false → h' = h) ∧
    (b = true →
       owner_entry 0 el h' = Some None ∧
       GetParentsForElement 0 el h' = Some None ∧
       ∀ N t, h !! N = Some t →
         ∃ t', h' !! N = Some t' ∧ _elements t' = without el (_elements t) ∧
               (el ∉ _elements t') ∧ _children t' = _children t) ∧
    ((owners h 0 el = [] ∨ 0 ∈ owners h 0 el) →
       empty_result (GetParentsForElement 0 el h')).
Proof.
  intros Hreach. destruct (reachable_inv h Hreach) as [Hcl Hag].
  assert (Hlt : 0 < length h).
  { destruct Hcl as [(rt & m & Hrt & _) _]. by eapply lookup_lt_Some. }
  destruct (RemoveElement_spec 0 0 0 el h Hcl Hag (Nat.le_refl _) Hlt)
    as (h' & Hrem & Hcl' & Hag' & Hlen & Hno & Hyes).
  assert (Hlt' : 0 < length h') by lia.
  pose proof (closed_rootTree 0 0 h' 0 Hcl' (Nat.le_refl _) Hlt') as Hr'.
  exists (bool_decide (0 ∈ owners h 0 el)), h'.
  split; [done|]. split; [done|].
  destruct (decide (0 ∈ owners h 0 el)) as [Hin|Hnin].
  - destruct (Hyes Hin) as (Hown' & Hoth & Hnodes).
    assert (Hget : GetParentsForElement 0 el h' = Some None).
    { unfold GetParentsForElement.
      by rewrite (GetParents_nocreate_eq 0 el h' 0 None). }
    split.
    { rewrite (HasElement_spec 0 0 0 el h' Hcl' (Nat.le_refl _) Hlt').
      by rewrite (owners_entry_None _ _ _ Hown'). }
    split; [by rewrite bool_decide_eq_true_2|].
    split.
    { intros _. split; [done|]. split; [done|].
      intros N t Ht. destruct (Hnodes _ _ Ht) as (t' & Ht' & [_ Hc _] & He).
      exists t'. split; [done|]. split; [done|]. split; [|done].
      rewrite He. apply count_zero. apply count_without_eq. }
    intros _. left. done.
  - rewrite (Hno Hnin) in *.
    split.
    { rewrite (HasElement_spec 0 0 0 el h Hcl (Nat.le_refl _) Hlt).
      by rewrite bool_decide_eq_false_2. }
    split; [done|]. split; [by rewrite bool_decide_eq_false_2|].
    intros [Hempty|Hin]; [|done].
    destruct (closed_owner_entry 0 0 el h Hcl) as [e He].
    unfold GetParentsForElement.
    rewrite (GetParents_nocreate_eq 0 el h 0 e Hr' He). simpl.
    rewrite (owners_cases _ _ _ _ He) in Hempty.
    destruct e as [l|]; simpl in Hempty; [right; by subst|left; done].
Qed.

(** ** Enough fuel *)

Lemma turn_fuel_mono G f F r el tree h res :
  f ≤ F →
  AddElement_turn (AddElement f G) f G r el tree h = Some res →
  AddElement_turn (AddElement F G) F G r el tree h = Some res.
Proof.
  intros Hle. apply AddElement_turn_mono; [|done].
  intros this0 el0 h0 r0. by apply AddElement_mono.
Qed.

Lemma loop_fuel_mono G f F m M r el pool h res :
  f ≤ F → m ≤ M →
  while_pool m (AddElement_turn (AddElement f G) f G r el) pool h = Some res →
  while_pool M (AddElement_turn (AddElement F G) F G r el) pool h = Some res.
Proof.
  intros Hf Hm. apply while_pool_mono; [|done].
  intros a s r0. by apply turn_fuel_mono.
Qed.

Lemma ctor_fuel_mono G f F x y w ht mE mD arr parent h res :
  f ≤ F →
  new_QuadTree (AddElement f G) f x y w ht mE mD arr parent h = Some res →
  new_QuadTree (AddElement F G) F x y w ht mE mD arr parent h = Some res.
Proof.
  intros Hle. apply new_QuadTree_mono; [|done].
  intros this0 el0 h0 r0. by apply AddElement_mono.
Qed.

Lemma stmt_fuel_mono G f F c a h h' :
  f ≤ F →
  AddElement_stmt (AddElement f G) c a h = Some h' →
  AddElement_stmt (AddElement F G) c a h = Some h'.
Proof.
  intros Hle. unfold AddElement_stmt. intros H.
  apply bind_Some in H as ([b h1] & Hadd & H). injection H as ->.
  by rewrite (AddElement_mono f F G c a h (b, h') Hle Hadd).
Qed.

Lemma grow_lookup n h a : grow n h a → a < length h.
Proof.
  destruct n; [done|]. simpl. intros (t & Ht & _). by eapply lookup_lt_Some.
Qed.

Lemma add_of_loop G n : loop_terminates G n → add_terminates G n.
Proof.
  intros Hloop k r this el h Hcl Hk Hg.
  pose proof (grow_lookup _ _ _ Hg) as Hlt.
  pose proof (closed_rootTree k r h this Hcl Hk Hlt) as Hr.
  destruct (GetParents_create_total k r this el h Hcl Hr) as [h1 Hget].
  destruct (GetParents_create k r this el h _ h1 Hr Hget)
    as (_ & Hown1 & Hev1 & Hlen1 & _ & Hcl1 & _).
  specialize (Hcl1 _ _ Hcl).
  assert (Hg1 : grow n h1 this).
  { destruct Hev1 as [[_ _ _ Hgr _] _]. auto. }
  destruct (Hloop k r el [this] h1 (owners h r el) Hcl1) as (f & h' & Hrun);
    [by repeat constructor|exact Hown1|].
  destruct (loop_spec G _ (AddElement_spec G f) k r f el [this] h1 h' Hrun Hcl1)
    as (Hev' & _).
  { repeat constructor; [done|lia]. }
  destruct Hev' as [[_ _ Ho _] _]. destruct (Ho _ _ Hown1) as (l' & Hl').
  exists (S f), (length (owners h r el) <? length (owners h r el ++ l')), h'.
  rewrite AddElement_unfold, Hr. simpl. rewrite Hget. simpl.
  rewrite Hrun. simpl. rewrite Hl'. done.
Qed.

Lemma for_live_adds_terminate G n k r c (L : list nat)
    (arr : list QuadTree → option (list nat)) h1 :
  add_terminates G n →
  (∀ h2, evolves c r h1 h2 → arr h2 = Some L) →
  k ≤ c →
  ∀ d i h2, length L - i ≤ d →
    evolves c r h1 h2 → closed k r h2 → grow n h2 c →
    ∃ f h', for_live f arr (AddElement_stmt (AddElement f G) c) i h2 = Some h'.
Proof.
  intros Hadd Harr Hk. induction d as [|d IH]; intros i h2 Hd Hev Hcl Hg.
  - exists 1, h2. simpl. rewrite (Harr _ Hev). simpl.
    rewrite lookup_ge_None_2 by lia. done.
  - destruct (L !! i) as [a|] eqn:Ha.
    2:{ exists 1, h2. simpl. rewrite (Harr _ Hev). simpl. by rewrite Ha. }
    destruct (Hadd k r c a h2 Hcl Hk Hg) as (f1 & b & h3 & Hrun).
    pose proof (grow_lookup _ _ _ Hg) as Hlt.
    destruct (AddElement_spec G f1 k r c a h2 b h3 Hrun Hcl Hk Hlt) as (Hev3 & Hcl3 & _).
    destruct (AddElement_spec G f1 c r c a h2 b h3 Hrun
                (closed_weaken _ _ _ _ Hk Hcl) (Nat.le_refl _) Hlt) as (Hev3' & _).
    destruct (IH (S i) h3) as (f2 & h' & Hrest); [lia| |done| |].
    { by eapply evolves_trans. }
    { destruct Hev3 as [[_ _ _ Hgr _] _]. auto. }
    exists (S (f1 `max` f2)), h'.
    cbn [for_live]. rewrite (Harr _ Hev). simpl. rewrite Ha.
    assert (Hstmt : AddElement_stmt (AddElement (S (f1 `max` f2)) G) c a h2 = Some h3).
    { unfold AddElement_stmt.
      rewrite (AddElement_mono f1 (S (f1 `max` f2)) G c a h2 (b, h3)); [done|lia|done]. }
    rewrite Hstmt. simpl.
    eapply for_live_mono; [| |exact Hrest]; [|lia].
    intros a0 h0 h0'. apply stmt_fuel_mono. lia.
Qed.

Lemma new_QuadTree_child_intro add n x y w ht mE mD arr p h pt h' :
  h !! p = Some pt →
  for_live n (λ h, pt ← h !! p; Some (_elements pt))
    (AddElement_stmt add (length h)) 0
    (h ++ [child_node x y w ht mE mD p pt]) = Some h' →
  new_QuadTree add n x y w ht mE mD arr (Some p) h = Some (length h, h').
Proof.
  intros Hp Hfor. unfold new_QuadTree.
  rewrite (lookup_app_l_Some _ _ _ _ Hp). simpl.
  unfold modify. rewrite lookup_snoc_new. simpl. rewrite insert_snoc.
  change (set_root_depth _ _ _) with (child_node x y w ht mE mD p pt).
  rewrite Hfor. done.
Qed.

Lemma ctor_terminates G n k r x y w ht mE mD arr p h pt :
  add_terminates G n → closed k r h → k ≤ p → h !! p = Some pt →
  (0 <= mD)%Z → Z.to_nat (mD - (_depth pt + 1)) < n →
  ∃ f h', new_QuadTree (AddElement f G) f x y w ht mE mD arr (Some p) h
          = Some (length h, h').
Proof.
  intros Hadd Hcl Hk Hp Hd Hn.
  assert (Hlt : p < length h) by (by eapply lookup_lt_Some).
  set (node := child_node x y w ht mE mD p pt).
  destruct (for_live_adds_terminate G n k r (length h) (_elements pt)
              (λ h, pt ← h !! p; Some (_elements pt)) (h ++ [node]) Hadd)
    with (d := length (_elements pt)) (i := 0) (h2 := h ++ [node])
    as (f & h' & Hfor).
  - intros h2 Hev.
    destruct (evolves_frame _ _ _ _ p pt Hev) as (pt2 & Hpt2 & _ & He & _);
      [by apply lookup_app_l_Some|done|].
    rewrite Hpt2. simpl. by rewrite He.
  - lia.
  - lia.
  - apply evolves_refl.
  - by apply closed_alloc_child.
  - destruct n as [|n]; [lia|]. simpl. exists node.
    rewrite lookup_snoc_new. split; [done|]. split; [done|]. simpl.
    unfold headroom. simpl. lia.
  - exists f, h'. by eapply new_QuadTree_child_intro.
Qed.

Lemma AddElement_turn_intro add n G r el tree h res :
  turn_case add n G r el tree h res →
  AddElement_turn add n G r el tree h = Some res.
Proof.
  intros Hcase. unfold AddElement_turn.
  destruct Hcase as [t Ht Hin | t h1 h2 t2 Ht Hin Hp Hm Ht2 Hsp
                    | t h1 h2 t2 Ht Hin Hp Hm Ht2 Hsp Hms
                    | t h1 h2 t2 cs h3 h4 Ht Hin Hp Hm Ht2 Hsp Hms Hcs Hset];
    rewrite Ht; simpl; unfold inside in Hin; rewrite Hin; simpl; [done|..];
    rewrite Hp; simpl; rewrite Hm; simpl; rewrite Ht2; simpl; rewrite Hsp;
    [done|rewrite Hms; done|rewrite Hms].
  apply split_children_inv in Hcs
    as (c0 & c1 & c2 & c3 & h5 & h6 & h7 & -> & E0 & E1 & E2 & E3).
  cbv zeta. rewrite E0. simpl. rewrite E1. simpl. rewrite E2. simpl.
  rewrite E3. simpl. rewrite Hset. done.
Qed.

Lemma split_children_terminates G n k r tree t h :
  add_terminates G n → closed k r h → k ≤ tree → h !! tree = Some t →
  (0 <= _maxDepth t)%Z → Z.to_nat (_maxDepth t - (_depth t + 1)) < n →
  ∃ f cs h', split_children (AddElement f G) f tree t h = Some (cs, h').
Proof.
  intros Hadd Hcl Hk Ht Hd Hn.
  assert (Hlt : tree < length h) by (by eapply lookup_lt_Some).
  assert (Hstep : ∀ x y h1 t1, closed k r h1 → h1 !! tree = Some t1 →
            same_static t t1 →
            ∃ f h2, new_QuadTree (AddElement f G) f x y (_width t / 2) (_height t / 2)
                      (_maxElements t) (_maxDepth t) (λ _, Some []) (Some tree) h1
                    = Some (length h1, h2) ∧
                    closed k r h2 ∧ ∃ t2, h2 !! tree = Some t2 ∧ same_static t t2).
  { intros x y h1 t1 Hcl1 Ht1 Hs1.
    destruct (ctor_terminates G n k r x y (_width t / 2)%float (_height t / 2)%float
                (_maxElements t) (_maxDepth t) (λ _, Some []) tree h1 t1 Hadd Hcl1 Hk Ht1 Hd)
      as (f & h2 & Hnew).
    { destruct Hs1 as (_ & _ & _ & _ & _ & _ & -> & _). done. }
    assert (Hlt1 : tree < length h1) by (by eapply lookup_lt_Some).
    destruct (ctor_spec G _ (AddElement_spec G f) k r f _ _ _ _ _ _ _ tree h1 _ h2
                Hnew Hcl1 Hk Hlt1) as (_ & Hev & Hcl2 & _).
    destruct (evolves_frame _ _ _ _ _ _ Hev Ht1 Hlt1) as (t2 & Ht2 & Hs2 & _).
    exists f, h2. split; [done|]. split; [done|]. exists t2. split; [done|].
    by eapply same_static_trans. }
  destruct (Hstep (_x t) (_y t) h t Hcl Ht (same_static_refl t))
    as (f0 & h1 & E0 & Hcl1 & t1 & Ht1 & Hs1).
  destruct (Hstep (_x t + _width t / 2)%float (_y t) h1 t1 Hcl1 Ht1 Hs1)
    as (f1 & h2 & E1 & Hcl2 & t2 & Ht2 & Hs2).
  destruct (Hstep (_x t) (_y t + _height t / 2)%float h2 t2 Hcl2 Ht2 Hs2)
    as (f2 & h3 & E2 & Hcl3 & t3 & Ht3 & Hs3).
  destruct (Hstep (_x t + _width t / 2)%float (_y t + _height t / 2)%float h3 t3 Hcl3 Ht3 Hs3)
    as (f3 & h4 & E3 & _).
  set (F := Nat.max f0 (Nat.max f1 (Nat.max f2 f3))).
  exists F, [length h; length h1; length h2; length h3], h4.
  unfold split_children. cbv zeta.
  rewrite (ctor_fuel_mono G f0 F _ _ _ _ _ _ _ _ _ _ ltac:(lia) E0). simpl.
  rewrite (ctor_fuel_mono G f1 F _ _ _ _ _ _ _ _ _ _ ltac:(lia) E1). simpl.
  rewrite (ctor_fuel_mono G f2 F _ _ _ _ _ _ _ _ _ _ ltac:(lia) E2). simpl.
  rewrite (ctor_fuel_mono G f3 F _ _ _ _ _ _ _ _ _ _ ltac:(lia) E3). simpl.
  done.
Qed.

Lemma elParents_push_total k r el tree h l :
  closed k r h → owner_entry r el h = Some (Some l) →
  ∃ h1, elParents_push r el tree h = Some h1.
Proof.
  intros Hcl Hown. unfold elParents_push. rewrite Hown. simpl.
  apply (set_owner_entry_total k r el _ h Hcl).
Qed.

Lemma turn_terminates G n :
  add_terminates G n →
  ∀ k r el tree h l,
    closed k r h → k ≤ tree → grow (S n) h tree →
    owner_entry r el h = Some (Some l) →
    ∃ f res, AddElement_turn (AddElement f G) f G r el tree h = Some res.
Proof.
  intros Hadd k r el tree h l Hcl Hk Hg Hown.
  destruct Hg as (t & Ht & Hd & Hc).
  destruct (inside G el t) eqn:Hin.
  2:{ exists 0, (Continue h []). by eapply AddElement_turn_outside. }
  destruct (elParents_push_total k r el tree h l Hcl Hown) as [h1 Hp].
  assert (∃ h2, modify tree (λ t, set_elements (_elements t ++ [el]) t) h1 = Some h2)
    as [h2 Hm].
  { apply elParents_push_Some in Hp as (l0 & _ & Hp).
    destruct (set_owner_entry_spec _ _ _ _ _ Hp) as (_ & _ & _ & _ & _ & Hn).
    destruct (Hn _ _ Ht) as (t1 & Ht1 & _). unfold modify. rewrite Ht1. simpl. eauto. }
  destruct (push_step k r el tree h h1 h2 Hp Hm Hk) as (Hev & Hlen & _ & Hcl2 & Hnodes).
  specialize (Hcl2 _ _ Hcl).
  destruct (Hnodes _ _ Ht) as (t2 & Ht2 & Hs2 & He2).
  destruct (IsSplit t2) eqn:Hsp.
  { exists 0, (Continue h2 (_children t2)). apply AddElement_turn_intro.
    by eapply turn_descend. }
  destruct (may_split t2) eqn:Hms.
  2:{ exists 0, (Continue h2 []). apply AddElement_turn_intro. by eapply turn_keep. }
  assert (Hleaf : _children t = []).
  { destruct Hs2 as [_ Hch _]. unfold IsSplit in Hsp. rewrite Hch in Hsp.
    apply Nat.ltb_ge in Hsp. destruct (_children t); [done|simpl in Hsp; lia]. }
  rewrite Hleaf in Hc.
  assert (Hd2 : (0 <= _maxDepth t2)%Z).
  { destruct Hs2 as [(_ & _ & _ & _ & _ & _ & _ & _ & ->) _ _]. done. }
  pose proof (may_split_headroom t2 Hms Hd2) as Hhr.
  rewrite (headroom_static t t2) in Hhr by (by destruct Hs2).
  destruct (split_children_terminates G n k r tree t2 h2 Hadd Hcl2 Hk Ht2 Hd2)
    as (f & cs & h3 & Hsc); [lia|].
  destruct (split_children_spec G _ (AddElement_spec G f) k r f tree t2 h2 cs h3
              Hsc Hcl2 Hk Ht2) as (Hev3 & _).
  destruct (evolves_lookup _ _ _ _ _ _ Hev3 Ht2) as (t3 & Ht3 & _).
  exists f, (Continue (<[tree := set_children cs t3]> h3) []).
  apply AddElement_turn_intro. eapply turn_split; try done.
  unfold modify. rewrite Ht3. done.
Qed.

Lemma loop_terminates_0 G : loop_terminates G 0.
Proof.
  intros k r el pool h l Hcl HF Hown. destruct pool as [|a pool].
  - exists 1, h. done.
  - apply Forall_cons in HF as [[_ []] _].
Qed.

Lemma loop_terminates_S G n : loop_terminates G n → loop_terminates G (S n).
Proof.
  intros Hloop k r el pool.
  pose proof (add_of_loop G n Hloop) as Hadd.
  induction pool as [|a pool IH] using rev_ind; intros h l Hcl HF Hown.
  - exists 1, h. done.
  - apply Forall_app in HF as [HF Ha]. apply Forall_singleton in Ha as [Hk Hg].
    destruct (turn_terminates G n Hadd k r el a h l Hcl Hk Hg Hown) as (f1 & res & Hturn).
    destruct (turn_spec G _ (AddElement_spec G f1) k r f1 el a h res Hturn Hcl Hk)
      as (h2 & pushed & t & t2 & -> & Hev2 & Hcl2 & Hpushed & Ht & Ht2 & _).
    assert (Hpg : Forall (λ c, k ≤ c ∧ grow n h2 c) pushed).
    { apply AddElement_turn_inv in Hturn.
      inversion Hturn as [| t0 h1 h2' t2' Ht0 Hin Hp Hm Ht2' Hsp | |]; subst;
        try (by constructor).
      assert (Hg2 : grow (S n) h2 a).
      { destruct Hev2 as [[_ _ _ Hgr _] _]. auto. }
      destruct Hg2 as (t2'' & Ht2'' & _ & Hc2).
      assert (t2'' = t2') as -> by congruence.
      assert (t2 = t2') as -> by congruence.
      unfold IsSplit in Hsp. apply Nat.ltb_lt in Hsp.
      destruct (_children t2') as [|c cs] eqn:Hch; [simpl in Hsp; lia|].
      rewrite Forall_forall in Hpushed. apply Forall_forall. intros x Hx.
      split; [destruct (Hpushed _ Hx); lia|].
      rewrite Forall_forall in Hc2. by apply Hc2. }
    destruct Hev2 as [[Hlen2 Hn2 Ho2 Hgr2] Hc2]. destruct (Ho2 _ _ Hown) as (l2 & Hown2).
    destruct (Hloop k r el pushed h2 (l ++ l2) Hcl2 Hpg Hown2) as (f2 & h3 & Hrun2).
    destruct (loop_spec G _ (AddElement_spec G f2) k r f2 el pushed h2 h3 Hrun2 Hcl2)
      as (Hev3 & Hcl3).
    { eapply Forall_impl; [exact Hpushed|]. intros x [? ?]. lia. }
    destruct Hev3 as [[Hlen3 Hn3 Ho3 Hgr3] Hc3]. destruct (Ho3 _ _ Hown2) as (l3 & Hown3).
    destruct (IH h3 ((l ++ l2) ++ l3) Hcl3) as (f3 & h4 & Hrun3); [|exact Hown3|].
    { eapply Forall_impl; [exact HF|]. intros x [? ?]. split; [done|]. auto. }
    set (F := Nat.max f1 (Nat.max f2 f3)).
    exists (S (F + F)), h4.
    assert (Hturn' : AddElement_turn (AddElement (S (F + F)) G) (S (F + F)) G r el a h
                     = Some (Continue h2 pushed)).
    { eapply turn_fuel_mono; [|exact Hturn]. lia. }
    assert (Hrun2' : while_pool F (AddElement_turn (AddElement (S (F + F)) G) (S (F + F)) G r el)
                       pushed h2 = Some (inl h3)).
    { eapply loop_fuel_mono; [| |exact Hrun2]; lia. }
    assert (Hrun3' : while_pool F (AddElement_turn (AddElement (S (F + F)) G) (S (F + F)) G r el)
                       pool h3 = Some (inl h4)).
    { eapply loop_fuel_mono; [| |exact Hrun3]; lia. }
    pose proof (while_pool_app _ _ _ _ _ _ _ _ Hrun2' Hrun3') as Happ.
    change (while_pool (S (F + F)) ?b (pool ++ [a]) h)
      with (match js_pop (pool ++ [a]) with
            | None => Some (inl h)
            | Some (treePool, tree) =>
                r ← b tree h;
                match r with
                | Continue s pushed => while_pool (F + F) b (treePool ++ pushed) s
                | Return r => Some (inr r)
                end
            end).
    rewrite js_pop_snoc, Hturn'. simpl. exact Happ.
Qed.

Lemma loop_terminates_all G n : loop_terminates G n.
Proof. induction n; [apply loop_terminates_0|by apply loop_terminates_S]. Qed.

Lemma AddElement_terminates G k r this el h n :
  closed k r h → k ≤ this → grow n h this →
  ∃ f b h', AddElement f G this el h = Some (b, h').
Proof. apply add_of_loop, loop_terminates_all. Qed.

(** ** When a leaf splits *)

Lemma may_split_true t :
  may_split t = true ↔
  (_maxElements t < Z.of_nat (length (_elements t)))%Z ∧
  ((_maxDepth t < 0)%Z ∨ (_depth t < _maxDepth t)%Z).
Proof.
  unfold may_split. rewrite andb_true_iff, orb_true_iff, !Z.ltb_lt. tauto.
Qed.



Lemma IsSplit_leaf t : _children t = [] → IsSplit t = false.
Proof. unfold IsSplit. by intros ->. Qed.




Lemma run_adds_nil fuel G this h : run_adds fuel G this [] h = Some h.
Proof. done. Qed.





(** ** The duplicate filter *)

Lemma without_without_comm a b l : without a (without b l) = without b (without a l).
Proof.
  induction l as [|y l IH]; [done|]. rewrite !without_cons.
  destruct (decide (y = b)) as [Hb|Hb], (decide (y = a)) as [Ha|Ha];
    rewrite ?without_cons, ?decide_True, ?decide_False by done; congruence.
Qed.

Lemma without_idem a l : without a (without a l) = without a l.
Proof. apply without_id, count_without_eq. Qed.

Lemma first_occurrences_cons x l :
  first_occurrences (x :: l) = x :: without x (first_occurrences l).
Proof. reflexivity. Qed.

Lemma elem_of_without a x l : x ∈ without a l ↔ x ∈ l ∧ x ≠ a.
Proof.
  induction l as [|y l IH].
  - split; [by intros ?%elem_of_nil|by intros [?%elem_of_nil _]].
  - rewrite without_cons. destruct (decide (y = a)) as [->|Hy].
    + rewrite IH, elem_of_cons. split.
      * intros [H1 H2]. split; [by right|done].
      * intros [[->|H1] H2]; [done|by split].
    + rewrite !elem_of_cons, IH. split.
      * intros [->|[H1 H2]]; (split; [|done]); [by left|by right].
      * intros [[->|H1] H2]; [by left|right; by split].
Qed.

Lemma NoDup_without a l : NoDup l → NoDup (without a l).
Proof.
  induction 1 as [|y l Hy Hnd IH]; [constructor|]. rewrite without_cons.
  destruct (decide (y = a)); [done|]. constructor; [|done].
  rewrite elem_of_without. tauto.
Qed.

Lemma sublist_without a l : without a l `sublist_of` l.
Proof.
  induction l as [|y l IH]; [done|]. rewrite without_cons.
  destruct (decide (y = a)); [by apply sublist_cons|by apply sublist_skip].
Qed.

Lemma elem_of_first_occurrences x l : x ∈ first_occurrences l ↔ x ∈ l.
Proof.
  induction l as [|y l IH]; [done|]. rewrite first_occurrences_cons, !elem_of_cons.
  rewrite elem_of_without, IH. split.
  - intros [->|[H _]]; [by left|by right].
  - intros [->|H]; [by left|].
    destruct (decide (x = y)) as [->|Hne]; [by left|right; by split].
Qed.

Lemma NoDup_first_occurrences l : NoDup (first_occurrences l).
Proof.
  induction l as [|y l IH]; [constructor|]. rewrite first_occurrences_cons.
  constructor; [|by apply NoDup_without]. rewrite elem_of_without. tauto.
Qed.

Lemma sublist_first_occurrences l : first_occurrences l `sublist_of` l.
Proof.
  induction l as [|y l IH]; [done|]. rewrite first_occurrences_cons.
  apply sublist_skip. etransitivity; [apply sublist_without|done].
Qed.

Lemma first_occurrences_NoDup l : NoDup l → first_occurrences l = l.
Proof.
  induction 1 as [|y l Hy Hnd IH]; [done|]. rewrite first_occurrences_cons, IH.
  f_equal. apply without_id. by apply count_zero.
Qed.

Lemma drop_seen_cons seen x l :
  drop_seen seen (x :: l) =
  if bool_decide (x ∈ seen) then drop_seen seen l else x :: drop_seen seen l.
Proof. reflexivity. Qed.

Lemma drop_seen_without seen a l :
  drop_seen seen (without a l) = without a (drop_seen seen l).
Proof.
  induction l as [|y l IH]; [done|]. rewrite without_cons, drop_seen_cons.
  destruct (decide (y = a)) as [->|Hy].
  - rewrite IH. destruct (bool_decide (a ∈ seen)); [done|].
    by rewrite without_cons, decide_True.
  - rewrite drop_seen_cons, IH. destruct (bool_decide (y ∈ seen)); [done|].
    by rewrite without_cons, decide_False.
Qed.

Lemma drop_seen_insert seen a l :
  drop_seen ({[a]} ∪ seen) l = without a (drop_seen seen l).
Proof.
  induction l as [|y l IH]; [done|]. rewrite !drop_seen_cons, IH.
  destruct (decide (y = a)) as [->|Hy].
  - rewrite bool_decide_eq_true_2 by (apply elem_of_union_l, elem_of_singleton; done).
    destruct (bool_decide (a ∈ seen)); [done|].
    by rewrite without_cons, decide_True.
  - destruct (decide (y ∈ seen)) as [Hin|Hnin].
    + rewrite !bool_decide_eq_true_2; [done|done|by apply elem_of_union_r].
    + rewrite !bool_decide_eq_false_2; [|done|].
      * by rewrite without_cons, decide_False.
      * intros [?%elem_of_singleton|?]%elem_of_union; done.
Qed.

Lemma drop_seen_member seen a l :
  a ∈ seen → drop_seen seen (without a l) = drop_seen seen l.
Proof.
  intros Ha. induction l as [|y l IH]; [done|].
  rewrite without_cons, drop_seen_cons.
  destruct (decide (y = a)) as [->|Hy].
  - by rewrite bool_decide_eq_true_2.
  - by rewrite drop_seen_cons, IH.
Qed.

Lemma filter_seen_spec l : ∀ seen,
  filter_seen seen l = drop_seen seen (first_occurrences l).
Proof.
  induction l as [|x l IH]; intros seen; [done|].
  rewrite first_occurrences_cons, drop_seen_cons. cbn [filter_seen].
  destruct (bool_decide (x ∈ seen)) eqn:Hx.
  - apply bool_decide_eq_true_1 in Hx. rewrite IH. by rewrite drop_seen_member.
  - rewrite IH, drop_seen_insert, drop_seen_without. done.
Qed.

Lemma drop_seen_empty l : drop_seen ∅ l = l.
Proof.
  induction l as [|x l IH]; [done|]. rewrite drop_seen_cons, IH.
  rewrite bool_decide_eq_false_2; [done|]. apply not_elem_of_empty.
Qed.

Lemma filter_seen_first_occurrences l : filter_seen ∅ l = first_occurrences l.
Proof. by rewrite filter_seen_spec, drop_seen_empty. Qed.

(** ** Read-only traversals come to an end *)

Lemma while_pool_unfold {S R} n (body : nat → S → option (turn S R)) pool s :
  while_pool (Datatypes.S n) body pool s =
  match js_pop pool with
  | None => Some (inl s)
  | Some (treePool, tree) =>
      r ← body tree s;
      match r with
      | Continue s' pushed => while_pool n body (treePool ++ pushed) s'
      | Return r => Some (inr r)
      end
  end.
Proof. reflexivity. Qed.

Lemma while_pool_app_return {S R} (body : nat → S → option (turn S R))
    n pool1 pool2 (s : S) (r : R) :
  while_pool n body pool2 s = Some (inr r) →
  while_pool n body (pool1 ++ pool2) s = Some (inr r).
Proof.
  revert pool2 s. induction n as [|n IH]; intros pool2 s; [done|].
  rewrite !while_pool_unfold. destruct (js_pop pool2) as [[pool2' tree]|] eqn:Epop; [|done].
  apply js_pop_Some in Epop as ->. rewrite app_assoc, js_pop_snoc.
  destruct (body tree s) as [res|]; [|done]. simpl.
  destruct res as [s' pushed|r']; [|done].
  intros H. rewrite <- app_assoc. by apply IH.
Qed.

Lemma static_loop_terminates {S R} (body : nat → S → option (turn S R)) k r h :
  closed k r h →
  (∀ a s t, h !! a = Some t →
     ∃ res, body a s = Some res ∧
       match res with
       | Continue _ pushed => pushed = [] ∨ pushed = _children t
       | Return _ => True
       end) →
  ∀ pool s, Forall (λ a, k ≤ a ∧ a < length h) pool →
    ∃ n res, while_pool n body pool s = Some res.
Proof.
  intros Hcl Hbody.
  assert (Hd : ∀ d pool s,
    Forall (λ a, k ≤ a ∧ a < length h ∧ length h - a ≤ d) pool →
    ∃ n res, while_pool n body pool s = Some res).
  { induction d as [|d IHd]; intros pool.
    - intros s HF. destruct pool as [|a pool]; [by exists 1, (inl s)|].
      apply Forall_cons in HF as [(_ & ? & ?) _]. lia.
    - induction pool as [|a pool IHp] using rev_ind; intros s HF;
        [by exists 1, (inl s)|].
      apply Forall_app in HF as [HF Ha].
      apply Forall_singleton in Ha as (Hk & Hlt & Hda).
      destruct (lookup_lt_is_Some_2 h a Hlt) as [t Ht].
      destruct (Hbody a s t Ht) as (res & Hres & Hpushed).
      destruct res as [s' pushed|ret].
      2:{ exists 1, (inr ret). rewrite while_pool_unfold, js_pop_snoc, Hres. done. }
      destruct (IHd pushed s') as (n1 & res1 & Hrun1).
      { destruct Hpushed as [->| ->]; [constructor|].
        apply Forall_forall. intros c Hc.
        destruct (closed_children k r h a t c Hcl Ht Hk Hc) as (? & ? & _). lia. }
      destruct res1 as [s1|ret].
      + destruct (IHp s1 HF) as (n2 & res2 & Hrun2).
        exists (Datatypes.S (n1 + n2)), res2. rewrite while_pool_unfold, js_pop_snoc, Hres. simpl. by eapply while_pool_app.
      + exists (Datatypes.S n1), (inr ret). rewrite while_pool_unfold, js_pop_snoc, Hres. simpl. by apply while_pool_app_return. }
  intros pool s HF. apply (Hd (length h)).
  eapply Forall_impl; [exact HF|]. intros a [? ?]. lia.
Qed.

Lemma GetElementsInRect_raw n this x y w ht fd h l :
  GetElementsInRect n this x y w ht fd h = Some l →
  ∃ raw, GetElementsInRect n this x y w ht false h = Some raw ∧
         l = if fd then first_occurrences raw else raw.
Proof.
  unfold GetElementsInRect. intros H.
  apply bind_Some in H as (res & Hres & H). rewrite Hres. simpl.
  destruct res as [raw|[]]. injection H as <-. exists raw. split; [done|].
  destruct fd; simpl; [apply filter_seen_first_occurrences|done].
Qed.

Lemma GetElementsInRect_filtered n this x y w ht h raw :
  GetElementsInRect n this x y w ht false h = Some raw →
  GetElementsInRect n this x y w ht true h = Some (first_occurrences raw).
Proof.
  unfold GetElementsInRect. intros H.
  apply bind_Some in H as (res & Hres & H). rewrite Hres. simpl.
  destruct res as [raw'|[]]. injection H as <-. simpl.
  by rewrite filter_seen_first_occurrences.
Qed.

Lemma GetElementsInRect_terminates k r this x y w ht fd h :
  closed k r h → k ≤ this → this < length h →
  ∃ n l, GetElementsInRect n this x y w ht fd h = Some l.
Proof.
  intros Hcl Hk Hlt. unfold GetElementsInRect.
  edestruct (static_loop_terminates (R := Empty_set)
    (λ tree (elements : list nat),
       t ← h !! tree;
       if (length (_elements t) =? 0) || negb (IsRectInBounds t x y w ht)
       then Some (Continue elements [])
       else if IsSplit t then Some (Continue elements (_children t))
       else Some (Continue (elements ++ _elements t) [])) k r h Hcl)
    as (n & res & Hrun).
  - intros a s t Ht. rewrite Ht. simpl.
    destruct (_ || _); [eexists; split; [done|by left]|].
    destruct (IsSplit t); eexists; (split; [done|]); [by right|by left].
  - apply Forall_singleton. split; [exact Hk|exact Hlt].
  - exists n. rewrite Hrun. simpl. destruct res as [raw|[]]. eauto.
Qed.

Lemma GetElementsInRect_leaf n this x y w ht h t raw :
  h !! this = Some t → IsSplit t = false →
  GetElementsInRect n this x y w ht false h = Some raw →
  raw = [] ∨ raw = _elements t.
Proof.
  intros Ht Hleaf. unfold GetElementsInRect. intros H.
  apply bind_Some in H as (res & Hres & H).
  destruct res as [raw'|[]]. injection H as <-.
  apply while_pool_single in Hres as (n' & r0 & -> & Hbody & Hrest).
  rewrite Ht in Hbody. simpl in Hbody. rewrite Hleaf in Hbody.
  destruct (_ || _); injection Hbody as <-;
    apply while_pool_nil in Hrest; injection Hrest as <-; auto.
Qed.

(** Claim C6, amended.  The result of GetElementsInRect with
    filterDuplicates = true is the unfiltered result with only the first
    occurrence of each id kept: it has no repeated id, is a subsequence
    of the unfiltered result and has the same members; on a reachable
    tree the query returns.  On a leaf whose elements list has no
    repeated id, both settings return the same sequence. *)
Theorem GetElementsInRect_filters_duplicates
    (this : nat) (x y w ht : float) (h : list QuadTree) :
  (∀ n raw, GetElementsInRect n this x y w ht false h = Some raw →
     GetElementsInRect n this x y w ht true h = Some (first_occurrences raw)) ∧
  (∀ n l, GetElementsInRect n this x y w ht true h = Some l →
     NoDup l ∧
     ∃ raw, GetElementsInRect n this x y w ht false h = Some raw ∧
       l = first_occurrences raw ∧ l `sublist_of` raw ∧ ∀ e, e ∈ l ↔ e ∈ raw) ∧
  (reachable h → this < length h →
     ∃ n l, GetElementsInRect n this x y w ht true h = Some l) ∧
  (∀ t n raw, h !! this = Some t → IsSplit t = false → NoDup (_elements t) →
     GetElementsInRect n this x y w ht false h = Some raw →
     GetElementsInRect n this x y w ht true h = Some raw).
Proof.
  split; [|split; [|split]].
  - intros n raw. apply GetElementsInRect_filtered.
  - intros n l Hl. apply GetElementsInRect_raw in Hl as (raw & Hraw & ->).
    split; [apply NoDup_first_occurrences|]. exists raw. split; [done|].
    split; [done|]. split; [apply sublist_first_occurrences|].
    intros e. apply elem_of_first_occurrences.
  - intros Hreach Hlt. destruct (reachable_inv h Hreach) as [Hcl _].
    by apply (GetElementsInRect_terminates 0 0); [|lia|].
  - intros t n raw Ht Hleaf Hnd Hraw.
    rewrite (GetElementsInRect_filtered _ _ _ _ _ _ _ _ Hraw). f_equal.
    apply first_occurrences_NoDup.
    destruct (GetElementsInRect_leaf _ _ _ _ _ _ _ _ _ Ht Hleaf Hraw) as [-> | ->];
      [constructor|done].
Qed.

(** ** Steps that keep the quarters and the carried occurrences *)

Lemma same_static_bounds t t' : same_static t t' → bounds t' = bounds t.
Proof. intros (Hx & Hy & Hw & Hh & _). unfold bounds. by rewrite Hx, Hy, Hw, Hh. Qed.

Lemma inside_reads_bounds G pid : reads_bounds (inside G pid).
Proof.
  intros t t' Hb. unfold inside. unfold bounds in Hb.
  injection Hb as -> -> -> ->. done.
Qed.

Lemma pending_nil c : pending [] c = 0.
Proof. unfold pending. rewrite bool_decide_eq_false_2; [done|]. apply not_elem_of_nil. Qed.

Lemma pending_in X c : c ∈ X → pending X c = 1.
Proof. intros H. unfold pending. by rewrite bool_decide_eq_true_2. Qed.

Lemma pending_out X c : c ∉ X → pending X c = 0.
Proof. intros H. unfold pending. by rewrite bool_decide_eq_false_2. Qed.

Lemma pending_ext X Y c : (c ∈ X ↔ c ∈ Y) → pending X c = pending Y c.
Proof. intros H. unfold pending. by rewrite (bool_decide_ext _ _ H). Qed.

Lemma soft_heap_back h h1 a t1 :
  soft_heap h h1 → h1 !! a = Some t1 → ∃ t, h !! a = Some t ∧ soft t t1.
Proof.
  intros [Hlen Hnodes] Ht1.
  assert (Hlt : a < length h) by (rewrite <- Hlen; by eapply lookup_lt_Some).
  destruct (lookup_lt_is_Some_2 h a Hlt) as [t Ht].
  destruct (Hnodes a t Ht) as (t' & Ht' & Hs). exists t. split; [done|]. congruence.
Qed.

Lemma quartered_soft h h1 : soft_heap h h1 → quartered h → quartered h1.
Proof.
  intros Hsoft Hq a t1 Ht1 Hsplit.
  destruct (soft_heap_back h h1 a t1 Hsoft Ht1) as (t & Ht & [Hs Hc _]).
  rewrite Hc in Hsplit.
  destruct (Hq a t Ht Hsplit)
    as (c0 & c1 & c2 & c3 & t0 & t1' & t2 & t3 & Hcs & ? & ? & ? &
        H0 & H1 & H2 & H3 & B0 & B1 & B2 & B3).
  destruct Hsoft as [_ Hnodes].
  destruct (Hnodes _ _ H0) as (s0 & Hs0 & [S0 _ _]).
  destruct (Hnodes _ _ H1) as (s1 & Hs1 & [S1 _ _]).
  destruct (Hnodes _ _ H2) as (s2 & Hs2 & [S2 _ _]).
  destruct (Hnodes _ _ H3) as (s3 & Hs3 & [S3 _ _]).
  exists c0, c1, c2, c3, s0, s1, s2, s3.
  rewrite Hc. do 4 (split; [done|]). do 4 (split; [done|]).
  rewrite (same_static_bounds _ _ S0), (same_static_bounds _ _ S1),
    (same_static_bounds _ _ S2), (same_static_bounds _ _ S3).
  destruct Hs as (-> & -> & -> & -> & _). done.
Qed.

Lemma carried_soft f pid X h h1 :
  reads_bounds f → soft_heap h h1 →
  (∀ a, count pid (elements_of h1 a) = count pid (elements_of h a)) →
  carried f pid X h → carried f pid X h1.
Proof.
  intros Hf Hsoft Hcnt Hcar a t1 c tc1 Ht1 Hc Htc1 Hin.
  destruct (soft_heap_back h h1 a t1 Hsoft Ht1) as (t & Ht & [Hs Hch _]).
  destruct (soft_heap_back h h1 c tc1 Hsoft Htc1) as (tc & Htc & [Hsc _ _]).
  rewrite Hch in Hc.
  rewrite (Hf tc tc1 (same_static_bounds _ _ Hsc)) in Hin.
  pose proof (Hcar a t c tc Ht Hc Htc Hin) as Heq.
  pose proof (Hcnt a) as Ha. pose proof (Hcnt c) as Hcc.
  rewrite (elements_of_lookup _ _ _ Ht1), (elements_of_lookup _ _ _ Ht) in Ha.
  rewrite (elements_of_lookup _ _ _ Htc1), (elements_of_lookup _ _ _ Htc) in Hcc.
  lia.
Qed.

(** A node that no list of children names may be put on the waiting
    list for free. *)
Lemma carried_start f pid X this h :
  (∀ a t, h !! a = Some t → this ∉ _children t) →
  carried f pid X h → carried f pid (X ++ [this]) h.
Proof.
  intros Horph Hcar a t c tc Ht Hc Htc Hin.
  rewrite <- (Hcar a t c tc Ht Hc Htc Hin). f_equal.
  apply pending_ext. rewrite elem_of_app, list_elem_of_singleton.
  split; [|by left]. intros [?| ->]; [done|]. by destruct (Horph a t Ht).
Qed.

(** The node was taken from the list and lies outside. *)
Lemma carried_skip f pid Y tree t h :
  h !! tree = Some t → f t = false →
  carried f pid (Y ++ [tree]) h → carried f pid Y h.
Proof.
  intros Ht Hout Hcar a ta c tc Hta Hc Htc Hin.
  rewrite <- (Hcar a ta c tc Hta Hc Htc Hin). f_equal.
  apply pending_ext. rewrite elem_of_app, list_elem_of_singleton.
  split; [by left|]. intros [?| ->]; [done|]. congruence.
Qed.

(** The node was taken from the list, received the element, and its
    children went on the list. *)
Lemma carried_visit f pid Y tree t h h2 :
  reads_bounds f → closed 0 0 h → h !! tree = Some t →
  soft_heap h h2 →
  (∀ a, count pid (elements_of h2 a) =
        count pid (elements_of h a) + (if decide (a = tree) then 1 else 0)) →
  Forall (λ x, x < tree) Y →
  carried f pid (Y ++ [tree]) h → carried f pid (Y ++ _children t) h2.
Proof.
  intros Hf Hcl Ht Hsoft Hcnt HY Hcar a ta2 c tc2 Hta2 Hc Htc2 Hin.
  destruct (soft_heap_back h h2 a ta2 Hsoft Hta2) as (ta & Hta & [Hs Hch _]).
  destruct (soft_heap_back h h2 c tc2 Hsoft Htc2) as (tc & Htc & [Hsc _ _]).
  rewrite Hch in Hc.
  rewrite (Hf tc tc2 (same_static_bounds _ _ Hsc)) in Hin.
  pose proof (Hcar a ta c tc Hta Hc Htc Hin) as Heq.
  pose proof (Hcnt a) as Ha. pose proof (Hcnt c) as Hcc.
  rewrite (elements_of_lookup _ _ _ Hta2), (elements_of_lookup _ _ _ Hta) in Ha.
  rewrite (elements_of_lookup _ _ _ Htc2), (elements_of_lookup _ _ _ Htc) in Hcc.
  destruct (closed_children 0 0 h a ta c Hcl Hta (Nat.le_0_l _) Hc)
    as (Hac & _ & tc' & Htc' & Hpar).
  assert (tc' = tc) as -> by congruence.
  rewrite Forall_forall in HY.
  assert (HnY : tree ∉ Y) by (intros H; apply HY in H; lia).
  destruct (decide (c = tree)) as [->|Hct].
  - (* the visited node as a child *)
    destruct (decide (a = tree)) as [->|Hat]; [lia|].
    rewrite pending_in in Heq by (apply elem_of_app; right; by apply list_elem_of_singleton).
    rewrite pending_out; [lia|].
    rewrite elem_of_app. intros [?|Hin']; [done|].
    destruct (closed_children 0 0 h tree t tree Hcl Ht (Nat.le_0_l _) Hin'). lia.
  - destruct (decide (a = tree)) as [->|Hat].
    + (* a child of the visited node *)
      assert (ta = t) as -> by congruence.
      rewrite pending_out in Heq.
      2:{ rewrite elem_of_app, list_elem_of_singleton. intros [H|H]; [|done].
          apply HY in H. lia. }
      rewrite pending_in by (apply elem_of_app; by right). lia.
    + (* a link elsewhere *)
      assert (pending (Y ++ _children t) c = pending (Y ++ [tree]) c) as ->; [|lia].
      apply pending_ext.
      rewrite !elem_of_app, list_elem_of_singleton.
      split; (intros [?|H]; [by left|]); [|done].
      destruct (closed_children 0 0 h tree t c Hcl Ht (Nat.le_0_l _) H)
        as (_ & _ & tc' & Htc'' & Hpar').
      congruence.
Qed.

Lemma quartered_alloc h node :
  _children node = [] → quartered h → quartered (h ++ [node]).
Proof.
  intros Hleaf Hq a t Ht Hsplit.
  apply lookup_app_Some in Ht as [Ht|[_ Ht]].
  - destruct (Hq a t Ht Hsplit)
      as (c0 & c1 & c2 & c3 & t0 & t1 & t2 & t3 & Hcs & ? & ? & ? &
          H0 & H1 & H2 & H3 & HB).
    exists c0, c1, c2, c3, t0, t1, t2, t3.
    do 4 (split; [done|]).
    by rewrite !(lookup_app_l_Some _ _ _ _ H0), !(lookup_app_l_Some _ _ _ _ H1),
      !(lookup_app_l_Some _ _ _ _ H2), !(lookup_app_l_Some _ _ _ _ H3).
  - apply list_lookup_singleton_Some in Ht as [_ <-]. done.
Qed.

Lemma carried_alloc f pid X h node :
  closed 0 0 h → _children node = [] →
  carried f pid X h → carried f pid X (h ++ [node]).
Proof.
  intros Hcl Hleaf Hcar a t c tc Ht Hc Htc Hin.
  apply lookup_app_Some in Ht as [Ht|[_ Ht]].
  - destruct (closed_children 0 0 h a t c Hcl Ht (Nat.le_0_l _) Hc)
      as (_ & _ & tc' & Htc' & _).
    rewrite (lookup_app_l_Some _ _ _ _ Htc') in Htc. injection Htc as <-.
    by apply (Hcar a t c).
  - apply list_lookup_singleton_Some in Ht as [_ <-].
    rewrite Hleaf in Hc. by apply elem_of_nil in Hc.
Qed.

Lemma lookup_set_children (h : list QuadTree) tree t cs a ta :
  h !! tree = Some t → <[tree := set_children cs t]> h !! a = Some ta →
  ∃ ta0, h !! a = Some ta0 ∧ bounds ta = bounds ta0 ∧
         _elements ta = _elements ta0 ∧
         _children ta = (if decide (a = tree) then cs else _children ta0).
Proof.
  intros Ht Hta. destruct (decide (a = tree)) as [->|Hne].
  - rewrite list_lookup_insert_eq in Hta by (by eapply lookup_lt_Some).
    injection Hta as <-. by exists t.
  - rewrite list_lookup_insert_ne in Hta by done. by exists ta.
Qed.

Lemma lookup_set_children_fwd (h : list QuadTree) tree t cs a ta :
  h !! tree = Some t → h !! a = Some ta →
  ∃ ta', <[tree := set_children cs t]> h !! a = Some ta' ∧
         bounds ta' = bounds ta ∧ _elements ta' = _elements ta.
Proof.
  intros Ht Hta. destruct (decide (a = tree)) as [->|Hne].
  - rewrite list_lookup_insert_eq by (by eapply lookup_lt_Some).
    assert (ta = t) as -> by congruence. by eexists.
  - rewrite list_lookup_insert_ne by done. by exists ta.
Qed.

Lemma quartered_link h tree t c0 c1 c2 c3 t0 t1 t2 t3 :
  h !! tree = Some t →
  c0 < c1 → c1 < c2 → c2 < c3 →
  h !! c0 = Some t0 → h !! c1 = Some t1 → h !! c2 = Some t2 → h !! c3 = Some t3 →
  bounds t0 = (_x t, _y t, _width t / 2, _height t / 2)%float →
  bounds t1 = (_x t + _width t / 2, _y t, _width t / 2, _height t / 2)%float →
  bounds t2 = (_x t, _y t + _height t / 2, _width t / 2, _height t / 2)%float →
  bounds t3 = (_x t + _width t / 2, _y t + _height t / 2,
               _width t / 2, _height t / 2)%float →
  quartered h → quartered (<[tree := set_children [c0; c1; c2; c3] t]> h).
Proof.
  intros Ht L0 L1 L2 H0 H1 H2 H3 B0 B1 B2 B3 Hq a ta Hta Hsplit.
  destruct (lookup_set_children h tree t _ a ta Ht Hta) as (ta0 & Hta0 & Hb & _ & Hch).
  assert (Hxy : (_x ta, _y ta, _width ta, _height ta) = (_x ta0, _y ta0, _width ta0, _height ta0))
    by exact Hb.
  injection Hxy as -> -> -> ->.
  destruct (decide (a = tree)) as [->|Hne].
  - assert (ta0 = t) as -> by congruence.
    destruct (lookup_set_children_fwd h tree t [c0; c1; c2; c3] c0 t0 Ht H0) as (s0 & Hs0 & E0 & _).
    destruct (lookup_set_children_fwd h tree t [c0; c1; c2; c3] c1 t1 Ht H1) as (s1 & Hs1 & E1 & _).
    destruct (lookup_set_children_fwd h tree t [c0; c1; c2; c3] c2 t2 Ht H2) as (s2 & Hs2 & E2 & _).
    destruct (lookup_set_children_fwd h tree t [c0; c1; c2; c3] c3 t3 Ht H3) as (s3 & Hs3 & E3 & _).
    exists c0, c1, c2, c3, s0, s1, s2, s3.
    do 4 (split; [done|]). do 4 (split; [done|]).
    rewrite E0, E1, E2, E3. done.
  - rewrite Hch in Hsplit.
    destruct (Hq a ta0 Hta0 Hsplit)
      as (d0 & d1 & d2 & d3 & u0 & u1 & u2 & u3 & Hcs & ? & ? & ? &
          U0 & U1 & U2 & U3 & C0 & C1 & C2 & C3).
    destruct (lookup_set_children_fwd h tree t [c0; c1; c2; c3] d0 u0 Ht U0) as (s0 & Hs0 & E0 & _).
    destruct (lookup_set_children_fwd h tree t [c0; c1; c2; c3] d1 u1 Ht U1) as (s1 & Hs1 & E1 & _).
    destruct (lookup_set_children_fwd h tree t [c0; c1; c2; c3] d2 u2 Ht U2) as (s2 & Hs2 & E2 & _).
    destruct (lookup_set_children_fwd h tree t [c0; c1; c2; c3] d3 u3 Ht U3) as (s3 & Hs3 & E3 & _).
    exists d0, d1, d2, d3, s0, s1, s2, s3.
    rewrite Hch. do 4 (split; [done|]). do 4 (split; [done|]).
    rewrite E0, E1, E2, E3. done.
Qed.

Lemma carried_link f pid X h tree t cs :
  reads_bounds f → h !! tree = Some t → _children t = [] →
  (∀ c tc, c ∈ cs → h !! c = Some tc → f tc = true →
     count pid (_elements tc) + pending X c = count pid (_elements t)) →
  Forall (λ c, tree < c) cs →
  carried f pid X h → carried f pid X (<[tree := set_children cs t]> h).
Proof.
  intros Hf Ht Hleaf Hnew Hgt Hcar a ta c tc Hta Hc Htc Hin.
  destruct (lookup_set_children h tree t cs a ta Ht Hta) as (ta0 & Hta0 & _ & Hea & Hch).
  destruct (lookup_set_children h tree t cs c tc Ht Htc) as (tc0 & Htc0 & Hbc & Hec & _).
  rewrite (Hf tc0 tc Hbc) in Hin. rewrite Hea, Hec.
  destruct (decide (a = tree)) as [->|Hne].
  - assert (ta0 = t) as -> by congruence. rewrite Hch in Hc. by apply Hnew.
  - rewrite Hch in Hc. by apply (Hcar a ta0 c tc0).
Qed.

Lemma count_filter pid (f : nat → bool) l :
  count pid (List.filter f l) = if f pid then count pid l else 0.
Proof.
  induction l as [|x l IH]; [by destruct (f pid)|].
  change (List.filter f (x :: l))
    with (if f x then x :: List.filter f l else List.filter f l).
  rewrite (count_cons pid x l).
  destruct (f x) eqn:Hx.
  - rewrite count_cons, IH. destruct (decide (x = pid)) as [->|Hne].
    + by rewrite Hx.
    + by destruct (f pid).
  - rewrite IH. destruct (decide (x = pid)) as [->|Hne].
    + by rewrite Hx.
    + by destruct (f pid).
Qed.

Lemma built_carried G pid h' p pt c x y w ht mE mD tc :
  built G h' p pt c x y w ht mE mD → h' !! c = Some tc →
  bounds tc = (x, y, w, ht) ∧
  (inside G pid tc = true → count pid (_elements tc) = count pid (_elements pt)).
Proof.
  intros (tc' & Htc' & Hs & He & _) Htc. assert (tc' = tc) as -> by congruence.
  pose proof (same_static_bounds _ _ Hs) as Hb. simpl in Hb.
  split; [exact Hb|]. intros Hin. rewrite He, count_filter.
  unfold inside in Hin. unfold bounds in Hb. injection Hb as Hx Hy Hw Hh.
  rewrite Hx, Hy, Hw, Hh in Hin. by rewrite Hin.
Qed.

(** ** AddElement keeps the quarters and the carried occurrences *)

Section PointMaster.
Variable G : Elements.
Variable pid : nat.
Variable n : nat.
Hypothesis IHn : point_post G pid n.

Lemma ctor_point x y w ht mE mD arr p pt h c h' X :
  new_QuadTree (AddElement n G) n x y w ht mE mD arr (Some p) h = Some (c, h') →
  closed 0 0 h → h !! p = Some pt → _children pt = [] →
  quartered h → carried (inside G pid) pid X h →
  Forall (λ x, x < length h) X →
  quartered h' ∧ carried (inside G pid) pid X h'.
Proof.
  intros Hnew Hcl Hpt Hleaf Hq Hcar HX.
  assert (Hp : p < length h) by (by eapply lookup_lt_Some).
  apply new_QuadTree_child_inv in Hnew as (pt' & Hpt' & -> & Hfor); [|done].
  assert (pt' = pt) as -> by congruence.
  set (node := child_node x y w ht mE mD p pt) in *.
  set (c := length h) in *. set (h1 := h ++ [node]) in *.
  assert (Hcl1 : closed 0 0 h1) by (apply closed_alloc_child; [done..|lia]).
  assert (Hc1 : h1 !! c = Some node) by apply lookup_snoc_new.
  assert (Hp1 : h1 !! p = Some pt) by (by apply lookup_app_l_Some).
  pose (I := λ (i : nat) (h2 : list QuadTree),
    evolves c 0 h1 h2 ∧ closed 0 0 h2 ∧ quartered h2 ∧
    carried (inside G pid) pid X h2).
  eapply (for_live_inv I) in Hfor.
  - by destruct Hfor as (_ & _ & (_ & _ & ? & ?) & _).
  - intros i h2 l a h3 (Hev & Hcl2 & Hq2 & Hcar2) _ _ Hbody.
    unfold AddElement_stmt in Hbody.
    apply bind_Some in Hbody as ([b h3'] & Hadd & Hbody). injection Hbody as ->.
    destruct (evolves_lookup _ _ _ _ _ _ Hev Hc1) as (tc & Htc & Hsc).
    assert (Hlt : c < length h2) by (by eapply lookup_lt_Some).
    destruct (AddElement_spec G n 0 0 c a h2 b h3 Hadd Hcl2 (Nat.le_0_l _) Hlt)
      as (_ & Hcl3 & _).
    destruct (AddElement_spec G n c 0 c a h2 b h3 Hadd
                (closed_weaken 0 c 0 h2 (Nat.le_0_l _) Hcl2) (Nat.le_refl _) Hlt)
      as (Hev3 & _).
    destruct (IHn c a h2 b h3 X Hadd Hcl2 Hlt Hq2 Hcar2 HX) as (Hq3 & Hcar3 & _).
    { intros _ a' t' Ht' Hin.
      destruct (closed_children 0 0 h2 a' t' c Hcl2 Ht' (Nat.le_0_l _) Hin)
        as (Hlt' & _ & tc' & Htc' & Hpar).
      assert (tc' = tc) as -> by congruence.
      destruct Hsc as (_ & _ & _ & _ & _ & _ & _ & Hparent & _).
      rewrite Hparent in Hpar. simpl in Hpar. injection Hpar as <-.
      destruct (evolves_frame _ _ _ _ _ _ Hev Hp1 Hp) as (pt2 & Hpt2 & _ & _ & Hch).
      assert (t' = pt2) as -> by congruence.
      rewrite Hch, Hleaf in Hin. by apply elem_of_nil in Hin. }
    split; [by eapply evolves_trans|]. done.
  - split; [apply evolves_refl|]. split; [done|].
    split; [by apply quartered_alloc|by apply carried_alloc].
Qed.

Lemma split_point tree t h cs h' X :
  split_children (AddElement n G) n tree t h = Some (cs, h') →
  closed 0 0 h → h !! tree = Some t → _children t = [] →
  quartered h → carried (inside G pid) pid X h →
  Forall (λ x, x < length h) X →
  quartered h' ∧ carried (inside G pid) pid X h'.
Proof.
  intros Hsp Hcl Ht Hleaf Hq Hcar HX.
  assert (Hlt : tree < length h) by (by eapply lookup_lt_Some).
  apply split_children_inv in Hsp
    as (c0 & c1 & c2 & c3 & h1 & h2 & h3 & -> & E0 & E1 & E2 & E3).
  assert (Hstep : ∀ x y w ht mE mD arr ha c hb ta,
    new_QuadTree (AddElement n G) n x y w ht mE mD arr (Some tree) ha = Some (c, hb) →
    closed 0 0 ha → ha !! tree = Some ta → _children ta = [] →
    quartered ha → carried (inside G pid) pid X ha →
    Forall (λ x, x < length ha) X →
    (closed 0 0 hb ∧ (∃ tb, hb !! tree = Some tb ∧ _children tb = []) ∧
     quartered hb ∧ carried (inside G pid) pid X hb ∧
     Forall (λ x, x < length hb) X)).
  { intros x y w ht mE mD arr ha c hb ta E Hcla Hta Hla Hqa Hcara HXa.
    assert (Hlta : tree < length ha) by (by eapply lookup_lt_Some).
    destruct (ctor_point x y w ht mE mD arr tree ta ha c hb X E Hcla Hta Hla Hqa Hcara HXa)
      as [Hqb Hcarb].
    destruct (ctor_spec G (AddElement n G) (AddElement_spec G n) 0 0 n
                x y w ht mE mD arr tree ha c hb E Hcla (Nat.le_0_l _) Hlta)
      as (-> & Hev & Hclb & _ & _).
    destruct (evolves_frame _ _ _ _ _ _ Hev Hta Hlta) as (tb & Htb & _ & _ & Hch).
    split; [done|]. split; [exists tb; split; [done|congruence]|].
    split; [done|]. split; [done|].
    pose proof (evolves_length _ _ _ _ Hev) as Hlen.
    eapply Forall_impl; [exact HXa|]. simpl. intros. lia. }
  destruct (Hstep _ _ _ _ _ _ _ _ _ _ _ E0 Hcl Ht Hleaf Hq Hcar HX)
    as (Hcl1 & (t1 & Ht1 & Hl1) & Hq1 & Hcar1 & HX1).
  destruct (Hstep _ _ _ _ _ _ _ _ _ _ _ E1 Hcl1 Ht1 Hl1 Hq1 Hcar1 HX1)
    as (Hcl2 & (t2 & Ht2 & Hl2) & Hq2 & Hcar2 & HX2).
  destruct (Hstep _ _ _ _ _ _ _ _ _ _ _ E2 Hcl2 Ht2 Hl2 Hq2 Hcar2 HX2)
    as (Hcl3 & (t3 & Ht3 & Hl3) & Hq3 & Hcar3 & HX3).
  destruct (Hstep _ _ _ _ _ _ _ _ _ _ _ E3 Hcl3 Ht3 Hl3 Hq3 Hcar3 HX3)
    as (_ & _ & Hq4 & Hcar4 & _).
  done.
Qed.

Lemma push_point el tree h h1 h2 :
  elParents_push 0 el tree h = Some h1 →
  modify tree (λ t, set_elements (_elements t ++ [el]) t) h1 = Some h2 →
  soft_heap h h2 ∧
  ∀ a, count pid (elements_of h2 a) =
       count pid (elements_of h a)
       + (if decide (a = tree) then count pid [el] else 0).
Proof.
  intros Hpush Hmod.
  destruct (push_step 0 0 el tree h h1 h2 Hpush Hmod (Nat.le_0_l _))
    as (_ & Hlen & _ & _ & Hnodes).
  split.
  { split; [done|]. intros a t Ht. destruct (Hnodes a t Ht) as (t' & ? & ? & _). eauto. }
  intros a. destruct (h !! a) as [t|] eqn:Ht.
  - destruct (Hnodes a t Ht) as (t' & Ht' & _ & He).
    rewrite (elements_of_lookup _ _ _ Ht), (elements_of_lookup _ _ _ Ht'), He, count_app.
    destruct (decide (a = tree)); [done|]. by rewrite count_nil.
  - assert (h2 !! a = None) as Hn.
    { apply lookup_ge_None. rewrite Hlen. by apply lookup_ge_None. }
    rewrite (elements_of_None _ _ Ht), (elements_of_None _ _ Hn).
    destruct (decide (a = tree)) as [->|]; [|done].
    apply modify_Some in Hmod as (t1 & Ht1 & _).
    apply lookup_lt_Some in Ht1. apply lookup_ge_None in Ht.
    apply elParents_push_Some in Hpush as (l & _ & Hset).
    apply set_owner_entry_Some in Hset as (rt & m & _ & _ & ->).
    rewrite length_insert in Ht1. lia.
Qed.

Lemma visit_point el tree t h h1 h2 t2 Y :
  closed 0 0 h → quartered h → h !! tree = Some t →
  elParents_push 0 el tree h = Some h1 →
  modify tree (λ t, set_elements (_elements t ++ [el]) t) h1 = Some h2 →
  h2 !! tree = Some t2 →
  Forall (λ x, x < tree) Y →
  carried (inside G pid) pid (Y ++ (if decide (el = pid) then [tree] else [])) h →
  closed 0 0 h2 ∧ length h2 = length h ∧ _children t2 = _children t ∧
  quartered h2 ∧
  carried (inside G pid) pid (Y ++ (if decide (el = pid) then _children t else [])) h2 ∧
  (el ≠ pid → ∀ a, count pid (elements_of h2 a) = count pid (elements_of h a)).
Proof.
  intros Hcl Hq Ht Hpush Hmod Ht2 HY Hcar.
  destruct (push_point el tree h h1 h2 Hpush Hmod) as [Hsoft Hcnt].
  destruct (push_step 0 0 el tree h h1 h2 Hpush Hmod (Nat.le_0_l _))
    as (_ & Hlen & _ & Hclosed & _).
  split; [by apply Hclosed|]. split; [done|].
  split.
  { destruct Hsoft as [_ Hnodes]. destruct (Hnodes tree t Ht) as (t' & Ht' & [_ Hc _]).
    congruence. }
  split; [by eapply quartered_soft|].
  destruct (decide (el = pid)) as [->|Hne].
  - split; [|done].
    eapply carried_visit; eauto using inside_reads_bounds.
    intros a. rewrite Hcnt. by rewrite count_single_eq.
  - assert (Hsame : ∀ a, count pid (elements_of h2 a) = count pid (elements_of h a)).
    { intros a. rewrite Hcnt, count_single_ne by done. destruct (decide (a = tree)); lia. }
    split; [|done].
    eapply carried_soft; eauto using inside_reads_bounds.
Qed.

Lemma IsSplit_false t : IsSplit t = false → _children t = [].
Proof. unfold IsSplit. by destruct (_children t). Qed.

Lemma quartered_sorted h a t :
  quartered h → h !! a = Some t → StronglySorted lt (_children t).
Proof.
  intros Hq Ht. destruct (_children t) as [|c cs] eqn:Hc; [constructor|].
  destruct (Hq a t Ht) as (c0 & c1 & c2 & c3 & _ & _ & _ & _ & Hcs & ? & ? & ? & _).
  { by rewrite Hc. }
  rewrite <- Hc, Hcs.
  repeat (constructor; [|repeat (constructor; [lia|]); constructor]). constructor.
Qed.

Lemma turn_point el tree h res Y :
  AddElement_turn (AddElement n G) n G 0 el tree h = Some res →
  closed 0 0 h → quartered h →
  Forall (λ x, x < tree) Y →
  carried (inside G pid) pid (Y ++ (if decide (el = pid) then [tree] else [])) h →
  ∃ h' pushed, res = Continue h' pushed ∧ quartered h' ∧
    StronglySorted lt pushed ∧
    carried (inside G pid) pid (Y ++ (if decide (el = pid) then pushed else [])) h' ∧
    (el ≠ pid → ∀ a, a < length h →
       count pid (elements_of h' a) = count pid (elements_of h a)).
Proof.
  intros Hturn Hcl Hq HY Hcar.
  apply AddElement_turn_inv in Hturn.
  destruct Hturn as [t Ht Hout
    | t h1 h2 t2 Ht Hin Hpush Hmod Ht2 Hsplit
    | t h1 h2 t2 Ht Hin Hpush Hmod Ht2 Hleaf Hno
    | t h1 h2 t2 cs h3 h4 Ht Hin Hpush Hmod Ht2 Hleaf Hmay Hsp Hlink].
  - exists h, []. split; [done|]. split; [done|]. split; [constructor|].
    split; [|done].
    destruct (decide (el = pid)) as [->|Hne]; [|done].
    rewrite app_nil_r. by eapply carried_skip.
  - destruct (visit_point el tree t h h1 h2 t2 Y Hcl Hq Ht Hpush Hmod Ht2 HY Hcar)
      as (Hcl2 & Hlen & Hch & Hq2 & Hcar2 & Hfr).
    exists h2, (_children t2). split; [done|]. split; [done|].
    split; [by eapply quartered_sorted|].
    rewrite Hch. split; [done|]. intros Hne a _. by apply Hfr.
  - destruct (visit_point el tree t h h1 h2 t2 Y Hcl Hq Ht Hpush Hmod Ht2 HY Hcar)
      as (Hcl2 & Hlen & Hch & Hq2 & Hcar2 & Hfr).
    exists h2, []. split; [done|]. split; [done|]. split; [constructor|].
    apply IsSplit_false in Hleaf. rewrite <- Hch, Hleaf in Hcar2.
    split; [done|]. intros Hne a _. by apply Hfr.
  - destruct (visit_point el tree t h h1 h2 t2 Y Hcl Hq Ht Hpush Hmod Ht2 HY Hcar)
      as (Hcl2 & Hlen & Hch & Hq2 & Hcar2 & Hfr).
    apply IsSplit_false in Hleaf. rewrite <- Hch, Hleaf in Hcar2.
    remember (Y ++ (if decide (el = pid) then [] else [])) as X eqn:HeqX.
    assert (HX : Forall (λ x, x < length h2) X).
    { assert (X = Y) as -> by (rewrite HeqX; destruct (decide (el = pid)); apply app_nil_r).
      apply lookup_lt_Some in Ht2.
      eapply Forall_impl; [exact HY|]. simpl. intros. lia. }
    destruct (split_point tree t2 h2 cs h3 X Hsp Hcl2 Ht2 Hleaf Hq2 Hcar2 HX)
      as [Hq3 Hcar3].
    assert (Hlt2 : tree < length h2) by (by eapply lookup_lt_Some).
    destruct (split_children_spec G (AddElement n G) (AddElement_spec G n) 0 0 n
                tree t2 h2 cs h3 Hsp Hcl2 (Nat.le_0_l _) Ht2)
      as (Hev3 & Hcl3 & c0 & c1 & c2 & c3 & -> & L0 & L1 & L2 & L3 & L4 &
          B0 & B1 & B2 & B3).
    destruct (evolves_frame _ _ _ _ _ _ Hev3 Ht2 Hlt2) as (t3 & Ht3 & Hs3 & He3 & Hc3).
    apply modify_Some in Hlink as (t3' & Ht3' & ->).
    assert (t3' = t3) as -> by congruence.
    destruct (B0) as (u0 & Hu0 & _). destruct (B1) as (u1 & Hu1 & _).
    destruct (B2) as (u2 & Hu2 & _). destruct (B3) as (u3 & Hu3 & _).
    destruct (built_carried G pid _ _ _ _ _ _ _ _ _ _ u0 B0 Hu0) as [Q0 K0].
    destruct (built_carried G pid _ _ _ _ _ _ _ _ _ _ u1 B1 Hu1) as [Q1 K1].
    destruct (built_carried G pid _ _ _ _ _ _ _ _ _ _ u2 B2 Hu2) as [Q2 K2].
    destruct (built_carried G pid _ _ _ _ _ _ _ _ _ _ u3 B3 Hu3) as [Q3 K3].
    pose proof (same_static_bounds _ _ Hs3) as Hb3.
    assert (Hxy : (_x t3, _y t3, _width t3, _height t3)
                  = (_x t2, _y t2, _width t2, _height t2)) by exact Hb3.
    injection Hxy as Ex Ey Ew Eh.
    exists (<[tree := set_children [c0; c1; c2; c3] t3]> h3), [].
    rewrite <- HeqX. split; [done|]. split.
    { apply (quartered_link h3 tree t3 c0 c1 c2 c3 u0 u1 u2 u3); try done.
      all: rewrite Ex, Ey, Ew, Eh; done. }
    split; [constructor|]. split.
    { apply carried_link.
      { apply inside_reads_bounds. }
      { done. }
      { congruence. }
      2:{ rewrite !Forall_cons. repeat split; (lia || constructor). }
      2:{ done. }
      intros c tc Hc Htc Hinc.
      assert (Hpend : pending X c = 0).
      { apply pending_out. intros HcX. rewrite Forall_forall in HX.
        apply HX in HcX.
        repeat (apply elem_of_cons in Hc as [->|Hc]; [lia|]). by apply elem_of_nil in Hc. }
      rewrite Hpend, He3, Nat.add_0_r.
      repeat (apply elem_of_cons in Hc as [->|Hc];
        [match goal with
         | Hu : h3 !! _ = Some ?u, K : inside G pid ?u = true → _ |- _ =>
             assert (tc = u) as -> by congruence; by apply K
         end|]).
      by apply elem_of_nil in Hc. }
    intros Hne a Ha.
    rewrite <- (Hfr Hne a).
    destruct (h2 !! a) as [ta|] eqn:Hta.
    2:{ apply lookup_ge_None in Hta. lia. }
    destruct (evolves_frame _ _ _ _ _ _ Hev3 Hta) as (ta3 & Hta3 & _ & Hea & _); [lia|].
    destruct (lookup_set_children_fwd h3 tree t3 [c0; c1; c2; c3] a ta3 Ht3 Hta3)
      as (ta4 & Hta4 & _ & Hea4).
    rewrite (elements_of_lookup _ _ _ Hta4), (elements_of_lookup _ _ _ Hta).
    by rewrite Hea4, Hea.
Qed.

Lemma loop_point this el X pool h h' :
  while_pool n (AddElement_turn (AddElement n G) n G 0 el) pool h = Some (inl h') →
  closed 0 0 h → quartered h →
  Forall (λ x, x < this) X →
  Forall (λ a, this ≤ a ∧ a < length h) pool → StronglySorted lt pool →
  carried (inside G pid) pid (X ++ (if decide (el = pid) then pool else [])) h →
  quartered h' ∧ carried (inside G pid) pid X h' ∧
  (el ≠ pid → ∀ a, a < length h →
     count pid (elements_of h' a) = count pid (elements_of h a)).
Proof.
  intros Hrun Hcl Hq HX Hpool Hsorted Hcar.
  pose (I := λ (pool : list nat) (hc : list QuadTree),
    closed 0 0 hc ∧ length h ≤ length hc ∧ quartered hc ∧
    Forall (λ a, this ≤ a ∧ a < length hc) pool ∧ StronglySorted lt pool ∧
    carried (inside G pid) pid (X ++ (if decide (el = pid) then pool else [])) hc ∧
    (el ≠ pid → ∀ a, a < length h →
       count pid (elements_of hc a) = count pid (elements_of h a))).
  pose (Q := λ (res : list QuadTree + Empty_set),
    ∃ hc, res = inl hc ∧ quartered hc ∧ carried (inside G pid) pid X hc ∧
      (el ≠ pid → ∀ a, a < length h →
         count pid (elements_of hc a) = count pid (elements_of h a))).
  assert (HQ : Q (inl h')); [|by destruct HQ as (hc & [= <-] & ?)].
  eapply (while_pool_inv I Q); [| |exact (conj Hcl (conj (Nat.le_refl _)
    (conj Hq (conj Hpool (conj Hsorted (conj Hcar (λ _ _ _, eq_refl)))))))|exact Hrun].
  - intros rest tree hc r (Hclc & Hlen & Hqc & Hpoolc & Hsc & Hcarc & Hfrc) Hbody.
    apply Forall_app in Hpoolc as [Hrest Htree].
    apply Forall_singleton in Htree as [Hthis Hlt].
    set (Y := X ++ (if decide (el = pid) then rest else [])).
    assert (HY : Forall (λ x, x < tree) Y).
    { apply Forall_app. split.
      - eapply Forall_impl; [exact HX|]. simpl. intros. lia.
      - destruct (decide (el = pid)); [|constructor].
        apply Forall_forall. intros x Hx.
        apply (StronglySorted_app_1_elem_of lt rest [tree] x tree Hsc Hx).
        by apply list_elem_of_singleton. }
    assert (HcarY : carried (inside G pid) pid
              (Y ++ (if decide (el = pid) then [tree] else [])) hc).
    { unfold Y. destruct (decide (el = pid)); [by rewrite <- app_assoc|].
      by rewrite !app_nil_r in *. }
    destruct (turn_point el tree hc r Y Hbody Hclc Hqc HY HcarY)
      as (h2 & pushed & -> & Hq2 & Hs2 & Hcar2 & Hfr2).
    destruct (turn_spec G (AddElement n G) (AddElement_spec G n) 0 0 n el tree hc _
                Hbody Hclc (Nat.le_0_l _))
      as (h2' & pushed' & t & t' & Heq & Hev & Hcl2 & Hpushed & _).
    injection Heq as <- <-.
    pose proof (evolves_length _ _ _ _ Hev) as Hlen2.
    split; [done|]. split; [lia|]. split; [done|]. split.
    { apply Forall_app. split.
      - eapply Forall_impl; [exact Hrest|]. simpl. intros. lia.
      - eapply Forall_impl; [exact Hpushed|]. simpl. intros. lia. }
    split.
    { apply StronglySorted_app_2; [|by eapply StronglySorted_app_1_l|done].
      intros x1 x2 Hx1 Hx2.
      pose proof (StronglySorted_app_1_elem_of lt rest [tree] x1 tree Hsc Hx1) as H1.
      rewrite Forall_forall in Hpushed. destruct (Hpushed x2 Hx2).
      specialize (H1 ltac:(by apply list_elem_of_singleton)). lia. }
    split.
    { unfold Y in Hcar2. destruct (decide (el = pid)); [by rewrite app_assoc|].
      by rewrite !app_nil_r in *. }
    intros Hne a Ha. rewrite (Hfr2 Hne a) by lia. by apply Hfrc.
  - intros hc (_ & _ & Hqc & _ & _ & Hcarc & Hfrc). exists hc.
    split; [done|]. split; [done|]. split; [|done].
    destruct (decide (el = pid)); by rewrite app_nil_r in Hcarc.
Qed.

End PointMaster.

Lemma AddElement_point G pid n : point_post G pid n.
Proof.
  induction n as [|n IH]; intros this el h b h' X Hadd Hcl Hlt Hq Hcar HX Horph;
    [done|].
  apply AddElement_inv in Hadd
    as (fuel' & r & l & h1 & l' & [= <-] & Hr & Hg & Hloop & _ & _).
  rewrite (closed_rootTree 0 0 h this Hcl (Nat.le_0_l _) Hlt) in Hr.
  injection Hr as <-.
  destruct (GetParents_create 0 0 this el h _ h1
              (closed_rootTree 0 0 h this Hcl (Nat.le_0_l _) Hlt) Hg)
    as (_ & _ & _ & Hlen & Hels & Hclosed & Hnodes).
  assert (Hsoft : soft_heap h h1).
  { split; [done|]. intros a t Ht. destruct (Hnodes a t Ht) as (t' & ? & ? & _). eauto. }
  assert (Hcnt : ∀ a, count pid (elements_of h1 a) = count pid (elements_of h a))
    by (intros a; by rewrite Hels).
  assert (Hq1 : quartered h1) by (by eapply quartered_soft).
  assert (Hcar1 : carried (inside G pid) pid X h1)
    by (eapply carried_soft; eauto using inside_reads_bounds).
  destruct (loop_point G pid n IH this el X [this] h1 h' Hloop) as (Hq' & Hcar' & Hfr').
  - by apply Hclosed.
  - done.
  - done.
  - apply Forall_singleton. lia.
  - repeat constructor.
  - destruct (decide (el = pid)) as [Heq|]; [|by rewrite app_nil_r].
    apply carried_start; [|done].
    intros a t1 Ht1 Hin.
    destruct (soft_heap_back h h1 a t1 Hsoft Ht1) as (t & Ht & [_ Hc _]).
    rewrite Hc in Hin. by apply (Horph Heq a t).
  - split; [done|]. split; [done|].
    intros Hne a Ha. rewrite Hfr' by (done || lia). apply Hcnt.
Qed.

Lemma carried_ext f g pid X h :
  (∀ t, f t = g t) → carried f pid X h → carried g pid X h.
Proof.
  intros Hfg Hcar a t c tc Ht Hc Htc Hin. rewrite <- Hfg in Hin. by eapply Hcar.
Qed.

Lemma carried_absent f pid h :
  (∀ a t, h !! a = Some t → pid ∉ _elements t) → carried f pid [] h.
Proof.
  intros Habs a t c tc Ht Hc Htc _. rewrite pending_nil.
  rewrite (proj2 (count_zero pid (_elements tc))) by eauto.
  rewrite (proj2 (count_zero pid (_elements t))) by eauto. done.
Qed.

Lemma root_no_parent h a t : closed 0 0 h → h !! a = Some t → 0 ∉ _children t.
Proof.
  intros Hcl Ht Hin.
  destruct (closed_children 0 0 h a t 0 Hcl Ht (Nat.le_0_l _) Hin). lia.
Qed.

Lemma AddElement_quartered n G this el h b h' :
  AddElement n G this el h = Some (b, h') →
  closed 0 0 h → this < length h → quartered h → quartered h'.
Proof.
  intros Hadd Hcl Hlt Hq.
  set (pid := fresh (el :: mjoin (_elements <$> h))).
  assert (Hfresh : pid ∉ el :: mjoin (_elements <$> h)) by apply infinite_is_fresh.
  assert (Habs : ∀ a t, h !! a = Some t → pid ∉ _elements t).
  { intros a t Ht Hin. apply Hfresh. right.
    apply list_elem_of_join. exists (_elements t). split; [done|].
    apply list_elem_of_fmap. exists t. split; [done|]. by eapply list_elem_of_lookup_2. }
  destruct (AddElement_point G pid n this el h b h' [] Hadd Hcl Hlt Hq) as [Hq' _];
    [by apply carried_absent|constructor| |done].
  intros Heq. exfalso. apply Hfresh. rewrite <- Heq. by left.
Qed.

Lemma soft_refl t : soft t t.
Proof. split; [apply same_static_refl|done|done]. Qed.

Lemma RemoveElement_soft this el h b h' :
  closed 0 0 h → agree 0 h → this < length h →
  RemoveElement this el h = Some (b, h') →
  closed 0 0 h' ∧ agree 0 h' ∧ soft_heap h h' ∧
  ∀ pid, pid ≠ el → ∀ a, count pid (elements_of h' a) = count pid (elements_of h a).
Proof.
  intros Hcl Hag Hlt Hrem.
  destruct (RemoveElement_spec 0 0 this el h Hcl Hag (Nat.le_0_l _) Hlt)
    as (h1 & Hrem1 & Hcl1 & Hag1 & Hlen & Hno & Hyes).
  assert (h1 = h') as -> by congruence.
  split; [done|]. split; [done|].
  destruct (decide (this ∈ owners h 0 el)) as [Hin|Hnin].
  - destruct (Hyes Hin) as (_ & _ & Hnodes). split.
    { split; [done|]. intros a t Ht. destruct (Hnodes a t Ht) as (t' & ? & ? & _). eauto. }
    intros pid Hne a. destruct (h !! a) as [t|] eqn:Ht.
    + destruct (Hnodes a t Ht) as (t' & Ht' & _ & He).
      rewrite (elements_of_lookup _ _ _ Ht), (elements_of_lookup _ _ _ Ht'), He.
      by apply count_without_ne.
    + assert (h' !! a = None) as Hn.
      { apply lookup_ge_None. rewrite Hlen. by apply lookup_ge_None. }
      by rewrite (elements_of_None _ _ Ht), (elements_of_None _ _ Hn).
  - rewrite (Hno Hnin). split; [|done]. split; [done|].
    intros a t Ht. exists t. split; [done|apply soft_refl].
Qed.

Lemma RemoveElement_quartered this el h b h' :
  closed 0 0 h → agree 0 h → this < length h →
  RemoveElement this el h = Some (b, h') → quartered h → quartered h'.
Proof.
  intros Hcl Hag Hlt Hrem Hq.
  destruct (RemoveElement_soft this el h b h' Hcl Hag Hlt Hrem) as (_ & _ & Hsoft & _).
  by eapply quartered_soft.
Qed.

Lemma new_root_quartered fuel G x y w ht mE mD els h' :
  new_root fuel G x y w ht mE mD els [] = Some (0, h') → quartered h'.
Proof.
  unfold new_root. intros H. apply new_QuadTree_root_inv in H as (_ & Hfor).
  pose (I := λ (_ : nat) (h2 : list QuadTree),
    closed 0 0 h2 ∧ agree 0 h2 ∧ 0 < length h2 ∧ quartered h2).
  eapply (for_live_inv I) in Hfor.
  - by destruct Hfor as (_ & _ & (_ & _ & _ & ?) & _).
  - intros i h2 l a h3 (Hcl & Hag & Hlt & Hq) _ _ Hbody.
    unfold AddElement_stmt in Hbody.
    apply bind_Some in Hbody as ([b h3'] & Hadd & Hbody). injection Hbody as ->.
    destruct (AddElement_keeps _ _ _ _ _ _ _ _ _ Hadd Hcl Hag (Nat.le_refl _) Hlt)
      as (? & ? & ?).
    split; [done|]. split; [done|]. split; [simpl in *; lia|].
    by eapply AddElement_quartered.
  - destruct (new_root_keeps 1 G x y w ht mE mD [] [root_node x y w ht mE mD] eq_refl)
      as [Hcl Hag].
    split; [done|]. split; [done|]. split; [simpl; lia|].
    intros a t Ht Hsplit. destruct a as [|a]; [|done].
    injection Ht as <-. done.
Qed.

Lemma reachable_quartered h : reachable h → quartered h.
Proof.
  induction 1 as [fuel G x y w ht mE mD els h Hnew
                 | fuel G this el h b h' Hreach Hq Hlt Hadd
                 | this el h b h' Hreach Hq Hlt Hrem
                 | fuel G this el h b h' Hreach Hq Hlt Hupd].
  - by eapply new_root_quartered.
  - destruct (reachable_inv h Hreach) as [Hcl _]. by eapply AddElement_quartered.
  - destruct (reachable_inv h Hreach) as [Hcl Hag]. by eapply RemoveElement_quartered.
  - destruct (reachable_inv h Hreach) as [Hcl Hag].
    apply UpdateElement_inv in Hupd as [[Hrem ->]|(h1 & Hrem & Hadd)].
    + by eapply RemoveElement_quartered.
    + destruct (RemoveElement_soft this el h true h1 Hcl Hag Hlt Hrem)
        as (Hcl1 & _ & [Hlen Hsoft] & _).
      eapply AddElement_quartered; [exact Hadd|done|lia|].
      exact (RemoveElement_quartered this el h true h1 Hcl Hag Hlt Hrem Hq).
Qed.






(** ** Both point queries walk the same path *)

(** The quarters of a node never hold the same point: the far edge of a
    quarter and the origin of its neighbour are the same double. *)
Lemma quarters_apart t t0 t1 t2 t3 px py :
  bounds t0 = (_x t, _y t, _width t / 2, _height t / 2)%float →
  bounds t1 = (_x t + _width t / 2, _y t, _width t / 2, _height t / 2)%float →
  bounds t2 = (_x t, _y t + _height t / 2, _width t / 2, _height t / 2)%float →
  bounds t3 = (_x t + _width t / 2, _y t + _height t / 2,
               _width t / 2, _height t / 2)%float →
  (IsPointInBounds t0 px py = true →
     IsPointInBounds t1 px py = false ∧ IsPointInBounds t2 px py = false ∧
     IsPointInBounds t3 px py = false) ∧
  (IsPointInBounds t1 px py = true →
     IsPointInBounds t2 px py = false ∧ IsPointInBounds t3 px py = false) ∧
  (IsPointInBounds t2 px py = true → IsPointInBounds t3 px py = false).
Proof.
  unfold bounds. intros [= X0 Y0 W0 H0] [= X1 Y1 W1 H1] [= X2 Y2 W2 H2]
    [= X3 Y3 W3 H3].
  unfold IsPointInBounds.
  rewrite X0, Y0, W0, H0, X1, Y1, W1, H1, X2, Y2, W2, H2, X3, Y3, W3, H3.
  destruct (px <? _x t + _width t / 2)%float eqn:Ex;
    [rewrite (ltb_leb_false _ _ Ex)|];
    (destruct (py <? _y t + _height t / 2)%float eqn:Ey;
      [rewrite (ltb_leb_false _ _ Ey)|]);
    rewrite ?andb_false_r, ?andb_false_l; simpl; by repeat split.
Qed.

Lemma GetChildAt_mono n m this x y h r :
  n ≤ m → GetChildAt n this x y h = Some r → GetChildAt m this x y h = Some r.
Proof.
  intros Hnm. unfold GetChildAt. intros H.
  apply bind_Some in H as (res & Hrun & H).
  by rewrite (while_pool_mono _ _ (λ _ _ _ H, H) n m _ _ _ Hnm Hrun).
Qed.


Section PointQueries.
Variable h : list QuadTree.
Variables x y : float.

Lemma GetChildAt_skip post : off_point h x y post →
  ∀ m l, while_pool (length post + m) (GetChildAt_turn x y h) (l ++ post) ()
         = while_pool m (GetChildAt_turn x y h) l ().
Proof.
  induction post as [|c post IH] using rev_ind; intros Hoff m l.
  { by rewrite app_nil_r. }
  apply Forall_app in Hoff as [Hoff Hc].
  apply Forall_singleton in Hc as (tc & Htc & Hout).
  rewrite length_app, app_assoc. simpl.
  replace (length post + 1 + m) with (S (length post + m)) by lia.
  assert (Hb : GetChildAt_turn x y h c () = Some (Continue () [])).
  { unfold GetChildAt_turn. rewrite Htc. simpl. by rewrite Hout. }
  rewrite while_pool_unfold, js_pop_snoc, Hb. simpl. rewrite app_nil_r. by apply IH.
Qed.

Lemma GetElementsAt_skip post : off_point h x y post →
  ∀ m l, while_pool (length post + m) (GetElementsAt_turn x y h) (l ++ post) ()
         = while_pool m (GetElementsAt_turn x y h) l ().
Proof.
  induction post as [|c post IH] using rev_ind; intros Hoff m l.
  { by rewrite app_nil_r. }
  apply Forall_app in Hoff as [Hoff Hc].
  apply Forall_singleton in Hc as (tc & Htc & Hout).
  rewrite length_app, app_assoc. simpl.
  replace (length post + 1 + m) with (S (length post + m)) by lia.
  assert (Hb : GetElementsAt_turn x y h c () = Some (Continue () [])).
  { unfold GetElementsAt_turn. rewrite Htc. simpl. by rewrite Hout, orb_true_r. }
  rewrite while_pool_unfold, js_pop_snoc, Hb. simpl. rewrite app_nil_r. by apply IH.
Qed.

Lemma GetElementsAt_off_point l m :
  off_point h x y l → length l < m →
  while_pool m (GetElementsAt_turn x y h) l () = Some (inl ()).
Proof.
  intros Hoff Hm.
  replace m with (length l + (m - length l)) by lia.
  pose proof (GetElementsAt_skip l Hoff (m - length l) []) as E.
  simpl in E. rewrite E.
  destruct (m - length l) as [|k] eqn:E'; [lia|]. done.
Qed.

Lemma GetChildAt_off_point l m :
  off_point h x y l → length l < m →
  while_pool m (GetChildAt_turn x y h) l () = Some (inl ()).
Proof.
  intros Hoff Hm.
  replace m with (length l + (m - length l)) by lia.
  pose proof (GetChildAt_skip l Hoff (m - length l) []) as E.
  simpl in E. rewrite E.
  destruct (m - length l) as [|k] eqn:E'; [lia|]. done.
Qed.

(** At most one child of a split node holds the point. *)
Lemma one_child_or_none a t :
  closed 0 0 h → quartered h → h !! a = Some t → IsSplit t = true →
  (∃ c tc pre post, _children t = pre ++ c :: post ∧ h !! c = Some tc ∧
     IsPointInBounds tc x y = true ∧
     off_point h x y pre ∧ off_point h x y post) ∨
  off_point h x y (_children t).
Proof.
  intros Hcl Hq Ht Hsplit.
  assert (Hne : _children t ≠ []).
  { intros E. by rewrite (IsSplit_leaf t E) in Hsplit. }
  destruct (Hq a t Ht Hne)
    as (c0 & c1 & c2 & c3 & t0 & t1 & t2 & t3 & Hcs & _ & _ & _ &
        H0 & H1 & H2 & H3 & B0 & B1 & B2 & B3).
  assert (Hoff : ∀ c tc, h !! c = Some tc → IsPointInBounds tc x y = false →
            off_point h x y [c]).
  { intros c tc Htc Hout. apply Forall_singleton. eauto. }
  assert (Hoffs : ∀ l l', off_point h x y l → off_point h x y l' →
            off_point h x y (l ++ l')).
  { intros l l' ??. apply Forall_app. by split. }
  destruct (quarters_apart t t0 t1 t2 t3 x y B0 B1 B2 B3) as (A0 & A1 & A2).
  rewrite Hcs.
  destruct (IsPointInBounds t0 x y) eqn:F0.
  { destruct (A0 eq_refl) as (F1 & F2 & F3). left.
    exists c0, t0, [], [c1; c2; c3]. do 3 (split; [done|]).
    split; [constructor|].
    apply (Hoffs [c1] [c2; c3]); [eauto|]. apply (Hoffs [c2] [c3]); eauto. }
  destruct (IsPointInBounds t1 x y) eqn:F1.
  { destruct (A1 eq_refl) as (F2 & F3). left.
    exists c1, t1, [c0], [c2; c3]. do 3 (split; [done|]).
    split; [eauto|]. apply (Hoffs [c2] [c3]); eauto. }
  destruct (IsPointInBounds t2 x y) eqn:F2.
  { pose proof (A2 eq_refl) as F3. left.
    exists c2, t2, [c0; c1], [c3]. do 3 (split; [done|]).
    split; [|eauto]. apply (Hoffs [c0] [c1]); eauto. }
  destruct (IsPointInBounds t3 x y) eqn:F3.
  { left. exists c3, t3, [c0; c1; c2], []. do 3 (split; [done|]).
    split; [|constructor].
    apply (Hoffs [c0] [c1; c2]); [eauto|]. apply (Hoffs [c1] [c2]); eauto. }
  right.
  apply (Hoffs [c0] [c1; c2; c3]); [eauto|].
  apply (Hoffs [c1] [c2; c3]); [eauto|]. apply (Hoffs [c2] [c3]); eauto.
Qed.

(** [P] is handed down from a node to each child that holds the point. *)
Variable P : QuadTree → Prop.
Hypothesis P_down : ∀ a t c tc,
  h !! a = Some t → P t → c ∈ _children t → h !! c = Some tc →
  IsPointInBounds tc x y = true → P tc.

(** From a node that holds the point both loops go down the same way:
    to a leaf that holds the point, or back with nothing when the
    quarters of a node on the way all miss the point. *)
Lemma point_queries_descend :
  closed 0 0 h → quartered h →
  ∀ d a t, length h - a ≤ d → h !! a = Some t →
    IsPointInBounds t x y = true → P t →
    ∃ n,
      (∃ leaf tl, a ≤ leaf ∧ h !! leaf = Some tl ∧ IsSplit tl = false ∧
         IsPointInBounds tl x y = true ∧ P tl ∧
         reaches h x y (∀ t', P t' → _elements t' ≠ []) a leaf tl n) ∨
      misses h x y a n.
Proof.
  intros Hcl Hq. induction d as [|d IH]; intros a t Hd Ht Hin HP.
  { apply lookup_lt_Some in Ht. lia. }
  assert (Hempty : (length (_elements t) =? 0) = true →
    ∀ m l, off_point h x y l → length l < m →
      while_pool (S m) (GetElementsAt_turn x y h) (l ++ [a]) () = Some (inl ())).
  { intros Hlen m l Hl Hm.
    assert (Hb : GetElementsAt_turn x y h a () = Some (Continue () [])).
    { unfold GetElementsAt_turn. rewrite Ht. simpl. by rewrite Hlen. }
    rewrite while_pool_unfold, js_pop_snoc, Hb. simpl. rewrite app_nil_r.
    by apply GetElementsAt_off_point. }
  assert (Hsure : (length (_elements t) =? 0) = true →
    ¬ (∀ t', P t' → _elements t' ≠ [])).
  { intros Hlen Hall. apply (Hall t HP).
    apply Nat.eqb_eq in Hlen. by apply length_zero_iff_nil. }
  destruct (IsSplit t) eqn:Hsplit.
  - assert (Hc : GetChildAt_turn x y h a () = Some (Continue () (_children t))).
    { unfold GetChildAt_turn. rewrite Ht. simpl. by rewrite Hin, Hsplit. }
    assert (He : (length (_elements t) =? 0) = false →
      GetElementsAt_turn x y h a () = Some (Continue () (_children t))).
    { intros Hlen. unfold GetElementsAt_turn. rewrite Ht. simpl.
      by rewrite Hlen, Hin, Hsplit. }
    destruct (one_child_or_none a t Hcl Hq Ht Hsplit)
      as [(c & tc & pre & post & Hcs & Htc & Hinc & Hpre & Hpost)|Hnone].
    + assert (Hmem : c ∈ _children t) by (rewrite Hcs; set_solver).
      destruct (closed_children 0 0 h a t c Hcl Ht (Nat.le_0_l _) Hmem)
        as (Hac & Hclt & _).
      assert (Hshape : ∀ l0 : list nat,
        l0 ++ _children t = (l0 ++ pre ++ [c]) ++ post).
      { intros l0. rewrite Hcs. by rewrite <- !app_assoc. }
      assert (Hoffs : ∀ l, off_point h x y l → off_point h x y (l ++ pre)).
      { intros l Hl. apply Forall_app. by split. }
      destruct (IH c tc ltac:(lia) Htc Hinc (P_down a t c tc Ht HP Hmem Htc Hinc))
        as (n & [(leaf & tl & Hle & Hleaf & Hlf & Hinl & HPl & Hrun)|Hmiss]).
      * exists (S (S (n + length pre + length post))). left.
        exists leaf, tl. split; [lia|]. do 4 (split; [done|]).
        intros m l Hm. destruct m as [|m]; [lia|].
        destruct (Hrun (m - length post) (l ++ pre)
                    ltac:(rewrite length_app; lia)) as [Hch Hel].
        split.
        { rewrite while_pool_unfold, js_pop_snoc, Hc. simpl. rewrite Hshape.
          replace m with (length post + (m - length post)) by lia.
          by rewrite (GetChildAt_skip post Hpost), app_assoc. }
        intros Hl. destruct (Hel (Hoffs l Hl)) as [Hor Himp].
        destruct (length (_elements t) =? 0) eqn:Hlen.
        { split; [right; apply (Hempty eq_refl); [done|lia]|].
          intros Hall. by destruct (Hsure eq_refl). }
        assert (Hgo : while_pool (S m) (GetElementsAt_turn x y h) (l ++ [a]) ()
                  = while_pool (m - length post) (GetElementsAt_turn x y h)
                      ((l ++ pre) ++ [c]) ()).
        { rewrite while_pool_unfold, js_pop_snoc, (He eq_refl). simpl.
          rewrite Hshape.
          replace m with (length post + (m - length post)) at 1 by lia.
          by rewrite (GetElementsAt_skip post Hpost), app_assoc. }
        rewrite Hgo. done.
      * exists (S (S (n + length pre + length post))). right.
        intros m l Hm Hl. destruct m as [|m]; [lia|].
        destruct (Hmiss (m - length post) (l ++ pre)
                    ltac:(rewrite length_app; lia) (Hoffs l Hl)) as [Hch Hel].
        split.
        { rewrite while_pool_unfold, js_pop_snoc, Hc. simpl. rewrite Hshape.
          replace m with (length post + (m - length post)) by lia.
          by rewrite (GetChildAt_skip post Hpost), app_assoc. }
        destruct (length (_elements t) =? 0) eqn:Hlen.
        { apply (Hempty eq_refl); [done|lia]. }
        rewrite while_pool_unfold, js_pop_snoc, (He eq_refl). simpl.
        rewrite Hshape.
        replace m with (length post + (m - length post)) by lia.
        by rewrite (GetElementsAt_skip post Hpost), app_assoc.
    + exists (S (S (length (_children t)))). right.
      intros m l Hm Hl. destruct m as [|m]; [lia|].
      assert (Hall : off_point h x y (l ++ _children t)).
      { apply Forall_app. by split. }
      split.
      { rewrite while_pool_unfold, js_pop_snoc, Hc. simpl.
        apply GetChildAt_off_point; [done|rewrite length_app; lia]. }
      destruct (length (_elements t) =? 0) eqn:Hlen.
      { apply (Hempty eq_refl); [done|lia]. }
      rewrite while_pool_unfold, js_pop_snoc, (He eq_refl). simpl.
      apply GetElementsAt_off_point; [done|rewrite length_app; lia].
  - exists 2. left. exists a, t. do 5 (split; [done|]).
    intros m l Hm. destruct m as [|m]; [lia|]. split.
    + assert (Hb : GetChildAt_turn x y h a () = Some (Return a)).
      { unfold GetChildAt_turn. rewrite Ht. simpl. by rewrite Hin, Hsplit. }
      by rewrite while_pool_unfold, js_pop_snoc, Hb.
    + intros Hl. destruct (length (_elements t) =? 0) eqn:Hlen.
      { split; [right; apply (Hempty eq_refl); [done|lia]|].
        intros Hall. by destruct (Hsure eq_refl). }
      assert (Hb : GetElementsAt_turn x y h a () = Some (Return (GetElements t))).
      { unfold GetElementsAt_turn. rewrite Ht. simpl. by rewrite Hlen, Hin, Hsplit. }
      rewrite while_pool_unfold, js_pop_snoc, Hb. split; [by left|done].
Qed.

End PointQueries.

(** What is kept of an element at (px, py) settles both point queries
    on the root. *)
Lemma point_kept_query pid px py h rt :
  point_kept pid px py h → h !! 0 = Some rt →
  IsPointInBounds rt px py = true →
  ∃ n l r,
    (∀ m, n ≤ m → GetElementsAt m 0 px py h = Some l ∧
                   GetChildAt m 0 px py h = Some r) ∧
    match r with
    | Some leaf =>
        count pid l = 1 ∧
        ∃ tl, h !! leaf = Some tl ∧ IsSplit tl = false ∧
          IsPointInBounds tl px py = true ∧ l = GetElements tl
    | None => l = []
    end.
Proof.
  intros (Hcl & _ & Hq & Hcar & Hroot) Hrt Hin.
  set (P := λ t : QuadTree, count pid (_elements t) = 1).
  assert (HP : ∀ a t c tc, h !! a = Some t → P t → c ∈ _children t →
            h !! c = Some tc → IsPointInBounds tc px py = true → P tc).
  { intros a t c tc Ht Hone Hc Htc Hinc. unfold P in *.
    pose proof (Hcar a t c tc Ht Hc Htc Hinc) as Heq.
    rewrite pending_nil in Heq. lia. }
  assert (Hsure : ∀ t', P t' → _elements t' ≠ []).
  { intros t' Hone E. unfold P in Hone. by rewrite E, count_nil in Hone. }
  destruct (point_queries_descend h px py P HP Hcl Hq (length h) 0 rt
              ltac:(lia) Hrt Hin (Hroot rt Hrt Hin))
    as (n & [(leaf & tl & _ & Hleaf & Hlf & Hinl & Hone & Hrun)|Hmiss]).
  - exists n, (GetElements tl), (Some leaf). split; [|split; [exact Hone|eauto]].
    intros m Hm. unfold GetElementsAt, GetChildAt.
    change [0] with ([] ++ [0] : list nat).
    destruct (Hrun m [] ltac:(simpl; lia)) as [-> Hel].
    destruct (Hel ltac:(constructor)) as [_ Himp]. by rewrite (Himp Hsure).
  - exists n, [], None. split; [|done].
    intros m Hm. unfold GetElementsAt, GetChildAt.
    change [0] with ([] ++ [0] : list nat).
    by destruct (Hmiss m [] ltac:(simpl; lia) ltac:(constructor)) as [-> ->].
Qed.

(** ** Depth-limited trees stay depth-limited *)

Lemma grow_soft_heap h h1 : soft_heap h h1 → ∀ m a, grow m h a → grow m h1 a.
Proof.
  intros [Hlen Hnodes]. induction m as [|m IH]; intros a; [done|]. simpl.
  intros (t & Ht & Hd & Hc).
  destruct (Hnodes a t Ht) as (t' & Ht' & [Hs Hch _]).
  exists t'. split; [done|].
  rewrite Hch, (headroom_static _ _ Hs).
  destruct Hs as (_ & _ & _ & _ & _ & _ & _ & _ & HmD). rewrite HmD.
  split; [done|]. destruct (_children t); [done|].
  eapply Forall_impl; [exact Hc|]. apply IH.
Qed.

Lemma limited_evolves k r h h' : evolves k r h h' → limited h → limited h'.
Proof.
  intros [[Hlen Hnodes _ Hgrow Hfresh] _] Hlim a t' Ht' Hd.
  destruct (decide (a < length h)) as [Hlt|Hge].
  - destruct (lookup_lt_is_Some_2 h a Hlt) as [t Ht].
    destruct (Hnodes a t Ht) as (t2 & Ht2 & [Hs _ _ _ _]).
    assert (t2 = t') as -> by congruence.
    destruct Hs as (_ & _ & _ & _ & _ & _ & _ & _ & HmD).
    destruct (Hlim a t Ht) as [m Hm]; [congruence|]. eauto.
  - apply (Hfresh a t'); [lia|done..].
Qed.

Lemma limited_soft h h' : soft_heap h h' → limited h → limited h'.
Proof.
  intros Hsoft Hlim a t' Ht' Hd.
  destruct (soft_heap_back h h' a t' Hsoft Ht') as (t & Ht & [Hs _ _]).
  destruct Hs as (_ & _ & _ & _ & _ & _ & _ & _ & HmD).
  destruct (Hlim a t Ht) as [m Hm]; [congruence|].
  exists m. by eapply grow_soft_heap.
Qed.

Lemma reachable_limited h : reachable h → limited h.
Proof.
  induction 1 as [fuel G x y w ht mE mD els h Hnew
                 | fuel G this el h b h' Hreach IH Hlt Hadd
                 | this el h b h' Hreach IH Hlt Hrem
                 | fuel G this el h b h' Hreach IH Hlt Hupd].
  - unfold new_root in Hnew. apply new_QuadTree_root_inv in Hnew as (_ & Hfor).
    pose (I := λ (_ : nat) (h2 : list QuadTree),
      closed 0 0 h2 ∧ 0 < length h2 ∧ limited h2).
    eapply (for_live_inv I) in Hfor.
    + by destruct Hfor as (_ & _ & (_ & _ & ?) & _).
    + intros i h2 l a h3 (Hcl & Hlt & Hlim) _ _ Hbody.
      unfold AddElement_stmt in Hbody.
      apply bind_Some in Hbody as ([b h3'] & Hadd & Hbody). injection Hbody as ->.
      destruct (AddElement_spec G fuel 0 0 0 a h2 b h3 Hadd Hcl (Nat.le_refl _) Hlt)
        as (Hev & Hcl3 & _).
      split; [done|]. split; [pose proof (evolves_length _ _ _ _ Hev); lia|].
      by eapply limited_evolves.
    + split; [apply (closed_alloc_root [])|]. split; [simpl; lia|].
      intros a t Ht Hd. destruct a as [|a]; [|done]. injection Ht as <-.
      exists (S (headroom (root_node x y w ht mE mD))). simpl.
      eexists. split; [done|]. split; [done|]. simpl. lia.
  - destruct (reachable_inv h Hreach) as [Hcl _].
    destruct (AddElement_spec G fuel 0 0 this el h b h' Hadd Hcl (Nat.le_0_l _) Hlt)
      as (Hev & _).
    by eapply limited_evolves.
  - destruct (reachable_inv h Hreach) as [Hcl Hag].
    destruct (RemoveElement_soft this el h b h' Hcl Hag Hlt Hrem) as (_ & _ & Hsoft & _).
    by eapply limited_soft.
  - destruct (reachable_inv h Hreach) as [Hcl Hag].
    apply UpdateElement_inv in Hupd as [[Hrem ->]|(h1 & Hrem & Hadd)].
    + destruct (RemoveElement_soft this el h false h' Hcl Hag Hlt Hrem)
        as (_ & _ & Hsoft & _).
      by eapply limited_soft.
    + destruct (RemoveElement_soft this el h true h1 Hcl Hag Hlt Hrem)
        as (Hcl1 & _ & Hsoft & _).
      pose proof (limited_soft h h1 Hsoft IH) as IH1.
      destruct Hsoft as [Hlen _].
      destruct (AddElement_spec G fuel 0 0 this el h1 b h' Hadd Hcl1 (Nat.le_0_l _))
        as (Hev & _); [lia|].
      by eapply limited_evolves.
Qed.

(** On a depth-limited node of a reachable tree, [AddElement] returns. *)
Lemma AddElement_returns G this el h t :
  reachable h → h !! this = Some t → (0 <= _maxDepth t)%Z →
  ∃ fuel b h', AddElement fuel G this el h = Some (b, h').
Proof.
  intros Hreach Ht Hd. destruct (reachable_inv h Hreach) as [Hcl _].
  destruct (reachable_limited h Hreach this t Ht Hd) as [m Hm].
  exact (AddElement_terminates G 0 0 this el h m Hcl (Nat.le_0_l _) Hm).
Qed.


(** ** An element that is in no node stays out while others are added *)

Lemma absent_same pid h h' :
  (∀ a t', h' !! a = Some t' → ∃ t, h !! a = Some t ∧ _elements t' = _elements t) →
  absent pid h → absent pid h'.
Proof.
  intros Hsame Habs a t' Ht'. destruct (Hsame a t' Ht') as (t & Ht & ->). eauto.
Qed.

Lemma absent_soft_same pid h h' :
  length h' = length h →
  (∀ a t, h !! a = Some t → ∃ t', h' !! a = Some t' ∧ _elements t' = _elements t) →
  absent pid h → absent pid h'.
Proof.
  intros Hlen Hnodes. apply absent_same. intros a t' Ht'.
  assert (Hlt : a < length h) by (rewrite <- Hlen; by eapply lookup_lt_Some).
  destruct (lookup_lt_is_Some_2 h a Hlt) as [t Ht].
  destruct (Hnodes a t Ht) as (t2 & Ht2 & He). exists t. split; [done|]. congruence.
Qed.

Lemma absent_alloc pid h node :
  _elements node = [] → absent pid h → absent pid (h ++ [node]).
Proof.
  intros Hel Habs a t Ht. apply lookup_app_Some in Ht as [Ht|[_ Ht]]; [eauto|].
  apply list_lookup_singleton_Some in Ht as [_ <-]. rewrite Hel. apply not_elem_of_nil.
Qed.

Section AbsentMaster.
Variable G : Elements.
Variable pid : nat.
Variable n : nat.
Hypothesis IHn : absent_post G pid n.

Lemma ctor_absent x y w ht mE mD arr p h c h' :
  new_QuadTree (AddElement n G) n x y w ht mE mD arr (Some p) h = Some (c, h') →
  closed 0 0 h → p < length h → absent pid h → absent pid h'.
Proof.
  intros Hnew Hcl Hp Habs.
  apply new_QuadTree_child_inv in Hnew as (pt & Hpt & -> & Hfor); [|done].
  set (node := child_node x y w ht mE mD p pt) in *.
  set (c := length h) in *. set (h1 := h ++ [node]) in *.
  assert (Hcl1 : closed 0 0 h1) by (apply closed_alloc_child; [done..|lia]).
  pose (I := λ (i : nat) (h2 : list QuadTree),
    closed 0 0 h2 ∧ c < length h2 ∧ absent pid h2).
  eapply (for_live_inv I) in Hfor.
  - by destruct Hfor as (_ & _ & (_ & _ & ?) & _).
  - intros i h2 l a h3 (Hcl2 & Hlt & Habs2) Hl Ha Hbody.
    unfold AddElement_stmt in Hbody.
    apply bind_Some in Hbody as ([b h3'] & Hadd & Hbody). injection Hbody as ->.
    apply bind_Some in Hl as (pt2 & Hpt2 & [= <-]).
    assert (Hne : a ≠ pid).
    { intros ->. apply (Habs2 p pt2 Hpt2). by eapply list_elem_of_lookup_2. }
    destruct (AddElement_spec G n 0 0 c a h2 b h3 Hadd Hcl2 (Nat.le_0_l _) Hlt)
      as (Hev & Hcl3 & _).
    split; [done|]. split; [pose proof (evolves_length _ _ _ _ Hev); lia|].
    by eapply (IHn c a h2 b h3).
  - split; [done|]. split; [unfold h1; rewrite length_app; simpl; lia|].
    by apply absent_alloc.
Qed.

Lemma turn_absent el tree h h' pushed :
  AddElement_turn (AddElement n G) n G 0 el tree h = Some (Continue h' pushed) →
  closed 0 0 h → el ≠ pid → absent pid h → absent pid h'.
Proof.
  intros Hturn Hcl Hne Habs.
  apply AddElement_turn_inv in Hturn.
  assert (Hpush : ∀ t h1 h2,
    h !! tree = Some t → elParents_push 0 el tree h = Some h1 →
    modify tree (λ t, set_elements (_elements t ++ [el]) t) h1 = Some h2 →
    closed 0 0 h2 ∧ absent pid h2).
  { intros t h1 h2 Ht H1 H2.
    destruct (push_step 0 0 el tree h h1 h2 H1 H2 (Nat.le_0_l _))
      as (_ & Hlen & _ & Hclosed & Hnodes).
    split; [by apply Hclosed|]. intros a t2 Ht2.
    assert (Hlt : a < length h) by (rewrite <- Hlen; by eapply lookup_lt_Some).
    destruct (lookup_lt_is_Some_2 h a Hlt) as [t0 Ht0].
    destruct (Hnodes a t0 Ht0) as (t2' & Ht2' & _ & He).
    assert (t2' = t2) as -> by congruence. rewrite He.
    rewrite elem_of_app. intros [Hin|Hin]; [by apply (Habs a t0 Ht0)|].
    destruct (decide (a = tree)); [|by apply elem_of_nil in Hin].
    apply list_elem_of_singleton in Hin. congruence. }
  inversion Hturn as [t Ht Hout
    | t h1 h2 t2 Ht Hin H1 H2 Ht2 Hsplit
    | t h1 h2 t2 Ht Hin H1 H2 Ht2 Hleaf Hno
    | t h1 h2 t2 cs h3 h4 Ht Hin H1 H2 Ht2 Hleaf Hmay Hsp Hlink]; subst.
  - done.
  - by destruct (Hpush t h1 h' Ht H1 H2).
  - by destruct (Hpush t h1 h' Ht H1 H2).
  - destruct (Hpush t h1 h2 Ht H1 H2) as [Hcl2 Habs2].
    assert (Hlt2 : tree < length h2) by (by eapply lookup_lt_Some).
    apply split_children_inv in Hsp
      as (c0 & c1 & c2 & c3 & g1 & g2 & g3 & -> & E0 & E1 & E2 & E3).
    assert (Hstep : ∀ x y w ht mE mD arr ha c hb,
      new_QuadTree (AddElement n G) n x y w ht mE mD arr (Some tree) ha = Some (c, hb) →
      closed 0 0 ha → tree < length ha → absent pid ha →
      closed 0 0 hb ∧ tree < length hb ∧ absent pid hb).
    { intros x y w ht mE mD arr ha c hb E Hcla Hlta Habsa.
      destruct (ctor_spec G (AddElement n G) (AddElement_spec G n) 0 0 n
                  x y w ht mE mD arr tree ha c hb E Hcla (Nat.le_0_l _) Hlta)
        as (-> & Hev & Hclb & _ & _).
      split; [done|]. split; [pose proof (evolves_length _ _ _ _ Hev); lia|].
      by eapply ctor_absent. }
    destruct (Hstep _ _ _ _ _ _ _ _ _ _ E0 Hcl2 Hlt2 Habs2) as (K1 & L1 & A1).
    destruct (Hstep _ _ _ _ _ _ _ _ _ _ E1 K1 L1 A1) as (K2 & L2 & A2).
    destruct (Hstep _ _ _ _ _ _ _ _ _ _ E2 K2 L2 A2) as (K3 & L3 & A3).
    destruct (Hstep _ _ _ _ _ _ _ _ _ _ E3 K3 L3 A3) as (K4 & L4 & A4).
    apply modify_Some in Hlink as (t3 & Ht3 & ->).
    intros a ta Hta.
    destruct (lookup_set_children h3 tree t3 _ a ta Ht3 Hta) as (ta0 & Hta0 & _ & -> & _).
    by apply (A4 a ta0).
Qed.

Lemma loop_absent el pool h h' :
  while_pool n (AddElement_turn (AddElement n G) n G 0 el) pool h = Some (inl h') →
  closed 0 0 h → el ≠ pid → absent pid h → absent pid h'.
Proof.
  intros Hrun Hcl Hne Habs.
  pose (I := λ (_ : list nat) (hc : list QuadTree), closed 0 0 hc ∧ absent pid hc).
  pose (Q := λ (res : list QuadTree + Empty_set),
    ∃ hc, res = inl hc ∧ absent pid hc).
  assert (HQ : Q (inl h')); [|by destruct HQ as (hc & [= <-] & ?)].
  eapply (while_pool_inv I Q); [| |exact (conj Hcl Habs)|exact Hrun].
  - intros rest tree hc r [Hclc Habsc] Hbody.
    destruct (turn_spec G (AddElement n G) (AddElement_spec G n) 0 0 n el tree hc _
                Hbody Hclc (Nat.le_0_l _))
      as (h2 & pushed & t & t' & -> & _ & Hcl2 & _).
    split; [done|]. by eapply turn_absent.
  - intros hc [_ Habsc]. by exists hc.
Qed.

End AbsentMaster.

Lemma AddElement_absent G pid n : absent_post G pid n.
Proof.
  induction n as [|n IH]; intros this el h b h' Hadd Hcl Hlt Hne Habs; [done|].
  apply AddElement_inv in Hadd
    as (fuel' & r & l & h1 & l' & [= <-] & Hr & Hg & Hloop & _ & _).
  rewrite (closed_rootTree 0 0 h this Hcl (Nat.le_0_l _) Hlt) in Hr.
  injection Hr as <-.
  destruct (GetParents_create 0 0 this el h _ h1
              (closed_rootTree 0 0 h this Hcl (Nat.le_0_l _) Hlt) Hg)
    as (_ & _ & _ & Hlen & _ & Hclosed & Hnodes).
  apply (loop_absent G pid n IH el [this] h1 h' Hloop); [by apply Hclosed|done|].
  apply (absent_soft_same pid h h1 Hlen); [|done].
  intros a t Ht. destruct (Hnodes a t Ht) as (t' & ? & _ & ?). eauto.
Qed.


(** ** Trees that are only changed through their root *)

Lemma owners_nil_absent h id :
  agree 0 h → (owners h 0 id = [] ↔ absent id h).
Proof.
  intros Hag. split.
  - intros Hown a t Ht. apply count_zero.
    rewrite <- (elements_of_lookup _ _ _ Ht), (Hag a id), Hown. apply count_nil.
  - intros Habs. destruct (owners h 0 id) as [|N l] eqn:Hown; [done|].
    exfalso. pose proof (Hag N id) as HN. rewrite Hown, count_cons in HN.
    rewrite decide_True in HN by done.
    destruct (h !! N) as [t|] eqn:Ht.
    + rewrite (elements_of_lookup _ _ _ Ht) in HN.
      rewrite (proj2 (count_zero id (_elements t))) in HN by eauto. lia.
    + rewrite (elements_of_None _ _ Ht), count_nil in HN. lia.
Qed.

Lemma AddElement_root_first fuel G el h b h' :
  AddElement fuel G 0 el h = Some (b, h') →
  closed 0 0 h → agree 0 h → root_first h → root_first h'.
Proof.
  intros Hadd Hcl Hag Hrf id Hne.
  assert (Hlt : 0 < length h).
  { destruct Hcl as [(rt & m & Hrt & _) _]. by eapply lookup_lt_Some. }
  destruct (AddElement_keeps _ _ _ _ _ _ _ _ _ Hadd Hcl Hag (Nat.le_0_l _) Hlt)
    as (Hcl' & Hag' & _).
  destruct (AddElement_spec G fuel 0 0 0 el h b h' Hadd Hcl (Nat.le_0_l _) Hlt)
    as (Hev & _ & t & t' & Ht & Ht' & Hb & He).
  destruct (decide (owners h 0 id = [])) as [Hnil|Hsome].
  - destruct (decide (id = el)) as [->|Hid].
    + destruct b.
      * apply count_pos. rewrite <- (Hag' 0 el), (elements_of_lookup _ _ _ Ht'), He.
        rewrite count_app, count_single_eq. lia.
      * destruct (AddElement_outside 0 0 (fuel + 3) G 0 el h t Hcl (Nat.le_0_l _) Ht
                    (eq_sym Hb) ltac:(lia)) as (h2 & Hadd2 & Hg).
        rewrite (AddElement_mono fuel (fuel + 3) G 0 el h _ ltac:(lia) Hadd) in Hadd2.
        injection Hadd2 as <-.
        destruct (GetParents_create 0 0 0 el h _ h'
                    (closed_rootTree 0 0 h 0 Hcl (Nat.le_0_l _) Hlt) Hg)
          as (_ & Hown' & _).
        rewrite (owners_entry _ _ _ _ Hown'), Hnil in Hne. done.
    + exfalso. apply Hne. apply (owners_nil_absent h' id Hag').
      apply (AddElement_absent G id fuel 0 el h b h' Hadd Hcl Hlt (not_eq_sym Hid)).
      by apply (owners_nil_absent h id Hag).
  - pose proof (Hrf id Hsome) as Hin.
    destruct Hev as [[_ _ Hown _ _] _].
    destruct (owner_entry 0 id h) as [[l|]|] eqn:Hentry.
    + destruct (Hown id l Hentry) as (l2 & Hl2).
      rewrite (owners_entry _ _ _ _ Hl2). rewrite (owners_entry _ _ _ _ Hentry) in Hin.
      apply elem_of_app. by left.
    + by rewrite (owners_entry_None _ _ _ Hentry) in Hsome.
    + unfold owners in Hsome. by rewrite Hentry in Hsome.
Qed.

Lemma RemoveElement_root_first el h b h' :
  RemoveElement 0 el h = Some (b, h') →
  closed 0 0 h → agree 0 h → root_first h → root_first h'.
Proof.
  intros Hrem Hcl Hag Hrf.
  assert (Hlt : 0 < length h).
  { destruct Hcl as [(rt & m & Hrt & _) _]. by eapply lookup_lt_Some. }
  destruct (RemoveElement_spec 0 0 0 el h Hcl Hag (Nat.le_0_l _) Hlt)
    as (h1 & Hrem1 & _ & _ & _ & Hno & Hyes).
  assert (h1 = h') as -> by congruence.
  destruct (decide (0 ∈ owners h 0 el)) as [Hin|Hnin].
  - destruct (Hyes Hin) as (Hnone & Hoth & _). intros id Hne.
    destruct (decide (id = el)) as [->|Hid].
    + by rewrite (owners_entry_None _ _ _ Hnone) in Hne.
    + unfold owners in *. rewrite (Hoth id Hid) in *. by apply Hrf.
  - by rewrite (Hno Hnin).
Qed.

Lemma root_reachable_inv h :
  root_reachable h → reachable h ∧ root_first h.
Proof.
  induction 1 as [fuel G x y w ht mE mD els h Hnew
                 | fuel G el h b h' _ [Hreach Hrf] Hadd
                 | el h b h' _ [Hreach Hrf] Hrem
                 | fuel G el h b h' _ [Hreach Hrf] Hupd].
  - split; [by eapply reach_new|].
    unfold new_root in Hnew. apply new_QuadTree_root_inv in Hnew as (_ & Hfor).
    pose (I := λ (_ : nat) (h2 : list QuadTree),
      closed 0 0 h2 ∧ agree 0 h2 ∧ root_first h2).
    eapply (for_live_inv I) in Hfor.
    + by destruct Hfor as (_ & _ & (_ & _ & ?) & _).
    + intros i h2 l a h3 (Hcl & Hag & Hrf) _ _ Hbody.
      unfold AddElement_stmt in Hbody.
      apply bind_Some in Hbody as ([b h3'] & Hadd & Hbody). injection Hbody as ->.
      assert (Hlt : 0 < length h2).
      { destruct Hcl as [(rt & m & Hrt & _) _]. by eapply lookup_lt_Some. }
      destruct (AddElement_keeps _ _ _ _ _ _ _ _ _ Hadd Hcl Hag (Nat.le_refl _) Hlt)
        as (? & ? & _).
      split; [done|]. split; [done|]. by eapply AddElement_root_first.
    + destruct (new_root_keeps 1 G x y w ht mE mD [] [root_node x y w ht mE mD] eq_refl)
        as [Hcl Hag].
      split; [done|]. split; [done|]. intros id Hne. exfalso. apply Hne.
      unfold owners, owner_entry. simpl. by rewrite lookup_empty.
  - assert (Hlt : 0 < length h).
    { destruct (reachable_inv h Hreach) as [[(rt & m & Hrt & _) _] _].
      by eapply lookup_lt_Some. }
    destruct (reachable_inv h Hreach) as [Hcl Hag].
    split; [by eapply reach_AddElement|]. by eapply AddElement_root_first.
  - assert (Hlt : 0 < length h).
    { destruct (reachable_inv h Hreach) as [[(rt & m & Hrt & _) _] _].
      by eapply lookup_lt_Some. }
    destruct (reachable_inv h Hreach) as [Hcl Hag].
    split; [by eapply reach_RemoveElement|]. by eapply RemoveElement_root_first.
  - assert (Hlt : 0 < length h).
    { destruct (reachable_inv h Hreach) as [[(rt & m & Hrt & _) _] _].
      by eapply lookup_lt_Some. }
    destruct (reachable_inv h Hreach) as [Hcl Hag].
    split; [by eapply reach_UpdateElement|].
    apply UpdateElement_inv in Hupd as [[Hrem ->]|(h1 & Hrem & Hadd)].
    + by eapply RemoveElement_root_first.
    + pose proof (RemoveElement_root_first el h true h1 Hrem Hcl Hag Hrf) as Hrf1.
      destruct (RemoveElement_soft 0 el h true h1 Hcl Hag Hlt Hrem) as (Hcl1 & Hag1 & _).
      by eapply AddElement_root_first.
Qed.

(** On a tree that was only ever changed through its root, RemoveElement
    on the root returns false exactly when the element has no owner, and
    then changes nothing; otherwise it removes the element from every node
    and clears its entry.  Either way HasElement is false afterwards and
    GetParentsForElement finds no owner. *)
Theorem RemoveElement_on_root_built_tree (el : nat) (h : list QuadTree) :
  root_reachable h →
  ∃ b h', RemoveElement 0 el h = Some (b, h') ∧
    (b = false ↔ owners h 0 el = []) ∧
    (b = false → h' = h) ∧
    (b = true →
       owner_entry 0 el h' = Some None ∧
       ∀ N t, h !! N = Some t →
         ∃ t', h' !! N = Some t' ∧ _elements t' = without el (_elements t) ∧
               (el ∉ _elements t') ∧ _children t' = _children t) ∧
    HasElement 0 el h' = Some false ∧
    empty_result (GetParentsForElement 0 el h').
Proof.
  intros Hroot. destruct (root_reachable_inv h Hroot) as [Hreach Hrf].
  destruct (reachable_inv h Hreach) as [Hcl Hag].
  assert (Hlt : 0 < length h).
  { destruct Hcl as [(rt & m & Hrt & _) _]. by eapply lookup_lt_Some. }
  destruct (RemoveElement_spec 0 0 0 el h Hcl Hag (Nat.le_refl _) Hlt)
    as (h' & Hrem & Hcl' & Hag' & Hlen & Hno & Hyes).
  assert (Hlt' : 0 < length h') by lia.
  pose proof (closed_rootTree 0 0 h' 0 Hcl' (Nat.le_refl _) Hlt') as Hr'.
  exists (bool_decide (0 ∈ owners h 0 el)), h'. split; [done|].
  destruct (decide (0 ∈ owners h 0 el)) as [Hin|Hnin].
  - destruct (Hyes Hin) as (Hown' & _ & Hnodes).
    rewrite bool_decide_eq_true_2 by done.
    split; [split; [done|]; intros Hnil; rewrite Hnil in Hin; by apply elem_of_nil in Hin|].
    split; [done|]. split.
    { intros _. split; [done|]. intros N t Ht.
      destruct (Hnodes _ _ Ht) as (t' & Ht' & [_ Hc _] & He).
      exists t'. split; [done|]. split; [done|]. split; [|done].
      rewrite He. apply count_zero. apply count_without_eq. }
    split.
    { rewrite (HasElement_spec 0 0 0 el h' Hcl' (Nat.le_refl _) Hlt').
      by rewrite (owners_entry_None _ _ _ Hown'). }
    left. unfold GetParentsForElement.
    by rewrite (GetParents_nocreate_eq 0 el h' 0 None).
  - assert (Hnil : owners h 0 el = []).
    { destruct (decide (owners h 0 el = [])); [done|]. by destruct Hnin; apply Hrf. }
    rewrite (Hno Hnin) in *. rewrite bool_decide_eq_false_2 by done.
    split; [done|]. split; [done|]. split; [done|]. split.
    { rewrite (HasElement_spec 0 0 0 el h Hcl (Nat.le_refl _) Hlt).
      by rewrite bool_decide_eq_false_2. }
    destruct (closed_owner_entry 0 0 el h Hcl) as [e He].
    unfold GetParentsForElement.
    rewrite (GetParents_nocreate_eq 0 el h 0 e Hr' He). simpl.
    rewrite (owners_cases _ _ _ _ He) in Hnil.
    destruct e as [l|]; simpl in Hnil; [right; by subst|left; done].
Qed.


(** ** Further properties of reachable trees *)

(** On a reachable tree, AddElement called on a node with a depth limit
    (maxDepth >= 0) returns: the recursion through the constructors of
    the children is bounded by the levels that are left. *)
Theorem AddElement_returns_on_limited_tree
    (G : Elements) (this el : nat) (h : list QuadTree) (t : QuadTree) :
  reachable h → h !! this = Some t → (0 <= _maxDepth t)%Z →
  ∃ fuel b h', AddElement fuel G this el h = Some (b, h') ∧
    ∀ fuel', fuel ≤ fuel' → AddElement fuel' G this el h = Some (b, h').
Proof.
  intros Hreach Ht Hd.
  destruct (AddElement_returns G this el h t Hreach Ht Hd) as (fuel & b & h' & Hadd).
  exists fuel, b, h'. split; [done|]. intros fuel' Hle.
  by apply (AddElement_mono fuel fuel').
Qed.

(** On a reachable tree every split node has exactly four children, in
    the order top-left, top-right, bottom-left, bottom-right, each with
    half the width and half the height of the node. *)
Theorem split_nodes_are_quartered (h : list QuadTree) (a : nat) (t : QuadTree) :
  reachable h → h !! a = Some t → IsSplit t = true →
  ∃ c0 c1 c2 c3 t0 t1 t2 t3,
    _children t = [c0; c1; c2; c3] ∧
    h !! c0 = Some t0 ∧ h !! c1 = Some t1 ∧ h !! c2 = Some t2 ∧ h !! c3 = Some t3 ∧
    bounds t0 = (_x t, _y t, _width t / 2, _height t / 2)%float ∧
    bounds t1 = (_x t + _width t / 2, _y t, _width t / 2, _height t / 2)%float ∧
    bounds t2 = (_x t, _y t + _height t / 2, _width t / 2, _height t / 2)%float ∧
    bounds t3 = (_x t + _width t / 2, _y t + _height t / 2,
                 _width t / 2, _height t / 2)%float ∧
    _parent t0 = Some a ∧ _parent t1 = Some a ∧
    _parent t2 = Some a ∧ _parent t3 = Some a.
Proof.
  intros Hreach Ht Hsplit.
  destruct (reachable_inv h Hreach) as [Hcl _].
  assert (Hne : _children t ≠ []).
  { intros E. by rewrite (IsSplit_leaf t E) in Hsplit. }
  destruct (reachable_quartered h Hreach a t Ht Hne)
    as (c0 & c1 & c2 & c3 & t0 & t1 & t2 & t3 & Hcs & _ & _ & _ &
        H0 & H1 & H2 & H3 & B0 & B1 & B2 & B3).
  exists c0, c1, c2, c3, t0, t1, t2, t3.
  do 9 (split; [done|]).
  assert (Hpar : ∀ c tc, c ∈ _children t → h !! c = Some tc → _parent tc = Some a).
  { intros c tc Hc Htc.
    destruct (closed_children 0 0 h a t c Hcl Ht (Nat.le_0_l _) Hc)
      as (_ & _ & tc' & Htc' & Hp). congruence. }
  rewrite Hcs in Hpar.
  repeat split; eapply Hpar; try eassumption; set_solver.
Qed.

(** ** What [AddElement] returns; [CreateResized] *)

(** Claim C2, amended.  On a reachable tree, N.AddElement(E) returns
    true exactly when E overlaps the bounds of N, whether or not E is
    already a member; the returned value is also whether the owner-index
    list of E grew, and E is appended to N's elements list when it is
    true.  The call returns whenever N is depth-limited (maxDepth >= 0),
    and always returns false when E lies outside N. *)
Theorem AddElement_returns_overlap
    (G : Elements) (this el : nat) (h : list QuadTree) (t : QuadTree) :
  reachable h → h !! this = Some t →
  (∀ fuel b h', AddElement fuel G this el h = Some (b, h') →
     b = IsInsideRect (G el) (_x t) (_y t) (_width t) (_height t) ∧
     b = (length (owners h 0 el) <? length (owners h' 0 el)) ∧
     ∃ t', h' !! this = Some t' ∧
           _elements t' = _elements t ++ (if b then [el] else [])) ∧
  ((0 <= _maxDepth t)%Z →
     ∃ fuel b h', AddElement fuel G this el h = Some (b, h')) ∧
  (IsInsideRect (G el) (_x t) (_y t) (_width t) (_height t) = false →
     ∀ fuel, 3 ≤ fuel → ∃ h', AddElement fuel G this el h = Some (false, h')).
Proof.
  intros Hreach Ht. destruct (reachable_inv h Hreach) as [Hcl _].
  assert (Hlt : this < length h) by (by eapply lookup_lt_Some).
  split; [|split].
  - intros fuel b h' Hadd.
    destruct (AddElement_spec G fuel 0 0 this el h b h' Hadd Hcl (Nat.le_0_l _) Hlt)
      as (_ & _ & t0 & t' & Ht0 & Ht' & Hb & He).
    assert (t0 = t) as -> by congruence.
    split; [done|]. split; [|eauto].
    apply AddElement_inv in Hadd as (fuel' & r & l & h1 & l' & -> & Hr & Hg & _ & Hown & ->).
    rewrite (closed_rootTree 0 0 h this Hcl (Nat.le_0_l _) Hlt) in Hr.
    injection Hr as <-.
    destruct (GetParents_create 0 0 this el h _ h1
                (closed_rootTree 0 0 h this Hcl (Nat.le_0_l _) Hlt) Hg) as (Hl & _).
    injection Hl as ->. by rewrite (owners_entry _ _ _ _ Hown).
  - intros Hd. exact (AddElement_returns G this el h t Hreach Ht Hd).
  - intros Hout fuel Hfuel.
    destruct (AddElement_outside 0 0 fuel G this el h t Hcl (Nat.le_0_l _) Ht Hout Hfuel)
      as (h' & Hadd & _). eauto.
Qed.



Lemma new_QuadTree_root_intro add n x y w ht mE mD arr h h' :
  for_live n arr (AddElement_stmt add (length h)) 0
    (h ++ [root_node x y w ht mE mD]) = Some h' →
  new_QuadTree add n x y w ht mE mD arr None h = Some (length h, h').
Proof.
  intros Hfor. unfold new_QuadTree.
  unfold modify. rewrite lookup_snoc_new. simpl. rewrite insert_snoc.
  change (set_elementsParents _ _) with (root_node x y w ht mE mD).
  rewrite Hfor. done.
Qed.


(** ** The concrete trees are reachable *)

Lemma sc_h0_reachable : reachable sc_h0.
Proof. by apply (reach_new 1 scenario_points 0 0 100 100 2 (-1) []). Qed.

Lemma sc_h1_reachable : reachable sc_h1.
Proof.
  apply (reach_AddElement 3 scenario_points 0 1 sc_h0 true);
    [exact sc_h0_reachable|vm_compute; lia|vm_compute; reflexivity].
Qed.

Lemma sc_h2_reachable : reachable sc_h2.
Proof.
  apply (reach_AddElement 3 scenario_points 0 2 sc_h1 true);
    [exact sc_h1_reachable|vm_compute; lia|vm_compute; reflexivity].
Qed.

Lemma sc_dup_reachable : reachable sc_dup.
Proof.
  apply (reach_AddElement 3 scenario_points 0 1 sc_h1 true);
    [exact sc_h1_reachable|vm_compute; lia|vm_compute; reflexivity].
Qed.

Lemma sc_h15_reachable : reachable sc_h15.
Proof.
  apply (reach_AddElement 3 scenario_points 0 5 sc_h1 true);
    [exact sc_h1_reachable|vm_compute; lia|vm_compute; reflexivity].
Qed.

Lemma sc_circle_reachable : reachable sc_circle.
Proof.
  apply (reach_AddElement 20 scenario_points 0 4 sc_h2 true);
    [exact sc_h2_reachable|vm_compute; lia|vm_compute; reflexivity].
Qed.

Lemma dl_h0_reachable : reachable dl_h0.
Proof. by apply (reach_new 1 scenario_points 0 0 100 100 1 1 []). Qed.

Lemma dl_h1_reachable : reachable dl_h1.
Proof.
  apply (reach_AddElement 3 scenario_points 0 1 dl_h0 true);
    [exact dl_h0_reachable|vm_compute; lia|vm_compute; reflexivity].
Qed.

Lemma dl_h2_reachable : reachable dl_h2.
Proof.
  apply (reach_AddElement 9 scenario_points 0 2 dl_h1 true);
    [exact dl_h1_reachable|vm_compute; lia|vm_compute; reflexivity].
Qed.

Lemma dl_h3_reachable : reachable dl_h3.
Proof.
  apply (reach_AddElement 9 scenario_points 1 3 dl_h2 true);
    [exact dl_h2_reachable|vm_compute; lia|vm_compute; reflexivity].
Qed.


Lemma sc_h2_root_reachable : root_reachable sc_h2.
Proof.
  apply (rr_AddElement 3 scenario_points 2 sc_h1 true); [|vm_compute; reflexivity].
  apply (rr_AddElement 3 scenario_points 1 sc_h0 true); [|vm_compute; reflexivity].
  by apply (rr_new 1 scenario_points 0 0 100 100 2 (-1) []).
Qed.

(** ** The theorems at concrete trees *)


Lemma AddElement_returns_overlap_witness :
  reachable sc_h1 ∧
  true = IsInsideRect (scenario_points 2) 0 0 100 100 ∧
  true = (length (owners sc_h1 0 2) <? length (owners sc_h2 0 2)) ∧
  elements_of sc_h2 0 = elements_of sc_h1 0 ++ [2].
Proof.
  split; [exact sc_h1_reachable|].
  destruct (AddElement_returns_overlap scenario_points 0 2 sc_h1 _
              sc_h1_reachable eq_refl) as (Hret & _ & _).
  destruct (Hret 3 true sc_h2 eq_refl) as (Hb & Hgrew & t' & Ht' & Hels).
  split; [exact Hb|]. split; [exact Hgrew|].
  unfold elements_of at 1. rewrite Ht'. exact Hels.
Defined.


Lemma RemoveElement_on_root_witness :
  reachable sc_h2 ∧
  ∃ h', RemoveElement 0 1 sc_h2 = Some (true, h') ∧
        HasElement 0 1 h' = Some false ∧
        GetParentsForElement 0 1 h' = Some None ∧
        elements_of h' 0 = [2].
Proof.
  split; [exact sc_h2_reachable|].
  destruct (RemoveElement_on_root 1 sc_h2 sc_h2_reachable)
    as (b & h' & Hrem & Hb & Hhas & _ & Hyes & _).
  change (bool_decide (0 ∈ owners sc_h2 0 1)) with true in Hb. subst b.
  destruct (Hyes eq_refl) as (_ & Hget & Hnodes).
  destruct (Hnodes 0 _ eq_refl) as (t' & Ht' & Hels & _).
  exists h'. split; [exact Hrem|]. split; [exact Hhas|]. split; [exact Hget|].
  unfold elements_of. rewrite Ht'. exact Hels.
Defined.

Lemma owner_index_agrees_witness :
  reachable dl_h3 ∧
  count 3 (elements_of dl_h3 1) = count 1 (owners dl_h3 0 3) ∧
  count 3 (elements_of dl_h3 0) = count 0 (owners dl_h3 0 3).
Proof.
  split; [exact dl_h3_reachable|]. split.
  - exact (owner_index_agrees_with_elements dl_h3 dl_h3_reachable 1 _ 3 eq_refl).
  - exact (owner_index_agrees_with_elements dl_h3 dl_h3_reachable 0 _ 3 eq_refl).
Defined.

Lemma GetElementsInRect_filters_witness :
  ∃ raw l,
    GetElementsInRect 20 0 0 0 100 100 false sc_circle = Some raw ∧
    count 4 raw = 10 ∧
    GetElementsInRect 20 0 0 0 100 100 true sc_circle = Some l ∧
    l = [4; 2; 1] ∧ NoDup l ∧ l `sublist_of` raw.
Proof.
  destruct (GetElementsInRect_filters_duplicates 0 0 0 100 100 sc_circle)
    as (Hfirst & Hnodup & _).
  eexists _, _. split; [vm_compute; reflexivity|]. split; [reflexivity|].
  split; [vm_compute; reflexivity|]. split; [reflexivity|].
  destruct (Hnodup 20 [4; 2; 1] ltac:(vm_compute; reflexivity))
    as (Hnd & raw & Hraw & _ & Hsub & _).
  split; [exact Hnd|].
  assert (Some raw = Some [4; 4; 4; 4; 4; 4; 2; 4; 4; 4; 1; 4]) as [= ->];
    [rewrite <- Hraw; vm_compute; reflexivity|exact Hsub].
Defined.


Lemma AddElement_outside_witness :
  reachable sc_h1 ∧
  IsInsideRect (far_points 9) 0 0 100 100 = false ∧
  GetParentsForElement 0 9 sc_h1 = Some None ∧
  ∃ h', AddElement 3 far_points 0 9 sc_h1 = Some (false, h') ∧
        elements_of h' 0 = elements_of sc_h1 0 ∧
        GetParentsForElement 0 9 h' = Some (Some []).
Proof.
  split; [exact sc_h1_reachable|]. split; [reflexivity|].
  destruct (AddElement_outside_leaves_empty_entry far_points 0 9 sc_h1 _ 3
              sc_h1_reachable eq_refl eq_refl (le_n 3))
    as (h' & Hadd & _ & Hnodes & _ & Hent).
  destruct (Hent eq_refl) as [Hbefore Hafter].
  split; [exact Hbefore|].
  destruct (Hnodes 0 _ eq_refl) as (t' & Ht' & Hels & _).
  exists h'. split; [exact Hadd|]. split; [|exact Hafter].
  unfold elements_of at 1. rewrite Ht'. exact Hels.
Defined.

Lemma RemoveElement_on_root_built_tree_witness :
  root_reachable sc_h2 ∧
  ∃ h', RemoveElement 0 1 sc_h2 = Some (true, h') ∧
        HasElement 0 1 h' = Some false ∧
        empty_result (GetParentsForElement 0 1 h').
Proof.
  split; [exact sc_h2_root_reachable|].
  destruct (RemoveElement_on_root_built_tree 1 sc_h2 sc_h2_root_reachable)
    as (b & h' & Hrem & Hb & _ & _ & Hhas & Hget).
  destruct b.
  - by exists h'.
  - exfalso. by pose proof (proj1 Hb eq_refl).
Defined.

Lemma AddElement_returns_on_limited_tree_witness :
  reachable dl_h3 ∧
  ∃ fuel b h', AddElement fuel scenario_points 0 5 dl_h3 = Some (b, h').
Proof.
  split; [exact dl_h3_reachable|].
  destruct (AddElement_returns_on_limited_tree scenario_points 0 5 dl_h3 _
              dl_h3_reachable eq_refl ltac:(vm_compute; discriminate))
    as (fuel & b & h' & Hadd & _).
  by exists fuel, b, h'.
Defined.

Lemma split_nodes_are_quartered_witness :
  reachable sc_h3 ∧
  ∃ c0 c1 c2 c3, elements_of sc_h3 0 = [1; 2; 3] ∧
    from_option _children [] (sc_h3 !! 0) = [c0; c1; c2; c3] ∧
    from_option bounds (0, 0, 0, 0)%float (sc_h3 !! c3) = (0 + 100 / 2, 0 + 100 / 2, 100 / 2, 100 / 2)%float.
Proof.
  assert (Hreach : reachable sc_h3).
  { apply (reach_AddElement 9 scenario_points 0 3 sc_h2 true);
      [exact sc_h2_reachable|vm_compute; lia|vm_compute; reflexivity]. }
  split; [exact Hreach|].
  destruct (split_nodes_are_quartered sc_h3 0 _ Hreach eq_refl eq_refl)
    as (c0 & c1 & c2 & c3 & t0 & t1 & t2 & t3 & Hcs & _ & _ & _ & H3 & _ & _ & _ & B3 & _).
  exists c0, c1, c2, c3. split; [reflexivity|]. split; [exact Hcs|].
  rewrite H3. exact B3.
Defined.

(** ** Where the code departs from the specification's words *)

(** Point 1 is a member of the root of [sc_h1]; adding it again at the
    root returns true and records it a second time. *)
Lemma AddElement_member_again_returns_true :
  reachable sc_h1 ∧
  elements_of sc_h1 0 = [1] ∧ owners sc_h1 0 1 = [0] ∧
  AddElement 3 scenario_points 0 1 sc_h1 = Some (true, sc_dup) ∧
  elements_of sc_dup 0 = [1; 1] ∧ owners sc_dup 0 1 = [0; 0].
Proof. split; [exact sc_h1_reachable|]. by vm_compute. Qed.

(** Point 3 was added through the child at address 1, so the root is
    not among its owners: the root's RemoveElement returns false and
    changes nothing, although the element is held by node 1 and the
    owner index still lists that node. *)
Lemma RemoveElement_on_root_misses_member :
  reachable dl_h3 ∧
  elements_of dl_h3 1 = [1; 2; 3] ∧ owners dl_h3 0 3 = [1] ∧
  RemoveElement 0 3 dl_h3 = Some (false, dl_h3) ∧
  HasElement 1 3 dl_h3 = Some true ∧
  GetParentsForElement 0 3 dl_h3 = Some (Some [1]).
Proof. split; [exact dl_h3_reachable|]. by vm_compute. Qed.

(** The root of [sc_dup] is a leaf holding point 1 twice: the unfiltered
    query returns it twice, the filtered one once. *)
Lemma GetElementsInRect_leaf_multisets_differ :
  reachable sc_dup ∧ length sc_dup = 1 ∧
  (∃ t, sc_dup !! 0 = Some t ∧ IsSplit t = false) ∧
  GetElementsInRect 2 0 0 0 100 100 false sc_dup = Some [1; 1] ∧
  GetElementsInRect 2 0 0 0 100 100 true sc_dup = Some [1] ∧
  ¬ [1; 1] ≡ₚ [1].
Proof.
  split; [exact sc_dup_reachable|]. split; [reflexivity|].
  split; [by eexists|]. split; [reflexivity|]. split; [reflexivity|].
  intros HP. apply Permutation_length in HP. discriminate.
Qed.

(** ** What the point queries return *)

(** On a reachable tree GetChildAt(x, y) returns.  It is [null] when the
    node it is called on does not hold the point; a node that it returns
    is a leaf at or below the called node, and the bounds of both hold
    the point; called on a leaf that holds the point it returns that
    leaf. *)
Theorem GetChildAt_returns_holding_leaf
    (this : nat) (x y : float) (h : list QuadTree) (t : QuadTree) :
  reachable h → h !! this = Some t →
  ∃ n r, (∀ m, n ≤ m → GetChildAt m this x y h = Some r) ∧
    (IsPointInBounds t x y = false → r = None) ∧
    (∀ leaf, r = Some leaf →
       this ≤ leaf ∧ IsPointInBounds t x y = true ∧
       ∃ tl, h !! leaf = Some tl ∧ IsSplit tl = false ∧
             IsPointInBounds tl x y = true) ∧
    (IsSplit t = false → IsPointInBounds t x y = true → r = Some this).
Proof.
  intros Hreach Ht. destruct (reachable_inv h Hreach) as [Hcl _].
  pose proof (reachable_quartered h Hreach) as Hq.
  destruct (IsPointInBounds t x y) eqn:Hin.
  - destruct (point_queries_descend h x y (λ _, True) ltac:(done) Hcl Hq
                (length h) this t ltac:(lia) Ht Hin I)
      as (n & [(leaf & tl & Hle & Hleaf & Hlf & Hinl & _ & Hrun)|Hmiss]).
    + exists n, (Some leaf).
      assert (Hret : ∀ m, n ≤ m → GetChildAt m this x y h = Some (Some leaf)).
      { intros m Hm. unfold GetChildAt.
        change [this] with ([] ++ [this] : list nat).
        by destruct (Hrun m [] ltac:(simpl; lia)) as [-> _]. }
      split; [exact Hret|]. split; [done|]. split.
      * intros leaf' [= <-]. split; [done|]. split; [done|]. by exists tl.
      * intros Hsplit _. specialize (Hret (S n) ltac:(lia)).
        unfold GetChildAt in Hret. rewrite while_pool_unfold in Hret.
        change [this] with ([] ++ [this] : list nat) in Hret.
        rewrite js_pop_snoc in Hret. unfold GetChildAt_turn in Hret.
        rewrite Ht in Hret. simpl in Hret. rewrite Hin, Hsplit in Hret.
        simpl in Hret. congruence.
    + exists n, None. split; [|split; [done|split; [done|]]].
      * intros m Hm. unfold GetChildAt.
        change [this] with ([] ++ [this] : list nat).
        by destruct (Hmiss m [] ltac:(simpl; lia) ltac:(constructor)) as [-> _].
      * intros Hsplit _. destruct n as [|n].
        { destruct (Hmiss 0 [] ltac:(simpl; lia) ltac:(constructor)) as [H0 _].
          done. }
        destruct (Hmiss (S n) [] ltac:(simpl; lia) ltac:(constructor)) as [Hch _].
        rewrite while_pool_unfold, js_pop_snoc in Hch. unfold GetChildAt_turn in Hch.
        rewrite Ht in Hch. simpl in Hch. rewrite Hin, Hsplit in Hch. done.
  - exists 2, None. split; [|split; [done|split; [done|done]]].
    intros m Hm. unfold GetChildAt.
    rewrite (GetChildAt_off_point h x y [this] m); [done| |simpl; lia].
    apply Forall_singleton. eauto.
Qed.

(** On a reachable tree GetElementsAt(x, y) returns either nothing or the
    elements list of the very leaf that GetChildAt(x, y) returns. *)
Theorem GetElementsAt_is_list_of_GetChildAt
    (this : nat) (x y : float) (h : list QuadTree) :
  reachable h → this < length h →
  ∃ n l r, (∀ m, n ≤ m → GetElementsAt m this x y h = Some l ∧
                          GetChildAt m this x y h = Some r) ∧
    (l = [] ∨ ∃ leaf tl, r = Some leaf ∧ h !! leaf = Some tl ∧ l = GetElements tl).
Proof.
  intros Hreach Hlt. destruct (reachable_inv h Hreach) as [Hcl _].
  pose proof (reachable_quartered h Hreach) as Hq.
  destruct (lookup_lt_is_Some_2 h this Hlt) as [t Ht].
  destruct (IsPointInBounds t x y) eqn:Hin.
  - destruct (point_queries_descend h x y (λ _, True) ltac:(done) Hcl Hq
                (length h) this t ltac:(lia) Ht Hin I)
      as (n & [(leaf & tl & Hle & Hleaf & Hlf & Hinl & _ & Hrun)|Hmiss]).
    + destruct (Hrun n [] ltac:(simpl; lia)) as [_ Hels].
      destruct (Hels ltac:(constructor)) as [[Hfound|Hnone] _].
      * exists n, (GetElements tl), (Some leaf). split; [|right; eauto].
        intros m Hm. unfold GetElementsAt, GetChildAt.
        change [this] with ([] ++ [this] : list nat).
        destruct (Hrun m [] ltac:(simpl; lia)) as [-> _].
        rewrite (while_pool_mono _ _ (λ _ _ _ H, H) n m _ _ _ Hm Hfound). done.
      * exists n, [], (Some leaf). split; [|by left].
        intros m Hm. unfold GetElementsAt, GetChildAt.
        change [this] with ([] ++ [this] : list nat).
        destruct (Hrun m [] ltac:(simpl; lia)) as [-> _].
        rewrite (while_pool_mono _ _ (λ _ _ _ H, H) n m _ _ _ Hm Hnone). done.
    + exists n, [], None. split; [|by left].
      intros m Hm. unfold GetElementsAt, GetChildAt.
      change [this] with ([] ++ [this] : list nat).
      by destruct (Hmiss m [] ltac:(simpl; lia) ltac:(constructor)) as [-> ->].
  - exists 2, [], None. split; [|by left].
    intros m Hm. unfold GetElementsAt, GetChildAt.
    assert (Hoff : off_point h x y [this]) by (apply Forall_singleton; eauto).
    rewrite (GetChildAt_off_point h x y [this] m Hoff), 
      (GetElementsAt_off_point h x y [this] m Hoff); [done|simpl; lia..].
Qed.

(** ** Nodes stay where their constructor placed them *)

Lemma placed_static h h' :
  length h' = length h →
  (∀ a t, h !! a = Some t → ∃ t', h' !! a = Some t' ∧ same_static t t') →
  placed h → placed h'.
Proof.
  intros Hlen Hnodes Hpl c tc' Hc'.
  assert (Hlt : c < length h) by (rewrite <- Hlen; by eapply lookup_lt_Some).
  destruct (lookup_lt_is_Some_2 h c Hlt) as [tc Hc].
  destruct (Hnodes c tc Hc) as (tc2 & Hc2 & Hs).
  assert (tc2 = tc') as -> by congruence.
  destruct Hs as (Hx & Hy & Hw & Hh & HmE & Hr & Hd & Hp & HmD).
  specialize (Hpl c tc Hc). rewrite Hp.
  destruct (_parent tc) as [p|].
  - destruct Hpl as (tp & Htp & Hlt' & Hroot & Hdep & HE & HD & Hmay & HW & HH).
    destruct (Hnodes p tp Htp) as (tp' & Htp' & Hs').
    destruct Hs' as (Hx' & Hy' & Hw' & Hh' & HmE' & Hr' & Hd' & Hp' & HmD').
    exists tp'. split; [done|]. split; [done|].
    rewrite Hr, Hd, HmE, HmD, Hw, Hh, Hr', Hd', HmE', HmD', Hw', Hh'. done.
  - by rewrite Hr, Hd.
Qed.

Lemma placed_soft h h' : soft_heap h h' → placed h → placed h'.
Proof.
  intros [Hlen Hsoft]. apply placed_static; [done|].
  intros a t Ht. destruct (Hsoft a t Ht) as (t' & ? & [? _ _]). eauto.
Qed.

Lemma placed_alloc h node :
  match _parent node with
  | None => _root node = None ∧ _depth node = 0%Z
  | Some p =>
      ∃ tp, h !! p = Some tp ∧
        _root node = Some (default p (_root tp)) ∧
        _depth node = (_depth tp + 1)%Z ∧
        _maxElements node = _maxElements tp ∧ _maxDepth node = _maxDepth tp ∧
        ((_maxDepth tp < 0)%Z ∨ (_depth tp < _maxDepth tp)%Z) ∧
        _width node = (_width tp / 2)%float ∧ _height node = (_height tp / 2)%float
  end →
  placed h → placed (h ++ [node]).
Proof.
  intros Hnode Hpl c tc Hc.
  apply lookup_app_Some in Hc as [Hc|[Hge Hc]].
  - specialize (Hpl c tc Hc). destruct (_parent tc) as [p|]; [|done].
    destruct Hpl as (tp & Htp & Hrest). exists tp. split; [|done].
    by apply lookup_app_l_Some.
  - apply list_lookup_singleton_Some in Hc as [Hc <-].
    destruct (_parent node) as [p|]; [|done].
    destruct Hnode as (tp & Htp & Hrest). exists tp.
    split; [by apply lookup_app_l_Some|].
    split; [apply lookup_lt_Some in Htp; lia|done].
Qed.

Section PlacedMaster.
Variable G : Elements.
Variable n : nat.
Hypothesis IHn : placed_post G n.

Lemma ctor_placed x y arr p pt h c h' :
  new_QuadTree (AddElement n G) n x y (_width pt / 2)%float (_height pt / 2)%float
    (_maxElements pt) (_maxDepth pt) arr (Some p) h = Some (c, h') →
  closed 0 0 h → h !! p = Some pt →
  (_maxDepth pt < 0)%Z ∨ (_depth pt < _maxDepth pt)%Z →
  placed h → placed h'.
Proof.
  intros Hnew Hcl Hpt Hmay Hpl.
  assert (Hp : p < length h) by (by eapply lookup_lt_Some).
  apply new_QuadTree_child_inv in Hnew as (pt' & Hpt' & -> & Hfor); [|done].
  assert (pt' = pt) as -> by congruence.
  set (node := child_node x y (_width pt / 2)%float (_height pt / 2)%float
                 (_maxElements pt) (_maxDepth pt) p pt) in *.
  set (c := length h) in *. set (h1 := h ++ [node]) in *.
  assert (Hcl1 : closed 0 0 h1) by (apply closed_alloc_child; [done..|lia]).
  pose (I := λ (i : nat) (h2 : list QuadTree),
    closed 0 0 h2 ∧ c < length h2 ∧ placed h2).
  eapply (for_live_inv I) in Hfor.
  - by destruct Hfor as (_ & _ & (_ & _ & ?) & _).
  - intros i h2 l a h3 (Hcl2 & Hlt & Hpl2) Hl Ha Hbody.
    unfold AddElement_stmt in Hbody.
    apply bind_Some in Hbody as ([b h3'] & Hadd & Hbody). injection Hbody as ->.
    destruct (AddElement_spec G n 0 0 c a h2 b h3 Hadd Hcl2 (Nat.le_0_l _) Hlt)
      as (Hev & Hcl3 & _).
    split; [done|]. split; [pose proof (evolves_length _ _ _ _ Hev); lia|].
    by eapply (IHn c a h2 b h3).
  - split; [done|]. split; [unfold h1; rewrite length_app; simpl; lia|].
    apply placed_alloc; [|done]. simpl. exists pt. done.
Qed.

Lemma turn_placed el tree h h' pushed :
  AddElement_turn (AddElement n G) n G 0 el tree h = Some (Continue h' pushed) →
  closed 0 0 h → placed h → placed h'.
Proof.
  intros Hturn Hcl Hpl.
  apply AddElement_turn_inv in Hturn.
  assert (Hpush : ∀ t h1 h2,
    h !! tree = Some t → elParents_push 0 el tree h = Some h1 →
    modify tree (λ t, set_elements (_elements t ++ [el]) t) h1 = Some h2 →
    closed 0 0 h2 ∧ placed h2).
  { intros t h1 h2 Ht H1 H2.
    destruct (push_step 0 0 el tree h h1 h2 H1 H2 (Nat.le_0_l _))
      as (_ & Hlen & _ & Hclosed & Hnodes).
    split; [by apply Hclosed|].
    apply (placed_static h h2 Hlen); [|done].
    intros a t0 Ht0. destruct (Hnodes a t0 Ht0) as (t2' & Ht2' & [? _ _] & _). eauto. }
  inversion Hturn as [t Ht Hout
    | t h1 h2 t2 Ht Hin H1 H2 Ht2 Hsplit
    | t h1 h2 t2 Ht Hin H1 H2 Ht2 Hleaf Hno
    | t h1 h2 t2 cs h3 h4 Ht Hin H1 H2 Ht2 Hleaf Hmay Hsp Hlink]; subst.
  - done.
  - by destruct (Hpush t h1 h' Ht H1 H2).
  - by destruct (Hpush t h1 h' Ht H1 H2).
  - destruct (Hpush t h1 h2 Ht H1 H2) as [Hcl2 Hpl2].
    assert (Hlt2 : tree < length h2) by (by eapply lookup_lt_Some).
    apply may_split_true in Hmay as [_ Hdepth].
    apply split_children_inv in Hsp
      as (c0 & c1 & c2 & c3 & g1 & g2 & g3 & -> & E0 & E1 & E2 & E3).
    assert (Hstep : ∀ x y arr ha c hb,
      new_QuadTree (AddElement n G) n x y (_width t2 / 2)%float (_height t2 / 2)%float
        (_maxElements t2) (_maxDepth t2) arr (Some tree) ha = Some (c, hb) →
      closed 0 0 ha → (∃ ta, ha !! tree = Some ta ∧ same_static t2 ta) →
      placed ha →
      closed 0 0 hb ∧ (∃ tb, hb !! tree = Some tb ∧ same_static t2 tb) ∧ placed hb).
    { intros x y arr ha c hb E Hcla (ta & Hta & Hsa) Hpla.
      assert (Hlta : tree < length ha) by (by eapply lookup_lt_Some).
      destruct (ctor_spec G (AddElement n G) (AddElement_spec G n) 0 0 n
                  _ _ _ _ _ _ arr tree ha c hb E Hcla (Nat.le_0_l _) Hlta)
        as (-> & Hev & Hclb & _ & _).
      split; [done|]. split.
      { destruct (evolves_lookup _ _ _ _ _ _ Hev Hta) as (tb & Htb & Hsb).
        exists tb. split; [done|]. by eapply same_static_trans. }
      destruct Hsa as (Hx & Hy & Hw & Hh & HmE & Hr & Hd & Hp & HmD).
      rewrite <- Hw, <- Hh, <- HmE, <- HmD in E.
      eapply ctor_placed; [exact E|done|exact Hta| |done].
      by rewrite Hd, HmD. }
    assert (H0 : ∃ ta, h2 !! tree = Some ta ∧ same_static t2 ta).
    { exists t2. split; [done|apply same_static_refl]. }
    destruct (Hstep _ _ _ _ _ _ E0 Hcl2 H0 Hpl2) as (K1 & L1 & A1).
    destruct (Hstep _ _ _ _ _ _ E1 K1 L1 A1) as (K2 & L2 & A2).
    destruct (Hstep _ _ _ _ _ _ E2 K2 L2 A2) as (K3 & L3 & A3).
    destruct (Hstep _ _ _ _ _ _ E3 K3 L3 A3) as (K4 & L4 & A4).
    apply modify_Some in Hlink as (t3 & Ht3 & ->).
    apply (placed_static h3); [by rewrite length_insert| |done].
    intros a ta Hta.
    destruct (decide (a = tree)) as [->|Hne].
    + assert (ta = t3) as -> by congruence.
      exists (set_children [c0; c1; c2; c3] t3).
      split; [apply list_lookup_insert_eq; by eapply lookup_lt_Some|].
      by repeat split.
    + exists ta. split; [by rewrite list_lookup_insert_ne|apply same_static_refl].
Qed.

Lemma loop_placed el pool h h' :
  while_pool n (AddElement_turn (AddElement n G) n G 0 el) pool h = Some (inl h') →
  closed 0 0 h → placed h → placed h'.
Proof.
  intros Hrun Hcl Hpl.
  pose (I := λ (_ : list nat) (hc : list QuadTree), closed 0 0 hc ∧ placed hc).
  pose (Q := λ (res : list QuadTree + Empty_set),
    ∃ hc, res = inl hc ∧ placed hc).
  assert (HQ : Q (inl h')); [|by destruct HQ as (hc & [= <-] & ?)].
  eapply (while_pool_inv I Q); [| |exact (conj Hcl Hpl)|exact Hrun].
  - intros rest tree hc r [Hclc Hplc] Hbody.
    destruct (turn_spec G (AddElement n G) (AddElement_spec G n) 0 0 n el tree hc _
                Hbody Hclc (Nat.le_0_l _))
      as (h2 & pushed & t & t' & -> & _ & Hcl2 & _).
    split; [done|]. by eapply turn_placed.
  - intros hc [_ Hplc]. by exists hc.
Qed.

End PlacedMaster.

Lemma AddElement_placed G n : placed_post G n.
Proof.
  induction n as [|n IH]; intros this el h b h' Hadd Hcl Hlt Hpl; [done|].
  apply AddElement_inv in Hadd
    as (fuel' & r & l & h1 & l' & [= <-] & Hr & Hg & Hloop & _ & _).
  rewrite (closed_rootTree 0 0 h this Hcl (Nat.le_0_l _) Hlt) in Hr.
  injection Hr as <-.
  destruct (GetParents_create 0 0 this el h _ h1
              (closed_rootTree 0 0 h this Hcl (Nat.le_0_l _) Hlt) Hg)
    as (_ & _ & _ & Hlen & _ & Hclosed & Hnodes).
  apply (loop_placed G n IH el [this] h1 h' Hloop); [by apply Hclosed|].
  apply (placed_static h h1 Hlen); [|done].
  intros a t Ht. destruct (Hnodes a t Ht) as (t' & ? & [? _ _] & _). eauto.
Qed.

Lemma new_root_placed fuel G x y w ht mE mD els h' :
  new_root fuel G x y w ht mE mD els [] = Some (0, h') → placed h'.
Proof.
  unfold new_root. intros H. apply new_QuadTree_root_inv in H as (_ & Hfor).
  pose (I := λ (_ : nat) (h2 : list QuadTree),
    closed 0 0 h2 ∧ agree 0 h2 ∧ 0 < length h2 ∧ placed h2).
  eapply (for_live_inv I) in Hfor.
  - by destruct Hfor as (_ & _ & (_ & _ & _ & ?) & _).
  - intros i h2 l a h3 (Hcl & Hag & Hlt & Hpl) _ _ Hbody.
    unfold AddElement_stmt in Hbody.
    apply bind_Some in Hbody as ([b h3'] & Hadd & Hbody). injection Hbody as ->.
    destruct (AddElement_keeps _ _ _ _ _ _ _ _ _ Hadd Hcl Hag (Nat.le_refl _) Hlt)
      as (? & ? & ?).
    split; [done|]. split; [done|]. split; [simpl in *; lia|].
    by eapply AddElement_placed.
  - destruct (new_root_keeps 1 G x y w ht mE mD [] [root_node x y w ht mE mD] eq_refl)
      as [Hcl Hag].
    split; [done|]. split; [done|]. split; [simpl; lia|].
    intros a t Ht. destruct a as [|a]; [|done].
    injection Ht as <-. done.
Qed.

Lemma reachable_placed h : reachable h → placed h.
Proof.
  induction 1 as [fuel G x y w ht mE mD els h Hnew
                 | fuel G this el h b h' Hreach Hpl Hlt Hadd
                 | this el h b h' Hreach Hpl Hlt Hrem
                 | fuel G this el h b h' Hreach Hpl Hlt Hupd].
  - by eapply new_root_placed.
  - destruct (reachable_inv h Hreach) as [Hcl _]. by eapply AddElement_placed.
  - destruct (reachable_inv h Hreach) as [Hcl Hag].
    destruct (RemoveElement_soft this el h b h' Hcl Hag Hlt Hrem) as (_ & _ & Hs & _).
    by eapply placed_soft.
  - destruct (reachable_inv h Hreach) as [Hcl Hag].
    apply UpdateElement_inv in Hupd as [[Hrem ->]|(h1 & Hrem & Hadd)].
    + destruct (RemoveElement_soft this el h false h' Hcl Hag Hlt Hrem) as (_ & _ & Hs & _).
      by eapply placed_soft.
    + destruct (RemoveElement_soft this el h true h1 Hcl Hag Hlt Hrem)
        as (Hcl1 & _ & Hs & _).
      eapply AddElement_placed; [exact Hadd|done|destruct Hs; lia|].
      by eapply placed_soft.
Qed.

(** ** What the accessors report on a reachable tree *)

Lemma placed_depth h : placed h →
  ∀ a t, h !! a = Some t →
    (0 <= _depth t)%Z ∧ ((0 <= _maxDepth t)%Z → (_depth t <= _maxDepth t)%Z).
Proof.
  intros Hpl a. induction a as [a IH] using lt_wf_ind. intros t Ht.
  specialize (Hpl a t Ht). destruct (_parent t) as [p|].
  - destruct Hpl as (tp & Htp & Hlt & _ & Hd & _ & HmD & Hmay & _).
    destruct (IH p Hlt tp Htp) as [H0 H1]. rewrite Hd, HmD. lia.
  - destruct Hpl as [_ ->]. lia.
Qed.

Lemma placed_orphan h a t :
  closed 0 0 h → placed h → h !! a = Some t → _parent t = None → a = 0.
Proof.
  intros Hcl Hpl Ht Hp. specialize (Hpl a t Ht). rewrite Hp in Hpl.
  destruct Hpl as [Hr _].
  destruct (closed_node 0 0 h Hcl a t Ht (Nat.le_0_l _)) as [Hd _].
  by rewrite Hr in Hd.
Qed.

Lemma placed_first h t :
  placed h → h !! 0 = Some t → _parent t = None ∧ _root t = None ∧ _depth t = 0%Z.
Proof.
  intros Hpl Ht. specialize (Hpl 0 t Ht). destruct (_parent t) as [p|].
  - destruct Hpl as (_ & _ & Hlt & _). lia.
  - by destruct Hpl.
Qed.

(** On a reachable tree depths count the levels below the root: every
    child lies one level deeper than its node, no node lies deeper than
    the depth limit, when there is one, and a node that is split lies
    strictly above it. *)
Theorem depth_stays_within_limit (h : list QuadTree) (a : nat) (t : QuadTree) :
  reachable h → h !! a = Some t →
  (0 <= GetDepth t)%Z ∧
  ((0 <= GetMaxDepth t)%Z → (GetDepth t <= GetMaxDepth t)%Z) ∧
  (IsSplit t = true →
     (GetMaxDepth t < 0)%Z ∨ (GetDepth t < GetMaxDepth t)%Z) ∧
  (∀ c, c ∈ GetChildren t →
     ∃ tc, h !! c = Some tc ∧ GetDepth tc = (GetDepth t + 1)%Z).
Proof.
  intros Hreach Ht. pose proof (reachable_placed h Hreach) as Hpl.
  destruct (reachable_inv h Hreach) as [Hcl _].
  destruct (placed_depth h Hpl a t Ht) as [H0 H1].
  assert (Hchild : ∀ c, c ∈ _children t →
    ∃ tc, h !! c = Some tc ∧ _depth tc = (_depth t + 1)%Z ∧
      ((_maxDepth t < 0)%Z ∨ (_depth t < _maxDepth t)%Z)).
  { intros c Hc.
    destruct (closed_children 0 0 h a t c Hcl Ht (Nat.le_0_l _) Hc)
      as (_ & _ & tc & Htc & Hp).
    specialize (Hpl c tc Htc). rewrite Hp in Hpl.
    destruct Hpl as (tp & Htp & _ & _ & Hd & _ & _ & Hmay & _).
    assert (tp = t) as -> by congruence. eauto. }
  split; [done|]. split; [done|]. split.
  - intros Hsplit. destruct (_children t) as [|c cs] eqn:Hcs.
    { by rewrite (IsSplit_leaf t Hcs) in Hsplit. }
    destruct (Hchild c ltac:(left)) as (_ & _ & _ & Hmay). done.
  - intros c Hc. destruct (Hchild c Hc) as (tc & Htc & Hd & _). eauto.
Qed.

(** On a reachable tree the first node is the only root: IsRoot() is true
    on it alone, it alone has no parent, and GetRoot() of every other
    node is that first node. *)
Theorem first_node_is_the_only_root (h : list QuadTree) (a : nat) (t : QuadTree) :
  reachable h → h !! a = Some t →
  IsRoot t = bool_decide (a = 0) ∧
  (GetParent t = None ↔ a = 0) ∧
  (a ≠ 0 → GetRoot t = Some 0).
Proof.
  intros Hreach Ht. pose proof (reachable_placed h Hreach) as Hpl.
  destruct (reachable_inv h Hreach) as [Hcl _].
  destruct (closed_node 0 0 h Hcl a t Ht (Nat.le_0_l _)) as [Hd _].
  unfold IsRoot, GetParent, GetRoot.
  destruct (decide (a = 0)) as [->|Hne].
  - destruct (placed_first h t Hpl Ht) as (Hp & Hr & _).
    rewrite Hr, Hp. by rewrite bool_decide_eq_true_2.
  - rewrite bool_decide_eq_false_2 by done.
    destruct (_root t) as [r|] eqn:Hr; simpl in Hd; [subst r|done].
    split; [done|]. split; [|done].
    split; [|done]. intros Hp. by apply (placed_orphan h a t Hcl Hpl Ht).
Qed.

(** On a reachable tree every node has the capacity and the depth limit
    of the root, and its width and height are those of the root halved
    once per level of depth, each halving being the rounded division of
    the code. *)
Theorem nodes_share_configuration_and_scale
    (h : list QuadTree) (a : nat) (t rt : QuadTree) :
  reachable h → h !! 0 = Some rt → h !! a = Some t →
  GetMaxElements t = GetMaxElements rt ∧ GetMaxDepth t = GetMaxDepth rt ∧
  GetWidth t
    = Nat.iter (Z.to_nat (GetDepth t)) (λ w, (w / 2)%float) (GetWidth rt) ∧
  GetHeight t
    = Nat.iter (Z.to_nat (GetDepth t)) (λ w, (w / 2)%float) (GetHeight rt).
Proof.
  intros Hreach Hrt. pose proof (reachable_placed h Hreach) as Hpl.
  destruct (reachable_inv h Hreach) as [Hcl _].
  unfold GetMaxElements, GetMaxDepth, GetWidth, GetHeight, GetDepth.
  revert t. induction a as [a IH] using lt_wf_ind. intros t Ht.
  pose proof (Hpl a t Ht) as Ha. destruct (_parent t) as [p|] eqn:Hp.
  - destruct Ha as (tp & Htp & Hlt & _ & Hd & HmE & HmD & _ & Hw & Hh).
    destruct (IH p Hlt tp Htp) as (E1 & E2 & E3 & E4).
    destruct (placed_depth h Hpl p tp Htp) as [Hd0 _].
    rewrite HmE, HmD, Hd, Hw, Hh.
    split; [done|]. split; [done|].
    rewrite Z2Nat.inj_add by lia. rewrite Nat.add_comm. simpl.
    by rewrite <- E3, <- E4.
  - assert (a = 0) as -> by (by apply (placed_orphan h a t Hcl Hpl Ht)).
    assert (t = rt) as -> by congruence. destruct Ha as [_ ->].
    done.
Qed.
(** ** What the queries return *)

Lemma GetElementsInRect_sound n this x y w ht fd h l :
  GetElementsInRect n this x y w ht fd h = Some l →
  ∀ e, e ∈ l → in_leaf_over h x y w ht e.
Proof.
  intros H. apply GetElementsInRect_raw in H as (raw & H & ->).
  assert (Hraw : ∀ e, e ∈ raw → in_leaf_over h x y w ht e).
  { unfold GetElementsInRect in H.
    apply bind_Some in H as (res & Hrun & H).
    destruct res as [acc|[]]. injection H as <-.
    pose (I := λ (_ : list nat) (acc : list nat),
      ∀ e, e ∈ acc → in_leaf_over h x y w ht e).
    pose (Q := λ (res : list nat + Empty_set),
      ∃ acc, res = inl acc ∧ ∀ e, e ∈ acc → in_leaf_over h x y w ht e).
    assert (HQ : Q (inl acc)); [|by destruct HQ as (? & [= <-] & ?)].
    eapply (while_pool_inv I Q); [| | |exact Hrun].
    - intros pool tree s r HI Hbody.
      apply bind_Some in Hbody as (t & Ht & Hbody).
      destruct (length (_elements t) =? 0); simpl in Hbody.
      { injection Hbody as <-. done. }
      destruct (IsRectInBounds t x y w ht) eqn:Hin; simpl in Hbody.
      2:{ injection Hbody as <-. done. }
      destruct (IsSplit t) eqn:Hsplit.
      { injection Hbody as <-. done. }
      injection Hbody as <-. intros e He.
      apply elem_of_app in He as [He|He]; [by apply HI|].
      by exists tree, t.
    - intros s HI. by exists s.
    - intros e He. by apply elem_of_nil in He. }
  intros e He. apply Hraw. destruct fd; [|done].
  by apply elem_of_first_occurrences.
Qed.

Lemma GetElementsAt_sound n this x y h l :
  GetElementsAt n this x y h = Some l →
  ∀ e, e ∈ l → in_leaf_at h x y e.
Proof.
  unfold GetElementsAt. intros H.
  apply bind_Some in H as (res & Hrun & H). injection H as <-.
  pose (I := λ (_ : list nat) (_ : unit), True).
  pose (Q := λ (res : unit + list nat),
    ∀ e, e ∈ (match res with inl _ => [] | inr els => els end) →
         in_leaf_at h x y e).
  assert (HQ : Q res); [|done].
  eapply (while_pool_inv I Q); [| |exact Logic.I|exact Hrun].
  - intros pool tree s r _ Hbody.
    apply bind_Some in Hbody as (t & Ht & Hbody).
    destruct (length (_elements t) =? 0); simpl in Hbody.
    { by injection Hbody as <-. }
    destruct (IsPointInBounds t x y) eqn:Hin; simpl in Hbody.
    2:{ by injection Hbody as <-. }
    destruct (IsSplit t) eqn:Hsplit.
    { by injection Hbody as <-. }
    injection Hbody as <-. intros e He. by exists tree, t.
  - intros s _ e He. by apply elem_of_nil in He.
Qed.

(** Whatever GetElementsInRect and GetElementsAt return was read from the
    list of a leaf: one that overlaps the rectangle, or whose bounds hold
    the point. *)
Theorem queries_return_elements_of_leaves
    (n this : nat) (x y width height : float) (fd : bool) (h : list QuadTree) :
  (∀ l e, GetElementsInRect n this x y width height fd h = Some l → e ∈ l →
          in_leaf_over h x y width height e) ∧
  (∀ l e, GetElementsAt n this x y h = Some l → e ∈ l → in_leaf_at h x y e).
Proof.
  split; intros l e H He.
  - by eapply GetElementsInRect_sound.
  - by eapply GetElementsAt_sound.
Qed.

Lemma RemoveElement_root_absent el h b h' :
  root_reachable h → RemoveElement 0 el h = Some (b, h') → absent el h'.
Proof.
  intros Hroot Hrem. destruct (root_reachable_inv h Hroot) as [Hreach Hrf].
  destruct (reachable_inv h Hreach) as [Hcl Hag].
  assert (Hlt : 0 < length h).
  { destruct Hcl as [(rt & m & Hrt & _) _]. by eapply lookup_lt_Some. }
  destruct (RemoveElement_spec 0 0 0 el h Hcl Hag (Nat.le_refl _) Hlt)
    as (h2 & Hrem2 & Hcl' & Hag' & Hlen & Hno & Hyes).
  rewrite Hrem in Hrem2. injection Hrem2 as -> <-.
  destruct (decide (0 ∈ owners h 0 el)) as [Hin|Hnin].
  - destruct (Hyes Hin) as (_ & _ & Hnodes). intros a t' Ht'.
    assert (Ha : a < length h) by (rewrite <- Hlen; by eapply lookup_lt_Some).
    destruct (lookup_lt_is_Some_2 h a Ha) as [t Ht].
    destruct (Hnodes a t Ht) as (t2 & Ht2 & _ & He).
    assert (t2 = t') as -> by congruence. rewrite He.
    apply count_zero, count_without_eq.
  - rewrite (Hno Hnin). apply (owners_nil_absent h el Hag).
    destruct (decide (owners h 0 el = [])); [done|]. by destruct Hnin; apply Hrf.
Qed.

(** After RemoveElement(E) on the root of a tree that was only used
    through its root, no query on any node returns E any more. *)
Theorem removed_element_is_not_returned
    (el : nat) (h : list QuadTree) (b : bool) (h' : list QuadTree) :
  root_reachable h → RemoveElement 0 el h = Some (b, h') →
  (∀ n this x y width height fd l,
     GetElementsInRect n this x y width height fd h' = Some l → el ∉ l) ∧
  (∀ n this x y l, GetElementsAt n this x y h' = Some l → el ∉ l).
Proof.
  intros Hroot Hrem.
  pose proof (RemoveElement_root_absent el h b h' Hroot Hrem) as Habs.
  split.
  - intros n this x y w ht fd l H Hin.
    destruct (GetElementsInRect_sound _ _ _ _ _ _ _ _ _ H el Hin)
      as (a & t & Ht & _ & _ & He).
    by apply (Habs a t Ht).
  - intros n this x y l H Hin.
    destruct (GetElementsAt_sound _ _ _ _ _ _ H el Hin)
      as (a & t & Ht & _ & _ & He).
    by apply (Habs a t Ht).
Qed.

(** ** The rectangle query holds what the point query returns *)

(** A node that holds a point overlaps every rectangle that holds it. *)
Lemma IsRectInBounds_point t x y w ht px py :
  IsPointInBounds t px py = true →
  (x <=? px)%float = true → (px <? x + w)%float = true →
  (y <=? py)%float = true → (py <? y + ht)%float = true →
  IsRectInBounds t x y w ht = true.
Proof.
  unfold IsPointInBounds, IsRectInBounds. rewrite !andb_true_iff.
  intros [[[H1 H2] H3] H4] Hx Hx' Hy Hy'.
  repeat split; eapply leb_ltb_trans; eauto.
Qed.

Lemma GetElementsInRect_mono n m this x y w ht fd h l :
  n ≤ m → GetElementsInRect n this x y w ht fd h = Some l →
  GetElementsInRect m this x y w ht fd h = Some l.
Proof.
  intros Hnm. unfold GetElementsInRect. intros H.
  apply bind_Some in H as (res & Hrun & H).
  by rewrite (while_pool_mono _ _ (λ _ _ _ H, H) n m _ _ _ Hnm Hrun).
Qed.

(** A list that [GetElementsAt] returns is the list of a leaf to which a
    way leads down from the node of the call. *)
Lemma GetElementsAt_walk n this x y h l :
  GetElementsAt n this x y h = Some l →
  l = [] ∨ ∃ leaf tl, h !! leaf = Some tl ∧ l = GetElements tl ∧
                      walk h x y leaf this.
Proof.
  unfold GetElementsAt. intros H.
  apply bind_Some in H as (res & Hrun & H). injection H as <-.
  pose (I := λ (pool : list nat) (_ : unit),
    ∀ a leaf, a ∈ pool → walk h x y leaf a → walk h x y leaf this).
  pose (Q := λ (res : unit + list nat),
    match res with
    | inl _ => True
    | inr els => ∃ leaf tl, h !! leaf = Some tl ∧ els = GetElements tl ∧
                            walk h x y leaf this
    end).
  assert (HQ : Q res); [|destruct res; [by left|by right]].
  eapply (while_pool_inv I Q); [| | |exact Hrun].
  - intros pool tree s r HI Hbody.
    apply bind_Some in Hbody as (t & Ht & Hbody).
    assert (Hkeep : ∀ a leaf, a ∈ pool ++ [] → walk h x y leaf a →
              walk h x y leaf this).
    { intros a leaf Ha. apply HI. rewrite app_nil_r in Ha.
      apply elem_of_app. by left. }
    destruct (length (_elements t) =? 0) eqn:Hlen; simpl in Hbody.
    { by injection Hbody as <-. }
    assert (Hne : _elements t ≠ []).
    { intros E. by rewrite E in Hlen. }
    destruct (IsPointInBounds t x y) eqn:Hin; simpl in Hbody.
    2:{ by injection Hbody as <-. }
    destruct (IsSplit t) eqn:Hsplit; injection Hbody as <-.
    + intros a leaf Ha Hw. apply elem_of_app in Ha as [Ha|Ha].
      * apply (HI a leaf); [|done]. apply elem_of_app. by left.
      * apply (HI tree leaf); [apply elem_of_app; right; by left|].
        by apply (walk_step h x y leaf tree t a).
    + exists tree, t. split; [done|]. split; [done|].
      apply (HI tree tree); [apply elem_of_app; right; by left|].
      by apply (walk_leaf h x y tree t).
  - done.
  - intros a leaf Ha. apply list_elem_of_singleton in Ha as ->. done.
Qed.

(** The rectangle loop goes down every such way when its rectangle holds
    the point. *)
Lemma walk_in_rectangle h this x y w ht fd px py leaf tl :
  closed 0 0 h → this < length h →
  walk h px py leaf this → h !! leaf = Some tl →
  (x <=? px)%float = true → (px <? x + w)%float = true →
  (y <=? py)%float = true → (py <? y + ht)%float = true →
  ∃ n l, (∀ m, n ≤ m → GetElementsInRect m this x y w ht fd h = Some l) ∧
    ∀ e, e ∈ GetElements tl → e ∈ l.
Proof.
  intros Hcl Hlt Hwalk Hleaf Hx Hx' Hy Hy'.
  destruct (GetElementsInRect_terminates 0 0 this x y w ht fd h Hcl
              (Nat.le_0_l _) Hlt) as (n & l & Hrun).
  exists n, l. split; [intros m Hm; by eapply GetElementsInRect_mono|].
  destruct (GetElementsInRect_raw _ _ _ _ _ _ _ _ _ Hrun) as (raw & H & ->).
  assert (Hraw : ∀ e, e ∈ GetElements tl → e ∈ raw).
  2:{ intros e He. destruct fd; [apply elem_of_first_occurrences|]; by apply Hraw. }
  unfold GetElementsInRect in H.
  apply bind_Some in H as (res & Hloop & H).
  destruct res as [acc|[]]. injection H as <-.
  pose (I := λ (pool : list nat) (acc : list nat),
    (∀ e, e ∈ GetElements tl → e ∈ acc) ∨ ∃ a, a ∈ pool ∧ walk h px py leaf a).
  pose (Q := λ (res : list nat + Empty_set),
    ∃ acc, res = inl acc ∧ ∀ e, e ∈ GetElements tl → e ∈ acc).
  assert (HQ : Q (inl acc)); [|by destruct HQ as (? & [= <-] & ?)].
  eapply (while_pool_inv I Q); [| | |exact Hloop].
  - intros pool tree s r HI Hbody.
    apply bind_Some in Hbody as (t & Ht & Hbody).
    destruct HI as [Hacc|(a & Ha & Hw)].
    { destruct (_ || _); [injection Hbody as <-; by left|].
      destruct (IsSplit t); injection Hbody as <-; left; [done|].
      intros e He. apply elem_of_app. left. by apply Hacc. }
    apply elem_of_app in Ha as [Ha|Ha].
    { assert (HI' : ∀ pushed, ∃ a, a ∈ pool ++ pushed ∧ walk h px py leaf a).
      { intros pushed. exists a. split; [apply elem_of_app; by left|done]. }
      destruct (_ || _); [injection Hbody as <-; right; apply HI'|].
      destruct (IsSplit t); injection Hbody as <-; right; apply HI'. }
    apply list_elem_of_singleton in Ha as ->.
    assert (Hhere : _elements t ≠ [] ∧ IsPointInBounds t px py = true).
    { inversion Hw as [tl' Htl' Hne Hin Hsp|a' t' c Ht' Hne Hin Hsp Hc Hw']; subst;
        by simplify_eq. }
    destruct Hhere as [Hne Hin].
    assert (Hlen : (length (_elements t) =? 0) = false).
    { apply Nat.eqb_neq. intros E. by apply length_zero_iff_nil in E. }
    rewrite Hlen, (IsRectInBounds_point t x y w ht px py Hin Hx Hx' Hy Hy')
      in Hbody. simpl in Hbody.
    inversion Hw as [tl' Htl' _ _ Hsp|a' t' c Ht' _ _ Hsp Hc Hw']; subst.
    + assert (tl' = t) as -> by congruence.
      assert (tl = t) as -> by congruence.
      rewrite Hsp in Hbody. injection Hbody as <-. left.
      intros e He. apply elem_of_app. by right.
    + assert (t' = t) as -> by congruence.
      rewrite Hsp in Hbody. injection Hbody as <-. right.
      exists c. split; [apply elem_of_app; by right|done].
  - intros s [Hacc|(a & Ha & _)]; [by exists s|by apply elem_of_nil in Ha].
  - right. exists this. split; [by left|done].
Qed.

(** On a reachable tree, whatever GetElementsAt(px, py) returns on a
    node is returned, filtered or not, by GetElementsInRect on that node
    for every rectangle that holds the point (x <= px < x + width and
    y <= py < y + height, as the doubles compare). *)
Theorem GetElementsInRect_holds_what_GetElementsAt_returns
    (n this : nat) (px py x y width height : float) (fd : bool)
    (h : list QuadTree) (els : list nat) :
  reachable h → this < length h →
  (x <=? px)%float = true → (px <? x + width)%float = true →
  (y <=? py)%float = true → (py <? y + height)%float = true →
  GetElementsAt n this px py h = Some els →
  ∃ k l, (∀ m, k ≤ m → GetElementsInRect m this x y width height fd h = Some l) ∧
    ∀ e, e ∈ els → e ∈ l.
Proof.
  intros Hreach Hlt Hx Hx' Hy Hy' Hat.
  destruct (reachable_inv h Hreach) as [Hcl _].
  destruct (GetElementsAt_walk n this px py h els Hat)
    as [->|(leaf & tl & Hleaf & -> & Hwalk)].
  - destruct (GetElementsInRect_terminates 0 0 this x y width height fd h Hcl
                (Nat.le_0_l _) Hlt) as (k & l & Hrun).
    exists k, l. split; [intros m Hm; by eapply GetElementsInRect_mono|].
    intros e He. by apply elem_of_nil in He.
  - by apply (walk_in_rectangle h this x y width height fd px py leaf tl).
Qed.

(** ** Asking a node for an element *)

(** On a reachable tree HasElement(E) on a node is true exactly when E
    is in that node's own list. *)
Theorem HasElement_iff_in_own_list
    (this el : nat) (h : list QuadTree) (t : QuadTree) :
  reachable h → h !! this = Some t →
  HasElement this el h = Some (bool_decide (el ∈ _elements t)).
Proof.
  intros Hreach Ht. destruct (reachable_inv h Hreach) as [Hcl Hag].
  assert (Hlt : this < length h) by (by eapply lookup_lt_Some).
  rewrite (HasElement_spec 0 0 this el h Hcl (Nat.le_0_l _) Hlt).
  f_equal. apply bool_decide_ext.
  rewrite <- !count_pos, <- (Hag this el), (elements_of_lookup h this t Ht). done.
Qed.

(** On a reachable tree GetParentsForElement(E) returns on every node
    what it returns on the root, and the nodes it lists are exactly the
    nodes whose list holds E. *)
Theorem GetParentsForElement_lists_the_holders
    (this el : nat) (h : list QuadTree) :
  reachable h → this < length h →
  ∃ r, GetParentsForElement this el h = Some r ∧
    GetParentsForElement 0 el h = Some r ∧
    ∀ N, N ∈ listed r ↔ ∃ t, h !! N = Some t ∧ el ∈ _elements t.
Proof.
  intros Hreach Hlt. destruct (reachable_inv h Hreach) as [Hcl Hag].
  assert (Hlt0 : 0 < length h).
  { destruct Hcl as [(rt & m & Hrt & _) _]. by eapply lookup_lt_Some. }
  destruct (closed_owner_entry 0 0 el h Hcl) as [e He].
  exists e. unfold GetParentsForElement.
  rewrite (GetParents_nocreate_eq this el h 0 e
             (closed_rootTree 0 0 h this Hcl (Nat.le_0_l _) Hlt) He).
  rewrite (GetParents_nocreate_eq 0 el h 0 e
             (closed_rootTree 0 0 h 0 Hcl (Nat.le_0_l _) Hlt0) He).
  split; [done|]. split; [done|]. intros N.
  unfold listed. rewrite <- (owners_cases 0 el h e He).
  rewrite <- count_pos, <- (Hag N el), count_pos.
  unfold elements_of. destruct (h !! N) as [t|]; simpl.
  - split; [eauto|]. by intros (t' & [= <-] & ?).
  - split; [by intros ?%elem_of_nil|]. by intros (t' & ? & _).
Qed.

(** ** UpdateElement on the root *)

Lemma AddElement_false_elements k r fuel G this el h h' :
  closed k r h → k ≤ this → this < length h →
  AddElement fuel G this el h = Some (false, h') →
  length h' = length h ∧ ∀ a, elements_of h' a = elements_of h a.
Proof.
  intros Hcl Hk Hlt Hadd.
  destruct (lookup_lt_is_Some_2 h this Hlt) as [t Ht].
  destruct (AddElement_spec G fuel k r this el h false h' Hadd Hcl Hk Hlt)
    as (_ & _ & t0 & t' & Ht0 & _ & Hb & _).
  assert (t0 = t) as -> by congruence.
  destruct (AddElement_outside k r (fuel `max` 3) G this el h t Hcl Hk Ht
              (eq_sym Hb) ltac:(lia)) as (h2 & Hadd2 & Hg).
  pose proof (AddElement_mono fuel (fuel `max` 3) G this el h _ ltac:(lia) Hadd) as E.
  rewrite Hadd2 in E. injection E as ->.
  destruct (GetParents_create k r this el h _ h'
              (closed_rootTree k r h this Hcl Hk Hlt) Hg)
    as (_ & _ & _ & Hlen & Hels & _).
  done.
Qed.

Lemma absent_elements_of pid h h' :
  length h' = length h → (∀ a, elements_of h' a = elements_of h a) →
  absent pid h → absent pid h'.
Proof.
  intros Hlen Hels Habs a t' Ht'.
  assert (Hlt : a < length h) by (rewrite <- Hlen; by eapply lookup_lt_Some).
  destruct (lookup_lt_is_Some_2 h a Hlt) as [t Ht].
  rewrite <- (elements_of_lookup h' a t' Ht'), Hels, (elements_of_lookup h a t Ht).
  by apply (Habs a t).
Qed.

(** When UpdateElement(E) on the root of a tree that was only used
    through its root returns false, no node holds E afterwards: E was not
    in the tree, or it was taken out and its new place is outside the
    root. *)
Theorem UpdateElement_false_leaves_element_out
    (fuel : nat) (G : Elements) (el : nat) (h h' : list QuadTree) :
  root_reachable h → UpdateElement fuel G 0 el h = Some (false, h') →
  absent el h' ∧
  (h' = h ∨ ∃ rt, h' !! 0 = Some rt ∧ inside G el rt = false).
Proof.
  intros Hroot Hupd. destruct (root_reachable_inv h Hroot) as [Hreach Hrf].
  destruct (reachable_inv h Hreach) as [Hcl Hag].
  assert (Hlt : 0 < length h).
  { destruct Hcl as [(rt & m & Hrt & _) _]. by eapply lookup_lt_Some. }
  apply UpdateElement_inv in Hupd as [[Hrem _]|(h1 & Hrem & Hadd)].
  - split; [by eapply RemoveElement_root_absent|].
    left. destruct (RemoveElement_spec 0 0 0 el h Hcl Hag (Nat.le_refl _) Hlt)
      as (h2 & Hrem2 & _ & _ & _ & Hno & _).
    rewrite Hrem in Hrem2. injection Hrem2 as Hb <-.
    apply Hno. intros Hin.
    by rewrite bool_decide_eq_true_2 in Hb.
  - pose proof (RemoveElement_root_absent el h true h1 Hroot Hrem) as Habs.
    destruct (RemoveElement_soft 0 el h true h1 Hcl Hag Hlt Hrem)
      as (Hcl1 & _ & [Hlen1 _] & _).
    assert (Hlt1 : 0 < length h1) by lia.
    destruct (AddElement_false_elements 0 0 fuel G 0 el h1 h' Hcl1
                (Nat.le_refl _) Hlt1 Hadd) as [Hlen Hels].
    split; [by eapply absent_elements_of|]. right.
    destruct (AddElement_spec G fuel 0 0 0 el h1 false h' Hadd Hcl1
                (Nat.le_refl _) Hlt1)
      as (Hev & _ & t0 & t' & Ht0 & Ht' & Hb & _).
    exists t'. split; [done|].
    destruct (evolves_lookup _ _ _ _ _ _ Hev Ht0) as (t2 & Ht2 & Hs).
    assert (t2 = t') as -> by congruence.
    unfold inside in *. destruct Hs as (-> & -> & -> & -> & _). done.
Qed.

(** ** Circles and rectangles are found through their anchor *)

Lemma anchor_overlaps e px py t :
  anchor e = Some (px, py) → IsPointInBounds t px py = true →
  overlaps e t = true.
Proof.
  intros Ha Hin. unfold overlaps.
  pose proof Hin as Hin'. unfold IsPointInBounds in Hin'.
  rewrite !andb_true_iff in Hin'. destruct Hin' as [[[H1 H2] H3] H4].
  destruct e as [|ex ey|ex ey er|ex ey ew eh]; simpl in *.
  - done.
  - injection Ha as -> ->. exact Hin.
  - destruct (_ <=? _)%float eqn:Hr in Ha; [|done].
    injection Ha as -> ->.
    by rewrite (leb_ltb_false _ _ H1), (ltb_asym _ _ H3),
      (leb_ltb_false _ _ H2), (ltb_asym _ _ H4).
  - destruct (ex <? ex + ew)%float eqn:Hw; [|done].
    destruct (ey <? ey + eh)%float eqn:Hh; [|done].
    injection Ha as -> ->.
    by rewrite H3, H4, (leb_ltb_trans _ _ _ H1 Hw), (leb_ltb_trans _ _ _ H2 Hh).
Qed.

Lemma overlaps_inside G id e t : G id = e → inside G id t = overlaps e t.
Proof. intros <-. done. Qed.

Lemma overlaps_bounds e t t' : bounds t' = bounds t → overlaps e t' = overlaps e t.
Proof. unfold bounds, overlaps. by intros [= -> -> -> ->]. Qed.

Lemma elem_kept_add id e fuel G this el h b h' :
  AddElement fuel G this el h = Some (b, h') →
  el ≠ id → G id = e → this < length h →
  elem_kept id e h → elem_kept id e h'.
Proof.
  intros Hadd Hne HG Hlt (Hcl & Hag & Hq & Hcar & Hroot).
  destruct (AddElement_keeps _ _ _ _ _ _ _ _ _ Hadd Hcl Hag (Nat.le_0_l _) Hlt)
    as (Hcl' & Hag' & Hlen).
  destruct (AddElement_point G id fuel this el h b h' [] Hadd Hcl Hlt Hq)
    as (Hq' & Hcar' & Hfr); [|constructor|done|].
  { eapply carried_ext; [|exact Hcar]. intros t. symmetry. by apply overlaps_inside. }
  split; [done|]. split; [done|]. split; [done|]. split.
  { eapply carried_ext; [|exact Hcar']. intros t. by apply overlaps_inside. }
  intros rt' Hrt' Hin.
  destruct (AddElement_spec G fuel 0 0 this el h b h' Hadd Hcl (Nat.le_0_l _) Hlt)
    as (Hev & _).
  destruct Hcl as [(rt & m & Hrt & _) Hnodes].
  destruct (evolves_lookup _ _ _ _ _ _ Hev Hrt) as (rt2 & Hrt2 & Hs).
  assert (rt2 = rt') as -> by congruence.
  rewrite (overlaps_bounds _ _ _ (same_static_bounds _ _ Hs)) in Hin.
  specialize (Hfr Hne 0 ltac:(lia)).
  rewrite (elements_of_lookup _ _ _ Hrt), (elements_of_lookup _ _ _ Hrt') in Hfr.
  rewrite Hfr. by apply Hroot.
Qed.

Lemma elem_kept_remove id e this el h b h' :
  RemoveElement this el h = Some (b, h') →
  el ≠ id → this < length h →
  elem_kept id e h → elem_kept id e h'.
Proof.
  intros Hrem Hne Hlt (Hcl & Hag & Hq & Hcar & Hroot).
  destruct (RemoveElement_soft this el h b h' Hcl Hag Hlt Hrem)
    as (Hcl' & Hag' & Hsoft & Hcnt).
  assert (Hne' : id ≠ el) by congruence.
  split; [done|]. split; [done|]. split; [by eapply quartered_soft|]. split.
  { eapply carried_soft; [|exact Hsoft|exact (Hcnt id Hne')|exact Hcar].
    intros t t' Hb. by apply overlaps_bounds. }
  intros rt' Hrt' Hin.
  destruct (soft_heap_back h h' 0 rt' Hsoft Hrt') as (rt & Hrt & [Hs _ _]).
  rewrite (overlaps_bounds _ _ _ (same_static_bounds _ _ Hs)) in Hin.
  pose proof (Hcnt id Hne' 0) as Hc.
  rewrite (elements_of_lookup _ _ _ Hrt), (elements_of_lookup _ _ _ Hrt') in Hc.
  rewrite Hc. by apply Hroot.
Qed.

Lemma kept_once_kept id e h : kept_once id e h → elem_kept id e h.
Proof.
  induction 1 as [fuel G h b h' Hreach Hown HG Hadd
                 | fuel G this el h b h' _ IH Hne HG Hlt Hadd
                 | this el h b h' _ IH Hne Hlt Hrem
                 | fuel G this el h b h' _ IH Hne HG Hlt Hupd].
  - destruct (reachable_inv h Hreach) as [Hcl Hag].
    pose proof (reachable_quartered h Hreach) as Hq.
    assert (Hlt : 0 < length h).
    { destruct Hcl as [(rt & m & Hrt & _) _]. by eapply lookup_lt_Some. }
    assert (Habs : ∀ a t, h !! a = Some t → id ∉ _elements t).
    { intros a t Ht. apply count_zero.
      rewrite <- (elements_of_lookup _ _ _ Ht), (Hag a id), Hown. apply count_nil. }
    destruct (AddElement_keeps _ _ _ _ _ _ _ _ _ Hadd Hcl Hag (Nat.le_0_l _) Hlt)
      as (Hcl' & Hag' & Hlen).
    destruct (AddElement_point G id fuel 0 id h b h' [] Hadd Hcl Hlt Hq)
      as (Hq' & Hcar' & _); [by apply carried_absent|constructor| |].
    { intros _ a t Ht. exact (root_no_parent h a t Hcl Ht). }
    split; [done|]. split; [done|]. split; [done|]. split.
    { eapply carried_ext; [|exact Hcar']. intros t. by apply overlaps_inside. }
    intros rt' Hrt' Hin.
    destruct (AddElement_spec G fuel 0 0 0 id h b h' Hadd Hcl (Nat.le_0_l _) Hlt)
      as (Hev & _ & t & t' & Ht & Ht' & Hb & He).
    assert (t' = rt') as -> by congruence.
    destruct (evolves_lookup _ _ _ _ _ _ Hev Ht) as (t2 & Ht2 & Hs).
    assert (t2 = rt') as -> by congruence.
    rewrite (overlaps_bounds _ _ _ (same_static_bounds _ _ Hs)) in Hin.
    rewrite (overlaps_inside G id e t HG), Hin in Hb. subst b.
    rewrite He, count_app, count_single_eq.
    rewrite (proj2 (count_zero id (_elements t))) by eauto. done.
  - by eapply elem_kept_add.
  - by eapply elem_kept_remove.
  - apply UpdateElement_inv in Hupd as [[Hrem ->]|(h1 & Hrem & Hadd)].
    + by eapply elem_kept_remove.
    + pose proof (elem_kept_remove id e this el h true h1 Hrem Hne Hlt IH) as IH1.
      destruct IH as (Hcl & Hag & _).
      destruct (RemoveElement_soft this el h true h1 Hcl Hag Hlt Hrem)
        as (_ & _ & [Hlen _] & _).
      eapply elem_kept_add; [exact Hadd|done|done|lia|done].
Qed.

Lemma elem_kept_at_anchor id e px py h :
  elem_kept id e h → anchor e = Some (px, py) → point_kept id px py h.
Proof.
  intros (Hcl & Hag & Hq & Hcar & Hroot) Ha.
  split; [done|]. split; [done|]. split; [done|]. split.
  - intros a t c tc Ht Hc Htc Hin. apply (Hcar a t c tc Ht Hc Htc).
    by apply (anchor_overlaps e px py).
  - intros rt Hrt Hin. apply (Hroot rt Hrt). by apply (anchor_overlaps e px py).
Qed.

(** Let an element of any shape (a point, a circle, a rectangle with an
    anchor) be added once at the root of a reachable tree that does not
    hold it, and be neither moved nor removed afterwards.  If the root's
    bounds hold its anchor (the point, the centre, the top-left corner),
    GetElementsAt and GetChildAt at the anchor return on the root: when
    GetChildAt finds a leaf, GetElementsAt returns the list of that
    leaf, whose bounds hold the anchor, with the element in it exactly
    once; when GetChildAt finds none, GetElementsAt returns nothing. *)
Theorem GetElementsAt_finds_element_at_anchor
    (id : nat) (e : TreeElement) (px py : float) (h : list QuadTree) (rt : QuadTree) :
  kept_once id e h → anchor e = Some (px, py) →
  h !! 0 = Some rt → IsPointInBounds rt px py = true →
  ∃ n l r,
    (∀ m, n ≤ m → GetElementsAt m 0 px py h = Some l ∧
                   GetChildAt m 0 px py h = Some r) ∧
    point_answer h id px py l r.
Proof.
  intros Hhist Ha Hrt Hin.
  exact (point_kept_query id px py h rt
           (elem_kept_at_anchor id e px py h (kept_once_kept id e h Hhist) Ha)
           Hrt Hin).
Qed.

(** What is kept of an element at (px, py) makes every rectangle query
    that holds the point return it, once a leaf holds the point. *)
Lemma point_kept_in_rectangle
    (pid : nat) (px py x y width height : float) (fd : bool)
    (h : list QuadTree) (rt : QuadTree) (k leaf : nat) :
  point_kept pid px py h → h !! 0 = Some rt →
  IsPointInBounds rt px py = true →
  (x <=? px)%float = true → (px <? x + width)%float = true →
  (y <=? py)%float = true → (py <? y + height)%float = true →
  GetChildAt k 0 px py h = Some (Some leaf) →
  ∃ n l, (∀ m, n ≤ m → GetElementsInRect m 0 x y width height fd h = Some l) ∧
    pid ∈ l ∧ (fd = true → count pid l = 1).
Proof.
  intros Hkept Hrt Hin Hx Hx' Hy Hy' Hchild.
  destruct (point_kept_query pid px py h rt Hkept Hrt Hin)
    as (n0 & l0 & r & Hrun & Hr).
  destruct (Hrun (n0 + k) ltac:(lia)) as [Hat Hch].
  rewrite (GetChildAt_mono k (n0 + k) 0 px py h _ ltac:(lia) Hchild) in Hch.
  injection Hch as <-. destruct Hr as (Hone & tl & Hleaf & _ & _ & ->).
  destruct Hkept as (Hcl & _).
  assert (Hlt : 0 < length h) by (by eapply lookup_lt_Some).
  destruct (GetElementsAt_walk _ _ _ _ _ _ Hat)
    as [E|(leaf' & tl' & Hleaf' & E & Hwalk)].
  { rewrite E in Hone. done. }
  destruct (walk_in_rectangle h 0 x y width height fd px py leaf' tl'
              Hcl Hlt Hwalk Hleaf' Hx Hx' Hy Hy') as (n & l & Hrect & Hsub).
  exists n, l. split; [exact Hrect|].
  assert (Hmem : pid ∈ l).
  { apply Hsub. rewrite <- E. apply count_pos. lia. }
  split; [done|]. intros ->.
  destruct (GetElementsInRect_raw _ _ _ _ _ _ _ _ _ (Hrect n (Nat.le_refl _)))
    as (raw & _ & ->).
  pose proof (NoDup_first_occurrences raw) as Hnd.
  apply count_pos in Hmem.
  assert (count pid (first_occurrences raw) ≤ 1); [|lia].
  unfold count. apply (proj1 (NoDup_count_occ Nat.eq_dec _)).
  by apply NoDup_ListNoDup.
Qed.

(** Such an element is returned by every GetElementsInRect on the root
    whose rectangle holds the anchor (x <= px < x + width, y <= py <
    y + height, as the doubles compare), exactly once when duplicates
    are filtered, provided GetChildAt at the anchor finds a leaf. *)
Theorem GetElementsInRect_returns_element_anchored_in_rectangle
    (id : nat) (e : TreeElement) (px py x y width height : float) (fd : bool)
    (h : list QuadTree) (rt : QuadTree) (k leaf : nat) :
  kept_once id e h → anchor e = Some (px, py) →
  h !! 0 = Some rt → IsPointInBounds rt px py = true →
  (x <=? px)%float = true → (px <? x + width)%float = true →
  (y <=? py)%float = true → (py <? y + height)%float = true →
  GetChildAt k 0 px py h = Some (Some leaf) →
  ∃ n l, (∀ m, n ≤ m → GetElementsInRect m 0 x y width height fd h = Some l) ∧
    id ∈ l ∧ (fd = true → count id l = 1).
Proof.
  intros Hhist Ha Hrt Hin Hx Hx' Hy Hy' Hchild.
  pose proof (kept_once_kept id e h Hhist) as Hkept.
  pose proof (elem_kept_at_anchor id e px py h Hkept Ha) as Hpoint.
  exact (point_kept_in_rectangle id px py x y width height fd h rt k leaf
           Hpoint Hrt Hin Hx Hx' Hy Hy' Hchild).
Qed.

(** ** The constructor's initial elements *)

(** A root constructed by the caller with an array of initial elements
    is the first node of its heap, a root at depth 0 with the bounds,
    the capacity and the depth limit that were given, and its
    GetElements() is the array restricted to the elements that overlap
    the bounds, in order.  With a depth limit the constructor returns. *)
Theorem constructor_keeps_overlapping_initial_elements
    (G : Elements) (x y w ht : float) (mE mD : Z) (els : list nat) :
  (∀ fuel r h, new_root fuel G x y w ht mE mD els [] = Some (r, h) →
     r = 0 ∧
     ∃ rt, h !! 0 = Some rt ∧ bounds rt = (x, y, w, ht) ∧
       GetMaxElements rt = mE ∧ GetMaxDepth rt = mD ∧
       IsRoot rt = true ∧ GetDepth rt = 0%Z ∧
       GetElements rt = List.filter (λ e, IsInsideRect (G e) x y w ht) els) ∧
  ((0 <= mD)%Z →
     ∃ fuel r h, new_root fuel G x y w ht mE mD els [] = Some (r, h)).
Proof.
  set (node := root_node x y w ht mE mD).
  set (h1 := [] ++ [node]).
  set (f := λ e : nat, IsInsideRect (G e) x y w ht).
  assert (Hcl1 : closed 0 0 h1) by apply (closed_alloc_root []).
  assert (Hr1 : h1 !! 0 = Some node) by done.
  split.
  - intros fuel r h Hnew. unfold new_root in Hnew.
    apply new_QuadTree_root_inv in Hnew as (-> & Hfor).
    fold node h1 in Hfor. simpl in Hfor.
    pose (I := λ (i : nat) (h2 : list QuadTree),
      closed 0 0 h2 ∧
      ∃ tr, h2 !! 0 = Some tr ∧ same_static node tr ∧
            _elements tr = List.filter f (take i els)).
    eapply (for_live_inv I) in Hfor.
    + destruct Hfor as (i' & l & (Hcl' & tr & Htr & Hs & He) & Hl & Hi').
      injection Hl as <-.
      rewrite take_ge in He by (by apply lookup_ge_None_1).
      split; [done|]. exists tr. split; [done|].
      destruct Hs as (Hx & Hy & Hw & Hh & HmE & Hroot & Hd & Hp & HmD).
      unfold bounds, GetMaxElements, GetMaxDepth, IsRoot, GetDepth, GetElements.
      rewrite Hx, Hy, Hw, Hh, HmE, HmD, Hroot, Hd. done.
    + intros i h2 l a h3 (Hcl2 & tr & Htr & Hs & He) Hl Ha Hbody.
      injection Hl as <-.
      unfold AddElement_stmt in Hbody.
      apply bind_Some in Hbody as ([b h3'] & Hadd & Hbody). injection Hbody as ->.
      assert (Hltr : 0 < length h2) by (by eapply lookup_lt_Some).
      destruct (AddElement_spec G fuel 0 0 0 a h2 b h3 Hadd Hcl2 (Nat.le_refl _) Hltr)
        as (Hev3 & Hcl3 & t0 & t' & Ht0 & Ht' & Hb & He').
      assert (t0 = tr) as -> by congruence.
      split; [done|].
      exists t'. split; [done|].
      destruct (evolves_lookup _ _ _ _ _ _ Hev3 Htr) as (t'' & Ht'' & Hs'').
      assert (t'' = t') as -> by congruence.
      split; [by eapply same_static_trans|].
      rewrite He', He. rewrite (take_S_r _ _ _ Ha), filter_snoc.
      f_equal. rewrite Hb. unfold inside, f.
      destruct Hs as (-> & -> & -> & -> & _). done.
    + split; [done|].
      exists node. split; [done|]. split; [apply same_static_refl|done].
  - intros Hd.
    destruct (for_live_adds_terminate G (S (Z.to_nat mD)) 0 0 0 els
                (λ _, Some els) h1
                (add_of_loop G _ (loop_terminates_all G _)) ltac:(done) (Nat.le_refl _)
                (length els) 0 h1)
      as (fuel & h' & Hfor); [lia|apply evolves_refl|done| |].
    { simpl. exists node. split; [done|]. split; [done|]. simpl.
      unfold headroom. simpl. lia. }
    exists fuel, 0, h'. unfold new_root.
    by apply (new_QuadTree_root_intro _ _ _ _ _ _ _ _ _ []).
Qed.

(** When UpdateElement(E) on the root of a tree that was only used
    through its root returns true, and the root's bounds hold the anchor
    of E as it is now, GetElementsAt and GetChildAt at the anchor return
    on the root: the list of the leaf that GetChildAt finds, with E in it
    exactly once, or nothing when GetChildAt finds no leaf. *)
Theorem UpdateElement_true_element_is_found
    (fuel : nat) (G : Elements) (id : nat) (px py : float)
    (h h' : list QuadTree) (rt : QuadTree) :
  root_reachable h → anchor (G id) = Some (px, py) →
  UpdateElement fuel G 0 id h = Some (true, h') →
  h' !! 0 = Some rt → IsPointInBounds rt px py = true →
  ∃ n l r,
    (∀ m, n ≤ m → GetElementsAt m 0 px py h' = Some l ∧
                   GetChildAt m 0 px py h' = Some r) ∧
    point_answer h' id px py l r.
Proof.
  intros Hroot Ha Hupd Hrt Hin. destruct (root_reachable_inv h Hroot) as [Hreach Hrf].
  destruct (reachable_inv h Hreach) as [Hcl Hag].
  assert (Hlt : 0 < length h).
  { destruct Hcl as [(rt0 & m & Hrt0 & _) _]. by eapply lookup_lt_Some. }
  apply UpdateElement_inv in Hupd as [[_ [=]]|(h1 & Hrem & Hadd)].
  pose proof (RemoveElement_root_absent id h true h1 Hroot Hrem) as Habs.
  destruct (RemoveElement_soft 0 id h true h1 Hcl Hag Hlt Hrem)
    as (Hcl1 & Hag1 & [Hlen1 _] & _).
  assert (Honce : kept_once id (G id) h').
  { eapply (kept_add id (G id) fuel G h1 true h');
      [|by apply owners_nil_absent|done..].
    by eapply reach_RemoveElement. }
  exact (point_kept_query id px py h' rt
           (elem_kept_at_anchor id (G id) px py h'
              (kept_once_kept id (G id) h' Honce) Ha) Hrt Hin).
Qed.

(** ** AddElement and then RemoveElement *)

Lemma grown_by_refl el h : grown_by el h h.
Proof. intros a t Ht. exists t, 0. by rewrite app_nil_r. Qed.

Lemma grown_by_trans el h1 h2 h3 :
  grown_by el h1 h2 → grown_by el h2 h3 → grown_by el h1 h3.
Proof.
  intros H12 H23 a t Ht. destruct (H12 a t Ht) as (t2 & k2 & Ht2 & E2).
  destruct (H23 a t2 Ht2) as (t3 & k3 & Ht3 & E3).
  exists t3, (k2 + k3). split; [done|].
  by rewrite E3, E2, <- app_assoc, replicate_add.
Qed.

Lemma turn_grown G n el tree h h' pushed :
  AddElement_turn (AddElement n G) n G 0 el tree h = Some (Continue h' pushed) →
  closed 0 0 h → grown_by el h h'.
Proof.
  intros Hturn Hcl. apply AddElement_turn_inv in Hturn.
  assert (Hpush : ∀ h1 h2,
    elParents_push 0 el tree h = Some h1 →
    modify tree (λ t, set_elements (_elements t ++ [el]) t) h1 = Some h2 →
    closed 0 0 h2 ∧ grown_by el h h2).
  { intros h1 h2 H1 H2.
    destruct (push_step 0 0 el tree h h1 h2 H1 H2 (Nat.le_0_l _))
      as (_ & _ & _ & Hclosed & Hnodes).
    split; [by apply Hclosed|]. intros a t Ht.
    destruct (Hnodes a t Ht) as (t' & Ht' & _ & He).
    exists t', (if decide (a = tree) then 1 else 0). split; [done|].
    rewrite He. by destruct (decide (a = tree)). }
  inversion Hturn as [t Ht Hout
    | t h1 h2 t2 Ht Hin H1 H2 Ht2 Hsplit
    | t h1 h2 t2 Ht Hin H1 H2 Ht2 Hleaf Hno
    | t h1 h2 t2 cs h3 h4 Ht Hin H1 H2 Ht2 Hleaf Hmay Hsp Hlink]; subst.
  - apply grown_by_refl.
  - by destruct (Hpush h1 h' H1 H2).
  - by destruct (Hpush h1 h' H1 H2).
  - destruct (Hpush h1 h2 H1 H2) as [Hcl2 Hg2].
    eapply grown_by_trans; [exact Hg2|].
    destruct (split_children_spec G (AddElement n G) (AddElement_spec G n) 0 0 n
                tree t2 h2 cs h3 Hsp Hcl2 (Nat.le_0_l _) Ht2) as (Hev & _ & _).
    apply modify_Some in Hlink as (t3 & Ht3 & ->).
    intros a ta Hta.
    destruct (evolves_frame _ _ _ _ _ _ Hev Hta (lookup_lt_Some _ _ _ Hta))
      as (ta3 & Hta3 & _ & He3 & _).
    destruct (lookup_set_children_fwd h3 tree t3 cs a ta3 Ht3 Hta3)
      as (ta4 & Hta4 & _ & He4).
    exists ta4, 0. split; [done|]. by rewrite He4, He3, app_nil_r.
Qed.

Lemma AddElement_grown G fuel this el h b h' :
  AddElement fuel G this el h = Some (b, h') →
  closed 0 0 h → this < length h → grown_by el h h'.
Proof.
  intros Hadd Hcl Hlt.
  apply AddElement_inv in Hadd
    as (n & r & l & h1 & l' & -> & Hr & Hg & Hloop & _ & _).
  rewrite (closed_rootTree 0 0 h this Hcl (Nat.le_0_l _) Hlt) in Hr.
  injection Hr as <-.
  destruct (GetParents_create 0 0 this el h _ h1
              (closed_rootTree 0 0 h this Hcl (Nat.le_0_l _) Hlt) Hg)
    as (_ & _ & _ & Hlen & _ & Hclosed & Hnodes).
  assert (Hg1 : grown_by el h h1).
  { intros a t Ht. destruct (Hnodes a t Ht) as (t' & Ht' & _ & He).
    exists t', 0. by rewrite He, app_nil_r. }
  pose (I := λ (_ : list nat) (hc : list QuadTree),
    closed 0 0 hc ∧ grown_by el h hc).
  pose (Q := λ (res : list QuadTree + Empty_set),
    ∃ hc, res = inl hc ∧ grown_by el h hc).
  assert (HQ : Q (inl h')); [|by destruct HQ as (hc & [= <-] & ?)].
  eapply (while_pool_inv I Q); [| |exact (conj (Hclosed 0 0 Hcl) Hg1)|exact Hloop].
  - intros rest tree hc res [Hclc Hgc] Hbody.
    destruct (turn_spec G (AddElement n G) (AddElement_spec G n) 0 0 n el tree hc _
                Hbody Hclc (Nat.le_0_l _))
      as (h2 & pushed & t & t' & -> & _ & Hcl2 & _).
    split; [done|]. eapply grown_by_trans; [exact Hgc|]. by eapply turn_grown.
  - intros hc [_ Hgc]. by exists hc.
Qed.

Lemma without_replicate el k : without el (replicate k el) = [].
Proof.
  induction k as [|k IH]; [done|]. simpl. unfold without in *. simpl.
  by rewrite Nat.eqb_refl.
Qed.

(** Adding an element that the tree does not hold and removing it again,
    both on the root, leaves the list of every node that was there as it
    was, and the element in no node; RemoveElement returns what
    AddElement returned.  A split that the insertion made is not undone. *)
Theorem AddElement_then_RemoveElement_restores_lists
    (G : Elements) (fuel el : nat) (h h1 h2 : list QuadTree) (b b2 : bool) :
  reachable h → owners h 0 el = [] →
  AddElement fuel G 0 el h = Some (b, h1) →
  RemoveElement 0 el h1 = Some (b2, h2) →
  b2 = b ∧ absent el h2 ∧
  (∀ a t, h !! a = Some t →
     ∃ t2, h2 !! a = Some t2 ∧ _elements t2 = _elements t) ∧
  (∀ a t1, h1 !! a = Some t1 →
     ∃ t2, h2 !! a = Some t2 ∧ _children t2 = _children t1).
Proof.
  intros Hreach Hown Hadd Hrem.
  destruct (reachable_inv h Hreach) as [Hcl Hag].
  assert (Hlt : 0 < length h).
  { destruct Hcl as [(rt & m & Hrt & _) _]. by eapply lookup_lt_Some. }
  assert (Habs : absent el h) by (by apply owners_nil_absent).
  destruct (AddElement_keeps _ _ _ _ _ _ _ _ _ Hadd Hcl Hag (Nat.le_0_l _) Hlt)
    as (Hcl1 & Hag1 & Hlen1).
  pose proof (AddElement_grown G fuel 0 el h b h1 Hadd Hcl Hlt) as Hgrown.
  destruct (AddElement_spec G fuel 0 0 0 el h b h1 Hadd Hcl (Nat.le_0_l _) Hlt)
    as (_ & _ & t & t' & Ht & Ht' & Hb & He).
  destruct (RemoveElement_spec 0 0 0 el h1 Hcl1 Hag1 (Nat.le_refl _) ltac:(lia))
    as (h2' & Hrem' & _ & _ & Hlen2 & Hno & Hyes).
  rewrite Hrem in Hrem'. injection Hrem' as -> <-.
  destruct b.
  - assert (Hin : 0 ∈ owners h1 0 el).
    { apply count_pos. rewrite <- (Hag1 0 el), (elements_of_lookup _ _ _ Ht'), He.
      rewrite count_app, count_single_eq. lia. }
    destruct (Hyes Hin) as (_ & _ & Hnodes).
    split; [by rewrite bool_decide_eq_true_2|]. split; [|split].
    + intros a t2 Ht2.
      assert (Ha : a < length h1) by (rewrite <- Hlen2; by eapply lookup_lt_Some).
      destruct (lookup_lt_is_Some_2 h1 a Ha) as [t1 Ht1].
      destruct (Hnodes a t1 Ht1) as (t2' & Ht2' & _ & He2).
      assert (t2' = t2) as -> by congruence. rewrite He2.
      apply count_zero, count_without_eq.
    + intros a t0 Ht0. destruct (Hgrown a t0 Ht0) as (t1 & k & Ht1 & He1).
      destruct (Hnodes a t1 Ht1) as (t2 & Ht2 & _ & He2).
      exists t2. split; [done|].
      rewrite He2, He1, without_app, without_replicate, app_nil_r.
      apply without_id, count_zero. by apply (Habs a t0).
    + intros a t1 Ht1. destruct (Hnodes a t1 Ht1) as (t2 & Ht2 & [_ Hc _] & _).
      eauto.
  - destruct (AddElement_false_elements 0 0 fuel G 0 el h h1 Hcl (Nat.le_refl _)
                Hlt Hadd) as [Hlen Hels].
    assert (Habs1 : absent el h1) by (by eapply absent_elements_of).
    assert (Hnin : 0 ∉ owners h1 0 el).
    { intros Hin. apply count_pos in Hin. rewrite <- (Hag1 0 el) in Hin.
      apply count_pos in Hin. rewrite (elements_of_lookup _ _ _ Ht') in Hin.
      by apply (Habs1 0 t'). }
    rewrite (Hno Hnin). split; [by rewrite bool_decide_eq_false_2|].
    split; [done|]. split; [|eauto].
    intros a t0 Ht0. destruct (Hgrown a t0 Ht0) as (t1 & k & Ht1 & He1).
    exists t1. split; [done|].
    pose proof (Hels a) as E.
    by rewrite (elements_of_lookup _ _ _ Ht0), (elements_of_lookup _ _ _ Ht1) in E.
Qed.

(** ** RemoveElement and UpdateElement on any node *)

(** On a reachable tree RemoveElement(E) on a node returns whether that
    node's own list holds E.  If it does not, nothing changes, whatever
    other nodes hold, and UpdateElement(E) on the node returns false
    without a change as well; if it does, E is removed from the list of
    every node of the tree, and no split is undone. *)
Theorem RemoveElement_on_any_node
    (this el : nat) (h : list QuadTree) (t : QuadTree) :
  reachable h → h !! this = Some t →
  ∃ h', RemoveElement this el h = Some (bool_decide (el ∈ _elements t), h') ∧
    (el ∉ _elements t →
       h' = h ∧ ∀ fuel G, UpdateElement fuel G this el h = Some (false, h)) ∧
    (el ∈ _elements t →
       absent el h' ∧
       ∀ N tN, h !! N = Some tN →
         ∃ t', h' !! N = Some t' ∧ _elements t' = without el (_elements tN) ∧
               _children t' = _children tN).
Proof.
  intros Hreach Ht. destruct (reachable_inv h Hreach) as [Hcl Hag].
  assert (Hlt : this < length h) by (by eapply lookup_lt_Some).
  destruct (RemoveElement_spec 0 0 this el h Hcl Hag (Nat.le_0_l _) Hlt)
    as (h' & Hrem & _ & _ & Hlen & Hno & Hyes).
  assert (Hiff : this ∈ owners h 0 el ↔ el ∈ _elements t).
  { by rewrite <- !count_pos, <- (Hag this el), (elements_of_lookup h this t Ht). }
  exists h'. split; [|split].
  - rewrite Hrem. do 2 f_equal. by apply bool_decide_ext.
  - intros Hnin. assert (Hnot : this ∉ owners h 0 el) by (by rewrite Hiff).
    specialize (Hno Hnot). subst h'. split; [done|].
    intros fuel G. unfold UpdateElement. rewrite Hrem. simpl.
    by rewrite bool_decide_eq_false_2.
  - intros Hin. destruct (Hyes (proj2 Hiff Hin)) as (_ & _ & Hnodes). split.
    + intros a t2 Ht2.
      assert (Ha : a < length h) by (rewrite <- Hlen; by eapply lookup_lt_Some).
      destruct (lookup_lt_is_Some_2 h a Ha) as [t1 Ht1].
      destruct (Hnodes a t1 Ht1) as (t2' & Ht2' & _ & He2).
      assert (t2' = t2) as -> by congruence. rewrite He2.
      apply count_zero, count_without_eq.
    + intros N tN HtN. destruct (Hnodes N tN HtN) as (t' & Ht' & [_ Hc _] & He).
      eauto.
Qed.

(** ** The elements the demo draws have a last parent *)

(** On a reachable tree, for every element that GetElementsInRect on the
    root returns, GetParentsForElement on the root returns an array that
    is not empty, and its last entry, which the demo page reads, is a
    node whose list holds the element. *)
Theorem returned_element_has_last_parent
    (n : nat) (x y width height : float) (fd : bool) (h : list QuadTree)
    (l : list nat) (e : nat) :
  reachable h → GetElementsInRect n 0 x y width height fd h = Some l → e ∈ l →
  ∃ parents N tN,
    GetParentsForElement 0 e h = Some (Some parents) ∧
    lastParent parents = Some N ∧
    h !! N = Some tN ∧ e ∈ _elements tN.
Proof.
  intros Hreach Hrun He. destruct (reachable_inv h Hreach) as [Hcl Hag].
  assert (Hlt0 : 0 < length h).
  { destruct Hcl as [(rt & m & Hrt & _) _]. by eapply lookup_lt_Some. }
  destruct (GetElementsInRect_sound _ _ _ _ _ _ _ _ _ Hrun e He)
    as (a & ta & Hta & _ & _ & Hin).
  destruct (closed_owner_entry 0 0 e h Hcl) as [entry Hentry].
  assert (Hholders : ∀ N, N ∈ owners h 0 e ↔ ∃ t, h !! N = Some t ∧ e ∈ _elements t).
  { intros N. rewrite <- count_pos, <- (Hag N e), count_pos.
    unfold elements_of. destruct (h !! N) as [t|]; simpl.
    - split; [eauto|]. by intros (t' & [= <-] & ?).
    - split; [by intros ?%elem_of_nil|]. by intros (t' & ? & _). }
  assert (Ha : a ∈ owners h 0 e) by (apply Hholders; eauto).
  rewrite (owners_cases 0 e h entry Hentry) in Ha, Hholders.
  destruct entry as [parents|]; simpl in *; [|by apply elem_of_nil in Ha].
  destruct (last parents) as [N|] eqn:Hlast.
  - destruct (proj1 (Hholders N)) as (tN & HtN & HinN).
    { apply last_Some in Hlast as [l' ->]. apply elem_of_app. right. by left. }
    exists parents, N, tN. split; [|done].
    unfold GetParentsForElement.
    by rewrite (GetParents_nocreate_eq 0 e h 0 (Some parents)
                  (closed_rootTree 0 0 h 0 Hcl (Nat.le_0_l _) Hlt0) Hentry).
  - apply last_None in Hlast. subst parents. by apply elem_of_nil in Ha.
Qed.

(** ** The first version: what [AddElement] keeps *)

Lemma old_static_refl t : old_static t t.
Proof. by repeat split. Qed.

Lemma old_static_trans t1 t2 t3 :
  old_static t1 t2 → old_static t2 t3 → old_static t1 t3.
Proof. unfold old_static. intros ? ?. intuition congruence. Qed.

Lemma old_inside_static G el t t' :
  old_static t t' → old_inside G el t' = old_inside G el t.
Proof. unfold old_inside. intros (-> & -> & -> & -> & _). done. Qed.

Lemma old_ev_refl k h : old_ev k h h.
Proof.
  split; [done|]. intros a t Ht. exists t. split; [done|].
  split; [apply old_static_refl|]. split; [done|]. split; [done|].
  exists []. by rewrite app_nil_r.
Qed.

Lemma old_ev_trans k1 k2 h1 h2 h3 :
  old_ev k1 h1 h2 → old_ev k2 h2 h3 → old_ev (k1 `min` k2) h1 h3.
Proof.
  intros [L1 N1] [L2 N2]. split; [lia|]. intros a t Ht.
  destruct (N1 a t Ht) as (t2 & Ht2 & S1 & F1 & C1 & m1 & E1).
  destruct (N2 a t2 Ht2) as (t3 & Ht3 & S2 & F2 & C2 & m2 & E2).
  exists t3. split; [done|]. split; [by eapply old_static_trans|].
  split; [intros Hlt; rewrite F2, F1 by lia; done|].
  split.
  - intros Hne. rewrite C2; [by apply C1|]. by rewrite C1.
  - exists (m1 ++ m2). by rewrite E2, E1, app_assoc.
Qed.

Lemma old_ev_weaken k k' h h' : k' ≤ k → old_ev k h h' → old_ev k' h h'.
Proof.
  intros Hk [L N]. split; [done|]. intros a t Ht.
  destruct (N a t Ht) as (t' & Ht' & S1 & F1 & Hrest).
  exists t'. split; [done|]. split; [done|]. split; [|done].
  intros Hlt. apply F1. lia.
Qed.

Lemma old_claimed_refl G k s : old_claimed G k s s.
Proof. split; [done|]. intros x a Hx. by left. Qed.

Lemma old_claimed_trans G k k2 k' s1 s2 s3 :
  old_claimed G k s1 s2 → old_claimed G k' s2 s3 →
  old_ev k2 (Old.nodes s2) (Old.nodes s3) → k ≤ k' →
  old_claimed G k s1 s3.
Proof.
  intros [M1 C1] [M2 C2] [_ N] Hk. split; [intros x Hx; by apply M2, M1|].
  intros x a Hx. destruct (C2 x a Hx) as [Hold|(Hle & ta & Hta & Hin & Hins)].
  - destruct (C1 x a Hold) as [?|(Hle & ta & Hta & Hin & Hins)]; [by left|].
    right. split; [done|].
    destruct (N a ta Hta) as (ta' & Hta' & Hs & _ & _ & more & He).
    exists ta'. split; [done|]. split; [rewrite He; set_solver|].
    by rewrite (old_inside_static G x ta ta' Hs).
  - right. split; [lia|]. eauto.
Qed.

Lemma old_claim_step G k k2 k' el s2 s3 :
  old_claim G k el s2 → old_claimed G k' s2 s3 →
  old_ev k2 (Old.nodes s2) (Old.nodes s3) → k ≤ k' →
  old_claim G k el s3.
Proof.
  intros (a & ta & Hp & Hle & Hta & Hin & Hins) [M C] [_ N] Hk.
  destruct (M el (mk_is_Some _ _ Hp)) as [a' Hp'].
  destruct (C el a' Hp') as [Hold|(Hle' & ta' & Hta' & Hin' & Hins')].
  - assert (a' = a) as -> by congruence.
    destruct (N a ta Hta) as (ta' & Hta' & Hs & _ & _ & more & He).
    exists a, ta'. split; [done|]. split; [done|]. split; [done|].
    split; [rewrite He; set_solver|].
    by rewrite (old_inside_static G el ta ta' Hs).
  - exists a', ta'. split; [done|]. split; [lia|]. done.
Qed.

Lemma old_modify_Some a f s s' :
  Old.modify a f s = Some s' →
  ∃ t, Old.nodes s !! a = Some t ∧
       s' = Old.mkStore (<[a := f t]> (Old.nodes s)) (Old.parent s).
Proof.
  unfold Old.modify. intros H. apply bind_Some in H as (t & Ht & [= <-]). eauto.
Qed.

Lemma old_for_live_inv {A} (I : nat → Old.Store → Prop)
    (arr : Old.Store → option (list A))
    (body : A → Old.Store → option Old.Store) :
  (∀ i s l a s', I i s → arr s = Some l → l !! i = Some a →
     body a s = Some s' → I (S i) s') →
  ∀ n i s s', I i s → Old.for_live n arr body i s = Some s' → ∃ i', I i' s'.
Proof.
  intros Hstep. induction n as [|n IH]; intros i s s' HI; [done|].
  simpl. destruct (arr s) as [l|] eqn:Earr; [|done]. simpl.
  destruct (l !! i) as [a|] eqn:El.
  - destruct (body a s) as [s1|] eqn:Eb; [|done]. simpl.
    apply IH. by eapply Hstep.
  - intros [= <-]. eauto.
Qed.

Lemma old_node_ok_move h h' a t t' :
  old_node_ok h a t →
  Old._children t' = Old._children t → Old._root t' = Old._root t →
  Old._depth t' = Old._depth t → Old._maxDepth t' = Old._maxDepth t →
  (∀ c tc, h !! c = Some tc → ∃ tc', h' !! c = Some tc' ∧ old_static tc tc') →
  old_node_ok h' a t'.
Proof.
  intros (Hcs & Hsplit & Hroot & Hdepth) Ec Er Ed Em Hnodes.
  unfold old_node_ok. rewrite Ec, Er, Ed, Em.
  split; [|done].
  eapply Forall_impl; [exact Hcs|]. simpl.
  intros c (Hlt & tc & Htc & Hp & Hd & Hm). split; [done|].
  destruct (Hnodes c tc Htc) as (tc' & Htc' & Hs).
  destruct Hs as (_ & _ & _ & _ & _ & _ & Hd' & Hp' & Hm').
  exists tc'. rewrite Hd', Hp', Hm'. done.
Qed.

(** Pushing [el] on the node [this] and claiming it. *)
Lemma old_push_step G this el s t s2 :
  old_wf s → Old.nodes s !! this = Some t → old_inside G el t = true →
  Old.modify this (λ t, Old.set_elements (Old._elements t ++ [el]) t)
    (Old.set_parent el this s) = Some s2 →
  old_wf s2 ∧ old_ev this (Old.nodes s) (Old.nodes s2) ∧
  old_ev (S this) (Old.nodes s2) (Old.nodes s2) ∧
  old_claimed G this s s2 ∧ old_claim G this el s2 ∧
  Old.nodes s2 !! this = Some (Old.set_elements (Old._elements t ++ [el]) t).
Proof.
  intros [Hnodes Hpar] Ht Hin Hm.
  apply old_modify_Some in Hm as (t0 & Ht0 & ->). simpl in *.
  assert (t0 = t) as -> by congruence.
  assert (Hlt : this < length (Old.nodes s)) by (by eapply lookup_lt_Some).
  set (t2 := Old.set_elements (Old._elements t ++ [el]) t).
  assert (Hlook : ∀ a ta, Old.nodes s !! a = Some ta →
    ∃ ta', <[this := t2]> (Old.nodes s) !! a = Some ta' ∧ old_static ta ta' ∧
      Old._children ta' = Old._children ta ∧ (a ≠ this → ta' = ta) ∧
      ∃ more, Old._elements ta' = Old._elements ta ++ more).
  { intros a ta Hta. destruct (decide (a = this)) as [->|Hne].
    - assert (ta = t) as -> by congruence. exists t2.
      rewrite list_lookup_insert_eq by done.
      split; [done|]. split; [by repeat split|]. split; [done|].
      split; [done|]. by exists [el].
    - exists ta. rewrite list_lookup_insert_ne by done.
      split; [done|]. split; [apply old_static_refl|]. split; [done|].
      split; [done|]. exists []. by rewrite app_nil_r. }
  assert (Hinside2 : old_inside G el t2 = true) by done.
  split; [split|].
  - simpl. intros a ta' Hta'.
    assert (Ha : a < length (Old.nodes s)).
    { apply lookup_lt_Some in Hta'. by rewrite length_insert in Hta'. }
    destruct (lookup_lt_is_Some_2 _ _ Ha) as [ta Hta].
    destruct (Hlook a ta Hta) as (ta2 & Hta2 & Hs & Hc & _).
    assert (ta2 = ta') as -> by congruence.
    destruct Hs as (_ & _ & _ & _ & _ & Hr & Hd & _ & HmD).
    apply (old_node_ok_move (Old.nodes s) _ a ta ta'); [by apply Hnodes|done..|].
    intros c tc Htc. destruct (Hlook c tc Htc) as (tc' & ? & ? & _). eauto.
  - simpl. intros x a Hx. destruct (decide (x = el)) as [->|Hne].
    + rewrite lookup_insert_eq in Hx. injection Hx as <-.
      exists t2. rewrite list_lookup_insert_eq by done.
      split; [done|]. simpl. set_solver.
    + rewrite lookup_insert_ne in Hx by done.
      destruct (Hpar x a Hx) as (ta & Hta & Hxin).
      destruct (Hlook a ta Hta) as (ta' & Hta' & _ & _ & _ & more & He).
      exists ta'. split; [done|]. rewrite He. set_solver.
  - split; [split|].
    + simpl. by rewrite length_insert.
    + intros a ta Hta. destruct (Hlook a ta Hta) as (ta' & Hta' & Hs & Hc & Hsame & He).
      exists ta'. split; [done|]. split; [done|].
      split; [intros Hlt'; apply Hsame; lia|]. split; [done|done].
    + split; [apply old_ev_refl|]. split; [split|split].
      * simpl. intros x [a Hx]. destruct (decide (x = el)) as [->|Hne].
        -- rewrite lookup_insert_eq. eauto.
        -- rewrite lookup_insert_ne by done. eauto.
      * simpl. intros x a Hx. destruct (decide (x = el)) as [->|Hne].
        -- rewrite lookup_insert_eq in Hx. injection Hx as <-. right.
           split; [done|]. exists t2. rewrite list_lookup_insert_eq by done.
           split; [done|]. split; [simpl; set_solver|done].
        -- rewrite lookup_insert_ne in Hx by done. by left.
      * exists this, t2. simpl. rewrite lookup_insert_eq.
        rewrite list_lookup_insert_eq by done.
        split; [done|]. split; [done|]. split; [done|].
        split; [simpl; set_solver|done].
      * simpl. by rewrite list_lookup_insert_eq.
Qed.

Lemma old_claimed_weaken G k k' s s' :
  k' ≤ k → old_claimed G k s s' → old_claimed G k' s s'.
Proof.
  intros Hk [M C]. split; [done|]. intros x a Hx.
  destruct (C x a Hx) as [?|(Hle & Hrest)]; [by left|]. right. split; [lia|done].
Qed.

Lemma old_claimed_same G k s s' :
  Old.parent s' = Old.parent s → old_claimed G k s s'.
Proof. intros E. split; [by rewrite E|]. intros x a Hx. left. by rewrite <- E. Qed.

Lemma old_claim_weaken G k k' el s : k' ≤ k → old_claim G k el s → old_claim G k' el s.
Proof.
  intros Hk (a & ta & Hp & Hle & Hrest). exists a, ta. split; [done|]. split; [lia|done].
Qed.

Lemma old_new_child_inv add n x y w ht mE mD arr p s c s' :
  Old.new_QuadTree add n x y w ht mE mD arr (Some p) s = Some (c, s') →
  p < length (Old.nodes s) →
  ∃ pt, Old.nodes s !! p = Some pt ∧ c = length (Old.nodes s) ∧
    Old.for_live n (λ s, pt ← Old.nodes s !! p; Some (Old._elements pt))
      (Old.AddElement_stmt add (length (Old.nodes s))) 0
      (Old.mkStore (Old.nodes s ++ [old_child_node x y w ht mE mD p pt])
                   (Old.parent s)) = Some s'.
Proof.
  unfold Old.new_QuadTree. intros H Hp.
  apply bind_Some in H as (pt & Hpt & H).
  apply bind_Some in H as (s1 & Hs1 & H).
  apply bind_Some in H as (s2 & Hs2 & H). injection H as <- <-.
  simpl in Hpt. rewrite lookup_app_l in Hpt by done.
  exists pt. split; [done|]. split; [done|].
  apply old_modify_Some in Hs1 as (t & Ht & ->). simpl in Ht.
  rewrite lookup_app_r, Nat.sub_diag in Ht by done. injection Ht as <-.
  simpl in Hs2.
  replace (<[length (Old.nodes s) := _]> _)
    with (Old.nodes s ++ [old_child_node x y w ht mE mD p pt]) in Hs2; [done|].
  symmetry. rewrite insert_app_r_alt, Nat.sub_diag by done. done.
Qed.

Lemma old_new_root_inv add n x y w ht mE mD arr s c s' :
  Old.new_QuadTree add n x y w ht mE mD arr None s = Some (c, s') →
  c = length (Old.nodes s) ∧
  Old.for_live n arr (Old.AddElement_stmt add (length (Old.nodes s))) 0
    (Old.mkStore (Old.nodes s ++ [old_root_node x y w ht mE mD])
                 (Old.parent s)) = Some s'.
Proof.
  unfold Old.new_QuadTree. intros H.
  apply bind_Some in H as (s1 & Hs1 & H). by injection H as <- <-.
Qed.

Lemma old_alloc_step G k s node :
  old_wf s → Old._children node = [] → Old._elements node = [] →
  (Old._root node = None ↔ length (Old.nodes s) = 0) →
  ((0 <= Old._maxDepth node)%Z →
     (0 <= Old._depth node <= Old._maxDepth node)%Z) →
  old_wf (Old.mkStore (Old.nodes s ++ [node]) (Old.parent s)) ∧
  old_ev k (Old.nodes s) (Old.nodes s ++ [node]) ∧
  old_claimed G k s (Old.mkStore (Old.nodes s ++ [node]) (Old.parent s)).
Proof.
  intros [Hnodes Hpar] Hc He Hr Hd.
  assert (Hkeep : ∀ c tc, Old.nodes s !! c = Some tc →
    ∃ tc', (Old.nodes s ++ [node]) !! c = Some tc' ∧ old_static tc tc').
  { intros c tc Htc. exists tc. split; [by apply lookup_app_l_Some|apply old_static_refl]. }
  split; [split|split].
  - simpl. intros a t Ht. apply lookup_app_Some in Ht as [Ht|[Hge Ht]].
    + by apply (old_node_ok_move (Old.nodes s) _ a t t); [apply Hnodes|..].
    + apply list_lookup_singleton_Some in Ht as [Ha <-].
      assert (a = length (Old.nodes s)) as -> by lia.
      unfold old_node_ok. rewrite Hc. split; [constructor|]. split; [done|]. done.
  - simpl. intros x a Hx. destruct (Hpar x a Hx) as (ta & Hta & Hin).
    exists ta. split; [by apply lookup_app_l_Some|done].
  - split; [rewrite length_app; lia|]. intros a t Ht. exists t.
    split; [by apply lookup_app_l_Some|]. split; [apply old_static_refl|].
    split; [done|]. split; [done|]. exists []. by rewrite app_nil_r.
  - by apply old_claimed_same.
Qed.

Section OldMaster.
Variable G : Elements.
Variable n : nat.
Hypothesis IHn : old_add_spec G n.

(** The loop of a constructor: [AddElement] on the new node [c], for
    whatever elements the array holds. *)
Lemma old_ctor_loop arr c s1 s' :
  Old.for_live n arr (Old.AddElement_stmt (Old.AddElement n G) c) 0 s1 = Some s' →
  old_wf s1 →
  old_wf s' ∧ old_ev c (Old.nodes s1) (Old.nodes s') ∧ old_claimed G c s1 s'.
Proof.
  intros Hfor Hwf.
  pose (I := λ (_ : nat) (s2 : Old.Store),
    old_wf s2 ∧ old_ev c (Old.nodes s1) (Old.nodes s2) ∧ old_claimed G c s1 s2).
  eapply (old_for_live_inv I) in Hfor as [i0 HI]; [exact HI| |].
  - intros i s2 l a s3 (Hwf2 & Hev2 & Hcl2) _ _ Hbody.
    unfold Old.AddElement_stmt in Hbody.
    apply bind_Some in Hbody as ([b s3'] & Hadd & Hbody). injection Hbody as ->.
    destruct (IHn c a s2 b s3 Hadd Hwf2) as (t & Ht & Hb & Hpost).
    destruct b; [|by subst].
    destruct Hpost as (Hwf3 & Hev3 & Hcl3 & _ & _).
    split; [done|]. split.
    + replace c with (c `min` c) by lia. by eapply old_ev_trans.
    + by eapply (old_claimed_trans G c c c).
  - split; [done|]. split; [apply old_ev_refl|apply old_claimed_refl].
Qed.

Lemma old_ctor_spec x y w ht mE arr p pt s c s' :
  Old.new_QuadTree (Old.AddElement n G) n x y w ht mE (Old._maxDepth pt) arr
    (Some p) s = Some (c, s') →
  old_wf s → Old.nodes s !! p = Some pt →
  (Old._maxDepth pt < 0)%Z ∨ (Old._depth pt < Old._maxDepth pt)%Z →
  c = length (Old.nodes s) ∧ old_wf s' ∧
  old_ev c (Old.nodes s) (Old.nodes s') ∧ old_claimed G c s s' ∧
  ∃ tc, Old.nodes s' !! c = Some tc ∧
        old_static (old_child_node x y w ht mE (Old._maxDepth pt) p pt) tc.
Proof.
  intros Hnew Hwf Hpt Hmay.
  assert (Hp : p < length (Old.nodes s)) by (by eapply lookup_lt_Some).
  apply old_new_child_inv in Hnew as (pt' & Hpt' & -> & Hfor); [|done].
  assert (pt' = pt) as -> by congruence.
  set (node := old_child_node x y w ht mE (Old._maxDepth pt) p pt) in *.
  set (c := length (Old.nodes s)) in *.
  destruct (old_alloc_step G c s node Hwf eq_refl eq_refl) as (Hwf1 & Hev1 & Hcl1).
  { simpl. split; [done|]. fold c. lia. }
  { simpl. destruct Hwf as [Hnodes _].
    destruct (Hnodes p pt Hpt) as (_ & _ & _ & Hd). lia. }
  destruct (old_ctor_loop _ c _ s' Hfor Hwf1) as (Hwf' & Hev' & Hcl').
  split; [done|]. split; [done|]. split.
  { replace c with (c `min` c) by lia. by eapply old_ev_trans. }
  split; [eapply (old_claimed_trans G c c c); [exact Hcl1|exact Hcl'|exact Hev'|lia]|].
  destruct Hev' as [_ N]. simpl in N.
  destruct (N c node) as (tc & Htc & Hs & _).
  { rewrite lookup_app_r, Nat.sub_diag by done. done. }
  eauto.
Qed.

(** The loop of [AddElement] over the children of a split node. *)
Lemma old_children_loop this el s2 s' t2 :
  Old.for_live n (λ s, t ← Old.nodes s !! this; Some (Old._children t))
    (λ c, Old.AddElement_stmt (Old.AddElement n G) c el) 0 s2 = Some s' →
  old_wf s2 → Old.nodes s2 !! this = Some t2 →
  old_wf s' ∧ old_ev (S this) (Old.nodes s2) (Old.nodes s') ∧
  old_claimed G (S this) s2 s'.
Proof.
  intros Hfor Hwf Ht2.
  pose (I := λ (_ : nat) (s3 : Old.Store),
    old_wf s3 ∧ old_ev (S this) (Old.nodes s2) (Old.nodes s3) ∧
    old_claimed G (S this) s2 s3).
  eapply (old_for_live_inv I) in Hfor as [i0 HI]; [exact HI| |].
  - intros i s3 l c s4 (Hwf3 & Hev3 & Hcl3) Hl Hc Hbody.
    apply bind_Some in Hl as (t3 & Ht3 & [= <-]).
    assert (Hlt : this < c).
    { destruct Hwf3 as [Hnodes _]. destruct (Hnodes this t3 Ht3) as (Hcs & _).
      rewrite Forall_forall in Hcs.
      by destruct (Hcs c (list_elem_of_lookup_2 _ _ _ Hc)). }
    unfold Old.AddElement_stmt in Hbody.
    apply bind_Some in Hbody as ([b s4'] & Hadd & Hbody). injection Hbody as ->.
    destruct (IHn c el s3 b s4 Hadd Hwf3) as (t & Ht & Hb & Hpost).
    destruct b; [|by subst].
    destruct Hpost as (Hwf4 & Hev4 & Hcl4 & _ & _).
    split; [done|]. split.
    + replace (S this) with (S this `min` c) by lia. by eapply old_ev_trans.
    + eapply (old_claimed_trans G (S this) c c); [done|done|done|lia].
  - split; [done|]. split; [apply old_ev_refl|apply old_claimed_refl].
Qed.

End OldMaster.

Lemma old_may_split_true t :
  Old.may_split t = true ↔
  ((Old._maxDepth t < 0)%Z ∨ (Old._depth t < Old._maxDepth t)%Z) ∧
  (Old._maxElements t <= Z.of_nat (length (Old._elements t)))%Z.
Proof.
  unfold Old.may_split. rewrite andb_true_iff, orb_true_iff, !Z.ltb_lt, Z.leb_le.
  tauto.
Qed.

Lemma old_IsSplit_leaf t : Old.IsSplit t = false ↔ Old._children t = [].
Proof.
  unfold Old.IsSplit. destruct (Old._children t); simpl; split; done.
Qed.

(** Linking the four children that the constructors made. *)
Lemma old_link_step G this t3 cs s s' :
  Old.modify this (Old.set_children cs) s = Some s' →
  old_wf s → Old.nodes s !! this = Some t3 → Old._children t3 = [] →
  (Old._maxDepth t3 < 0)%Z ∨ (Old._depth t3 < Old._maxDepth t3)%Z →
  Forall (λ c, this < c ∧ ∃ tc, Old.nodes s !! c = Some tc ∧
                 Old._parent tc = Some this ∧
                 Old._depth tc = (Old._depth t3 + 1)%Z ∧
                 Old._maxDepth tc = Old._maxDepth t3) cs →
  old_wf s' ∧ old_ev this (Old.nodes s) (Old.nodes s') ∧
  old_claimed G this s s' ∧
  Old.nodes s' !! this = Some (Old.set_children cs t3).
Proof.
  intros Hm [Hnodes Hpar] Ht3 Hleaf Hmay Hcs.
  apply old_modify_Some in Hm as (t0 & Ht0 & ->). simpl.
  assert (t0 = t3) as -> by congruence.
  assert (Hlt : this < length (Old.nodes s)) by (by eapply lookup_lt_Some).
  set (t4 := Old.set_children cs t3).
  assert (Hlook : ∀ a ta, Old.nodes s !! a = Some ta →
    ∃ ta', <[this := t4]> (Old.nodes s) !! a = Some ta' ∧ old_static ta ta' ∧
      Old._elements ta' = Old._elements ta ∧ (a ≠ this → ta' = ta)).
  { intros a ta Hta. destruct (decide (a = this)) as [->|Hne].
    - assert (ta = t3) as -> by congruence. exists t4.
      rewrite list_lookup_insert_eq by done. by repeat split.
    - exists ta. rewrite list_lookup_insert_ne by done.
      split; [done|]. split; [apply old_static_refl|]. done. }
  assert (Hkeep : ∀ c tc, Old.nodes s !! c = Some tc →
    ∃ tc', <[this := t4]> (Old.nodes s) !! c = Some tc' ∧ old_static tc tc').
  { intros c tc Htc. destruct (Hlook c tc Htc) as (tc' & ? & ? & _). eauto. }
  split; [split|split; [split|split]].
  - simpl. intros a ta' Hta'. destruct (decide (a = this)) as [->|Hne].
    + rewrite list_lookup_insert_eq in Hta' by done. injection Hta' as <-.
      destruct (Hnodes this t3 Ht3) as (_ & _ & Hr & Hd).
      split; [|done]. simpl.
      eapply Forall_impl; [exact Hcs|]. simpl.
      intros c (Hc & tc & Htc & Hp & Hdc & Hmc). split; [done|].
      destruct (Hkeep c tc Htc) as (tc' & Htc' & Hs).
      destruct Hs as (_ & _ & _ & _ & _ & _ & Hd' & Hp' & Hm').
      exists tc'. rewrite Hd', Hp', Hm'. done.
    + rewrite list_lookup_insert_ne in Hta' by done.
      by apply (old_node_ok_move (Old.nodes s) _ a ta' ta'); [apply Hnodes|..].
  - simpl. intros x a Hx. destruct (Hpar x a Hx) as (ta & Hta & Hin).
    destruct (Hlook a ta Hta) as (ta' & Hta' & _ & He & _).
    exists ta'. by rewrite He.
  - by rewrite length_insert.
  - intros a ta Hta. destruct (Hlook a ta Hta) as (ta' & Hta' & Hs & He & Hsame).
    exists ta'. split; [done|]. split; [done|].
    split; [intros Ha; apply Hsame; lia|]. split.
    + intros Hne. destruct (decide (a = this)) as [->|Hne'].
      * assert (ta = t3) as -> by congruence. done.
      * by rewrite (Hsame Hne').
    + exists []. by rewrite app_nil_r.
  - by apply old_claimed_same.
  - by rewrite list_lookup_insert_eq.
Qed.

Lemma old_AddElement_spec G n : old_add_spec G n.
Proof.
  induction n as [|n IH]; intros this el s b s' Hadd Hwf; [done|].
  simpl in Hadd.
  apply bind_Some in Hadd as (t & Ht & Hadd).
  fold (old_inside G el t) in Hadd.
  exists t. split; [done|].
  destruct (old_inside G el t) eqn:Hin; simpl in Hadd.
  2:{ by injection Hadd as <- <-. }
  apply bind_Some in Hadd as (s2 & Hs2 & Hadd).
  destruct (old_push_step G this el s t s2 Hwf Ht Hin Hs2)
    as (Hwf2 & Hev2 & _ & Hcl2 & Hclaim2 & Ht2).
  rewrite Ht2 in Hadd. simpl in Hadd.
  set (t2 := Old.set_elements (Old._elements t ++ [el]) t) in *.
  destruct (Old.IsSplit t2) eqn:Hsplit.
  - apply bind_Some in Hadd as (s3 & Hfor & Hadd). injection Hadd as <- <-.
    destruct (old_children_loop G n IH this el s2 s3 t2 Hfor Hwf2 Ht2)
      as (Hwf3 & Hev3 & Hcl3).
    split; [done|]. split; [done|]. split.
    { replace this with (this `min` S this) by lia. by eapply old_ev_trans. }
    split.
    { eapply (old_claimed_trans G this (S this) (S this)); [done|done|done|lia]. }
    split.
    { eapply (old_claim_step G this (S this) (S this)); [done|done|done|lia]. }
    destruct Hev3 as [_ N]. destruct (N this t2 Ht2) as (t3 & Ht3 & _ & Hsame & _).
    exists t3. split; [done|]. rewrite (Hsame (Nat.lt_succ_diag_r _)).
    split; [done|]. intros Hleaf.
    assert (Old.IsSplit t2 = false) by (by apply old_IsSplit_leaf). congruence.
  - apply old_IsSplit_leaf in Hsplit.
    destruct (Old.may_split t2) eqn:Hmay.
    2:{ injection Hadd as <- <-. split; [done|]. split; [done|].
        split; [done|]. split; [done|]. split; [done|]. exists t2.
        split; [done|]. split; [done|]. intros _.
        rewrite (proj2 (old_IsSplit_leaf t2) Hsplit). done. }
    apply old_may_split_true in Hmay as [Hdepth _].
    apply bind_Some in Hadd as ([c0 g1] & E0 & Hadd).
    apply bind_Some in Hadd as ([c1 g2] & E1 & Hadd).
    apply bind_Some in Hadd as ([c2 g3] & E2 & Hadd).
    apply bind_Some in Hadd as ([c3 g4] & E3 & Hadd).
    apply bind_Some in Hadd as (s5 & Hlink & Hadd). injection Hadd as <- <-.
    assert (Hstep : ∀ x y w ht arr sa c sb,
      Old.new_QuadTree (Old.AddElement n G) n x y w ht (Old._maxElements t2)
        (Old._maxDepth t2) arr (Some this) sa = Some (c, sb) →
      old_wf sa → Old.nodes sa !! this = Some t2 →
      old_ev (S this) (Old.nodes s2) (Old.nodes sa) →
      old_claimed G (S this) s2 sa →
      this < c ∧ c = length (Old.nodes sa) ∧
      old_wf sb ∧ Old.nodes sb !! this = Some t2 ∧
      old_ev (S this) (Old.nodes s2) (Old.nodes sb) ∧
      old_claimed G (S this) s2 sb ∧
      old_ev c (Old.nodes sa) (Old.nodes sb) ∧
      ∃ tc, Old.nodes sb !! c = Some tc ∧ Old._parent tc = Some this ∧
            Old._depth tc = (Old._depth t2 + 1)%Z ∧
            Old._maxDepth tc = Old._maxDepth t2).
    { intros x y w ht arr sa c sb E Hwfa Hta Heva Hcla.
      destruct (old_ctor_spec G n IH x y w ht _ arr this t2 sa c sb E Hwfa Hta Hdepth)
        as (-> & Hwfb & Hevb & Hclb & tc & Htc & Hs).
      assert (Hlt : this < length (Old.nodes sa)) by (by eapply lookup_lt_Some).
      split; [done|]. split; [done|]. split; [done|]. split.
      { destruct Hevb as [_ N]. destruct (N this t2 Hta) as (tb & Htb & _ & Hsame & _).
        by rewrite (Hsame Hlt) in Htb. }
      split.
      { replace (S this) with (S this `min` length (Old.nodes sa)) by lia.
        by eapply old_ev_trans. }
      split.
      { eapply (old_claimed_trans G (S this) _ (length (Old.nodes sa)));
          [done|done|done|lia]. }
      split; [done|].
      destruct Hs as (_ & _ & _ & _ & _ & _ & Hd & Hp & Hm).
      exists tc. by rewrite Hd, Hp, Hm. }
    destruct (Hstep _ _ _ _ _ _ _ _ E0 Hwf2 Ht2 (old_ev_refl _ _) (old_claimed_refl _ _ _))
      as (L0 & A0 & W1 & T1 & V1 & C1 & F1 & K0).
    destruct (Hstep _ _ _ _ _ _ _ _ E1 W1 T1 V1 C1)
      as (L1 & A1 & W2 & T2 & V2 & C2 & F2 & K1).
    destruct (Hstep _ _ _ _ _ _ _ _ E2 W2 T2 V2 C2)
      as (L2 & A2 & W3 & T3 & V3 & C3 & F3 & K2).
    destruct (Hstep _ _ _ _ _ _ _ _ E3 W3 T3 V3 C3)
      as (L3 & A3 & W4 & T4 & V4 & C4 & F4 & K3).
    assert (Hcarry : ∀ c (sa sb : Old.Store) k,
      (∃ tc, Old.nodes sa !! c = Some tc ∧ Old._parent tc = Some this ∧
             Old._depth tc = (Old._depth t2 + 1)%Z ∧
             Old._maxDepth tc = Old._maxDepth t2) →
      old_ev k (Old.nodes sa) (Old.nodes sb) →
      ∃ tc, Old.nodes sb !! c = Some tc ∧ Old._parent tc = Some this ∧
            Old._depth tc = (Old._depth t2 + 1)%Z ∧
            Old._maxDepth tc = Old._maxDepth t2).
    { intros c sa sb k (tc & Htc & Hp & Hd & Hm) [_ N].
      destruct (N c tc Htc) as (tc' & Htc' & Hs & _).
      destruct Hs as (_ & _ & _ & _ & _ & _ & Hd' & Hp' & Hm').
      exists tc'. by rewrite Hd', Hp', Hm'. }
    destruct (old_link_step G this t2 [c0; c1; c2; c3] g4 s5 Hlink W4 T4 Hsplit Hdepth)
      as (Hwf5 & Hev5 & Hcl5 & Ht5).
    { repeat (apply Forall_cons; split); [| | | |constructor].
      - split; [done|]. eapply Hcarry; [|exact F4]. eapply Hcarry; [|exact F3].
        eapply Hcarry; [|exact F2]. exact K0.
      - split; [done|]. eapply Hcarry; [|exact F4]. eapply Hcarry; [|exact F3].
        exact K1.
      - split; [done|]. eapply Hcarry; [|exact F4]. exact K2.
      - split; [done|]. exact K3. }
    assert (Hev25 : old_ev this (Old.nodes s2) (Old.nodes s5)).
    { replace this with (S this `min` this) by lia. by eapply old_ev_trans. }
    split; [done|]. split; [done|]. split.
    { replace this with (this `min` this) by lia. by eapply old_ev_trans. }
    assert (Hcl25 : old_claimed G this s2 s5).
    { eapply (old_claimed_trans G this this this); [|done|done|lia].
      by eapply old_claimed_weaken; [|exact C4]; lia. }
    split.
    { eapply (old_claimed_trans G this this this); [done|done|done|lia]. }
    split.
    { eapply (old_claim_step G this this this); [done|done|done|lia]. }
    eexists. split; [exact Ht5|]. split; [done|]. intros _. done.
Qed.

(** ** The first version: reachable trees, and termination *)

Lemma old_wf_empty : old_wf (Old.mkStore [] ∅).
Proof. split; [by intros a t ?|by intros x a ?]. Qed.

Lemma old_new_root_wf fuel G x y w ht mE mD els s :
  Old.new_root fuel G x y w ht mE mD els (Old.mkStore [] ∅) = Some (0, s) →
  old_wf s.
Proof.
  unfold Old.new_root. intros H. apply old_new_root_inv in H as (_ & Hfor).
  simpl in Hfor.
  destruct (old_alloc_step G 0 (Old.mkStore [] ∅) (old_root_node x y w ht mE mD)
              old_wf_empty eq_refl eq_refl) as (Hwf1 & _ & _).
  { done. }
  { simpl. lia. }
  by destruct (old_ctor_loop G fuel (old_AddElement_spec G fuel) _ 0 _ s Hfor Hwf1).
Qed.

Lemma old_reachable_wf s : old_reachable s → old_wf s.
Proof.
  induction 1 as [fuel G x y w ht mE mD els s Hnew
                 | fuel G this el s b s' Hreach Hwf Hadd].
  - by eapply old_new_root_wf.
  - destruct (old_AddElement_spec G fuel this el s b s' Hadd Hwf)
      as (t & _ & _ & Hpost).
    destruct b; [by destruct Hpost|by subst].
Qed.

Lemma old_for_live_mono {A} (arr : Old.Store → option (list A))
    (body body' : A → Old.Store → option Old.Store) :
  (∀ a s r, body a s = Some r → body' a s = Some r) →
  ∀ n n' i s r, n ≤ n' →
    Old.for_live n arr body i s = Some r → Old.for_live n' arr body' i s = Some r.
Proof.
  intros Hb. induction n as [|n IH]; intros n' i s r Hn H; [done|].
  destruct n' as [|n']; [lia|]. simpl in *.
  destruct (arr s) as [l|]; [|done]. simpl in *.
  destruct (l !! i) as [a|]; [|done].
  destruct (body a s) as [s1|] eqn:Eb; [|done]. simpl in H.
  rewrite (Hb a s s1 Eb). simpl. apply IH; [lia|done].
Qed.

Lemma old_stmt_mono add add' :
  (∀ this el s r, add this el s = Some r → add' this el s = Some r) →
  ∀ c a s r, Old.AddElement_stmt add c a s = Some r →
             Old.AddElement_stmt add' c a s = Some r.
Proof.
  intros Hadd c a s r H. unfold Old.AddElement_stmt in *.
  apply bind_Some in H as ([b s1] & E & H). by rewrite (Hadd _ _ _ _ E).
Qed.

Lemma old_new_QuadTree_mono add add' :
  (∀ this el s r, add this el s = Some r → add' this el s = Some r) →
  ∀ n n' x y w ht mE mD arr p s r, n ≤ n' →
    Old.new_QuadTree add n x y w ht mE mD arr p s = Some r →
    Old.new_QuadTree add' n' x y w ht mE mD arr p s = Some r.
Proof.
  intros Hadd n n' x y w ht mE mD arr p s r Hn H.
  unfold Old.new_QuadTree in *. destruct p as [p|].
  - apply bind_Some in H as (pt & Hpt & H). rewrite Hpt. simpl.
    apply bind_Some in H as (s1 & Hs1 & H). rewrite Hs1. simpl.
    apply bind_Some in H as (s2 & Hs2 & H).
    rewrite (old_for_live_mono _ _ _ (old_stmt_mono add add' Hadd _) n n' _ _ _ Hn Hs2).
    done.
  - apply bind_Some in H as (s2 & Hs2 & H).
    rewrite (old_for_live_mono _ _ _ (old_stmt_mono add add' Hadd _) n n' _ _ _ Hn Hs2).
    done.
Qed.

Lemma old_AddElement_mono G : ∀ fuel fuel' this el s r,
  fuel ≤ fuel' →
  Old.AddElement fuel G this el s = Some r →
  Old.AddElement fuel' G this el s = Some r.
Proof.
  induction fuel as [|fuel IH]; intros fuel' this el s r Hle H; [done|].
  destruct fuel' as [|fuel']; [lia|].
  assert (Hadd : ∀ this el s r, Old.AddElement fuel G this el s = Some r →
                     Old.AddElement fuel' G this el s = Some r).
  { intros. apply (IH fuel'); [lia|done]. }
  simpl in *.
  apply bind_Some in H as (t & Ht & H). rewrite Ht. simpl.
  destruct (negb _); [done|].
  apply bind_Some in H as (s2 & Hs2 & H). rewrite Hs2. simpl.
  apply bind_Some in H as (t2 & Ht2 & H). rewrite Ht2. simpl.
  destruct (Old.IsSplit t2).
  { apply bind_Some in H as (s3 & Hs3 & H).
    erewrite old_for_live_mono; [exact H| |exact (le_S_n _ _ Hle)|exact Hs3].
    intros a s0 r0. apply old_stmt_mono, Hadd. }
  destruct (Old.may_split t2); [|done].
  apply bind_Some in H as ([c0 g1] & E0 & H).
  rewrite (old_new_QuadTree_mono _ _ Hadd fuel fuel' _ _ _ _ _ _ _ _ _ _
             (le_S_n _ _ Hle) E0). simpl.
  apply bind_Some in H as ([c1 g2] & E1 & H).
  rewrite (old_new_QuadTree_mono _ _ Hadd fuel fuel' _ _ _ _ _ _ _ _ _ _
             (le_S_n _ _ Hle) E1). simpl.
  apply bind_Some in H as ([c2 g3] & E2 & H).
  rewrite (old_new_QuadTree_mono _ _ Hadd fuel fuel' _ _ _ _ _ _ _ _ _ _
             (le_S_n _ _ Hle) E2). simpl.
  apply bind_Some in H as ([c3 g4] & E3 & H).
  rewrite (old_new_QuadTree_mono _ _ Hadd fuel fuel' _ _ _ _ _ _ _ _ _ _
             (le_S_n _ _ Hle) E3). simpl.
  done.
Qed.

Lemma old_headroom_static t t' : old_static t t' → old_headroom t' = old_headroom t.
Proof. intros (_ & _ & _ & _ & _ & _ & Hd & _ & Hm). unfold old_headroom. by rewrite Hd, Hm. Qed.

(** A loop of [AddElement] calls on nodes with at most [m] levels left
    comes to its end, when the array it walks stays as it is. *)
Lemma old_loop_terminates G m {A} (arr : Old.Store → option (list A))
    (node elem : A → nat) (L : list A) (k : nat) (s0 : Old.Store) :
  old_terminates G m →
  (∀ s, old_ev k (Old.nodes s0) (Old.nodes s) → arr s = Some L) →
  Forall (λ a, k ≤ node a ∧ ∃ tc, Old.nodes s0 !! node a = Some tc ∧
                 (0 <= Old._maxDepth tc)%Z ∧ old_headroom tc ≤ m) L →
  ∀ d i s, length L - i ≤ d → old_wf s →
    old_ev k (Old.nodes s0) (Old.nodes s) →
    ∃ f s', Old.for_live f arr
              (λ a, Old.AddElement_stmt (Old.AddElement f G) (node a) (elem a)) i s
            = Some s' ∧
      old_wf s' ∧ old_ev k (Old.nodes s0) (Old.nodes s').
Proof.
  intros IHm Harr HL. induction d as [|d IH]; intros i s Hd Hwf Hev.
  - exists 1, s. simpl. rewrite (Harr s Hev). simpl.
    rewrite lookup_ge_None_2 by lia. done.
  - destruct (L !! i) as [a|] eqn:Ha.
    2:{ exists 1, s. simpl. rewrite (Harr s Hev). simpl. by rewrite Ha. }
    rewrite Forall_forall in HL.
    destruct (HL a (list_elem_of_lookup_2 _ _ _ Ha)) as (Hk & tc & Htc & HmD & Hhr).
    destruct Hev as [Hlen N].
    destruct (N _ tc Htc) as (tc' & Htc' & Hs & _).
    destruct (IHm (node a) (elem a) s tc' Hwf Htc') as (f1 & b & s1 & Hadd).
    { destruct Hs as (_ & _ & _ & _ & _ & _ & _ & _ & ->). done. }
    { by rewrite (old_headroom_static tc tc' Hs). }
    destruct (old_AddElement_spec G f1 _ _ s b s1 Hadd Hwf) as (t & Ht & _ & Hpost).
    assert (Hwf1 : old_wf s1 ∧ old_ev k (Old.nodes s0) (Old.nodes s1)).
    { destruct b; [|subst; by split].
      destruct Hpost as (Hwf1 & Hev1 & _). split; [done|].
      replace k with (k `min` node a) by lia.
      by eapply old_ev_trans; [split|]. }
    destruct Hwf1 as [Hwf1 Hev1].
    destruct (IH (S i) s1 ltac:(lia) Hwf1 Hev1) as (f2 & s' & Hfor & Hwf' & Hev').
    exists (S (f1 `max` f2)), s'. split; [|done].
    pose proof (old_AddElement_mono G f1 (S (f1 `max` f2)) _ _ _ _ ltac:(lia) Hadd)
      as Hadd'.
    assert (Hmono : ∀ this el s r, Old.AddElement f2 G this el s = Some r →
              Old.AddElement (S (f1 `max` f2)) G this el s = Some r).
    { intros this el s3 r3. apply old_AddElement_mono. lia. }
    set (add := Old.AddElement (S (f1 `max` f2)) G) in *.
    simpl. rewrite (Harr s (conj Hlen N)). simpl. rewrite Ha.
    assert (Hb : Old.AddElement_stmt add (node a) (elem a) s = Some s1).
    { unfold Old.AddElement_stmt. by rewrite Hadd'. }
    rewrite Hb. simpl.
    eapply old_for_live_mono; [|exact (Nat.le_max_r f1 f2)|exact Hfor].
    intros a0 s2 r. by apply old_stmt_mono.
Qed.

Lemma old_new_child_intro add n x y w ht mE mD arr p s pt s' :
  Old.nodes s !! p = Some pt →
  Old.for_live n (λ s, pt ← Old.nodes s !! p; Some (Old._elements pt))
    (Old.AddElement_stmt add (length (Old.nodes s))) 0
    (Old.mkStore (Old.nodes s ++ [old_child_node x y w ht mE mD p pt])
                 (Old.parent s)) = Some s' →
  Old.new_QuadTree add n x y w ht mE mD arr (Some p) s
  = Some (length (Old.nodes s), s').
Proof.
  intros Hpt Hfor. unfold Old.new_QuadTree. simpl.
  assert (Hp : p < length (Old.nodes s)) by (by eapply lookup_lt_Some).
  rewrite lookup_app_l, Hpt by done. simpl.
  unfold Old.modify. simpl.
  rewrite lookup_app_r, Nat.sub_diag by done. simpl.
  rewrite insert_app_r_alt, Nat.sub_diag by done. simpl.
  unfold old_child_node in Hfor. unfold Old.set_root_depth. simpl.
  by rewrite Hfor.
Qed.

Lemma old_ctor_terminates G m x y w ht mE arr p pt s :
  old_terminates G m → old_wf s → Old.nodes s !! p = Some pt →
  (0 <= Old._maxDepth pt)%Z → (Old._depth pt < Old._maxDepth pt)%Z →
  old_headroom pt ≤ S m →
  ∃ f c s', Old.new_QuadTree (Old.AddElement f G) f x y w ht mE
              (Old._maxDepth pt) arr (Some p) s = Some (c, s').
Proof.
  intros IHm Hwf Hpt HmD Hd Hhr.
  assert (Hp : p < length (Old.nodes s)) by (by eapply lookup_lt_Some).
  set (node := old_child_node x y w ht mE (Old._maxDepth pt) p pt).
  set (c := length (Old.nodes s)).
  set (s1 := Old.mkStore (Old.nodes s ++ [node]) (Old.parent s)).
  assert (Hrange : (0 <= Old._depth pt)%Z).
  { destruct Hwf as [Hnodes _]. destruct (Hnodes p pt Hpt) as (_ & _ & _ & Hr). lia. }
  destruct (old_alloc_step G c s node Hwf eq_refl eq_refl) as (Hwf1 & _ & _).
  { simpl. split; [done|]. fold c. lia. }
  { simpl. lia. }
  fold s1 in Hwf1.
  destruct (old_loop_terminates G m
              (λ s, pt ← Old.nodes s !! p; Some (Old._elements pt))
              (λ _, c) (λ a, a) (Old._elements pt) c s1 IHm) with
    (d := length (Old._elements pt)) (i := 0) (s := s1)
    as (f & s' & Hfor & _).
  - intros s2 [_ N]. destruct (N p pt) as (pt' & Hpt' & _ & Hsame & _).
    { simpl. by apply lookup_app_l_Some. }
    rewrite Hpt'. simpl. by rewrite (Hsame Hp).
  - apply Forall_forall. intros a _. split; [done|]. exists node.
    split; [simpl; by rewrite lookup_app_r, Nat.sub_diag|].
    split; [done|]. unfold old_headroom in *. simpl. lia.
  - lia.
  - done.
  - apply old_ev_refl.
  - exists f, c, s'.
    apply (old_new_child_intro _ _ _ _ _ _ _ _ _ _ _ pt); [exact Hpt|exact Hfor].
Qed.

Lemma old_terminates_all G : ∀ m, old_terminates G m.
Proof.
  intros m. induction m as [m IHm] using lt_wf_ind.
  intros this el s t Hwf Ht HmD Hhr.
  destruct (old_inside G el t) eqn:Hin.
  2:{ exists 1, false, s. simpl. rewrite Ht. simpl.
      fold (old_inside G el t). by rewrite Hin. }
  set (t2 := Old.set_elements (Old._elements t ++ [el]) t).
  set (s2 := Old.mkStore (<[this := t2]> (Old.nodes s)) (<[el := this]> (Old.parent s))).
  assert (Hs2 : Old.modify this
                  (λ t, Old.set_elements (Old._elements t ++ [el]) t)
                  (Old.set_parent el this s) = Some s2).
  { unfold Old.modify. simpl. by rewrite Ht. }
  destruct (old_push_step G this el s t s2 Hwf Ht Hin Hs2)
    as (Hwf2 & Hev2 & _ & _ & _ & Ht2).
  assert (Hstart : ∀ f r,
    (t2' ← Old.nodes s2 !! this;
     if Old.IsSplit t2' then
       s3 ← Old.for_live f (λ s, t ← Old.nodes s !! this; Some (Old._children t))
              (λ c, Old.AddElement_stmt (Old.AddElement f G) c el) 0 s2;
       Some (true, s3)
     else if Old.may_split t2' then
       let halfWidth := (Old._width t2' / 2)%float in
       let halfHeight := (Old._height t2' / 2)%float in
       let noElements := fun _ : Old.Store => Some [] in
       '(c0, s) ← Old.new_QuadTree (Old.AddElement f G) f (Old._x t2') (Old._y t2')
                    halfWidth halfHeight (Old._maxElements t2') (Old._maxDepth t2')
                    noElements (Some this) s2;
       '(c1, s) ← Old.new_QuadTree (Old.AddElement f G) f
                    (Old._x t2' + halfWidth)%float (Old._y t2')
                    halfWidth halfHeight (Old._maxElements t2') (Old._maxDepth t2')
                    noElements (Some this) s;
       '(c2, s) ← Old.new_QuadTree (Old.AddElement f G) f
                    (Old._x t2') (Old._y t2' + halfHeight)%float
                    halfWidth halfHeight (Old._maxElements t2') (Old._maxDepth t2')
                    noElements (Some this) s;
       '(c3, s) ← Old.new_QuadTree (Old.AddElement f G) f
                    (Old._x t2' + halfWidth)%float (Old._y t2' + halfHeight)%float
                    halfWidth halfHeight (Old._maxElements t2') (Old._maxDepth t2')
                    noElements (Some this) s;
       s ← Old.modify this (Old.set_children [c0; c1; c2; c3]) s;
       Some (true, s)
     else Some (true, s2)) = Some r →
    Old.AddElement (S f) G this el s = Some r).
  { intros f r H. simpl. rewrite Ht. simpl. fold (old_inside G el t).
    rewrite Hin. simpl. rewrite Hs2. simpl. exact H. }
  destruct Hwf as [Hnodes Hpar].
  destruct (Hnodes this t Ht) as (Hcs & Hmay & _ & Hrange).
  destruct (Old.IsSplit t2) eqn:Hsplit.
  - assert (Hne : Old._children t ≠ []).
    { intros E. apply (proj2 (old_IsSplit_leaf t2)) in E. congruence. }
    destruct (Hmay Hne) as [?|Hlt]; [lia|].
    destruct m as [|m]; [unfold old_headroom in Hhr; lia|].
    destruct (old_loop_terminates G m
                (λ s, t ← Old.nodes s !! this; Some (Old._children t))
                (λ c, c) (λ _, el) (Old._children t) (S this) s2 (IHm m (Nat.lt_succ_diag_r m)))
      with (d := length (Old._children t)) (i := 0) (s := s2)
      as (f & s' & Hfor & _).
    + intros s3 [_ N]. destruct (N this t2 Ht2) as (t3 & Ht3 & _ & Hsame & _).
      rewrite Ht3. simpl. by rewrite (Hsame (Nat.lt_succ_diag_r _)).
    + eapply Forall_impl; [exact Hcs|]. simpl.
      intros c (Hc & tc & Htc & _ & Hd & Hm). split; [lia|].
      destruct Hev2 as [_ N]. destruct (N c tc Htc) as (tc' & Htc' & Hs & _).
      exists tc'. split; [done|].
      destruct Hs as (_ & _ & _ & _ & _ & _ & Hd' & _ & Hm').
      unfold old_headroom in *. rewrite Hd', Hm', Hd, Hm. lia.
    + lia.
    + done.
    + apply old_ev_refl.
    + exists (S f), true, s'. apply Hstart. rewrite Ht2.
      cbn [mbind option_bind]. fold t2. rewrite Hsplit. by rewrite Hfor.
  - destruct (Old.may_split t2) eqn:Hms.
    2:{ exists 1, true, s2. apply Hstart. rewrite Ht2.
        cbn [mbind option_bind]. fold t2. by rewrite Hsplit, Hms. }
    pose proof Hms as Hms'.
    apply old_may_split_true in Hms' as [[?|Hlt] _]; [simpl in *; lia|].
    simpl in Hlt.
    destruct m as [|m]; [unfold old_headroom in Hhr; lia|].
    pose proof (IHm m (Nat.lt_succ_diag_r m)) as IH.
    assert (Hstep : ∀ x y w ht sa,
      old_wf sa → Old.nodes sa !! this = Some t2 →
      ∃ f c sb,
        Old.new_QuadTree (Old.AddElement f G) f x y w ht (Old._maxElements t2)
          (Old._maxDepth t2) (λ _, Some []) (Some this) sa = Some (c, sb) ∧
        old_wf sb ∧ Old.nodes sb !! this = Some t2).
    { intros x y w ht sa Hwfa Hta.
      destruct (old_ctor_terminates G m x y w ht (Old._maxElements t2)
                  (λ _, Some []) this t2 sa IH Hwfa Hta)
        as (f & c & sb & Hnew); [done|done|unfold old_headroom in *; simpl; lia|].
      exists f, c, sb. split; [done|].
      destruct (old_ctor_spec G f (old_AddElement_spec G f) x y w ht _ _ this t2
                  sa c sb Hnew Hwfa Hta (or_intror Hlt))
        as (-> & Hwfb & [_ N] & _).
      split; [done|]. destruct (N this t2 Hta) as (tb & Htb & _ & Hsame & _).
      rewrite Htb. f_equal. apply Hsame. by eapply lookup_lt_Some. }
    destruct (Hstep (Old._x t2) (Old._y t2) (Old._width t2 / 2)%float
                (Old._height t2 / 2)%float s2 Hwf2 Ht2)
      as (f0 & c0 & g1 & E0 & W1 & T1).
    destruct (Hstep (Old._x t2 + Old._width t2 / 2)%float (Old._y t2)
                (Old._width t2 / 2)%float (Old._height t2 / 2)%float g1 W1 T1)
      as (f1 & c1 & g2 & E1 & W2 & T2).
    destruct (Hstep (Old._x t2) (Old._y t2 + Old._height t2 / 2)%float
                (Old._width t2 / 2)%float (Old._height t2 / 2)%float g2 W2 T2)
      as (f2 & c2 & g3 & E2 & W3 & T3).
    destruct (Hstep (Old._x t2 + Old._width t2 / 2)%float
                (Old._y t2 + Old._height t2 / 2)%float
                (Old._width t2 / 2)%float (Old._height t2 / 2)%float g3 W3 T3)
      as (f3 & c3 & g4 & E3 & W4 & T4).
    set (F := ((f0 `max` f1) `max` f2) `max` f3).
    assert (Hup : ∀ f x y w ht sa r, f ≤ F →
      Old.new_QuadTree (Old.AddElement f G) f x y w ht (Old._maxElements t2)
        (Old._maxDepth t2) (λ _, Some []) (Some this) sa = Some r →
      Old.new_QuadTree (Old.AddElement F G) F x y w ht (Old._maxElements t2)
        (Old._maxDepth t2) (λ _, Some []) (Some this) sa = Some r).
    { intros f x y w ht sa r Hf. apply old_new_QuadTree_mono; [|done].
      intros a e s3 r3. by apply old_AddElement_mono. }
    exists (S F), true,
      (Old.mkStore (<[this := Old.set_children [c0; c1; c2; c3] t2]> (Old.nodes g4))
                   (Old.parent g4)).
    apply Hstart. rewrite Ht2. cbn [mbind option_bind]. fold t2. rewrite Hsplit, Hms.
    cbv zeta.
    rewrite (Hup f0 _ _ _ _ _ _ ltac:(unfold F; lia) E0). cbn [mbind option_bind].
    rewrite (Hup f1 _ _ _ _ _ _ ltac:(unfold F; lia) E1). cbn [mbind option_bind].
    rewrite (Hup f2 _ _ _ _ _ _ ltac:(unfold F; lia) E2). cbn [mbind option_bind].
    rewrite (Hup f3 _ _ _ _ _ _ ltac:(unfold F; lia) E3). cbn [mbind option_bind].
    unfold Old.modify. rewrite T4. done.
Qed.

(** ** The first version: what a caller can rely on *)

(** In the first version IsRoot() answers the wrong way round: on a
    reachable tree it is false on the node the caller constructed and
    true on every other node. *)
Theorem old_IsRoot_is_inverted (s : Old.Store) (a : nat) (t : Old.QuadTree) :
  old_reachable s → Old.nodes s !! a = Some t →
  Old.IsRoot t = negb (bool_decide (a = 0)).
Proof.
  intros Hreach Ht. destruct (old_reachable_wf s Hreach) as [Hnodes _].
  destruct (Hnodes a t Ht) as (_ & _ & Hroot & _).
  unfold Old.IsRoot. destruct (decide (a = 0)) as [->|Hne].
  - rewrite bool_decide_eq_true_2 by done. by rewrite (proj2 Hroot eq_refl).
  - rewrite bool_decide_eq_false_2 by done.
    destruct (Old._root t); [done|]. by destruct Hne; apply Hroot.
Qed.

(** In the first version, too, no node of a reachable tree lies deeper
    than a depth limit maxDepth >= 0, a split node lies strictly above
    the limit, and every child lies one level deeper than its node and
    names it as its parent. *)
Theorem old_depth_stays_within_limit (s : Old.Store) (a : nat) (t : Old.QuadTree) :
  old_reachable s → Old.nodes s !! a = Some t →
  ((0 <= Old.GetMaxDepth t)%Z →
     (0 <= Old.GetDepth t <= Old.GetMaxDepth t)%Z) ∧
  (Old.IsSplit t = true →
     (Old.GetMaxDepth t < 0)%Z ∨ (Old.GetDepth t < Old.GetMaxDepth t)%Z) ∧
  (∀ c, c ∈ Old._children t →
     ∃ tc, Old.nodes s !! c = Some tc ∧ Old.GetParent tc = Some a ∧
           Old.GetDepth tc = (Old.GetDepth t + 1)%Z).
Proof.
  intros Hreach Ht. destruct (old_reachable_wf s Hreach) as [Hnodes _].
  destruct (Hnodes a t Ht) as (Hcs & Hsplit & _ & Hrange).
  split; [done|]. split.
  - intros Hs. apply Hsplit. intros E.
    apply (proj2 (old_IsSplit_leaf t)) in E. congruence.
  - intros c Hc. rewrite Forall_forall in Hcs.
    destruct (Hcs c Hc) as (_ & tc & Htc & Hp & Hd & _). eauto.
Qed.

(** The first version's AddElement on a node of a reachable tree returns
    whether the element overlaps the node.  When it returns false nothing
    has changed, not even the element's parent field; when it returns
    true the element was appended to the node's list, and its parent
    field is a node at or after this one that holds the element and
    overlaps it. *)
Theorem old_AddElement_claims_element
    (G : Elements) (fuel this el : nat) (s : Old.Store) (b : bool) (s' : Old.Store) :
  old_reachable s → Old.AddElement fuel G this el s = Some (b, s') →
  ∃ t, Old.nodes s !! this = Some t ∧
    b = IsInsideRect (G el) (Old._x t) (Old._y t) (Old._width t) (Old._height t) ∧
    (b = false → s' = s) ∧
    (b = true →
       (∃ t', Old.nodes s' !! this = Some t' ∧
              Old.GetElements t' = Old.GetElements t ++ [el]) ∧
       ∃ a ta, Old.parent s' !! el = Some a ∧ this ≤ a ∧
         Old.nodes s' !! a = Some ta ∧ el ∈ Old.GetElements ta ∧
         IsInsideRect (G el) (Old._x ta) (Old._y ta) (Old._width ta)
           (Old._height ta) = true).
Proof.
  intros Hreach Hadd. pose proof (old_reachable_wf s Hreach) as Hwf.
  destruct (old_AddElement_spec G fuel this el s b s' Hadd Hwf)
    as (t & Ht & Hb & Hpost).
  exists t. split; [done|]. split; [done|]. destruct b.
  - split; [done|]. intros _.
    destruct Hpost as (_ & _ & _ & Hclaim & t' & Ht' & He & _).
    split; [by exists t'|]. exact Hclaim.
  - split; [done|]. done.
Qed.

(** On a reachable tree of the first version the parent field of an
    element, once set, is always a node whose list holds the element. *)
Theorem old_parent_holds_the_element (s : Old.Store) (el a : nat) :
  old_reachable s → Old.parent s !! el = Some a →
  ∃ ta, Old.nodes s !! a = Some ta ∧ el ∈ Old.GetElements ta.
Proof.
  intros Hreach Hp. destruct (old_reachable_wf s Hreach) as [_ Hpar].
  by apply Hpar.
Qed.

(** The first version splits a leaf as soon as its list reaches
    maxElements: after AddElement on a leaf of a reachable tree the node
    is split, into four children, exactly when the element overlaps it,
    the depth limit allows it and the list, the new element counted, has
    at least maxElements entries. *)
Theorem old_leaf_splits_at_capacity
    (G : Elements) (fuel this el : nat) (s : Old.Store) (t : Old.QuadTree)
    (b : bool) (s' : Old.Store) :
  old_reachable s → Old.nodes s !! this = Some t → Old.IsSplit t = false →
  Old.AddElement fuel G this el s = Some (b, s') →
  ∃ t', Old.nodes s' !! this = Some t' ∧
    (Old.IsSplit t' = true ↔
       IsInsideRect (G el) (Old._x t) (Old._y t) (Old._width t) (Old._height t)
         = true ∧
       ((Old._maxDepth t < 0)%Z ∨ (Old._depth t < Old._maxDepth t)%Z) ∧
       (Old._maxElements t <= Z.of_nat (S (length (Old._elements t))))%Z) ∧
    (Old.IsSplit t' = true → length (Old._children t') = 4).
Proof.
  intros Hreach Ht Hleaf Hadd. pose proof (old_reachable_wf s Hreach) as Hwf.
  destruct (old_AddElement_spec G fuel this el s b s' Hadd Hwf)
    as (t0 & Ht0 & Hb & Hpost).
  assert (t0 = t) as -> by congruence. fold (old_inside G el t).
  destruct b.
  - destruct Hpost as (_ & _ & _ & _ & t' & Ht' & _ & Hout).
    destruct (Hout (proj1 (old_IsSplit_leaf t) Hleaf)) as [Hiff H4].
    exists t'. split; [done|]. split; [|done].
    rewrite Hiff, old_may_split_true. simpl.
    rewrite length_app. simpl. rewrite Nat.add_1_r. rewrite <- Hb. tauto.
  - subst s'. exists t. split; [done|]. rewrite Hleaf, <- Hb.
    split; [split; [done|by intros [? _]]|done].
Qed.

(** On a reachable tree of the first version AddElement returns on every
    node with a depth limit (maxDepth >= 0), and allowing the recursion
    to go further does not change what it returns. *)
Theorem old_AddElement_returns_on_limited_tree
    (G : Elements) (this el : nat) (s : Old.Store) (t : Old.QuadTree) :
  old_reachable s → Old.nodes s !! this = Some t → (0 <= Old._maxDepth t)%Z →
  ∃ fuel b s', Old.AddElement fuel G this el s = Some (b, s') ∧
    ∀ fuel', fuel ≤ fuel' → Old.AddElement fuel' G this el s = Some (b, s').
Proof.
  intros Hreach Ht HmD. pose proof (old_reachable_wf s Hreach) as Hwf.
  destruct (old_terminates_all G (old_headroom t) this el s t Hwf Ht HmD
              (Nat.le_refl _)) as (fuel & b & s' & Hadd).
  exists fuel, b, s'. split; [done|]. intros fuel' Hle.
  by apply (old_AddElement_mono G fuel fuel').
Qed.

Lemma old_first_found_map {A B} (f : nat → option (option A))
    (g : nat → option (option B)) (k : A → option (option B)) (cs : list nat) :
  (∀ a, k a ≠ Some None) →
  (∀ c, c ∈ cs → g c = r ← f c;
                        match r with
                        | None => Some None
                        | Some a => k a
                        end) →
  Old.first_found g cs = r ← Old.first_found f cs;
                         match r with
                         | None => Some None
                         | Some a => k a
                         end.
Proof.
  intros Hk. induction cs as [|c cs IH]; intros Hfg; [done|]. simpl.
  rewrite (Hfg c) by left.
  destruct (f c) as [[a|]|]; simpl; [|apply IH; intros c' Hc'; apply Hfg; by right|done].
  destruct (k a) as [[b|]|] eqn:Eka; simpl; [done| |done]. by destruct (Hk a).
Qed.

Lemma old_GetChildAt_node n : ∀ this x y h c,
  Old.GetChildAt n this x y h = Some (Some c) → is_Some (h !! c).
Proof.
  induction n as [|n IH]; intros this x y h c H; [done|]. simpl in H.
  apply bind_Some in H as (t & Ht & H).
  destruct (negb _); [done|].
  destruct (Old.IsSplit t); [|injection H as <-; eauto].
  apply bind_Some in H as (r & Hr & H). injection H as <-.
  destruct r as [c'|]; simpl; [|eauto].
  clear Ht. induction (Old._children t) as [|c0 cs IHcs]; [done|].
  simpl in Hr. apply bind_Some in Hr as (r0 & Hr0 & Hr).
  destruct r0 as [c1|]; [injection Hr as <-; by eapply IH|by apply IHcs].
Qed.

(** In the first version GetElementsAt(x, y) is GetChildAt(x, y) followed
    by GetElements(): both return null on the same inputs, and otherwise
    GetElementsAt returns the list of the node that GetChildAt returns. *)
Theorem old_GetElementsAt_is_GetChildAt_elements
    (n this : nat) (x y : float) (h : list Old.QuadTree) :
  Old.GetElementsAt n this x y h =
  r ← Old.GetChildAt n this x y h;
  match r with
  | None => Some None
  | Some c => t ← h !! c; Some (Some (Old.GetElements t))
  end.
Proof.
  revert this. induction n as [|n IH]; intros this; [done|]. simpl.
  destruct (h !! this) as [t|] eqn:Ht; [|done]. simpl.
  destruct (negb _); [done|].
  destruct (Old.IsSplit t); [|simpl; by rewrite Ht].
  rewrite (old_first_found_map (λ c, Old.GetChildAt n c x y h)
             (λ c, Old.GetElementsAt n c x y h)
             (λ c, t ← h !! c; Some (Some (Old.GetElements t))) (Old._children t)).
  2:{ intros a. by destruct (h !! a). }
  2:{ intros c _. apply IH. }
  destruct (Old.first_found _ _) as [[c|]|] eqn:Hfound; simpl; [| |done].
  - assert (Hc : is_Some (h !! c)).
    { clear Ht. induction (Old._children t) as [|c0 cs IHcs]; [done|].
      simpl in Hfound. apply bind_Some in Hfound as (r0 & Hr0 & Hr).
      destruct r0 as [c1|]; [injection Hr as <-; by eapply old_GetChildAt_node|
                              by apply IHcs]. }
    destruct Hc as [tc Htc]. by rewrite Htc.
  - by rewrite Ht.
Qed.

(** ** The first version: the recursive queries return *)

Lemma old_first_found_mono {A} (f g : nat → option (option A)) cs r :
  (∀ c r, f c = Some r → g c = Some r) →
  Old.first_found f cs = Some r → Old.first_found g cs = Some r.
Proof.
  intros Hfg. induction cs as [|c cs IH]; [done|]. simpl. intros H.
  apply bind_Some in H as (r0 & Hr0 & H). rewrite (Hfg c r0 Hr0). simpl.
  destruct r0; [done|]. by apply IH.
Qed.

Lemma old_collect_mono (f g : nat → option (option (list nat))) cs :
  (∀ c r, f c = Some r → g c = Some r) →
  ∀ acc r, Old.collect f cs acc = Some r → Old.collect g cs acc = Some r.
Proof.
  intros Hfg. induction cs as [|c cs IH]; intros acc r; [done|]. simpl. intros H.
  apply bind_Some in H as (r0 & Hr0 & H). rewrite (Hfg c r0 Hr0). simpl.
  by apply IH.
Qed.

Lemma old_GetChildAt_mono x y h : ∀ n m this r,
  n ≤ m → Old.GetChildAt n this x y h = Some r → Old.GetChildAt m this x y h = Some r.
Proof.
  induction n as [|n IH]; intros m this r Hle H; [done|].
  destruct m as [|m]; [lia|]. simpl in *.
  destruct (h !! this) as [t|]; [|done]. simpl in *.
  destruct (negb _); [done|]. destruct (Old.IsSplit t); [|done].
  apply bind_Some in H as (r0 & Hr0 & H).
  rewrite (old_first_found_mono _ (λ c, Old.GetChildAt m c x y h) _ r0
             (λ c r1, IH m c r1 ltac:(lia)) Hr0). done.
Qed.

Lemma old_GetElementsInRect_mono x y w ht h : ∀ n m this fd r,
  n ≤ m → Old.GetElementsInRect n this x y w ht fd h = Some r →
  Old.GetElementsInRect m this x y w ht fd h = Some r.
Proof.
  induction n as [|n IH]; intros m this fd r Hle H; [done|].
  destruct m as [|m]; [lia|]. simpl in *.
  destruct (h !! this) as [t|]; [|done]. simpl in *.
  destruct (negb _); [done|]. destruct (Old.IsSplit t); [|done].
  apply bind_Some in H as (r0 & Hr0 & H).
  rewrite (old_collect_mono _ (λ c, Old.GetElementsInRect m c x y w ht false h) _
             (λ c r1, IH m c false r1 ltac:(lia)) _ r0 Hr0). done.
Qed.

Section OldQueries.
Variable s : Old.Store.
Hypothesis Hwf : old_wf s.

(** The children of a node of the tree. *)
Lemma old_wf_children a t c :
  Old.nodes s !! a = Some t → c ∈ Old._children t →
  a < c ∧ ∃ tc, Old.nodes s !! c = Some tc.
Proof.
  intros Ht Hc. destruct Hwf as [Hnodes _].
  destruct (Hnodes a t Ht) as (Hcs & _). rewrite Forall_forall in Hcs.
  destruct (Hcs c Hc) as (Hlt & tc & Htc & _). eauto.
Qed.

Lemma old_GetChildAt_spec x y : ∀ n this t,
  length (Old.nodes s) - this < n → Old.nodes s !! this = Some t →
  ∃ r, Old.GetChildAt n this x y (Old.nodes s) = Some r ∧
    (r = None ↔ Old.IsPointInBounds t x y = false) ∧
    ∀ c, r = Some c →
      this ≤ c ∧ ∃ tc, Old.nodes s !! c = Some tc ∧
                       Old.IsPointInBounds tc x y = true.
Proof.
  induction n as [|n IH]; intros this t Hn Ht; [lia|]. simpl. rewrite Ht. simpl.
  destruct (Old.IsPointInBounds t x y) eqn:Hin; simpl.
  2:{ exists None. split; [done|]. split; [done|]. by intros c [=]. }
  destruct (Old.IsSplit t).
  2:{ exists (Some this). split; [done|]. split; [done|].
      intros c [= <-]. split; [done|]. eauto. }
  assert (Hfound : ∃ r, Old.first_found (λ c, Old.GetChildAt n c x y (Old.nodes s))
                          (Old._children t) = Some r ∧
            ∀ c, r = Some c → this ≤ c ∧ ∃ tc, Old.nodes s !! c = Some tc ∧
                                   Old.IsPointInBounds tc x y = true).
  { assert (Hcs : ∀ c, c ∈ Old._children t →
              this < c ∧ ∃ tc, Old.nodes s !! c = Some tc)
      by (intros c; by apply old_wf_children).
    induction (Old._children t) as [|c cs IHcs].
    { exists None. split; [done|]. by intros c [=]. }
    destruct (Hcs c ltac:(left)) as (Hlt & tc & Htc).
    destruct (IH c tc ltac:(apply lookup_lt_Some in Htc; lia) Htc)
      as (r & Hr & _ & Hsome).
    simpl. rewrite Hr. simpl. destruct r as [c'|].
    - exists (Some c'). split; [done|]. intros c0 [= <-].
      destruct (Hsome c' eq_refl) as (Hle & Hrest). split; [lia|done].
    - apply IHcs. intros c0 Hc0. apply Hcs. by right. }
  destruct Hfound as (r & Hr & Hsome). rewrite Hr. simpl.
  exists (Some (default this r)). split; [done|]. split; [done|].
  intros c [= <-]. destruct r as [c'|]; simpl.
  - by apply Hsome.
  - split; [done|]. eauto.
Qed.

Lemma old_GetElementsInRect_spec x y w ht : ∀ n this t fd,
  length (Old.nodes s) - this < n → Old.nodes s !! this = Some t →
  ∃ r, Old.GetElementsInRect n this x y w ht fd (Old.nodes s) = Some r ∧
    (r = None ↔ Old.IsRectInBounds t x y w ht = false) ∧
    ∀ l e, r = Some l → e ∈ l →
      ∃ a ta, this ≤ a ∧ Old.nodes s !! a = Some ta ∧
        Old.IsSplit ta = false ∧ Old.IsRectInBounds ta x y w ht = true ∧
        e ∈ Old._elements ta.
Proof.
  induction n as [|n IH]; intros this t fd Hn Ht; [lia|]. simpl. rewrite Ht. simpl.
  destruct (Old.IsRectInBounds t x y w ht) eqn:Hin; simpl.
  2:{ exists None. split; [done|]. split; [done|]. by intros l e [=]. }
  destruct (Old.IsSplit t) eqn:Hsplit.
  2:{ exists (Some (Old.GetElements t)). split; [done|]. split; [done|].
      intros l e [= <-] He. by exists this, t. }
  pose (good := λ e : nat, ∃ a ta, this ≤ a ∧ Old.nodes s !! a = Some ta ∧
        Old.IsSplit ta = false ∧ Old.IsRectInBounds ta x y w ht = true ∧
        e ∈ Old._elements ta).
  assert (Hcollect : ∀ acc, (∀ e, e ∈ acc → good e) →
    ∃ l, Old.collect (λ c, Old.GetElementsInRect n c x y w ht false (Old.nodes s))
           (Old._children t) acc = Some l ∧ ∀ e, e ∈ l → good e).
  { assert (Hcs : ∀ c, c ∈ Old._children t →
              this < c ∧ ∃ tc, Old.nodes s !! c = Some tc)
      by (intros c; by apply old_wf_children).
    induction (Old._children t) as [|c cs IHcs]; intros acc Hacc.
    { exists acc. by split. }
    destruct (Hcs c ltac:(left)) as (Hlt & tc & Htc).
    destruct (IH c tc false ltac:(apply lookup_lt_Some in Htc; lia) Htc)
      as (r & Hr & _ & Hsome).
    simpl. rewrite Hr. simpl. apply IHcs; [intros c0 Hc0; apply Hcs; by right|].
    destruct r as [l|]; [|done]. intros e He.
    apply elem_of_app in He as [He|He]; [by apply Hacc|].
    destruct (Hsome l e eq_refl He) as (a & ta & Hle & Hrest).
    exists a, ta. split; [lia|done]. }
  destruct (Hcollect [] ltac:(by intros e ?%elem_of_nil)) as (l & Hl & Hgood).
  rewrite Hl. simpl. eexists. split; [done|]. split; [done|].
  intros l' e [= <-] He. apply Hgood.
  destruct fd; simpl in He; [|done].
  rewrite filter_seen_first_occurrences in He. by apply elem_of_first_occurrences.
Qed.

End OldQueries.

(** On a reachable tree of the first version the recursive GetChildAt
    returns, also on a tree without depth limit: null exactly when the
    node's bounds do not hold the point, and otherwise a node at or after
    this one whose bounds hold the point. *)
Theorem old_GetChildAt_returns_holding_node
    (s : Old.Store) (this : nat) (t : Old.QuadTree) (x y : float) :
  old_reachable s → Old.nodes s !! this = Some t →
  ∃ n r, (∀ m, n ≤ m → Old.GetChildAt m this x y (Old.nodes s) = Some r) ∧
    (r = None ↔ Old.IsPointInBounds t x y = false) ∧
    ∀ c, r = Some c →
      this ≤ c ∧ ∃ tc, Old.nodes s !! c = Some tc ∧
                       Old.IsPointInBounds tc x y = true.
Proof.
  intros Hreach Ht. pose proof (old_reachable_wf s Hreach) as Hwf.
  destruct (old_GetChildAt_spec s Hwf x y (S (length (Old.nodes s) - this)) this t
              ltac:(lia) Ht) as (r & Hr & Hnone & Hsome).
  exists (S (length (Old.nodes s) - this)), r. split; [|done].
  intros m Hm. by eapply old_GetChildAt_mono.
Qed.

(** On a reachable tree of the first version the recursive
    GetElementsInRect returns: null exactly when the node does not
    overlap the rectangle, and otherwise elements that were all read from
    the lists of leaves that overlap the rectangle. *)
Theorem old_GetElementsInRect_returns_elements_of_leaves
    (s : Old.Store) (this : nat) (t : Old.QuadTree) (x y width height : float)
    (fd : bool) :
  old_reachable s → Old.nodes s !! this = Some t →
  ∃ n r,
    (∀ m, n ≤ m →
       Old.GetElementsInRect m this x y width height fd (Old.nodes s) = Some r) ∧
    (r = None ↔ Old.IsRectInBounds t x y width height = false) ∧
    ∀ l e, r = Some l → e ∈ l →
      ∃ a ta, this ≤ a ∧ Old.nodes s !! a = Some ta ∧
        Old.IsSplit ta = false ∧
        Old.IsRectInBounds ta x y width height = true ∧
        e ∈ Old.GetElements ta.
Proof.
  intros Hreach Ht. pose proof (old_reachable_wf s Hreach) as Hwf.
  destruct (old_GetElementsInRect_spec s Hwf x y width height
              (S (length (Old.nodes s) - this)) this t fd ltac:(lia) Ht)
    as (r & Hr & Hnone & Hsome).
  exists (S (length (Old.nodes s) - this)), r. split; [|done].
  intros m Hm. by eapply old_GetElementsInRect_mono.
Qed.

(** ** Further concrete trees *)

Lemma sc_h3_reachable : reachable sc_h3.
Proof.
  apply (reach_AddElement 9 scenario_points 0 3 sc_h2 true);
    [exact sc_h2_reachable|vm_compute; lia|vm_compute; reflexivity].
Qed.

Lemma sc_h3_root_reachable : root_reachable sc_h3.
Proof.
  apply (rr_AddElement 9 scenario_points 3 sc_h2 true);
    [exact sc_h2_root_reachable|vm_compute; reflexivity].
Qed.

(** ** The further theorems at concrete trees *)

Lemma GetChildAt_returns_holding_leaf_witness :
  reachable sc_h3 ∧
  (∃ n, ∀ m, n ≤ m → GetChildAt m 0 200 200 sc_h3 = Some None) ∧
  (∃ n, ∀ m, n ≤ m → GetChildAt m 6 60 10 sc_h3 = Some (Some 6)).
Proof.
  split; [exact sc_h3_reachable|]. split.
  - destruct (GetChildAt_returns_holding_leaf 0 200 200 sc_h3 _
                sc_h3_reachable eq_refl) as (n & r & Hrun & Hnone & _).
    exists n. rewrite <- (Hnone eq_refl). exact Hrun.
  - destruct (GetChildAt_returns_holding_leaf 6 60 10 sc_h3 _
                sc_h3_reachable eq_refl) as (n & r & Hrun & _ & _ & Hleaf).
    exists n. rewrite <- (Hleaf eq_refl eq_refl). exact Hrun.
Defined.

Lemma GetElementsAt_is_list_of_GetChildAt_witness :
  reachable sc_h3 ∧
  ∃ n l r, GetElementsAt n 0 10 10 sc_h3 = Some l ∧
           GetChildAt n 0 10 10 sc_h3 = Some r ∧
           (l = [] ∨ ∃ leaf tl, r = Some leaf ∧ sc_h3 !! leaf = Some tl ∧
                                l = GetElements tl).
Proof.
  split; [exact sc_h3_reachable|].
  destruct (GetElementsAt_is_list_of_GetChildAt 0 10 10 sc_h3 sc_h3_reachable)
    as (n & l & r & Hrun & Hrel); [vm_compute; lia|].
  exists n, l, r. destruct (Hrun n (Nat.le_refl n)) as [H1 H2]. done.
Defined.

Lemma HasElement_iff_in_own_list_witness :
  reachable sc_h3 ∧ HasElement 1 3 sc_h3 = Some true ∧
  HasElement 2 3 sc_h3 = Some false.
Proof.
  split; [exact sc_h3_reachable|]. split.
  - exact (HasElement_iff_in_own_list 1 3 sc_h3 _ sc_h3_reachable eq_refl).
  - exact (HasElement_iff_in_own_list 2 3 sc_h3 _ sc_h3_reachable eq_refl).
Defined.

Lemma GetParentsForElement_lists_the_holders_witness :
  reachable sc_circle ∧
  ∃ r, GetParentsForElement 3 4 sc_circle = Some r ∧
       ∀ N, N ∈ listed r ↔ ∃ t, sc_circle !! N = Some t ∧ 4 ∈ _elements t.
Proof.
  split; [exact sc_circle_reachable|].
  destruct (GetParentsForElement_lists_the_holders 3 4 sc_circle sc_circle_reachable)
    as (r & Hr & _ & Hiff); [vm_compute; lia|].
  exists r. done.
Defined.

Lemma depth_stays_within_limit_witness :
  reachable dl_h3 ∧
  ∃ t, dl_h3 !! 1 = Some t ∧ (GetDepth t <= GetMaxDepth t)%Z ∧
       IsSplit t = false.
Proof.
  split; [exact dl_h3_reachable|]. eexists. split; [reflexivity|].
  destruct (depth_stays_within_limit dl_h3 1 _ dl_h3_reachable eq_refl)
    as (_ & Hle & _).
  split; [|reflexivity]. apply Hle. vm_compute. discriminate.
Defined.

Lemma first_node_is_the_only_root_witness :
  reachable sc_h3 ∧
  ∃ t, sc_h3 !! 2 = Some t ∧ IsRoot t = false ∧ GetRoot t = Some 0.
Proof.
  split; [exact sc_h3_reachable|]. eexists. split; [reflexivity|].
  destruct (first_node_is_the_only_root sc_h3 2 _ sc_h3_reachable eq_refl)
    as (Hroot & _ & Hget).
  split; [exact Hroot|]. apply Hget. lia.
Defined.

Lemma nodes_share_configuration_and_scale_witness :
  reachable sc_h3 ∧
  ∃ t, sc_h3 !! 1 = Some t ∧ GetMaxElements t = 2%Z ∧
       GetWidth t = (100 / 2)%float.
Proof.
  split; [exact sc_h3_reachable|]. eexists. split; [reflexivity|].
  destruct (nodes_share_configuration_and_scale sc_h3 1 _ _
              sc_h3_reachable eq_refl eq_refl) as (HmE & _ & Hw & _).
  split; [exact HmE|exact Hw].
Defined.

Lemma queries_return_elements_of_leaves_witness :
  in_leaf_over sc_h3 0 0 50 50 1 ∧ in_leaf_at sc_h3 10 10 1.
Proof.
  destruct (queries_return_elements_of_leaves 20 0 0 0 50 50 true sc_h3)
    as [Hrect _].
  destruct (queries_return_elements_of_leaves 20 0 10 10 50 50 true sc_h3)
    as [_ Hat].
  split.
  - apply (Hrect [3; 1; 2] 1); [vm_compute; reflexivity|set_solver].
  - apply (Hat [1; 2] 1); [vm_compute; reflexivity|set_solver].
Defined.

Lemma removed_element_is_not_returned_witness :
  root_reachable sc_h3 ∧ RemoveElement 0 2 sc_h3 = Some (true, sc_h4) ∧
  ∀ n l, GetElementsInRect n 0 0 0 100 100 true sc_h4 = Some l → 2 ∉ l.
Proof.
  split; [exact sc_h3_root_reachable|]. split; [vm_compute; reflexivity|].
  destruct (removed_element_is_not_returned 2 sc_h3 true sc_h4
              sc_h3_root_reachable) as [Hrect _]; [vm_compute; reflexivity|].
  intros n l. apply Hrect.
Defined.

Lemma UpdateElement_false_leaves_element_out_witness :
  root_reachable sc_h3 ∧
  UpdateElement 9 far_points 0 1 sc_h3 = Some (false, sc_moved_out) ∧
  absent 1 sc_moved_out.
Proof.
  split; [exact sc_h3_root_reachable|]. split; [vm_compute; reflexivity|].
  destruct (UpdateElement_false_leaves_element_out 9 far_points 1 sc_h3 sc_moved_out
              sc_h3_root_reachable) as [Habs _]; [vm_compute; reflexivity|].
  exact Habs.
Defined.

(** ** The first version at concrete trees *)

Lemma old_s0_reachable : old_reachable old_s0.
Proof. by apply (old_reach_new 1 scenario_points 0 0 100 100 2 (-1) []). Qed.

Lemma old_s1_reachable : old_reachable old_s1.
Proof.
  apply (old_reach_AddElement 3 scenario_points 0 1 old_s0 true);
    [exact old_s0_reachable|vm_compute; reflexivity].
Qed.

Lemma old_s2_reachable : old_reachable old_s2.
Proof.
  apply (old_reach_AddElement 12 scenario_points 0 2 old_s1 true);
    [exact old_s1_reachable|vm_compute; reflexivity].
Qed.

Lemma old_dl0_reachable : old_reachable old_dl0.
Proof. by apply (old_reach_new 1 scenario_points 0 0 100 100 1 1 []). Qed.

Lemma old_dl1_reachable : old_reachable old_dl1.
Proof.
  apply (old_reach_AddElement 5 scenario_points 0 1 old_dl0 true);
    [exact old_dl0_reachable|vm_compute; reflexivity].
Qed.

Lemma old_IsRoot_is_inverted_witness :
  old_reachable old_s2 ∧
  (∃ t, Old.nodes old_s2 !! 0 = Some t ∧ Old.IsRoot t = false) ∧
  (∃ t, Old.nodes old_s2 !! 1 = Some t ∧ Old.IsRoot t = true).
Proof.
  split; [exact old_s2_reachable|]. split.
  - eexists. split; [reflexivity|].
    exact (old_IsRoot_is_inverted old_s2 0 _ old_s2_reachable eq_refl).
  - eexists. split; [reflexivity|].
    exact (old_IsRoot_is_inverted old_s2 1 _ old_s2_reachable eq_refl).
Defined.

Lemma old_depth_stays_within_limit_witness :
  old_reachable old_dl1 ∧
  ∃ t, Old.nodes old_dl1 !! 1 = Some t ∧
       (0 <= Old.GetDepth t <= Old.GetMaxDepth t)%Z.
Proof.
  split; [exact old_dl1_reachable|]. eexists. split; [reflexivity|].
  destruct (old_depth_stays_within_limit old_dl1 1 _ old_dl1_reachable eq_refl)
    as (Hrange & _).
  apply Hrange. vm_compute. discriminate.
Defined.

Lemma old_AddElement_claims_element_witness :
  old_reachable old_s1 ∧
  Old.AddElement 12 scenario_points 0 2 old_s1 = Some (true, old_s2) ∧
  ∃ a ta, Old.parent old_s2 !! 2 = Some a ∧ Old.nodes old_s2 !! a = Some ta ∧
          2 ∈ Old.GetElements ta.
Proof.
  split; [exact old_s1_reachable|]. split; [vm_compute; reflexivity|].
  destruct (old_AddElement_claims_element scenario_points 12 0 2 old_s1 true old_s2
              old_s1_reachable) as (t & _ & _ & _ & Htrue); [vm_compute; reflexivity|].
  destruct (Htrue eq_refl) as (_ & a & ta & Hp & _ & Hta & Hin & _).
  by exists a, ta.
Defined.

Lemma old_parent_holds_the_element_witness :
  old_reachable old_s2 ∧
  ∃ ta, Old.nodes old_s2 !! 3 = Some ta ∧ 1 ∈ Old.GetElements ta.
Proof.
  split; [exact old_s2_reachable|].
  apply (old_parent_holds_the_element old_s2 1 3 old_s2_reachable).
  vm_compute. reflexivity.
Defined.

Lemma old_leaf_splits_at_capacity_witness :
  old_reachable old_s1 ∧
  ∃ t', Old.nodes old_s2 !! 0 = Some t' ∧ Old.IsSplit t' = true ∧
        length (Old._children t') = 4.
Proof.
  split; [exact old_s1_reachable|].
  destruct (old_leaf_splits_at_capacity scenario_points 12 0 2 old_s1 _ true old_s2
              old_s1_reachable eq_refl eq_refl)
    as (t' & Ht' & Hiff & H4); [vm_compute; reflexivity|].
  exists t'. split; [exact Ht'|].
  assert (Hs : Old.IsSplit t' = true).
  { apply Hiff. split; [reflexivity|]. split; [left; reflexivity|].
    vm_compute. discriminate. }
  split; [exact Hs|exact (H4 Hs)].
Defined.

Lemma old_AddElement_returns_on_limited_tree_witness :
  old_reachable old_dl1 ∧
  ∃ fuel b s', Old.AddElement fuel scenario_points 0 2 old_dl1 = Some (b, s').
Proof.
  split; [exact old_dl1_reachable|].
  destruct (old_AddElement_returns_on_limited_tree scenario_points 0 2 old_dl1 _
              old_dl1_reachable eq_refl) as (fuel & b & s' & Hadd & _).
  - vm_compute. discriminate.
  - by exists fuel, b, s'.
Defined.

Lemma sc_circle_kept_once : kept_once 4 (CircleTreeElement 50 50 60) sc_circle.
Proof.
  apply (kept_add 4 _ 20 scenario_points sc_h2 true);
    [exact sc_h2_reachable|reflexivity|reflexivity|vm_compute; reflexivity].
Qed.

Lemma sc_circle_root_reachable : root_reachable sc_circle.
Proof.
  apply (rr_AddElement 20 scenario_points 4 sc_h2 true);
    [exact sc_h2_root_reachable|vm_compute; reflexivity].
Qed.

Lemma GetElementsAt_finds_element_at_anchor_witness :
  kept_once 4 (CircleTreeElement 50 50 60) sc_circle ∧
  ∃ n l, GetElementsAt n 0 50 50 sc_circle = Some l ∧ count 4 l = 1.
Proof.
  split; [exact sc_circle_kept_once|].
  destruct (GetElementsAt_finds_element_at_anchor 4 _ 50 50 sc_circle _
              sc_circle_kept_once eq_refl eq_refl eq_refl)
    as (n & l & r & Hrun & Hr).
  destruct (Hrun (n + 20) ltac:(lia)) as [Hel Hch].
  destruct (GetChildAt 20 0 50 50 sc_circle) as [[leaf|]|] eqn:E;
    try discriminate E.
  rewrite (GetChildAt_mono 20 (n + 20) 0 50 50 sc_circle _ ltac:(lia) E) in Hch.
  injection Hch as <-. destruct Hr as [Hcount _].
  exists (n + 20), l. split; [exact Hel|exact Hcount].
Defined.

Lemma GetElementsInRect_returns_element_anchored_in_rectangle_witness :
  kept_once 4 (CircleTreeElement 50 50 60) sc_circle ∧
  ∃ n l, GetElementsInRect n 0 40 40 20 20 true sc_circle = Some l ∧
         count 4 l = 1.
Proof.
  split; [exact sc_circle_kept_once|].
  destruct (GetChildAt 20 0 50 50 sc_circle) as [[leaf|]|] eqn:E;
    try discriminate E.
  destruct (GetElementsInRect_returns_element_anchored_in_rectangle 4 _ 50 50
              40 40 20 20 true sc_circle _ 20 leaf sc_circle_kept_once eq_refl
              eq_refl eq_refl eq_refl eq_refl eq_refl eq_refl E)
    as (n & l & Hrun & _ & Hone).
  exists n, l. split; [apply Hrun; lia|by apply Hone].
Defined.

Lemma UpdateElement_true_element_is_found_witness :
  root_reachable sc_circle ∧
  UpdateElement 30 moved_circle 0 4 sc_circle = Some (true, sc_circle_moved) ∧
  ∃ n l, GetElementsAt n 0 20 20 sc_circle_moved = Some l ∧ count 4 l = 1.
Proof.
  assert (Hupd : UpdateElement 30 moved_circle 0 4 sc_circle
                 = Some (true, sc_circle_moved)) by (vm_compute; reflexivity).
  split; [exact sc_circle_root_reachable|]. split; [exact Hupd|].
  destruct (UpdateElement_true_element_is_found 30 moved_circle 4 20 20
              sc_circle sc_circle_moved _ sc_circle_root_reachable eq_refl
              Hupd eq_refl eq_refl)
    as (n & l & r & Hrun & Hr).
  destruct (Hrun (n + 20) ltac:(lia)) as [Hel Hch].
  destruct (GetChildAt 20 0 20 20 sc_circle_moved) as [[leaf|]|] eqn:E;
    try discriminate E.
  rewrite (GetChildAt_mono 20 (n + 20) 0 20 20 sc_circle_moved _ ltac:(lia) E)
    in Hch.
  injection Hch as <-. destruct Hr as [Hcount _].
  exists (n + 20), l. split; [exact Hel|exact Hcount].
Defined.

Lemma constructor_keeps_overlapping_initial_elements_witness :
  (∃ rt, sc_h2 !! 0 = Some rt ∧ GetElements rt = [1; 2]) ∧
  (∃ fuel r h,
     new_root fuel scenario_points 0 0 100 100 1 1 [1; 2] [] = Some (r, h)).
Proof.
  split.
  - destruct (constructor_keeps_overlapping_initial_elements scenario_points
                0 0 100 100 2 (-1) [1; 2]) as [Hres _].
    destruct (Hres 3 0 sc_h2 ltac:(vm_compute; reflexivity))
      as (_ & rt & Hrt & _ & _ & _ & _ & _ & He).
    exists rt. split; [exact Hrt|exact He].
  - destruct (constructor_keeps_overlapping_initial_elements scenario_points
                0 0 100 100 1 1 [1; 2]) as [_ Hret].
    apply Hret. lia.
Defined.

Lemma GetElementsInRect_holds_what_GetElementsAt_returns_witness :
  reachable sc_h3 ∧ GetElementsAt 20 0 10 10 sc_h3 = Some [1; 2] ∧
  ∃ k l, GetElementsInRect k 0 0 0 50 50 true sc_h3 = Some l ∧ 1 ∈ l ∧ 2 ∈ l.
Proof.
  assert (Hat : GetElementsAt 20 0 10 10 sc_h3 = Some [1; 2])
    by (vm_compute; reflexivity).
  split; [exact sc_h3_reachable|]. split; [exact Hat|].
  destruct (GetElementsInRect_holds_what_GetElementsAt_returns 20 0 10 10
              0 0 50 50 true sc_h3 [1; 2] sc_h3_reachable
              ltac:(vm_compute; lia) eq_refl eq_refl eq_refl eq_refl Hat)
    as (k & l & Hrun & Hsub).
  exists k, l. split; [apply Hrun; lia|].
  split; apply Hsub;
    [by apply (list_elem_of_lookup_2 _ 0)|by apply (list_elem_of_lookup_2 _ 1)].
Defined.

Lemma AddElement_then_RemoveElement_restores_lists_witness :
  reachable sc_h2 ∧
  AddElement 9 scenario_points 0 3 sc_h2 = Some (true, sc_h3) ∧
  RemoveElement 0 3 sc_h3 = Some (true, sc_h3_back) ∧
  elements_of sc_h3_back 0 = elements_of sc_h2 0 ∧
  ∃ t2, sc_h3_back !! 0 = Some t2 ∧ IsSplit t2 = true.
Proof.
  assert (Hadd : AddElement 9 scenario_points 0 3 sc_h2 = Some (true, sc_h3))
    by (vm_compute; reflexivity).
  assert (Hrem : RemoveElement 0 3 sc_h3 = Some (true, sc_h3_back))
    by (vm_compute; reflexivity).
  split; [exact sc_h2_reachable|]. split; [exact Hadd|]. split; [exact Hrem|].
  destruct (AddElement_then_RemoveElement_restores_lists scenario_points 9 3
              sc_h2 sc_h3 sc_h3_back true true sc_h2_reachable eq_refl Hadd Hrem)
    as (_ & _ & Hlists & Hshape).
  split.
  - destruct (Hlists 0 _ eq_refl) as (t2 & Ht2 & He).
    unfold elements_of at 1. rewrite Ht2. exact He.
  - destruct (Hshape 0 _ eq_refl) as (t2 & Ht2 & Hc).
    exists t2. split; [exact Ht2|]. unfold IsSplit. rewrite Hc. reflexivity.
Defined.

Lemma RemoveElement_on_any_node_witness :
  reachable dl_h3 ∧
  RemoveElement 0 3 dl_h3 = Some (false, dl_h3) ∧
  ∃ h', RemoveElement 1 3 dl_h3 = Some (true, h') ∧ absent 3 h'.
Proof.
  split; [exact dl_h3_reachable|]. split.
  - destruct (RemoveElement_on_any_node 0 3 dl_h3 _ dl_h3_reachable eq_refl)
      as (h' & Hrem & Hno & _).
    destruct Hno as [-> _]; [|exact Hrem].
    vm_compute. intros Hin. apply list_elem_of_lookup_1 in Hin as [i Hi].
    by do 3 (destruct i as [|i]; [discriminate Hi|]).
  - destruct (RemoveElement_on_any_node 1 3 dl_h3 _ dl_h3_reachable eq_refl)
      as (h' & Hrem & _ & Hyes).
    exists h'. split; [exact Hrem|]. apply Hyes.
    by apply (list_elem_of_lookup_2 _ 2).
Defined.

Lemma old_GetChildAt_returns_holding_node_witness :
  old_reachable old_s2 ∧
  ∃ n r, Old.GetChildAt n 0 10 10 (Old.nodes old_s2) = Some r ∧ r ≠ None.
Proof.
  split; [exact old_s2_reachable|].
  destruct (old_GetChildAt_returns_holding_node old_s2 0 _ 10 10
              old_s2_reachable eq_refl) as (n & r & Hrun & Hnone & _).
  exists n, r. split; [apply Hrun; lia|].
  intros Hr. apply Hnone in Hr. discriminate Hr.
Defined.

Lemma old_GetElementsInRect_returns_elements_of_leaves_witness :
  old_reachable old_s2 ∧
  ∃ n r, Old.GetElementsInRect n 0 0 0 100 100 true (Old.nodes old_s2) = Some r ∧
         r ≠ None.
Proof.
  split; [exact old_s2_reachable|].
  destruct (old_GetElementsInRect_returns_elements_of_leaves old_s2 0 _
              0 0 100 100 true old_s2_reachable eq_refl)
    as (n & r & Hrun & Hnone & _).
  exists n, r. split; [apply Hrun; lia|].
  intros Hr. apply Hnone in Hr. discriminate Hr.
Defined.

Lemma returned_element_has_last_parent_witness :
  reachable sc_h3 ∧
  GetElementsInRect 20 0 0 0 50 50 true sc_h3 = Some [3; 1; 2] ∧
  ∃ parents N, GetParentsForElement 0 1 sc_h3 = Some (Some parents) ∧
               lastParent parents = Some N.
Proof.
  assert (Hrun : GetElementsInRect 20 0 0 0 50 50 true sc_h3 = Some [3; 1; 2])
    by (vm_compute; reflexivity).
  split; [exact sc_h3_reachable|]. split; [exact Hrun|].
  destruct (returned_element_has_last_parent 20 0 0 50 50 true sc_h3 [3; 1; 2] 1
              sc_h3_reachable Hrun) as (parents & N & tN & Hp & Hlast & _).
  - by apply (list_elem_of_lookup_2 _ 1).
  - by exists parents, N.
Defined.

(** ** A point that the quarters of its node miss *)



